(** * Star Trek (Python edition): a shallow embedding of the game engine

    The development follows the source tree:
    - [game/galaxy.py]     : [EntityType], [Klingon], [Quadrant], [Galaxy]
    - [game/enterprise.py] : [ShipSystem], [Enterprise]
    - [game/combat.py]     : phasers, torpedoes, Klingon counter-attack,
                             direction computation
    - [game/commands.py]   : the command handlers
    - [startrek.py]        : new-game initialisation and the turn operations

    Python objects are mutable and shared; the model threads the state
    explicitly through a state-and-exception monad whose exceptional outcome
    keeps the state reached when the exception was raised (Python does not
    roll mutations back).  Python [int] is [Z]; Python [float] is the kernel's
    IEEE-754 binary64 [float]; the shared pseudo-random generator is an
    arbitrary stream of raw draws with a cursor.  Message texts are abstracted
    to message kinds; sound and printing are no-ops on the game state and are
    left out. *)

From Stdlib Require Import ZArith List Bool Lia Floats Reals Lra.
From stdpp Require Import base option list gmap.

Set Warnings "-inexact-float".
Local Open Scope Z_scope.

(** ** Python runtime *)

(** The built-in exceptions the engine can raise. *)
Inductive PyExn : Type :=
| AttributeError
| IndexError
| KeyError
| ValueError
| OverflowError
| ZeroDivisionError.

(** Outcome of running a computation on a state of type [S]: a value, an
    uncaught exception, or exhaustion of the fuel that bounds a [while]. *)
Inductive Res (S A : Type) : Type :=
| Ret (a : A) (s : S)
| Raise (e : PyExn) (s : S)
| OutOfFuel.
Arguments Ret {S A} a s.
Arguments Raise {S A} e s.
Arguments OutOfFuel {S A}.

Definition M (S A : Type) : Type := S -> Res S A.

Definition ret {S A} (a : A) : M S A := fun s => Ret a s.
Definition raise {S A} (e : PyExn) : M S A := fun s => Raise e s.
Definition out_of_fuel {S A} : M S A := fun _ => OutOfFuel.
Definition bind {S A B} (m : M S A) (k : A -> M S B) : M S B :=
  fun s => match m s with
           | Ret a s' => k a s'
           | Raise e s' => Raise e s'
           | OutOfFuel => OutOfFuel
           end.
Definition get {S} : M S S := fun s => Ret s s.
Definition gets {S A} (f : S -> A) : M S A := fun s => Ret (f s) s.
Definition put {S} (s : S) : M S unit := fun _ => Ret tt s.
Definition modify {S} (f : S -> S) : M S unit := fun s => Ret tt (f s).

Declare Scope py_scope.
Delimit Scope py_scope with py.
Notation "x <- m ;; k" := (bind m (fun x => k))
  (at level 100, m at next level, right associativity) : py_scope.
Notation "m ;;; k" := (bind m (fun _ => k))
  (at level 100, right associativity) : py_scope.
Local Open Scope py_scope.

(** A value that may be absent where Python would raise [e]. *)
Definition expect {S A} (e : PyExn) (o : option A) : M S A :=
  match o with Some a => ret a | None => raise e end.

(** Running a computation on a component of the state. *)
Record Lens (S T : Type) : Type := MkLens { view : S -> T; update : T -> S -> S }.
Arguments MkLens {S T} view update.
Arguments view {S T} _ _.
Arguments update {S T} _ _ _.

Definition zoom {S T A} (l : Lens S T) (m : M T A) : M S A :=
  fun s => match m (view l s) with
           | Ret a t => Ret a (update l t s)
           | Raise e t => Raise e (update l t s)
           | OutOfFuel => OutOfFuel
           end.

Definition fst_lens {A B} : Lens (A * B) A := MkLens fst (fun a p => (a, snd p)).
Definition snd_lens {A B} : Lens (A * B) B := MkLens snd (fun b p => (fst p, b)).

(** [for x in l: body(x)] *)
Fixpoint for_each {S A} (l : list A) (body : A -> M S unit) : M S unit :=
  match l with
  | [] => ret tt
  | x :: l' => body x ;;; for_each l' body
  end.

(** [range(n)] for a Python int [n]: empty when [n <= 0]. *)
Definition range (n : Z) : list Z := map Z.of_nat (seq 0 (Z.to_nat n)).

(** [for _ in range(n): body()] *)
Fixpoint repeat_times {S} (n : nat) (body : M S unit) : M S unit :=
  match n with
  | O => ret tt
  | Datatypes.S n' => body ;;; repeat_times n' body
  end.

(** [while cond: body], bounded by [fuel] iterations. *)
Fixpoint while_loop {S} (fuel : nat) (cond : S -> bool) (body : M S unit) : M S unit :=
  match fuel with
  | O => out_of_fuel
  | Datatypes.S fuel' =>
      s <- get ;;
      if cond s then body ;;; while_loop fuel' cond body else ret tt
  end.

(** *** Sequences *)

(** [l[i]]: negative indices count from the end; [None] is [IndexError]. *)
Definition py_index {A} (l : list A) (i : Z) : option A :=
  let n := Z.of_nat (length l) in
  if (0 <=? i) && (i <? n) then l !! Z.to_nat i
  else if (- n <=? i) && (i <? 0) then l !! Z.to_nat (n + i)
  else None.

(** [l[i] = x] *)
Definition py_setitem {A} (l : list A) (i : Z) (x : A) : option (list A) :=
  let n := Z.of_nat (length l) in
  if (0 <=? i) && (i <? n) then Some (<[Z.to_nat i := x]> l)
  else if (- n <=? i) && (i <? 0) then Some (<[Z.to_nat (n + i) := x]> l)
  else None.

(** [g[i][j]] and [g[i][j] = x] on a list of lists. *)
Definition py_index2 {A} (g : list (list A)) (i j : Z) : option A :=
  match py_index g i with
  | Some r => py_index r j
  | None => None
  end.

Definition py_setitem2 {A} (g : list (list A)) (i j : Z) (x : A) : option (list (list A)) :=
  match py_index g i with
  | Some r =>
      match py_setitem r j x with
      | Some r' => py_setitem g i r'
      | None => None
      end
  | None => None
  end.

(** *** Floats *)

(** The nearest binary64 value of an integer (exact below [2^53]), an
    infinity beyond the range of the doubles. *)
Definition Z2F (z : Z) : float := SF2Prim (binary_normalize prec emax z 0 false).

(** [float(z)], also the conversion of an [int] argument of a [math]
    function: the nearest binary64 value; [OverflowError] when the integer
    is too large for a double. *)
Definition py_float (z : Z) : PyExn + float :=
  match binary_normalize prec emax z 0 false with
  | S754_infinity _ => inl OverflowError
  | x => inr (SF2Prim x)
  end.

(** [int(x)]: truncation toward zero; [ValueError] on NaN, [OverflowError]
    on an infinity. *)
Definition py_int (x : float) : PyExn + Z :=
  match Prim2SF x with
  | S754_zero _ => inr 0
  | S754_finite s m e =>
      let mag := if 0 <=? e then Z.shiftl (Z.pos m) e else Z.shiftr (Z.pos m) (- e) in
      inr (if s then - mag else mag)
  | S754_infinity _ => inl OverflowError
  | S754_nan => inl ValueError
  end.

(** [round(x)] with one argument: the nearest integer, ties to even. *)
Definition py_round (x : float) : PyExn + Z :=
  match Prim2SF x with
  | S754_zero _ => inr 0
  | S754_finite s m e =>
      let mag :=
        if 0 <=? e then Z.shiftl (Z.pos m) e
        else
          let q := Z.shiftr (Z.pos m) (- e) in
          let r := Z.pos m - Z.shiftl q (- e) in
          let half := Z.shiftl 1 (- e - 1) in
          if r <? half then q
          else if half <? r then q + 1
          else if Z.even q then q else q + 1 in
      inr (if s then - mag else mag)
  | S754_infinity _ => inl OverflowError
  | S754_nan => inl ValueError
  end.

Definition lift_exn {S A} (r : PyExn + A) : M S A :=
  match r with inl e => raise e | inr a => ret a end.

(** Pure computations that may raise: [inl e] is the exception [e]. *)
Definition exn_bind {A B} (r : PyExn + A) (k : A -> PyExn + B) : PyExn + B :=
  match r with inl e => inl e | inr a => k a end.

Notation "x <~ r ;; k" := (exn_bind r (fun x => k))
  (at level 100, r at next level, right associativity) : py_scope.

(** [math.sqrt] is correctly rounded, like the IEEE operation; a negative
    argument is a [ValueError]. *)
Definition math_sqrt (x : float) : PyExn + float :=
  if (x <? 0)%float then inl ValueError else inr (PrimFloat.sqrt x).

(** [x ** 2] on a float, taken as the rounded product [x * x]. *)
Definition fsquare (x : float) : float := (x * x)%float.

(** *** The shared pseudo-random stream

    Every call into [random] consumes the next raw draw of the stream and
    maps it into the range of the call, so every sequence of results the
    library can return is the image of some stream. *)
Record Rng : Type := MkRng { draws : nat -> Z; cursor : nat }.

Definition next_raw : M Rng Z :=
  fun g => Ret (draws g (cursor g)) (MkRng (draws g) (Datatypes.S (cursor g))).

(** [random.random()]: a multiple of [2^-53] in [[0, 1)]. *)
Definition random_random : M Rng float :=
  k <- next_raw ;;
  ret (Z2F (k mod 2 ^ 53) / Z2F (2 ^ 53))%float.

(** [random.randint(a, b)]: an integer in [[a, b]]. *)
Definition random_randint (a b : Z) : M Rng Z :=
  k <- next_raw ;;
  ret (a + k mod (b - a + 1)).

(** [random.uniform(a, b)] is [a + (b - a) * random()]. *)
Definition random_uniform (a b : float) : M Rng float :=
  u <- random_random ;;
  ret (a + (b - a) * u)%float.

(** [random.choice(seq)]; [IndexError] on an empty sequence. *)
Definition random_choice {A} (l : list A) : M Rng A :=
  match l with
  | [] => raise IndexError
  | _ => k <- next_raw ;; expect IndexError (l !! Z.to_nat (k mod Z.of_nat (length l)))
  end.

(** ** game/galaxy.py *)

(** Types of entities in a sector. *)
Inductive EntityType : Type := EMPTY | ENTERPRISE | KLINGON | STARBASE | STAR.

#[global] Instance EntityType_eq_dec : EqDecision EntityType.
Proof. solve_decision. Defined.

Module Klingon.
Record t : Type := mk { sector_row : Z; sector_col : Z; energy : Z }.

Definition set_energy (v : Z) (k : t) : t := mk (sector_row k) (sector_col k) v.

(** [Klingon(row, col)]: the default energy 0 is replaced in
    [__post_init__] by [300 + random.randint(0, 299)]. *)
Definition new (row col : Z) : M Rng t :=
  r <- random_randint 0 299 ;;
  ret (mk row col (300 + r)).
End Klingon.

Module Quadrant.
Record t : Type := mk {
  row : Z;
  col : Z;
  klingons : Z;
  starbases : Z;
  stars : Z;
  scanned : bool;
  sector_map : list (list EntityType);
  klingon_ships : list Klingon.t;
  starbase_pos : option (Z * Z);
  star_positions : list (Z * Z)
}.

(** [Quadrant(row, col)] *)
Definition new (r c : Z) : t := mk r c 0 0 0 false [] [] None [].

Definition set_klingons (v : Z) (q : t) : t :=
  mk (row q) (col q) v (starbases q) (stars q) (scanned q)
     (sector_map q) (klingon_ships q) (starbase_pos q) (star_positions q).
Definition set_starbases (v : Z) (q : t) : t :=
  mk (row q) (col q) (klingons q) v (stars q) (scanned q)
     (sector_map q) (klingon_ships q) (starbase_pos q) (star_positions q).
Definition set_stars (v : Z) (q : t) : t :=
  mk (row q) (col q) (klingons q) (starbases q) v (scanned q)
     (sector_map q) (klingon_ships q) (starbase_pos q) (star_positions q).
Definition set_scanned (v : bool) (q : t) : t :=
  mk (row q) (col q) (klingons q) (starbases q) (stars q) v
     (sector_map q) (klingon_ships q) (starbase_pos q) (star_positions q).
Definition set_sector_map (v : list (list EntityType)) (q : t) : t :=
  mk (row q) (col q) (klingons q) (starbases q) (stars q) (scanned q)
     v (klingon_ships q) (starbase_pos q) (star_positions q).
Definition set_klingon_ships (v : list Klingon.t) (q : t) : t :=
  mk (row q) (col q) (klingons q) (starbases q) (stars q) (scanned q)
     (sector_map q) v (starbase_pos q) (star_positions q).
Definition set_starbase_pos (v : option (Z * Z)) (q : t) : t :=
  mk (row q) (col q) (klingons q) (starbases q) (stars q) (scanned q)
     (sector_map q) (klingon_ships q) v (star_positions q).
Definition set_star_positions (v : list (Z * Z)) (q : t) : t :=
  mk (row q) (col q) (klingons q) (starbases q) (stars q) (scanned q)
     (sector_map q) (klingon_ships q) (starbase_pos q) v.

(** The 3-digit LRS value (KBS format). *)
Definition get_lrs_value (q : t) : Z :=
  klingons q * 100 + starbases q * 10 + stars q.

(** [self.sector_map[row][col]] *)
Definition cell {S} (q : t) (r c : Z) : M S EntityType :=
  expect IndexError (py_index2 (sector_map q) r c).

(** [self.sector_map[row][col] = e] *)
Definition set_cell (r c : Z) (e : EntityType) : M t unit :=
  q <- get ;;
  m <- expect IndexError (py_setitem2 (sector_map q) r c e) ;;
  modify (set_sector_map m).

(** Methods that draw random numbers run on the quadrant and the stream. *)
Definition self : Lens (t * Rng) t := fst_lens.
Definition random : Lens (t * Rng) Rng := snd_lens.

(** Find a random empty sector ([while True]: bounded by [fuel]). *)
Fixpoint _find_empty_sector (fuel : nat) : M (t * Rng) (Z * Z) :=
  match fuel with
  | O => out_of_fuel
  | Datatypes.S fuel' =>
      r <- zoom random (random_randint 0 7) ;;
      c <- zoom random (random_randint 0 7) ;;
      q <- gets fst ;;
      e <- cell q r c ;;
      if decide (e = EMPTY) then ret (r, c) else _find_empty_sector fuel'
  end.

(** Initialize the 8x8 sector map with entities. *)
Definition initialize_sector_map (fuel : nat) : M (t * Rng) unit :=
  zoom self (modify (set_sector_map (replicate 8 (replicate 8 EMPTY)))) ;;;
  zoom self (modify (set_klingon_ships [])) ;;;
  zoom self (modify (set_star_positions [])) ;;;
  zoom self (modify (set_starbase_pos None)) ;;;
  nk <- gets (fun s => klingons (fst s)) ;;
  repeat_times (Z.to_nat nk)
    (p <- _find_empty_sector fuel ;;
     zoom self (set_cell (fst p) (snd p) KLINGON) ;;;
     k <- zoom random (Klingon.new (fst p) (snd p)) ;;
     zoom self (modify (fun q => set_klingon_ships (klingon_ships q ++ [k]) q))) ;;;
  nb <- gets (fun s => starbases (fst s)) ;;
  (if 0 <? nb then
     p <- _find_empty_sector fuel ;;
     zoom self (set_cell (fst p) (snd p) STARBASE) ;;;
     zoom self (modify (set_starbase_pos (Some p)))
   else ret tt) ;;;
  ns <- gets (fun s => stars (fst s)) ;;
  repeat_times (Z.to_nat ns)
    (p <- _find_empty_sector fuel ;;
     zoom self (set_cell (fst p) (snd p) STAR) ;;;
     zoom self (modify (fun q => set_star_positions (star_positions q ++ [p]) q))).

(** Place the Enterprise in the quadrant; returns the actual position. *)
Definition place_enterprise (fuel : nat) (r c : Z) : M (t * Rng) (Z * Z) :=
  q <- gets fst ;;
  (match sector_map q with
   | [] => initialize_sector_map fuel
   | _ => ret tt
   end) ;;;
  q <- gets fst ;;
  e <- cell q r c ;;
  p <- (if decide (e = EMPTY) then ret (r, c) else _find_empty_sector fuel) ;;
  zoom self (set_cell (fst p) (snd p) ENTERPRISE) ;;;
  ret p.

Definition in_sector_bounds (r c : Z) : bool :=
  (0 <=? r) && (r <? 8) && (0 <=? c) && (c <? 8).

(** Remove the Enterprise from its current position. *)
Definition remove_enterprise (r c : Z) : M t unit :=
  q <- get ;;
  match sector_map q with
  | [] => ret tt
  | _ =>
      if in_sector_bounds r c then
        e <- cell q r c ;;
        if decide (e = ENTERPRISE) then set_cell r c EMPTY else ret tt
      else ret tt
  end.

(** Remove a Klingon from the specified position; [True] if one was
    removed. *)
Definition remove_klingon (r c : Z) : M t bool :=
  q <- get ;;
  e <- cell q r c ;;
  if decide (e = KLINGON) then
    set_cell r c EMPTY ;;;
    modify (fun q => set_klingon_ships
                       (filter (fun k => negb ((Klingon.sector_row k =? r)
                                               && (Klingon.sector_col k =? c)) = true)
                               (klingon_ships q)) q) ;;;
    modify (fun q => set_klingons (klingons q - 1) q) ;;;
    ret true
  else ret false.

(** Get the entity type at a specific sector. *)
Definition get_entity_at (r c : Z) : M t EntityType :=
  q <- get ;;
  match sector_map q with
  | [] => ret EMPTY
  | _ => if in_sector_bounds r c then cell q r c else ret EMPTY
  end.

(** Check if the given position is adjacent to a starbase. *)
Definition is_adjacent_to_starbase (q : t) (r c : Z) : bool :=
  match starbase_pos q with
  | None => false
  | Some (sb_row, sb_col) => (Z.abs (r - sb_row) <=? 1) && (Z.abs (c - sb_col) <=? 1)
  end.
End Quadrant.

(** [[f(x) for x in l]] with an effectful [f]. *)
Fixpoint map_m {S A B} (f : A -> M S B) (l : list A) : M S (list B) :=
  match l with
  | [] => ret []
  | x :: l' => y <- f x ;; ys <- map_m f l' ;; ret (y :: ys)
  end.

Module Galaxy.
Record t : Type := mk {
  quadrants : list (list Quadrant.t);
  total_klingons : Z;
  total_starbases : Z;
  initial_klingons : Z;
  stardate : float;
  time_limit : Z
}.

Definition set_quadrants (v : list (list Quadrant.t)) (g : t) : t :=
  mk v (total_klingons g) (total_starbases g) (initial_klingons g) (stardate g) (time_limit g).
Definition set_total_klingons (v : Z) (g : t) : t :=
  mk (quadrants g) v (total_starbases g) (initial_klingons g) (stardate g) (time_limit g).
Definition set_total_starbases (v : Z) (g : t) : t :=
  mk (quadrants g) (total_klingons g) v (initial_klingons g) (stardate g) (time_limit g).
Definition set_initial_klingons (v : Z) (g : t) : t :=
  mk (quadrants g) (total_klingons g) (total_starbases g) v (stardate g) (time_limit g).
Definition set_stardate (v : float) (g : t) : t :=
  mk (quadrants g) (total_klingons g) (total_starbases g) (initial_klingons g) v (time_limit g).
Definition set_time_limit (v : Z) (g : t) : t :=
  mk (quadrants g) (total_klingons g) (total_starbases g) (initial_klingons g) (stardate g) v.

(** The quadrant object [self.quadrants[r][c]] is shared: a computation on
    it is run on the stored quadrant and its effect is stored back, also
    when it raises. *)
Definition store_quadrant (r c : Z) (q : Quadrant.t) (g : t) : t :=
  match py_setitem2 (quadrants g) r c q with
  | Some qs => set_quadrants qs g
  | None => g
  end.

Definition on_quadrant {A} (r c : Z) (m : M Quadrant.t A) : M t A :=
  fun g =>
    match py_index2 (quadrants g) r c with
    | None => Raise IndexError g
    | Some q =>
        match m q with
        | Ret a q' => Ret a (store_quadrant r c q' g)
        | Raise e q' => Raise e (store_quadrant r c q' g)
        | OutOfFuel => OutOfFuel
        end
    end.

Definition self : Lens (t * Rng) t := fst_lens.
Definition random : Lens (t * Rng) Rng := snd_lens.

Definition in_bounds (r c : Z) : bool :=
  (0 <=? r) && (r <? 8) && (0 <=? c) && (c <? 8).

(** The body of the two nested [for] loops of [_initialize]. *)
Definition populate_quadrant (r c : Z) : M (t * Rng) unit :=
  x <- zoom random random_random ;;
  zoom self (on_quadrant r c
    (modify (Quadrant.set_klingons
               (if (x <? 0.08)%float then 3
                else if (x <? 0.20)%float then 2
                else if (x <? 0.50)%float then 1
                else 0)))) ;;;
  k <- zoom self (on_quadrant r c (gets Quadrant.klingons)) ;;
  zoom self (modify (fun g => set_total_klingons (total_klingons g + k) g)) ;;;
  y <- zoom random random_random ;;
  (if (y <? 0.04)%float then
     zoom self (on_quadrant r c (modify (Quadrant.set_starbases 1))) ;;;
     zoom self (modify (fun g => set_total_starbases (total_starbases g + 1) g))
   else ret tt) ;;;
  n <- zoom random (random_randint 1 8) ;;
  zoom self (on_quadrant r c (modify (Quadrant.set_stars n))).

(** The body of [while self.total_klingons < 10]. *)
Definition top_up_klingons : M (t * Rng) unit :=
  r <- zoom random (random_randint 0 7) ;;
  c <- zoom random (random_randint 0 7) ;;
  k <- zoom self (on_quadrant r c (gets Quadrant.klingons)) ;;
  if k <? 3 then
    zoom self (on_quadrant r c (modify (fun q => Quadrant.set_klingons (Quadrant.klingons q + 1) q))) ;;;
    zoom self (modify (fun g => set_total_klingons (total_klingons g + 1) g))
  else ret tt.

(** Initialize the galaxy with random distribution of entities. *)
Definition _initialize (fuel : nat) : M (t * Rng) unit :=
  zoom self (modify (set_quadrants
    (map (fun r => map (fun c => Quadrant.new r c) (range 8)) (range 8)))) ;;;
  zoom self (modify (set_total_klingons 0)) ;;;
  zoom self (modify (set_total_starbases 0)) ;;;
  for_each (range 8) (fun r => for_each (range 8) (fun c => populate_quadrant r c)) ;;;
  nb <- gets (fun s => total_starbases (fst s)) ;;
  (if nb =? 0 then
     r <- zoom random (random_randint 0 7) ;;
     c <- zoom random (random_randint 0 7) ;;
     zoom self (on_quadrant r c (modify (Quadrant.set_starbases 1))) ;;;
     zoom self (modify (set_total_starbases 1))
   else ret tt) ;;;
  while_loop fuel (fun s => total_klingons (fst s) <? 10) top_up_klingons ;;;
  zoom self (modify (fun g => set_initial_klingons (total_klingons g) g)) ;;;
  d <- zoom random (random_randint 20 40) ;;
  zoom self (modify (set_stardate (Z2F d * 100.0)%float)) ;;;
  l <- zoom random (random_randint 0 10) ;;
  zoom self (modify (set_time_limit (25 + l))).

(** [Galaxy()] *)
Definition new (fuel : nat) : M Rng t :=
  fun rng =>
    match _initialize fuel (mk [] 0 0 0 0%float 0, rng) with
    | Ret _ (g, rng') => Ret g rng'
    | Raise e (_, rng') => Raise e rng'
    | OutOfFuel => OutOfFuel
    end.

(** Get the quadrant at the specified coordinates: a reference to the
    stored quadrant (its coordinates), or [None]. *)
Definition get_quadrant (r c : Z) : M t (option (Z * Z)) :=
  if in_bounds r c then
    g <- get ;;
    _ <- expect IndexError (py_index2 (quadrants g) r c) ;;
    ret (Some (r, c))
  else ret None.

(** Long Range Sensor data for the 3x3 area around the center. *)
Definition get_lrs_data (center_row center_col : Z) : M t (list (list (option Z))) :=
  map_m (fun dr =>
    map_m (fun dc =>
      let r := center_row + dr in
      let c := center_col + dc in
      if in_bounds r c then
        on_quadrant r c (modify (Quadrant.set_scanned true)) ;;;
        v <- on_quadrant r c (gets Quadrant.get_lrs_value) ;;
        ret (Some v)
      else ret None) [-1; 0; 1]) [-1; 0; 1].

(** Called when a Klingon is destroyed. *)
Definition klingon_destroyed : M t unit :=
  modify (fun g => set_total_klingons (total_klingons g - 1) g).

(** Called when a starbase is destroyed. *)
Definition starbase_destroyed (r c : Z) : M t unit :=
  n <- on_quadrant r c (gets Quadrant.starbases) ;;
  if 0 <? n then
    on_quadrant r c (modify (fun q => Quadrant.set_starbases (Quadrant.starbases q - 1) q)) ;;;
    modify (fun g => set_total_starbases (total_starbases g - 1) g)
  else ret tt.

(** Advance the stardate. *)
Definition advance_time (days : float) : M t unit :=
  modify (fun g => set_stardate (stardate g + days)%float g).

(** Check if the game is won (all Klingons destroyed). *)
Definition is_game_won (g : t) : bool := total_klingons g <=? 0.
End Galaxy.

(** ** game/enterprise.py *)

(** Ship systems that can be damaged. *)
Inductive ShipSystem : Type :=
| WARP_ENGINES
| SHORT_RANGE_SENSORS
| LONG_RANGE_SENSORS
| PHASER_CONTROL
| PHOTON_TUBES
| DAMAGE_CONTROL
| SHIELD_CONTROL
| LIBRARY_COMPUTER.

(** [list(ShipSystem)] *)
Definition all_systems : list ShipSystem :=
  [WARP_ENGINES; SHORT_RANGE_SENSORS; LONG_RANGE_SENSORS; PHASER_CONTROL;
   PHOTON_TUBES; DAMAGE_CONTROL; SHIELD_CONTROL; LIBRARY_COMPUTER].

#[global] Instance ShipSystem_eq_dec : EqDecision ShipSystem.
Proof. solve_decision. Defined.

Definition ShipSystem_to_nat (s : ShipSystem) : nat :=
  match s with
  | WARP_ENGINES => 0 | SHORT_RANGE_SENSORS => 1 | LONG_RANGE_SENSORS => 2
  | PHASER_CONTROL => 3 | PHOTON_TUBES => 4 | DAMAGE_CONTROL => 5
  | SHIELD_CONTROL => 6 | LIBRARY_COMPUTER => 7
  end%nat.

#[global] Instance ShipSystem_countable : Countable ShipSystem.
Proof.
  refine (inj_countable' ShipSystem_to_nat (fun n => nth n all_systems WARP_ENGINES) _).
  intros []; reflexivity.
Defined.

(** Ship condition status. *)
Inductive Condition : Type := GREEN | YELLOW | RED | DOCKED.

Module Enterprise.
Record t : Type := mk {
  quadrant_row : Z;
  quadrant_col : Z;
  sector_row : Z;
  sector_col : Z;
  energy : Z;
  max_energy : Z;
  torpedoes : Z;
  max_torpedoes : Z;
  shields : Z;
  docked : bool;
  destroyed : bool;
  damage : gmap ShipSystem float
}.

Definition set_energy (v : Z) (e : t) : t :=
  mk (quadrant_row e) (quadrant_col e) (sector_row e) (sector_col e) v (max_energy e)
     (torpedoes e) (max_torpedoes e) (shields e) (docked e) (destroyed e) (damage e).
Definition set_torpedoes (v : Z) (e : t) : t :=
  mk (quadrant_row e) (quadrant_col e) (sector_row e) (sector_col e) (energy e) (max_energy e)
     v (max_torpedoes e) (shields e) (docked e) (destroyed e) (damage e).
Definition set_shields (v : Z) (e : t) : t :=
  mk (quadrant_row e) (quadrant_col e) (sector_row e) (sector_col e) (energy e) (max_energy e)
     (torpedoes e) (max_torpedoes e) v (docked e) (destroyed e) (damage e).
Definition set_docked (v : bool) (e : t) : t :=
  mk (quadrant_row e) (quadrant_col e) (sector_row e) (sector_col e) (energy e) (max_energy e)
     (torpedoes e) (max_torpedoes e) (shields e) v (destroyed e) (damage e).
Definition set_destroyed (v : bool) (e : t) : t :=
  mk (quadrant_row e) (quadrant_col e) (sector_row e) (sector_col e) (energy e) (max_energy e)
     (torpedoes e) (max_torpedoes e) (shields e) (docked e) v (damage e).
Definition set_damage (v : gmap ShipSystem float) (e : t) : t :=
  mk (quadrant_row e) (quadrant_col e) (sector_row e) (sector_col e) (energy e) (max_energy e)
     (torpedoes e) (max_torpedoes e) (shields e) (docked e) (destroyed e) v.

(** [{system: 0.0 for system in ShipSystem}] *)
Definition all_operational : gmap ShipSystem float :=
  list_to_map (map (fun s => (s, 0%float)) all_systems).

(** [Enterprise()] with the dataclass defaults and [__post_init__]. *)
Definition new : t := mk 0 0 0 0 3000 3000 10 10 0 false false all_operational.

(** Reset ship to initial state. *)
Definition reset (e : t) : t :=
  mk (quadrant_row e) (quadrant_col e) (sector_row e) (sector_col e)
     (max_energy e) (max_energy e) (max_torpedoes e) (max_torpedoes e) 0
     false false all_operational.

(** Dock at starbase - restore all resources. *)
Definition dock : M t unit :=
  modify (set_docked true) ;;;
  modify (fun e => set_energy (max_energy e) e) ;;;
  modify (fun e => set_torpedoes (max_torpedoes e) e) ;;;
  modify (set_shields 0).

(** Undock from starbase. *)
Definition undock : M t unit := modify (set_docked false).

(** Repair all systems (when docked): [self.damage[system] = 0.0]. *)
Definition repair_all : M t unit :=
  for_each all_systems (fun s => modify (fun e => set_damage (<[s := 0%float]> (damage e)) e)).

(** Check if a system is damaged: [self.damage.get(system, 0) < 0]. *)
Definition is_system_damaged (e : t) (s : ShipSystem) : bool :=
  (default 0%float (damage e !! s) <? 0)%float.

(** Apply damage to the ship. *)
Definition self : Lens (t * Rng) t := fst_lens.
Definition random : Lens (t * Rng) Rng := snd_lens.

Definition apply_damage (amount : Z) : M (t * Rng) unit :=
  sh <- gets (fun s => shields (fst s)) ;;
  amount <-
    (if 0 <? sh then
       if amount <=? sh then
         zoom self (modify (fun e => set_shields (shields e - amount) e)) ;;;
         ret 0
       else
         zoom self (modify (set_shields 0)) ;;;
         ret (amount - sh)
     else ret amount) ;;
  (if 0 <? amount then
     zoom self (modify (fun e => set_energy (energy e - amount) e)) ;;;
     x <- zoom random random_random ;;
     if (x <? 0.6)%float then
       system <- zoom random (random_choice all_systems) ;;
       damage_amount <- zoom random (random_uniform (-0.5) (-3.0)) ;;
       e <- gets fst ;;
       old <- expect KeyError (damage e !! system) ;;
       zoom self (modify (set_damage (<[system := (old + damage_amount)%float]> (damage e))))
     else ret tt
   else ret tt) ;;;
  en <- gets (fun s => energy (fst s)) ;;
  if en <=? 0 then zoom self (modify (set_destroyed true)) else ret tt.

(** Repair systems over time; returns the systems that were repaired. *)
Definition repair_systems (time_elapsed : float) : M t (list ShipSystem) :=
  e0 <- get ;;
  let repair_rate := if docked e0 then 1.0%float else 0.1%float in
  rs <- map_m (fun s =>
    e <- get ;;
    d <- expect KeyError (damage e !! s) ;;
    if (d <? 0)%float then
      let d' := (d + repair_rate * time_elapsed)%float in
      modify (set_damage (<[s := d']> (damage e))) ;;;
      if (0 <=? d')%float then
        modify (fun e => set_damage (<[s := 0%float]> (damage e)) e) ;;;
        ret [s]
      else ret []
    else ret []) all_systems ;;
  ret (concat rs).

(** Use energy for an action; [True] if there was enough energy. *)
Definition use_energy (amount : Z) : M t bool :=
  e <- get ;;
  if amount <=? energy e then
    modify (fun e => set_energy (energy e - amount) e) ;;;
    ret true
  else ret false.

(** Transfer energy to shields; [True] if successful. *)
Definition transfer_to_shields (amount : Z) : M t bool :=
  e <- get ;;
  if amount <? 0 then
    let transfer := Z.min (- amount) (shields e) in
    modify (fun e => set_shields (shields e - transfer) e) ;;;
    modify (fun e => set_energy (energy e + transfer) e) ;;;
    ret true
  else if amount <=? energy e then
    modify (fun e => set_energy (energy e - amount) e) ;;;
    modify (fun e => set_shields (shields e + amount) e) ;;;
    ret true
  else ret false.

(** Fire a torpedo; [True] if a torpedo was available. *)
Definition fire_torpedo : M t bool :=
  e <- get ;;
  if 0 <? torpedoes e then
    modify (fun e => set_torpedoes (torpedoes e - 1) e) ;;;
    ret true
  else ret false.

(** Set the ship's position. *)
Definition set_position (quad_row quad_col sect_row sect_col : Z) : M t unit :=
  modify (fun e =>
    mk quad_row quad_col sect_row sect_col (energy e) (max_energy e)
       (torpedoes e) (max_torpedoes e) (shields e) (docked e) (destroyed e) (damage e)).


Definition can_warp (e : t) : bool := negb (is_system_damaged e WARP_ENGINES).
Definition can_use_srs (e : t) : bool := negb (is_system_damaged e SHORT_RANGE_SENSORS).
Definition can_use_lrs (e : t) : bool := negb (is_system_damaged e LONG_RANGE_SENSORS).
Definition can_fire_phasers (e : t) : bool := negb (is_system_damaged e PHASER_CONTROL).
Definition can_fire_torpedoes (e : t) : bool := negb (is_system_damaged e PHOTON_TUBES).
Definition can_use_shields (e : t) : bool := negb (is_system_damaged e SHIELD_CONTROL).
Definition can_use_computer (e : t) : bool := negb (is_system_damaged e LIBRARY_COMPUTER).
End Enterprise.

(** ** game/combat.py *)

(** An int as an unrounded binary number. *)
Definition Z2SF (z : Z) : spec_float :=
  match z with
  | Z0 => S754_zero false
  | Zpos p => S754_finite false p 0
  | Zneg p => S754_finite true p 0
  end.

(** [a / b] on two ints (true division): the float nearest to the
    quotient of the two integers, whatever their size; a zero divisor is a
    [ZeroDivisionError], a quotient beyond the floats an [OverflowError].
    On floats a zero divisor is a [ZeroDivisionError]. *)
Definition py_truediv (a b : Z) : PyExn + float :=
  if b =? 0 then inl ZeroDivisionError
  else
    match SFdiv prec emax (Z2SF a) (Z2SF b) with
    | S754_infinity _ => inl OverflowError
    | q => inr (SF2Prim q)
    end.

Definition py_fdiv (x y : float) : PyExn + float :=
  if (y =? 0)%float then inl ZeroDivisionError else inr (x / y)%float.

(** A dictionary lookup [d[k]]. *)
Definition py_getitem {A} (o : option A) : PyExn + A :=
  match o with Some a => inr a | None => inl KeyError end.

(** [for x in l] with local variables [b] carried through the iterations. *)
Fixpoint fold_m {S A B} (f : B -> A -> M S B) (l : list A) (b : B) : M S B :=
  match l with
  | [] => ret b
  | x :: l' => b' <- f b x ;; fold_m f l' b'
  end.

(** The kinds of message the engine reports. *)
Inductive Msg : Type :=
| MsgNone
| MsgPhaserControlDamaged
| MsgInvalidPhaserEnergy
| MsgInsufficientEnergy
| MsgNoKlingons
| MsgPhasersOverheated
| MsgPhasersFired
| MsgPhasersNotFired
| MsgPhotonTubesDamaged
| MsgNoTorpedoes
| MsgInvalidDirection
| MsgFailedToFire
| MsgTorpedoLeftQuadrant
| MsgTorpedoHitKlingon
| MsgTorpedoHitStar
| MsgTorpedoHitStarbase
| MsgTorpedoNoTarget
| MsgWarpEnginesDamaged
| MsgInvalidCourse
| MsgInvalidCourseInput
| MsgInvalidWarp
| MsgInvalidWarpInput
| MsgNavigationCancelled
| MsgGalacticBarrier
| MsgWarpEngaged
| MsgSensorsDamaged
| MsgScan
| MsgInvalidEnergyAmount
| MsgNoChangeToShields
| MsgCannotTransferMoreThanShields
| MsgShieldControlDamaged
| MsgShieldsSet
| MsgDamageReport
| MsgComputerDamaged
| MsgInvalidFunction
| MsgComputerReport
| MsgInvalidCoordinates
| MsgGameTerminated
| MsgReturningToGame.

(** Result of a combat action. *)
Record CombatResult : Type := MkCombatResult {
  combat_success : bool;
  combat_message : Msg;
  klingons_destroyed : Z;
  damage_dealt : list (Z * Z * Z)
}.

(** [CombatResult(success, message)] and [CombatResult(success, message, n)] *)
Definition combat_result (ok : bool) (m : Msg) : CombatResult := MkCombatResult ok m 0 [].
Definition combat_result_n (ok : bool) (m : Msg) (n : Z) : CombatResult := MkCombatResult ok m n [].

(** Euclidean distance between two positions. *)
Definition calculate_distance (row1 col1 row2 col2 : Z) : float :=
  PrimFloat.sqrt (Z2F ((row1 - row2) ^ 2 + (col1 - col2) ^ 2)).

Module Combat.
(** The objects a combat action works on: the ship, the current quadrant
    and the random stream. *)
Definition St : Type := (Enterprise.t * Quadrant.t) * Rng.
Definition ship : Lens St Enterprise.t :=
  MkLens (fun s => fst (fst s)) (fun e s => ((e, snd (fst s)), snd s)).
Definition quad : Lens St Quadrant.t :=
  MkLens (fun s => snd (fst s)) (fun q s => ((fst (fst s), q), snd s)).
Definition random : Lens St Rng := snd_lens.
Definition ship_random : Lens St (Enterprise.t * Rng) :=
  MkLens (fun s => (fst (fst s), snd s)) (fun p s => ((fst p, snd (fst s)), snd p)).
Definition ship_quad : Lens St (Enterprise.t * Quadrant.t) := fst_lens.
End Combat.

(** [enterprise.damage.__class__] is the built-in [dict]; the class has no
    attribute [PHASER_CONTROL], so evaluating
    [enterprise.damage.__class__.PHASER_CONTROL] raises. *)
Definition dict_class_PHASER_CONTROL {S} : M S ShipSystem := raise AttributeError.

(** One iteration of [for klingon in klingons] in [fire_phasers]; the
    klingon is the [i]-th object of the shared list and is updated in place.
    The carried locals are [damage_dealt], [klingons_to_remove] and
    [destroyed_count]. *)
Definition phaser_hit (energy_per_target : float)
    (acc : list (Z * Z * Z) * list Klingon.t * Z) (i : nat)
  : M Combat.St (list (Z * Z * Z) * list Klingon.t * Z) :=
  s <- get ;;
  let e := view Combat.ship s in
  let q := view Combat.quad s in
  klingon <- expect IndexError (Quadrant.klingon_ships q !! i) ;;
  let d0 := calculate_distance (Enterprise.sector_row e) (Enterprise.sector_col e)
              (Klingon.sector_row klingon) (Klingon.sector_col klingon) in
  let distance := if (d0 <? 0.1)%float then 0.1%float else d0 in
  random_multiplier <- zoom Combat.random (random_uniform 2.0 3.0) ;;
  x <- lift_exn (py_fdiv energy_per_target distance) ;;
  damage <- lift_exn (py_int (x * random_multiplier)%float) ;;
  let dealt := fst (fst acc) ++ [(Klingon.sector_row klingon, Klingon.sector_col klingon, damage)] in
  if Klingon.energy klingon <=? damage then
    ret (dealt, snd (fst acc) ++ [klingon], snd acc + 1)
  else
    zoom Combat.quad (modify (fun q =>
      Quadrant.set_klingon_ships
        (<[i := Klingon.set_energy (Klingon.energy klingon - damage) klingon]>
           (Quadrant.klingon_ships q)) q)) ;;;
    ret (dealt, snd (fst acc), snd acc).

(** Fire phasers at all Klingons in the quadrant. *)
Definition fire_phasers (energy_amount : Z) : M Combat.St CombatResult :=
  s <- get ;;
  let enterprise := view Combat.ship s in
  let quadrant := view Combat.quad s in
  if negb (Enterprise.can_fire_phasers enterprise) then
    ret (combat_result false MsgPhaserControlDamaged)
  else if energy_amount <=? 0 then
    ret (combat_result false MsgInvalidPhaserEnergy)
  else if Enterprise.energy enterprise <? energy_amount then
    ret (combat_result false MsgInsufficientEnergy)
  else
    let klingons := Quadrant.klingon_ships quadrant in
    match klingons with
    | [] => ret (combat_result false MsgNoKlingons)
    | _ =>
        zoom Combat.ship (Enterprise.use_energy energy_amount) ;;;
        overheated <-
          (if 1500 <? energy_amount then
             overheat_chance <- lift_exn (py_truediv (energy_amount - 1500) 1500) ;;
             x <- zoom Combat.random random_random ;;
             if (x <? overheat_chance)%float then
               v <- zoom Combat.random (random_uniform 1.0 3.0) ;;
               key <- dict_class_PHASER_CONTROL ;;
               zoom Combat.ship (modify (fun e =>
                 Enterprise.set_damage (<[key := (- v)%float]> (Enterprise.damage e)) e)) ;;;
               ret true
             else ret false
           else ret false) ;;
        if overheated then ret (combat_result false MsgPhasersOverheated)
        else
          energy_per_target <- lift_exn (py_truediv energy_amount (Z.of_nat (length klingons))) ;;
          acc <- fold_m (phaser_hit energy_per_target) (seq 0 (length klingons)) ([], [], 0) ;;
          for_each (snd (fst acc)) (fun klingon =>
            zoom Combat.quad
              (Quadrant.remove_klingon (Klingon.sector_row klingon) (Klingon.sector_col klingon)) ;;;
            ret tt) ;;;
          ret (MkCombatResult true MsgPhasersFired (snd acc) (fst (fst acc)))
    end.

(** The torpedo direction table of [fire_torpedo] ([KeyError] off the keys). *)
Definition torpedo_direction_deltas (d : Z) : option (Z * Z) :=
  if d =? 1 then Some (0, 1)
  else if d =? 2 then Some (-1, 1)
  else if d =? 3 then Some (-1, 0)
  else if d =? 4 then Some (-1, -1)
  else if d =? 5 then Some (0, -1)
  else if d =? 6 then Some (1, -1)
  else if d =? 7 then Some (1, 0)
  else if d =? 8 then Some (1, 1)
  else if d =? 9 then Some (0, 1)
  else None.

(** The step vector of a torpedo fired in [direction]. *)
Definition torpedo_step_vector (direction : float) : PyExn + (float * float) :=
  base0 <~ py_int direction ;;
  let base_dir := if base0 =? 9 then 1 else base0 in
  whole <~ py_int direction ;;
  let fraction := (direction - Z2F whole)%float in
  let next_dir := if base_dir <? 8 then base_dir + 1 else 1 in
  d1 <~ py_getitem (torpedo_direction_deltas base_dir) ;;
  d2 <~ py_getitem (torpedo_direction_deltas next_dir) ;;
  let dr := (Z2F (fst d1) * (1 - fraction) + Z2F (fst d2) * fraction)%float in
  let dc := (Z2F (snd d1) * (1 - fraction) + Z2F (snd d2) * fraction)%float in
  let step_size := 1.0%float in
  if negb (dr =? 0)%float || negb (dc =? 0)%float then
    magnitude <~ math_sqrt (fsquare dr + fsquare dc)%float ;;
    a <~ py_fdiv dr magnitude ;;
    b <~ py_fdiv dc magnitude ;;
    inr ((a * step_size)%float, (b * step_size)%float)
  else inr (dr, dc).

(** A method call or attribute access on an object reference that may be
    [None] (then an [AttributeError]). *)
Definition on_object {S T A} (m : M T A) : M (S * option T) A :=
  fun s =>
    match snd s with
    | None => Raise AttributeError s
    | Some q =>
        match m q with
        | Ret a q' => Ret a (fst s, Some q')
        | Raise e q' => Raise e (fst s, Some q')
        | OutOfFuel => OutOfFuel
        end
    end.

(** [for step in range(15)] of [fire_torpedo]: the remaining [steps], from
    the continuous position [(current_row, current_col)].  The quadrant is
    the object the caller passed, possibly [None]. *)
Fixpoint torpedo_travel (steps : nat) (dr dc current_row current_col : float)
  : M (Enterprise.t * option Quadrant.t) CombatResult :=
  match steps with
  | O => ret (combat_result_n true MsgTorpedoNoTarget 0)
  | Datatypes.S steps' =>
      let current_row := (current_row + dr)%float in
      let current_col := (current_col + dc)%float in
      r <- lift_exn (py_round current_row) ;;
      c <- lift_exn (py_round current_col) ;;
      if (r <? 0) || (8 <=? r) || (c <? 0) || (8 <=? c) then
        ret (combat_result_n true MsgTorpedoLeftQuadrant 0)
      else
        entity <- on_object (Quadrant.get_entity_at r c) ;;
        match entity with
        | KLINGON =>
            on_object (Quadrant.remove_klingon r c) ;;;
            ret (combat_result_n true MsgTorpedoHitKlingon 1)
        | STAR => ret (combat_result_n true MsgTorpedoHitStar 0)
        | STARBASE =>
            on_object (modify (Quadrant.set_starbases 0)) ;;;
            on_object (modify (Quadrant.set_starbase_pos None)) ;;;
            on_object (Quadrant.set_cell r c EMPTY) ;;;
            ret (combat_result_n true MsgTorpedoHitStarbase 0)
        | _ => torpedo_travel steps' dr dc current_row current_col
        end
  end.

(** Fire a photon torpedo in the specified direction. *)
Definition fire_torpedo (direction : float) : M (Enterprise.t * option Quadrant.t) CombatResult :=
  enterprise <- gets fst ;;
  if negb (Enterprise.can_fire_torpedoes enterprise) then
    ret (combat_result false MsgPhotonTubesDamaged)
  else if Enterprise.torpedoes enterprise <=? 0 then
    ret (combat_result false MsgNoTorpedoes)
  else if (direction <? 1)%float || (9 <? direction)%float then
    ret (combat_result false MsgInvalidDirection)
  else
    fired <- zoom fst_lens Enterprise.fire_torpedo ;;
    if negb fired then ret (combat_result false MsgFailedToFire)
    else
      v <- lift_exn (torpedo_step_vector direction) ;;
      enterprise <- gets fst ;;
      torpedo_travel 15 (fst v) (snd v)
        (Z2F (Enterprise.sector_row enterprise)) (Z2F (Enterprise.sector_col enterprise)).

(** [for klingon in klingons] of [klingon_attack], with its [break]. *)
Fixpoint klingon_volley (klingons : list Klingon.t) : M (Enterprise.t * Rng) unit :=
  match klingons with
  | [] => ret tt
  | klingon :: rest =>
      enterprise <- gets fst ;;
      let d0 := calculate_distance
                  (Enterprise.sector_row enterprise) (Enterprise.sector_col enterprise)
                  (Klingon.sector_row klingon) (Klingon.sector_col klingon) in
      let distance := if (d0 <? 0.1)%float then 0.1%float else d0 in
      random_factor <- zoom Enterprise.random (random_uniform 0.5 1.0) ;;
      x <- lift_exn (py_fdiv (Z2F (Klingon.energy klingon)) distance) ;;
      damage <- lift_exn (py_int (x * random_factor)%float) ;;
      Enterprise.apply_damage damage ;;;
      enterprise <- gets fst ;;
      if Enterprise.destroyed enterprise then ret tt else klingon_volley rest
  end.

(** All Klingons in the quadrant attack the Enterprise. *)
Definition klingon_attack (quadrant : Quadrant.t) : M (Enterprise.t * Rng) unit :=
  enterprise <- gets fst ;;
  if Enterprise.docked enterprise then ret tt
  else klingon_volley (Quadrant.klingon_ships quadrant).

(** [math.pi], the double nearest to the constant. *)
Definition math_pi : float := 0x1.921fb54442d18p+1%float.

(** Calculate the direction to fire a torpedo to hit a target.  The ship
    is only read for its sector.  [math.atan2] is the function of the C
    library, which the program does not define: it is a parameter here.
    Its two [int] arguments are converted to doubles first, the row delta
    before the column delta, which raises [OverflowError] for an integer
    beyond the doubles. *)
Definition calculate_torpedo_direction (math_atan2 : float -> float -> float)
    (enterprise : Enterprise.t) (target_row target_col : Z) : PyExn + float :=
  let dr := target_row - Enterprise.sector_row enterprise in
  let dc := target_col - Enterprise.sector_col enterprise in
  if (dr =? 0) && (dc =? 0) then inr 1.0%float
  else
    match py_float (- dr) with
    | inl ex => inl ex
    | inr y =>
        match py_float dc with
        | inl ex => inl ex
        | inr x =>
            let angle := math_atan2 y x in
            let direction := (1.0 + (angle * 4.0 / math_pi))%float in
            let direction :=
              if (direction <? 1)%float then (direction + 8)%float else direction in
            let direction :=
              if (9 <? direction)%float then (direction - 8)%float else direction in
            inr direction
        end
    end.

(** ** game/commands.py *)

(** Result of a command execution. *)
Record CommandResult : Type := MkCommandResult {
  success : bool;
  message : Msg;
  time_used : float;
  trigger_klingon_attack : bool;
  quit_game : bool
}.

(** [CommandResult(success, message)] *)
Definition command_result (ok : bool) (m : Msg) : CommandResult :=
  MkCommandResult ok m 0%float false false.

(** The objects a [CommandHandler] holds, with the random stream. *)
Record World : Type := MkWorld {
  galaxy : Galaxy.t;
  enterprise : Enterprise.t;
  rng : Rng
}.

Definition the_galaxy : Lens World Galaxy.t :=
  MkLens galaxy (fun g w => MkWorld g (enterprise w) (rng w)).
Definition the_ship : Lens World Enterprise.t :=
  MkLens enterprise (fun e w => MkWorld (galaxy w) e (rng w)).
Definition the_random : Lens World Rng :=
  MkLens rng (fun r w => MkWorld (galaxy w) (enterprise w) r).
Definition ship_and_random : Lens World (Enterprise.t * Rng) :=
  MkLens (fun w => (enterprise w, rng w)) (fun p w => MkWorld (galaxy w) (fst p) (snd p)).

(** A quadrant obtained from [get_quadrant] is a reference to an object of
    the galaxy, or [None]; a computation given the object runs on the world
    with that quadrant taken out, and its effect on the quadrant is stored
    back in place. *)
Definition store_back (r c : Z) (s : World * option Quadrant.t) : World :=
  match snd s with
  | Some q => update the_galaxy (Galaxy.store_quadrant r c q (galaxy (fst s))) (fst s)
  | None => fst s
  end.

Definition with_quadrant_object {A} (ref : option (Z * Z))
    (m : M (World * option Quadrant.t) A) : M World A :=
  fun w =>
    match ref with
    | None =>
        match m (w, None) with
        | Ret a s => Ret a (fst s)
        | Raise e s => Raise e (fst s)
        | OutOfFuel => OutOfFuel
        end
    | Some (r, c) =>
        match py_index2 (Galaxy.quadrants (galaxy w)) r c with
        | None => Raise IndexError w
        | Some q =>
            match m (w, Some q) with
            | Ret a s => Ret a (store_back r c s)
            | Raise e s => Raise e (store_back r c s)
            | OutOfFuel => OutOfFuel
            end
        end
    end.

(** A method call or attribute access on the referenced quadrant: on [None]
    an [AttributeError]. *)
Definition with_quadrant {A} (ref : option (Z * Z)) (m : M (World * Quadrant.t) A) : M World A :=
  fun w =>
    match ref with
    | None => Raise AttributeError w
    | Some (r, c) =>
        match py_index2 (Galaxy.quadrants (galaxy w)) r c with
        | None => Raise IndexError w
        | Some q =>
            match m (w, q) with
            | Ret a s => Ret a (store_back r c (fst s, Some (snd s)))
            | Raise e s => Raise e (store_back r c (fst s, Some (snd s)))
            | OutOfFuel => OutOfFuel
            end
        end
    end.

Definition quadrant_only : Lens (World * Quadrant.t) Quadrant.t := snd_lens.
Definition quadrant_random : Lens (World * Quadrant.t) (Quadrant.t * Rng) :=
  MkLens (fun s => (snd s, rng (fst s)))
         (fun p s => (update the_random (snd p) (fst s), fst p)).
Definition ship_quadrant : Lens (World * option Quadrant.t) (Enterprise.t * option Quadrant.t) :=
  MkLens (fun s => (enterprise (fst s), snd s))
         (fun p s => (update the_ship (fst p) (fst s), snd p)).
Definition combat_state : Lens (World * Quadrant.t) Combat.St :=
  MkLens (fun s => ((enterprise (fst s), snd s), rng (fst s)))
         (fun c s => (MkWorld (galaxy (fst s)) (fst (fst c)) (snd c), snd (fst c))).

(** Get the current quadrant. *)
Definition get_current_quadrant : M World (option (Z * Z)) :=
  e <- gets enterprise ;;
  zoom the_galaxy (Galaxy.get_quadrant (Enterprise.quadrant_row e) (Enterprise.quadrant_col e)).

(** The direction table of [execute_nav] ([KeyError] off the keys). *)
Definition nav_direction_deltas (d : Z) : option (Z * Z) :=
  if d =? 1 then Some (0, 1)
  else if d =? 2 then Some (-1, 1)
  else if d =? 3 then Some (-1, 0)
  else if d =? 4 then Some (-1, -1)
  else if d =? 5 then Some (0, -1)
  else if d =? 6 then Some (1, -1)
  else if d =? 7 then Some (1, 0)
  else if d =? 8 then Some (1, 1)
  else None.

(** The unit vector of a course. *)
Definition nav_step_vector (course : float) : PyExn + (float * float) :=
  base_dir <~ (if (course <? 9)%float then py_int course else inr 1) ;;
  whole <~ py_int course ;;
  let fraction := (course - Z2F whole)%float in
  let next_dir := if base_dir <? 8 then base_dir + 1 else 1 in
  d1 <~ py_getitem (nav_direction_deltas base_dir) ;;
  d2 <~ py_getitem (nav_direction_deltas next_dir) ;;
  let dr := (Z2F (fst d1) * (1 - fraction) + Z2F (fst d2) * fraction)%float in
  let dc := (Z2F (snd d1) * (1 - fraction) + Z2F (snd d2) * fraction)%float in
  magnitude <~ math_sqrt (fsquare dr + fsquare dc)%float ;;
  if (0 <? magnitude)%float then inr ((dr / magnitude)%float, (dc / magnitude)%float)
  else inr (dr, dc).

(** The local variables of the movement loop of [execute_nav]. *)
Record NavPos : Type := MkNavPos {
  new_sect_row : float;
  new_sect_col : float;
  new_quad_row : Z;
  new_quad_col : Z;
  crossed_quadrant : bool
}.

(** One iteration of the movement loop, up to the galaxy boundary check. *)
Definition nav_advance (dr dc : float) (p : NavPos) : NavPos :=
  let r := (new_sect_row p + dr)%float in
  let c := (new_sect_col p + dc)%float in
  let p1 :=
    if (r <? 0)%float then MkNavPos (r + 8)%float c (new_quad_row p - 1) (new_quad_col p) true
    else if (8 <=? r)%float then MkNavPos (r - 8)%float c (new_quad_row p + 1) (new_quad_col p) true
    else MkNavPos r c (new_quad_row p) (new_quad_col p) (crossed_quadrant p) in
  if (new_sect_col p1 <? 0)%float then
    MkNavPos (new_sect_row p1) (new_sect_col p1 + 8)%float (new_quad_row p1) (new_quad_col p1 - 1) true
  else if (8 <=? new_sect_col p1)%float then
    MkNavPos (new_sect_row p1) (new_sect_col p1 - 8)%float (new_quad_row p1) (new_quad_col p1 + 1) true
  else p1.

(** The galaxy boundary check of the loop. *)
Definition outside_galaxy (p : NavPos) : bool :=
  (new_quad_row p <? 0) || (8 <=? new_quad_row p) || (new_quad_col p <? 0) || (8 <=? new_quad_col p).

(** [for _ in range(sectors_to_move)]: [None] when an iteration leaves the
    galaxy (the loop then restores the ship and returns), else the final
    local variables. *)
Fixpoint nav_walk (steps : nat) (dr dc : float) (p : NavPos) : option NavPos :=
  match steps with
  | O => Some p
  | Datatypes.S steps' =>
      let p' := nav_advance dr dc p in
      if outside_galaxy p' then None else nav_walk steps' dr dc p'
  end.

(** The part of [execute_nav] after a completed movement loop. *)
Definition nav_arrive (fuel : nat) (warp : float) (energy_required : Z)
    (current_quadrant : option (Z * Z)) (p : NavPos) : M World CommandResult :=
  zoom the_ship (Enterprise.use_energy energy_required) ;;;
  rr <- lift_exn (py_round (new_sect_row p)) ;;
  let final_sect_row := rr mod 8 in
  rc <- lift_exn (py_round (new_sect_col p)) ;;
  let final_sect_col := rc mod 8 in
  placed <-
    (if crossed_quadrant p then
       new_quadrant <- zoom the_galaxy (Galaxy.get_quadrant (new_quad_row p) (new_quad_col p)) ;;
       with_quadrant new_quadrant (zoom quadrant_random (Quadrant.initialize_sector_map fuel)) ;;;
       actual <- with_quadrant new_quadrant
                   (zoom quadrant_random (Quadrant.place_enterprise fuel final_sect_row final_sect_col)) ;;
       ret (new_quadrant, actual)
     else
       let new_quadrant := current_quadrant in
       entity <- with_quadrant new_quadrant
                   (zoom quadrant_only (Quadrant.get_entity_at final_sect_row final_sect_col)) ;;
       actual <- (if decide (entity = EMPTY) then ret (final_sect_row, final_sect_col)
                  else with_quadrant new_quadrant
                         (zoom quadrant_random (Quadrant._find_empty_sector fuel))) ;;
       with_quadrant new_quadrant
         (zoom quadrant_only (Quadrant.set_cell (fst actual) (snd actual) ENTERPRISE)) ;;;
       ret (new_quadrant, actual)) ;;
  let new_quadrant := fst placed in
  let actual_row := fst (snd placed) in
  let actual_col := snd (snd placed) in
  zoom the_ship (Enterprise.set_position (new_quad_row p) (new_quad_col p) actual_row actual_col) ;;;
  adjacent <- with_quadrant new_quadrant
                (gets (fun s => Quadrant.is_adjacent_to_starbase (snd s) actual_row actual_col)) ;;
  (if adjacent then zoom the_ship Enterprise.dock else ret tt) ;;;
  let time_used := if (0 <? warp)%float then (1.0 / warp)%float else 0%float in
  k <- with_quadrant new_quadrant (gets (fun s => Quadrant.klingons (snd s))) ;;
  e <- gets enterprise ;;
  ret (MkCommandResult true MsgWarpEngaged time_used
         ((0 <? k) && negb (Enterprise.docked e)) false).

(** NAV - Navigate the Enterprise.  [course_in] and [warp_in] are the two
    answers read from the player, [None] when [float()] rejects the text. *)
Definition execute_nav (fuel : nat) (course_in warp_in : option float) : M World CommandResult :=
  e <- gets enterprise ;;
  if negb (Enterprise.can_warp e) then ret (command_result false MsgWarpEnginesDamaged)
  else
    match course_in with
    | None => ret (command_result false MsgInvalidCourseInput)
    | Some course =>
        if (course <? 1)%float || (9 <? course)%float then
          ret (command_result false MsgInvalidCourse)
        else
          match warp_in with
          | None => ret (command_result false MsgInvalidWarpInput)
          | Some warp =>
              if (warp <? 0)%float || (8 <? warp)%float then
                ret (command_result false MsgInvalidWarp)
              else if (warp =? 0)%float then
                ret (command_result true MsgNavigationCancelled)
              else
                sectors_to_move <- lift_exn (py_int (warp * 8)%float) ;;
                let energy_required := sectors_to_move + 10 in
                if Enterprise.energy e <? energy_required then
                  ret (command_result false MsgInsufficientEnergy)
                else
                  (if Enterprise.docked e then zoom the_ship Enterprise.undock else ret tt) ;;;
                  v <- lift_exn (nav_step_vector course) ;;
                  current_quadrant <- get_current_quadrant ;;
                  e <- gets enterprise ;;
                  with_quadrant current_quadrant
                    (zoom quadrant_only
                       (Quadrant.remove_enterprise (Enterprise.sector_row e) (Enterprise.sector_col e))) ;;;
                  match nav_walk (Z.to_nat sectors_to_move) (fst v) (snd v)
                          (MkNavPos (Z2F (Enterprise.sector_row e)) (Z2F (Enterprise.sector_col e))
                                    (Enterprise.quadrant_row e) (Enterprise.quadrant_col e) false) with
                  | None =>
                      e <- gets enterprise ;;
                      with_quadrant current_quadrant
                        (zoom quadrant_only
                           (Quadrant.set_cell (Enterprise.sector_row e) (Enterprise.sector_col e)
                              ENTERPRISE)) ;;;
                      ret (command_result false MsgGalacticBarrier)
                  | Some p => nav_arrive fuel warp energy_required current_quadrant p
                  end
          end
    end.

(** SRS - Short Range Sensor Scan. *)
Definition execute_srs : M World CommandResult :=
  e <- gets enterprise ;;
  if negb (Enterprise.can_use_srs e) then ret (command_result false MsgSensorsDamaged)
  else ret (command_result true MsgNone).

(** LRS - Long Range Sensor Scan. *)
Definition execute_lrs : M World CommandResult :=
  e <- gets enterprise ;;
  if negb (Enterprise.can_use_lrs e) then ret (command_result false MsgSensorsDamaged)
  else
    zoom the_galaxy
      (Galaxy.get_lrs_data (Enterprise.quadrant_row e) (Enterprise.quadrant_col e)) ;;;
    ret (command_result true MsgScan).

(** PHA - Fire Phasers.  [energy_in] is the player's answer, [None] when
    [int()] rejects it. *)
Definition execute_pha (energy_in : option Z) : M World CommandResult :=
  e <- gets enterprise ;;
  if negb (Enterprise.can_fire_phasers e) then ret (command_result false MsgPhaserControlDamaged)
  else
    quadrant <- get_current_quadrant ;;
    ships <- with_quadrant quadrant (gets (fun s => Quadrant.klingon_ships (snd s))) ;;
    match ships with
    | [] => ret (command_result false MsgNoKlingons)
    | _ =>
        match energy_in with
        | None => ret (command_result false MsgInvalidEnergyAmount)
        | Some energy =>
            if energy <=? 0 then ret (command_result true MsgPhasersNotFired)
            else
              result <- with_quadrant quadrant (zoom combat_state (fire_phasers energy)) ;;
              (if 0 <? klingons_destroyed result then
                 repeat_times (Z.to_nat (klingons_destroyed result))
                   (zoom the_galaxy Galaxy.klingon_destroyed)
               else ret tt) ;;;
              k <- with_quadrant quadrant (gets (fun s => Quadrant.klingons (snd s))) ;;
              ret (MkCommandResult (combat_success result) (combat_message result) 0%float
                     ((0 <? k) && combat_success result) false)
        end
    end.

(** TOR - Fire Photon Torpedoes. *)
Definition execute_tor (direction_in : option float) : M World CommandResult :=
  e <- gets enterprise ;;
  if negb (Enterprise.can_fire_torpedoes e) then ret (command_result false MsgPhotonTubesDamaged)
  else if Enterprise.torpedoes e <=? 0 then ret (command_result false MsgNoTorpedoes)
  else
    match direction_in with
    | None => ret (command_result false MsgInvalidDirection)
    | Some direction =>
        if (direction <? 1)%float || (9 <? direction)%float then
          ret (command_result false MsgInvalidDirection)
        else
          quadrant <- get_current_quadrant ;;
          result <- with_quadrant_object quadrant (zoom ship_quadrant (fire_torpedo direction)) ;;
          (if 0 <? klingons_destroyed result then
             repeat_times (Z.to_nat (klingons_destroyed result))
               (zoom the_galaxy Galaxy.klingon_destroyed)
           else ret tt) ;;;
          k <- with_quadrant quadrant (gets (fun s => Quadrant.klingons (snd s))) ;;
          ret (MkCommandResult (combat_success result) (combat_message result) 0%float
                 (0 <? k) false)
    end.

(** SHE - Shield Control. *)
Definition execute_she (energy_in : option Z) : M World CommandResult :=
  e <- gets enterprise ;;
  if negb (Enterprise.can_use_shields e) then ret (command_result false MsgShieldControlDamaged)
  else
    match energy_in with
    | None => ret (command_result false MsgInvalidEnergyAmount)
    | Some energy =>
        if energy =? 0 then ret (command_result true MsgNoChangeToShields)
        else if (0 <? energy) && (Enterprise.energy e <? energy) then
          ret (command_result false MsgInsufficientEnergy)
        else if (energy <? 0) && (Enterprise.shields e <? - energy) then
          ret (command_result false MsgCannotTransferMoreThanShields)
        else
          zoom the_ship (Enterprise.transfer_to_shields energy) ;;;
          ret (command_result true MsgShieldsSet)
    end.

(** DAM - Damage Control Report.  [answer_yes] tells whether the answer to
    the repair prompt starts with Y. *)
Definition execute_dam (answer_yes : bool) : M World CommandResult :=
  e <- gets enterprise ;;
  let any_damage :=
    existsb (fun p => (snd p <? 0)%float) (map_to_list (Enterprise.damage e)) in
  (if Enterprise.docked e && any_damage then
     if answer_yes then zoom the_ship Enterprise.repair_all else ret tt
   else ret tt) ;;;
  ret (command_result true MsgDamageReport).

(** COM - Library Computer.  The six functions read the state and format a
    report; [coords] are the four answers of the direction calculator,
    already decremented, [None] when [int()] rejects one. *)
Definition execute_com (func_in : option Z) (coords : option (Z * Z * Z * Z)) : M World CommandResult :=
  e <- gets enterprise ;;
  if negb (Enterprise.can_use_computer e) then ret (command_result false MsgComputerDamaged)
  else
    match func_in with
    | None => ret (command_result false MsgInvalidFunction)
    | Some func =>
        if func =? 0 then
          map_m (fun r => map_m (fun c => zoom the_galaxy (Galaxy.get_quadrant r c)) (range 8))
                (range 8) ;;;
          ret (command_result true MsgComputerReport)
        else if func =? 1 then ret (command_result true MsgComputerReport)
        else if func =? 2 then
          quadrant <- get_current_quadrant ;;
          with_quadrant quadrant (gets (fun s => Quadrant.klingon_ships (snd s))) ;;;
          ret (command_result true MsgComputerReport)
        else if func =? 3 then
          quadrant <- get_current_quadrant ;;
          with_quadrant quadrant (gets (fun s => Quadrant.starbase_pos (snd s))) ;;;
          ret (command_result true MsgComputerReport)
        else if func =? 4 then
          match coords with
          | None => ret (command_result false MsgInvalidCoordinates)
          | Some (r1, c1, r2, c2) =>
              if Quadrant.in_sector_bounds r1 c1 && Quadrant.in_sector_bounds r2 c2 then
                ret (command_result true MsgComputerReport)
              else ret (command_result false MsgInvalidCoordinates)
          end
        else if func =? 5 then ret (command_result true MsgComputerReport)
        else ret (command_result false MsgInvalidFunction)
    end.

(** XXX - Exit game. *)
Definition execute_xxx (answer_yes : bool) : M World CommandResult :=
  if answer_yes then ret (MkCommandResult true MsgGameTerminated 0%float false true)
  else ret (command_result true MsgReturningToGame).

(** Process Klingon counter-attack. *)
Definition process_klingon_attack : M World unit :=
  quadrant <- get_current_quadrant ;;
  q <- with_quadrant quadrant (gets snd) ;;
  e <- gets enterprise ;;
  if (0 <? Quadrant.klingons q) && negb (Enterprise.docked e) then
    zoom ship_and_random (klingon_attack q)
  else ret tt.

(** ** startrek.py and ui/display.py: the operations of a game turn *)

(** Initialize a new game: a fresh galaxy and ship, the ship placed in a
    random starting position. *)
Definition initialize_game (fuel : nat) : M World unit :=
  g <- zoom the_random (Galaxy.new fuel) ;;
  zoom the_galaxy (put g) ;;;
  zoom the_ship (put Enterprise.new) ;;;
  start_quad_row <- zoom the_random (random_randint 0 7) ;;
  start_quad_col <- zoom the_random (random_randint 0 7) ;;
  start_sect_row <- zoom the_random (random_randint 0 7) ;;
  start_sect_col <- zoom the_random (random_randint 0 7) ;;
  start_quadrant <- zoom the_galaxy (Galaxy.get_quadrant start_quad_row start_quad_col) ;;
  with_quadrant start_quadrant (zoom quadrant_random (Quadrant.initialize_sector_map fuel)) ;;;
  actual <- with_quadrant start_quadrant
              (zoom quadrant_random (Quadrant.place_enterprise fuel start_sect_row start_sect_col)) ;;
  zoom the_ship (Enterprise.set_position start_quad_row start_quad_col (fst actual) (snd actual)) ;;;
  with_quadrant start_quadrant (zoom quadrant_only (modify (Quadrant.set_scanned true))).

(** The state changes of [Display.print_short_range_scan]: the sector map
    of the current quadrant is built if it is missing. *)
Definition print_short_range_scan (fuel : nat) : M World unit :=
  quadrant <- get_current_quadrant ;;
  m <- with_quadrant quadrant (gets (fun s => Quadrant.sector_map (snd s))) ;;
  match m with
  | [] =>
      with_quadrant quadrant (zoom quadrant_random (Quadrant.initialize_sector_map fuel)) ;;;
      e <- gets enterprise ;;
      with_quadrant quadrant
        (zoom quadrant_random
           (Quadrant.place_enterprise fuel (Enterprise.sector_row e) (Enterprise.sector_col e))) ;;;
      ret tt
  | _ => ret tt
  end.

(** The state changes of [Display.print_combined_display]: as above, then a
    long-range scan around the ship. *)
Definition print_combined_display (fuel : nat) : M World unit :=
  print_short_range_scan fuel ;;;
  e <- gets enterprise ;;
  zoom the_galaxy
    (Galaxy.get_lrs_data (Enterprise.quadrant_row e) (Enterprise.quadrant_col e)) ;;;
  ret tt.

(** A command of the game loop, with the answers the player gives to its
    prompts. *)
Inductive Command : Type :=
| NAV (course warp : option float)
| SRS
| LRS
| PHA (energy : option Z)
| TOR (direction : option float)
| SHE (energy : option Z)
| DAM (answer_yes : bool)
| COM (func : option Z) (coords : option (Z * Z * Z * Z))
| XXX (answer_yes : bool).

(** [StarTrekGame.execute_command] on a recognised command. *)
Definition execute_command (fuel : nat) (c : Command) : M World CommandResult :=
  match c with
  | NAV course warp => execute_nav fuel course warp
  | SRS => execute_srs
  | LRS => execute_lrs
  | PHA energy => execute_pha energy
  | TOR direction => execute_tor direction
  | SHE energy => execute_she energy
  | DAM answer_yes => execute_dam answer_yes
  | COM func coords => execute_com func coords
  | XXX answer_yes => execute_xxx answer_yes
  end.

(** What the game loop does with the result of a command: time passes,
    systems are repaired, the Klingons fire back. *)
Definition after_command (result : CommandResult) : M World unit :=
  (if (0 <? time_used result)%float then
     zoom the_galaxy (Galaxy.advance_time (time_used result)) ;;;
     zoom the_ship (Enterprise.repair_systems (time_used result)) ;;;
     ret tt
   else ret tt) ;;;
  if trigger_klingon_attack result then process_klingon_attack else ret tt.

(** * Reasoning about computations *)

(** [returns m s Q]: from [s] the computation returns normally, with a
    value and a state that satisfy [Q]. *)
Definition returns {S A} (m : M S A) (s : S) (Q : A -> S -> Prop) : Prop :=
  exists a s', m s = Ret a s' /\ Q a s'.

(** [raises m s E]: from [s] the computation raises an exception, with a
    state that satisfies [E]. *)
Definition raises {S A} (m : M S A) (s : S) (E : PyExn -> S -> Prop) : Prop :=
  exists e s', m s = Raise e s' /\ E e s'.

(** [ensures m s Q E]: a normal outcome from [s] satisfies [Q] and an
    exceptional one satisfies [E]. *)
Definition ensures {S A} (m : M S A) (s : S)
    (Q : A -> S -> Prop) (E : PyExn -> S -> Prop) : Prop :=
  match m s with
  | Ret a s' => Q a s'
  | Raise e s' => E e s'
  | OutOfFuel => True
  end.

(** The stream after one draw. *)
Definition advance (g : Rng) : Rng := MkRng (draws g) (Datatypes.S (cursor g)).

(** [preserves obs m]: whatever the outcome of [m], normal or exceptional,
    the observation [obs] of the state is the same after as before. *)
Definition preserves {S A X} (obs : S -> X) (m : M S A) : Prop :=
  forall s, ensures m s (fun _ s' => obs s' = obs s) (fun _ s' => obs s' = obs s).

(** Observations of the states the operations run on, built from an
    observation [gobs] of the galaxy and an observation [qobs] of a
    quadrant. *)
Definition world_obs {X} (gobs : Galaxy.t -> X) (w : World) : X := gobs (galaxy w).
Definition taken_obs {X Y} (gobs : Galaxy.t -> X) (qobs : Quadrant.t -> Y)
    (s : World * Quadrant.t) : X * Y :=
  (gobs (galaxy (fst s)), qobs (snd s)).
Definition taken_object_obs {X Y} (gobs : Galaxy.t -> X) (qobs : Quadrant.t -> Y)
    (s : World * option Quadrant.t) : X * option Y :=
  (gobs (galaxy (fst s)), qobs <$> snd s).
Definition quadrant_random_obs {Y} (qobs : Quadrant.t -> Y) (s : Quadrant.t * Rng) : Y :=
  qobs (fst s).
Definition combat_obs {Y} (qobs : Quadrant.t -> Y) (s : Combat.St) : Y := qobs (snd (fst s)).
Definition object_obs {Y} (qobs : Quadrant.t -> Y) (s : Enterprise.t * option Quadrant.t)
  : option Y :=
  qobs <$> snd s.

(** The position a Python index denotes in a sequence of length [n]. *)
Definition py_pos (n : nat) (i : Z) : option nat :=
  if (0 <=? i) && (i <? Z.of_nat n) then Some (Z.to_nat i)
  else if (- Z.of_nat n <=? i) && (i <? 0) then Some (Z.to_nat (Z.of_nat n + i))
  else None.

(** * Well-formedness predicates and concrete inputs *)

(** Every system has an entry in the damage map, as [__post_init__] and
    [reset] establish. *)
Definition damage_map_complete (e : Enterprise.t) : Prop :=
  forall s : ShipSystem, is_Some (Enterprise.damage e !! s).

(** A concrete random stream (a 64-bit mixing function of the index). *)
Definition mix (n : nat) : Z :=
  let z := (Z.of_nat n + 1) * 0x9E3779B97F4A7C15 mod 2 ^ 64 in
  let z := (Z.lxor z (Z.shiftr z 30)) * 0xBF58476D1CE4E5B9 mod 2 ^ 64 in
  let z := (Z.lxor z (Z.shiftr z 27)) * 0x94D049BB133111EB mod 2 ^ 64 in
  Z.lxor z (Z.shiftr z 31).

(** Its first 400 draws as a table; the stream read from the table is
    zero afterwards. *)
Definition mix_table : list Z := Eval vm_compute in map mix (seq 0 400).

Definition mix_stream (n : nat) : Z := nth n mix_table 0.

Definition mix_rng : Rng := MkRng mix_stream 0.

(** A ship with 100 units in the shields. *)
Definition shielded_ship : Enterprise.t := Enterprise.set_shields 100 Enterprise.new.

(** The galaxy object as [Galaxy.__init__] creates it before [_initialize]. *)
Definition blank_galaxy : Galaxy.t := Galaxy.mk [] 0 0 0 0%float 0.

(** An 8x8 sector map with a single entity. *)
Definition empty_sector_map : list (list EntityType) := replicate 8 (replicate 8 EMPTY).

Definition sector_map_with (r c : nat) (e : EntityType) : list (list EntityType) :=
  <[r := <[c := e]> (replicate 8 EMPTY)]> empty_sector_map.

(** A quadrant whose only entity is a Klingon at row 7, column 3. *)
Definition klingon_quadrant : Quadrant.t :=
  Quadrant.mk 0 0 1 0 0 false (sector_map_with 7 3 KLINGON) [Klingon.mk 7 3 400] None [].

(** The handler's objects before a game is set up. *)
Definition blank_world : World := MkWorld blank_galaxy Enterprise.new mix_rng.

(** The game set up from the stream [mix_stream]. *)
Definition new_game_world : World :=
  Eval vm_compute in
    match initialize_game 100 blank_world with
    | Ret _ w => w
    | _ => blank_world
    end.

(** Sum of a count over a list, and of a per-quadrant count over all the
    quadrants of the galaxy. *)
Definition sum_with {A} (f : A -> Z) (l : list A) : Z := foldr (fun a acc => f a + acc) 0 l.

Definition galaxy_sum (f : Quadrant.t -> Z) (g : Galaxy.t) : Z :=
  sum_with (sum_with f) (Galaxy.quadrants g).

(** The quadrant stored at [(r, c)], if any. *)
Definition quadrant_at (g : Galaxy.t) (r c : Z) : option Quadrant.t :=
  py_index2 (Galaxy.quadrants g) r c.

(** The scanned flags of the galaxy, quadrant by quadrant. *)
Definition scanned_view (g : Galaxy.t) : list (list bool) :=
  fmap (M := list) Quadrant.scanned <$> Galaxy.quadrants g.

(** Every coordinate pair of the 8x8 galaxy has its quadrant. *)
Definition galaxy_grid_ok (g : Galaxy.t) : Prop :=
  forall r c, Galaxy.in_bounds r c = true -> is_Some (quadrant_at g r c).

(** The 3x3 block around a centre. *)
Definition in_block (center_row center_col r c : Z) : bool :=
  (Z.abs (r - center_row) <=? 1) && (Z.abs (c - center_col) <=? 1).

(** The galaxy with the quadrant at [(r, c)] marked scanned, when there is
    one inside the galaxy. *)
Definition mark_scanned (g : Galaxy.t) (rc : Z * Z) : Galaxy.t :=
  if Galaxy.in_bounds (fst rc) (snd rc) then
    match quadrant_at g (fst rc) (snd rc) with
    | Some q => Galaxy.store_quadrant (fst rc) (snd rc) (Quadrant.set_scanned true q) g
    | None => g
    end
  else g.

(** The value the scan reports for a cell. *)
Definition lrs_cell (g : Galaxy.t) (r c : Z) : option Z :=
  if Galaxy.in_bounds r c then Quadrant.get_lrs_value <$> quadrant_at g r c else None.

(** The nine cells of a scan, in the order they are visited, and the grid
    of values reported. *)
Definition block_cells (center_row center_col : Z) : list (Z * Z) :=
  dr ← [-1; 0; 1]; dc ← [-1; 0; 1]; [(center_row + dr, center_col + dc)].

Definition lrs_block (g : Galaxy.t) (center_row center_col : Z) : list (list (option Z)) :=
  (fun dr => (fun dc => lrs_cell g (center_row + dr) (center_col + dc)) <$> [-1; 0; 1])
    <$> [-1; 0; 1].

(** The local variables of the movement loop of [execute_nav] when the loop
    starts. *)
Definition nav_start (e : Enterprise.t) : NavPos :=
  MkNavPos (Z2F (Enterprise.sector_row e)) (Z2F (Enterprise.sector_col e))
           (Enterprise.quadrant_row e) (Enterprise.quadrant_col e) false.

(** Within [steps] sector steps along [(dr, dc)] from [p], the stepping takes
    a quadrant coordinate outside [[0, 8)]. *)
Definition crosses_barrier (steps : nat) (dr dc : float) (p : NavPos) : Prop :=
  exists k, (k < steps)%nat /\ outside_galaxy (Nat.iter (S k) (nav_advance dr dc) p) = true.

(** The counters of the galaxy agree with the quadrants: every coordinate
    pair has its quadrant, no quadrant has a negative starbase count, and the
    two galaxy-wide counters are the sums of the per-quadrant counts. *)
Definition counters_consistent (g : Galaxy.t) : Prop :=
  galaxy_grid_ok g /\
  Forall (Forall (fun q => 0 <= Quadrant.starbases q)) (Galaxy.quadrants g) /\
  Galaxy.total_klingons g = galaxy_sum Quadrant.klingons g /\
  Galaxy.total_starbases g = galaxy_sum Quadrant.starbases g.

(** The quadrant at [(r, c)] is as [Quadrant(r, c)] leaves its counts. *)
Definition fresh_quadrant (g : Galaxy.t) (r c : Z) : Prop :=
  exists q, quadrant_at g r c = Some q /\ Quadrant.klingons q = 0 /\ Quadrant.starbases q = 0.

(** A stream on which the hostile top-up never ends: every draw is [2^52],
    so [random()] is 0.5 and every [randint(0, 7)] is 0. *)
Definition stuck_stream (n : nat) : Z := 2 ^ 52.

Definition stuck_rng : Rng := MkRng stuck_stream 0.

(** The states the top-up loop goes through on [stuck_stream]: every
    hostile counted so far is in quadrant (0, 0), which holds at most 3. *)
Definition stuck_loop (s : Galaxy.t * Rng) : Prop :=
  draws (snd s) = stuck_stream /\
  exists q, quadrant_at (fst s) 0 0 = Some q /\
            Galaxy.total_klingons (fst s) = Quadrant.klingons q /\
            Quadrant.klingons q <= 3.

(** The number of quadrants in each row of the galaxy grid. *)
Definition grid_shape (g : Galaxy.t) : list nat := map length (Galaxy.quadrants g).

(** The galaxy built by [Galaxy()] from the stream [mix_stream], and the
    stream it leaves. *)
Definition mix_galaxy : Galaxy.t :=
  Eval vm_compute in
    match Galaxy.new 100 mix_rng with
    | Ret g _ => g
    | _ => blank_galaxy
    end.

Definition mix_galaxy_cursor : nat :=
  Eval vm_compute in
    match Galaxy.new 100 mix_rng with
    | Ret _ rng => cursor rng
    | _ => 0%nat
    end.

(** The galaxy when the generation loops start: 8x8 new quadrants, both
    counters at 0. *)
Definition generation_start (g : Galaxy.t) : Galaxy.t :=
  Galaxy.set_total_starbases 0
    (Galaxy.set_total_klingons 0
       (Galaxy.set_quadrants
          (map (fun r => map (fun c => Quadrant.new r c) (range 8)) (range 8)) g)).

(** ** Directions *)

(** [math.pi / 2] as a double. *)
Definition half_pi : float := 0x1.921fb54442d18p+0%float.

(** [math.pi / 4] and [3 * math.pi / 4] as doubles. *)
Definition quarter_pi : float := 0x1.921fb54442d18p-1%float.
Definition three_quarter_pi : float := 0x1.2d97c7f3321d2p+1%float.

(** What is assumed of the C library's [atan2].  The C standard (Annex F)
    fixes it on the two half-axes the compass is anchored on: [atan2(+0, x)]
    is [+0] for [x > 0], and [atan2(y, +0)] is pi/2, the nearest double,
    for [y > 0].  Its range is the interval from -pi to pi (C99 7.12.4.4),
    and the returned double stays between the doubles nearest to the two
    ends whenever no argument is a NaN. *)
Definition c99_atan2 (f : float -> float -> float) : Prop :=
  (forall x, (0 <? x)%float = true -> f 0%float x = 0%float) /\
  (forall y, (0 <? y)%float = true -> f y 0%float = half_pi) /\
  (forall y x, is_nan y = false -> is_nan x = false ->
     (- math_pi <=? f y x)%float = true /\ (f y x <=? math_pi)%float = true).

(** A coarse [atan2]: the values of [atan2] on the four half-axes, the
    diagonal of the quadrant off the axes, zero at the origin, and not a
    number for an argument that is not a number. *)
Definition atan2_on_axes (y x : float) : float :=
  if (is_nan y || is_nan x)%bool then nan
  else if ((y =? 0) && (0 <? x))%float then y
  else if ((y =? 0) && (x <? 0))%float then math_pi
  else if ((x =? 0) && (0 <? y))%float then half_pi
  else if ((x =? 0) && (y <? 0))%float then (- half_pi)%float
  else if (0 <? x)%float then (if (0 <? y)%float then quarter_pi else - quarter_pi)%float
  else if (x <? 0)%float
       then (if (0 <? y)%float then three_quarter_pi else - three_quarter_pi)%float
  else 0%float.

(** The wrap into the compass range: add 8 below 1, then take 8 off above 9. *)
Definition wrap_direction (d : float) : float :=
  let d := if (d <? 1)%float then (d + 8)%float else d in
  if (9 <? d)%float then (d - 8)%float else d.

(** The direction from one sector to another, as the specification words
    it: the same position is 1.0; otherwise the angle of the delta, with
    the row negated, scaled by 4/pi from 1 and wrapped. *)
Definition direction_to (atan2 : float -> float -> float)
    (from_r from_c to_r to_c : Z) : float :=
  if (to_r =? from_r) && (to_c =? from_c) then 1.0%float
  else
    wrap_direction
      (1.0 + atan2 (Z2F (- (to_r - from_r))) (Z2F (to_c - from_c)) * 4.0 / math_pi)%float.

(** The same computation on the reals, with the mathematical [atan2]. *)
Definition atan2_R (y x : R) : R :=
  if Rlt_dec 0 x then atan (y / x)
  else if Rlt_dec x 0 then
    (if Rle_dec 0 y then atan (y / x) + PI else atan (y / x) - PI)
  else if Rlt_dec 0 y then PI / 2
  else if Rlt_dec y 0 then - (PI / 2)
  else 0.

Definition wrap_direction_R (d : R) : R :=
  let d := if Rlt_dec d 1 then (d + 8)%R else d in
  if Rlt_dec 9 d then (d - 8)%R else d.

Definition direction_to_R (from_r from_c to_r to_c : Z) : R :=
  if (to_r =? from_r) && (to_c =? from_c) then 1%R
  else
    wrap_direction_R
      (1 + atan2_R (IZR (- (to_r - from_r))) (IZR (to_c - from_c)) * 4 / PI)%R.

(** ** Binary rounding *)

(** The real value of a power of two, of a number of the format and of a
    double (zero for an infinity and for a NaN). *)
Definition bpow (e : Z) : R := powerRZ 2 e.

Definition SF2R (x : spec_float) : R :=
  match x with
  | S754_finite s m e => if s then (- (IZR (Zpos m) * bpow e))%R else (IZR (Zpos m) * bpow e)%R
  | _ => 0%R
  end.

Definition F2R (x : float) : R := SF2R (Prim2SF x).

Definition is_fin (x : spec_float) : bool :=
  match x with
  | S754_zero _ | S754_finite _ _ _ => true
  | _ => false
  end.

Definition finite (x : float) : Prop := is_fin (Prim2SF x) = true.

(** The number [v] lies in the slice of width [2^e] that starts at
    [m * 2^e], at its start exactly when the location says so. *)
Definition inb (m e : Z) (l : location) (v : R) : Prop :=
  (IZR m * bpow e <= v < IZR (m + 1) * bpow e)%R /\
  (l = loc_Exact <-> v = (IZR m * bpow e)%R).

(** A shifted mantissa that has lost no bit, and the shift of a record by
    [k] places. *)
Definition exact_rec (mrs : shr_record) : Prop := shr_r mrs = false /\ shr_s mrs = false.

Definition shr_rel (k : Z) (x y : shr_record) : Prop :=
  shr_m y = shr_m x / 2 ^ k /\ (exact_rec y <-> exact_rec x /\ shr_m x mod 2 ^ k = 0).

(** * Further properties of the engine: definitions *)

(** [finishes m]: from no state does [m] exhaust the fuel of a loop; it
    returns or raises. *)
Definition finishes {S A} (m : M S A) : Prop := forall s, m s <> OutOfFuel.

(** ** The ship *)

(** The rate of [repair_systems]: 1.0 per day at a starbase, 0.1 away. *)
Definition repair_rate (e : Enterprise.t) : float :=
  if Enterprise.docked e then 1.0%float else 0.1%float.

(** What a time [t] of repairs at [rate] makes of a damage value [d]. *)
Definition repaired_value (rate t d : float) : float :=
  if (d <? 0)%float then
    let d' := (d + rate * t)%float in
    if (0 <=? d')%float then 0%float else d'
  else d.

(** Whether the repairs bring a damaged system back. *)
Definition is_repaired (rate t d : float) : bool :=
  ((d <? 0) && (0 <=? d + rate * t))%float.

(** The systems of [l] the repairs bring back, read off a damage map. *)
Definition repaired_systems (rate t : float) (dm : gmap ShipSystem float)
    (l : list ShipSystem) : list ShipSystem :=
  filter (fun s => is_repaired rate t (default 0%float (dm !! s)) = true) l.

(** The body of the loop of [repair_systems], for the system [s]. *)
Definition repair_one (rate t : float) (s : ShipSystem) : M Enterprise.t (list ShipSystem) :=
  e <- get ;;
  d <- expect KeyError (Enterprise.damage e !! s) ;;
  if (d <? 0)%float then
    let d' := (d + rate * t)%float in
    modify (Enterprise.set_damage (<[s := d']> (Enterprise.damage e))) ;;;
    if (0 <=? d')%float then
      modify (fun e => Enterprise.set_damage (<[s := 0%float]> (Enterprise.damage e)) e) ;;;
      ret [s]
    else ret []
  else ret [].

(** A ship whose warp engines need 2.5 days of repairs and whose phasers
    need half a day. *)
Definition damaged_ship : Enterprise.t :=
  Enterprise.set_damage
    (<[WARP_ENGINES := (-2.5)%float]> (<[PHASER_CONTROL := (-0.5)%float]>
       Enterprise.all_operational))
    Enterprise.new.

(** A ship built with a partial damage dictionary, which [__post_init__]
    leaves as it is. *)
Definition partial_ship : Enterprise.t :=
  Enterprise.set_damage (<[WARP_ENGINES := (-1.0)%float]> ∅) Enterprise.new.

(** ** The counters of the galaxy *)

(** What the galaxy-wide hostile counter has in excess of the hostiles
    counted quadrant by quadrant: 0 in a generated galaxy. *)
Definition klingon_balance (w : World) : Z :=
  Galaxy.total_klingons (galaxy w) - galaxy_sum Quadrant.klingons (galaxy w).

(** The ships of a quadrant that are not at [(r, c)]. *)
Definition ships_elsewhere (r c : Z) (ships : list Klingon.t) : list Klingon.t :=
  filter (fun k => negb ((Klingon.sector_row k =? r) && (Klingon.sector_col k =? c)) = true) ships.

(** The quadrant of [mix_galaxy] that holds its starbase. *)
Definition mix_starbase_quadrant : Quadrant.t :=
  Eval vm_compute in
    match quadrant_at mix_galaxy 1 6 with
    | Some q => q
    | None => Quadrant.new 1 6
    end.

(** ** Sector maps *)

(** A sector map of 8 rows of 8 cells. *)
Definition map_8x8 (m : list (list EntityType)) : Prop := map length m = replicate 8 8%nat.

(** A position inside a quadrant. *)
Definition in_sector (p : Z * Z) : Prop := 0 <= fst p < 8 /\ 0 <= snd p < 8.

(** The cell of a map at a position. *)
Definition cell_of (m : list (list EntityType)) (p : Z * Z) : option EntityType :=
  py_index2 m (fst p) (snd p).

Definition ship_pos (k : Klingon.t) : Z * Z := (Klingon.sector_row k, Klingon.sector_col k).

(** The positions [ps] recorded for the entities of one kind are exactly
    the cells of the map that hold that kind, each recorded once. *)
Definition records_match (m : list (list EntityType)) (kind : EntityType)
    (ps : list (Z * Z)) : Prop :=
  NoDup ps /\
  (forall p, p ∈ ps -> in_sector p /\ cell_of m p = Some kind) /\
  (forall p, in_sector p -> cell_of m p = Some kind -> p ∈ ps).

Definition starbase_list (q : Quadrant.t) : list (Z * Z) :=
  match Quadrant.starbase_pos q with Some p => [p] | None => [] end.

(** The sector map of a quadrant agrees with its records: the hostile
    ships, the starbase position and the star positions are where the map
    shows a Klingon, a starbase and a star, and the hostile count is the
    number of ships. *)
Definition sectors_consistent (q : Quadrant.t) : Prop :=
  map_8x8 (Quadrant.sector_map q) /\
  records_match (Quadrant.sector_map q) KLINGON (ship_pos <$> Quadrant.klingon_ships q) /\
  records_match (Quadrant.sector_map q) STARBASE (starbase_list q) /\
  records_match (Quadrant.sector_map q) STAR (Quadrant.star_positions q) /\
  length (Quadrant.klingon_ships q) = Z.to_nat (Quadrant.klingons q).

(** The [k]-th sector a search for an empty sector looks at: two draws of
    the stream per look. *)
Definition probe (rng : Rng) (k : nat) : Z * Z :=
  (draws rng (2 * k + cursor rng)%nat mod 8, draws rng (S (2 * k + cursor rng)) mod 8).

(** The stream after [n] draws. *)
Definition skip (n : nat) (rng : Rng) : Rng := MkRng (draws rng) (n + cursor rng).

(** A quadrant with two hostiles, a starbase and three stars, before its
    sector map is built. *)
Definition busy_quadrant : Quadrant.t :=
  Quadrant.set_stars 3 (Quadrant.set_starbases 1 (Quadrant.set_klingons 2 (Quadrant.new 2 5))).

(** Its sector map as built from the stream [mix_stream]. *)
Definition busy_sectors : Quadrant.t :=
  Eval vm_compute in
    match Quadrant.initialize_sector_map 100 (busy_quadrant, mix_rng) with
    | Ret _ s => fst s
    | _ => busy_quadrant
    end.

Definition busy_sectors_cursor : nat :=
  Eval vm_compute in
    match Quadrant.initialize_sector_map 100 (busy_quadrant, mix_rng) with
    | Ret _ s => cursor (snd s)
    | _ => 0%nat
    end.

(** The fields of a quadrant that building its sector map leaves alone. *)
Definition same_counts (q0 q : Quadrant.t) : Prop :=
  Quadrant.row q = Quadrant.row q0 /\ Quadrant.col q = Quadrant.col q0 /\
  Quadrant.klingons q = Quadrant.klingons q0 /\
  Quadrant.starbases q = Quadrant.starbases q0 /\
  Quadrant.stars q = Quadrant.stars q0 /\
  Quadrant.scanned q = Quadrant.scanned q0.

(** The state of [initialize_sector_map] on the quadrant [q0] after [nk]
    hostile ships and [ns] stars have been placed. *)
Definition building (q0 : Quadrant.t) (nk ns : nat) (s : Quadrant.t * Rng) : Prop :=
  map_8x8 (Quadrant.sector_map (fst s)) /\
  records_match (Quadrant.sector_map (fst s)) KLINGON (ship_pos <$> Quadrant.klingon_ships (fst s)) /\
  records_match (Quadrant.sector_map (fst s)) STARBASE (starbase_list (fst s)) /\
  records_match (Quadrant.sector_map (fst s)) STAR (Quadrant.star_positions (fst s)) /\
  records_match (Quadrant.sector_map (fst s)) ENTERPRISE [] /\
  length (Quadrant.klingon_ships (fst s)) = nk /\
  length (Quadrant.star_positions (fst s)) = ns /\
  Forall (fun k => 300 <= Klingon.energy k <= 599) (Quadrant.klingon_ships (fst s)) /\
  same_counts q0 (fst s).

(** The stream left by the building of [busy_sectors]. *)
Definition busy_rng : Rng := MkRng mix_stream busy_sectors_cursor.

(** The ship placed in [busy_sectors], asked for the sector (7, 4), where
    a Klingon is: the position it gets and the quadrant with the ship. *)
Definition busy_placed : (Z * Z) * Quadrant.t :=
  Eval vm_compute in
    match Quadrant.place_enterprise 100 7 4 (busy_sectors, busy_rng) with
    | Ret p s => (p, fst s)
    | _ => ((7, 4), busy_sectors)
    end.

Definition busy_placed_cursor : nat :=
  Eval vm_compute in
    match Quadrant.place_enterprise 100 7 4 (busy_sectors, busy_rng) with
    | Ret _ s => cursor (snd s)
    | _ => 0%nat
    end.

(** ** Phasers *)

(** A hostile ship with the damage a phaser volley deals to it: it is
    destroyed when the damage reaches its energy, and is left with the rest
    of its energy otherwise. *)
Definition phaser_destroys (kd : Klingon.t * Z) : bool := Klingon.energy (fst kd) <=? snd kd.

Definition weakened (kd : Klingon.t * Z) : Klingon.t :=
  Klingon.set_energy (Klingon.energy (fst kd) - snd kd) (fst kd).

(** The ships as the loop over the hostiles leaves them: the destroyed
    ones are still in the list, untouched. *)
Definition after_hits (ships : list Klingon.t) (ds : list Z) : list Klingon.t :=
  (fun kd => if phaser_destroys kd then fst kd else weakened kd) <$> zip ships ds.

(** The ships a volley destroys and the ships it leaves, for the damages
    [ds] dealt to the ships in order. *)
Definition phaser_kills (ships : list Klingon.t) (ds : list Z) : list (Klingon.t * Z) :=
  filter (fun kd => phaser_destroys kd = true) (zip ships ds).

Definition phaser_survivors (ships : list Klingon.t) (ds : list Z) : list Klingon.t :=
  omap (fun kd => if phaser_destroys kd then None else Some (weakened kd)) (zip ships ds).

(** The map [m'] is the map [m] with the sectors [ps] emptied. *)
Definition cleared_at (ps : list (Z * Z)) (m m' : list (list EntityType)) : Prop :=
  map_8x8 m' /\
  (forall p, p ∈ ps -> cell_of m' p = Some EMPTY) /\
  (forall p, in_sector p -> p ∉ ps -> cell_of m' p = cell_of m p).

(** The fields of a quadrant that the loss of hostile ships leaves alone. *)
Definition same_but_hostiles (q q' : Quadrant.t) : Prop :=
  Quadrant.row q' = Quadrant.row q /\ Quadrant.col q' = Quadrant.col q /\
  Quadrant.starbases q' = Quadrant.starbases q /\ Quadrant.stars q' = Quadrant.stars q /\
  Quadrant.scanned q' = Quadrant.scanned q /\
  Quadrant.starbase_pos q' = Quadrant.starbase_pos q /\
  Quadrant.star_positions q' = Quadrant.star_positions q.

(** The quadrant [q'] is [q] without the hostile ships on the sectors [ps]. *)
Definition hostiles_removed (ps : list (Z * Z)) (q q' : Quadrant.t) : Prop :=
  sectors_consistent q' /\
  Quadrant.klingons q' = Quadrant.klingons q - Z.of_nat (length ps) /\
  Quadrant.klingon_ships q' =
    filter (fun k => ship_pos k ∉ ps) (Quadrant.klingon_ships q) /\
  cleared_at ps (Quadrant.sector_map q) (Quadrant.sector_map q') /\
  same_but_hostiles q q'.

(** The quadrant [q'] is [q] with other energies of its hostile ships. *)
Definition hostiles_in_place (q q' : Quadrant.t) : Prop :=
  exists ships,
    q' = Quadrant.set_klingon_ships ships q /\
    ship_pos <$> ships = ship_pos <$> Quadrant.klingon_ships q.

(** The state of the loop of [fire_phasers] over the hostile ships of the
    quadrant [q0] after [i] of them have been hit: [acc] holds the locals
    [damage_dealt], [klingons_to_remove] and [destroyed_count]. *)
Definition hits_done (e1 : Enterprise.t) (q0 : Quadrant.t) (i : nat)
    (acc : list (Z * Z * Z) * list Klingon.t * Z) (s : Combat.St) : Prop :=
  fst (fst s) = e1 /\
  exists done todo ds,
    Quadrant.klingon_ships q0 = done ++ todo /\ length done = i /\ length ds = i /\
    snd (fst s) = Quadrant.set_klingon_ships (after_hits done ds ++ todo) q0 /\
    fst (fst acc) = zip (ship_pos <$> done) ds /\
    snd (fst acc) = (phaser_kills done ds).*1 /\
    snd acc = Z.of_nat (length (phaser_kills done ds)).

Definition hits_interrupted (e1 : Enterprise.t) (q0 : Quadrant.t) (s : Combat.St) : Prop :=
  fst (fst s) = e1 /\ hostiles_in_place q0 (snd (fst s)).

(** The ship on the sector of [busy_placed], and a volley of 1000 units
    from there at the two hostile ships. *)
Definition busy_ship : Enterprise.t :=
  Eval vm_compute in
    match Enterprise.set_position 2 5 1 3 Enterprise.new with
    | Ret _ e => e
    | _ => Enterprise.new
    end.

Definition busy_placed_rng : Rng := MkRng mix_stream busy_placed_cursor.

Definition busy_volley : CombatResult * Combat.St :=
  Eval vm_compute in
    match fire_phasers 1000 ((busy_ship, snd busy_placed), busy_placed_rng) with
    | Ret res s => (res, s)
    | _ => (combat_result false MsgNone, ((busy_ship, snd busy_placed), busy_placed_rng))
    end.

(** The quadrant the ship is in, when it holds hostile ships, has a sector
    map that agrees with its records. *)
Definition current_quadrant_ok (w : World) : Prop :=
  forall q,
    quadrant_at (galaxy w) (Enterprise.quadrant_row (enterprise w))
                (Enterprise.quadrant_col (enterprise w)) = Some q ->
    Quadrant.klingon_ships q <> [] -> sectors_consistent q.

(** What the PHA command may have done to the world [w] when it leaves
    the world [w'], with [d] hostile ships destroyed and not yet counted
    off the galaxy-wide counter. *)
Definition phasers_fired (w : World) (d : Z) (w' : World) : Prop :=
  klingon_balance w' = klingon_balance w + d /\
  current_quadrant_ok w' /\
  exists v, enterprise w' = Enterprise.set_energy v (enterprise w).

(** A game with the ship in the quadrant of [busy_placed], and the PHA
    command with 1000 units there. *)
Definition busy_world : World :=
  MkWorld (Galaxy.store_quadrant 2 5 (snd busy_placed) mix_galaxy) busy_ship busy_placed_rng.

Definition busy_world_after_pha : CommandResult * World :=
  Eval vm_compute in
    match execute_pha (Some 1000) busy_world with
    | Ret res w => (res, w)
    | _ => (command_result false MsgNone, busy_world)
    end.

(** ** The generated galaxy *)

(** Every coordinate pair of the galaxy has its quadrant, and the quadrant
    at [(r, c)] satisfies [R r c]. *)
Definition each_quadrant (R : Z -> Z -> Quadrant.t -> Prop) (g : Galaxy.t) : Prop :=
  forall r c, 0 <= r < 8 -> 0 <= c < 8 -> exists q, quadrant_at g r c = Some q /\ R r c q.

(** A quadrant the ship has not been in: not scanned, without a sector
    map, and with no positions recorded. *)
Definition unvisited (q : Quadrant.t) : Prop :=
  Quadrant.scanned q = false /\ Quadrant.sector_map q = [] /\
  Quadrant.klingon_ships q = [] /\ Quadrant.starbase_pos q = None /\
  Quadrant.star_positions q = [].

(** The quadrant at [(r, c)] while the galaxy is generated. *)
Definition drawn_counts (r c : Z) (q : Quadrant.t) : Prop :=
  Quadrant.row q = r /\ Quadrant.col q = c /\
  0 <= Quadrant.klingons q <= 3 /\ 0 <= Quadrant.starbases q <= 1 /\
  0 <= Quadrant.stars q <= 8 /\ unvisited q.

(** The same, with the stars drawn for the coordinates in [D]. *)
Definition drawn_on (D : Z -> Z -> Prop) (r c : Z) (q : Quadrant.t) : Prop :=
  drawn_counts r c q /\ (D r c -> 1 <= Quadrant.stars q).

(** The quadrant at [(r, c)] of a generated galaxy. *)
Definition generated_quadrant (r c : Z) (q : Quadrant.t) : Prop :=
  drawn_counts r c q /\ 1 <= Quadrant.stars q.

(** The fields of a quadrant other than its three counts. *)
Definition same_but_counts (q q' : Quadrant.t) : Prop :=
  Quadrant.row q' = Quadrant.row q /\ Quadrant.col q' = Quadrant.col q /\
  Quadrant.scanned q' = Quadrant.scanned q /\
  Quadrant.sector_map q' = Quadrant.sector_map q /\
  Quadrant.klingon_ships q' = Quadrant.klingon_ships q /\
  Quadrant.starbase_pos q' = Quadrant.starbase_pos q /\
  Quadrant.star_positions q' = Quadrant.star_positions q.

(** ** The ship in the galaxy *)

Definition ship_sector (e : Enterprise.t) : Z * Z :=
  (Enterprise.sector_row e, Enterprise.sector_col e).

(** The ship is in a quadrant of the galaxy whose sector map agrees with
    its records and shows the ship on its sector, and nowhere else. *)
Definition ship_on_map (w : World) : Prop :=
  0 <= Enterprise.quadrant_row (enterprise w) < 8 /\
  0 <= Enterprise.quadrant_col (enterprise w) < 8 /\
  exists q,
    quadrant_at (galaxy w) (Enterprise.quadrant_row (enterprise w))
                (Enterprise.quadrant_col (enterprise w)) = Some q /\
    sectors_consistent q /\
    records_match (Quadrant.sector_map q) ENTERPRISE [ship_sector (enterprise w)].

(** The ship as [Enterprise()] makes it, at a position. *)
Definition new_ship_at (qr qc sr sc : Z) : Enterprise.t :=
  Enterprise.mk qr qc sr sc 3000 3000 10 10 0 false false Enterprise.all_operational.

(** The state of a game that has just been set up. *)
Definition game_started (w : World) : Prop :=
  ship_on_map w /\
  counters_consistent (galaxy w) /\
  10 <= Galaxy.total_klingons (galaxy w) /\
  1 <= Galaxy.total_starbases (galaxy w) /\
  enterprise w =
    new_ship_at (Enterprise.quadrant_row (enterprise w)) (Enterprise.quadrant_col (enterprise w))
                (Enterprise.sector_row (enterprise w)) (Enterprise.sector_col (enterprise w)) /\
  each_quadrant
    (fun r c q =>
       0 <= Quadrant.klingons q <= 3 /\ 0 <= Quadrant.starbases q <= 1 /\
       1 <= Quadrant.stars q <= 8 /\
       if decide ((r, c) = (Enterprise.quadrant_row (enterprise w),
                            Enterprise.quadrant_col (enterprise w)))
       then Quadrant.scanned q = true
       else unvisited q)
    (galaxy w).

(** ** Navigation *)

(** The counters of the galaxy and the sums of the counts of its
    quadrants. *)
Definition galaxy_totals (g : Galaxy.t) : Z * Z * Z * Z * Z :=
  (Galaxy.total_klingons g, Galaxy.total_starbases g,
   galaxy_sum Quadrant.klingons g, galaxy_sum Quadrant.starbases g,
   galaxy_sum Quadrant.stars g).

(** The world [w'] is the galaxy [g] with the ship [e] standing on the
    sector [p] of the quadrant [(r, c)], whose counts are as they were. *)
Definition placed_at (g : Galaxy.t) (e : Enterprise.t) (r c : Z) (p : Z * Z) (w' : World) : Prop :=
  exists q0 q' rn',
    quadrant_at g r c = Some q0 /\
    w' = MkWorld (Galaxy.store_quadrant r c q' g) e rn' /\
    same_counts q0 q' /\
    sectors_consistent q' /\
    records_match (Quadrant.sector_map q') ENTERPRISE [p].

(** What a completed navigation of [n] sectors has done to the ship [e]
    when it leaves the ship [e'] in the quadrant [q']. *)
Definition ship_moved (n : Z) (e e' : Enterprise.t) (q' : Quadrant.t) : Prop :=
  Enterprise.max_energy e' = Enterprise.max_energy e /\
  Enterprise.max_torpedoes e' = Enterprise.max_torpedoes e /\
  Enterprise.destroyed e' = Enterprise.destroyed e /\
  Enterprise.damage e' = Enterprise.damage e /\
  Enterprise.docked e' =
    Quadrant.is_adjacent_to_starbase q' (Enterprise.sector_row e') (Enterprise.sector_col e') /\
  if Enterprise.docked e'
  then Enterprise.energy e' = Enterprise.max_energy e /\
       Enterprise.torpedoes e' = Enterprise.max_torpedoes e /\
       Enterprise.shields e' = 0
  else Enterprise.energy e' = Enterprise.energy e - (n + 10) /\
       Enterprise.torpedoes e' = Enterprise.torpedoes e /\
       Enterprise.shields e' = Enterprise.shields e.

(** What the NAV command, answered with the warp factor [warp_in], has
    done when it returns the result [res] and leaves the world [w']: the
    ship is on the map of its quadrant, the counts of the galaxy are as
    before, and either the navigation was completed, or the world is as it
    was, the docking apart. *)
Definition nav_outcome (w : World) (warp_in : option float) (res : CommandResult)
    (w' : World) : Prop :=
  ship_on_map w' /\
  galaxy_totals (galaxy w') = galaxy_totals (galaxy w) /\
  (message res = MsgWarpEngaged ->
   exists warp n q',
     warp_in = Some warp /\ py_int (warp * 8)%float = inr n /\
     quadrant_at (galaxy w') (Enterprise.quadrant_row (enterprise w'))
                 (Enterprise.quadrant_col (enterprise w')) = Some q' /\
     ship_moved n (enterprise w) (enterprise w') q' /\
     success res = true /\
     trigger_klingon_attack res =
       (0 <? Quadrant.klingons q') && negb (Enterprise.docked (enterprise w'))) /\
  (message res <> MsgWarpEngaged ->
   galaxy w' = galaxy w /\ rng w' = rng w /\
   (enterprise w' = enterprise w \/
    enterprise w' = Enterprise.set_docked false (enterprise w))).

(** The first command of the game [new_game_world]: course 5 (west) at
    warp 0.25, which takes the ship into the next quadrant. *)
Definition new_game_after_nav : CommandResult * World :=
  Eval vm_compute in
    match execute_nav 100 (Some 5%float) (Some 0.25%float) new_game_world with
    | Ret res w => (res, w)
    | _ => (command_result false MsgNone, new_game_world)
    end.

(** ** Torpedoes *)

(** What a torpedo whose flight ends with the message [msg] and [n]
    hostiles destroyed has done to the quadrant [q] when it leaves the
    quadrant [q']: the hostile ship it has hit is removed, or the starbase
    it has hit is, or nothing has changed. *)
Definition torpedo_hit (msg : Msg) (n : Z) (q q' : Quadrant.t) : Prop :=
  match msg with
  | MsgTorpedoHitKlingon =>
      exists p, cell_of (Quadrant.sector_map q) p = Some KLINGON /\
                hostiles_removed [p] q q' /\ n = 1
  | MsgTorpedoHitStarbase =>
      exists p, Quadrant.starbase_pos q = Some p /\
                Quadrant.starbase_pos q' = None /\ Quadrant.starbases q' = 0 /\
                cleared_at [p] (Quadrant.sector_map q) (Quadrant.sector_map q') /\
                Quadrant.klingon_ships q' = Quadrant.klingon_ships q /\
                Quadrant.klingons q' = Quadrant.klingons q /\
                Quadrant.star_positions q' = Quadrant.star_positions q /\
                Quadrant.stars q' = Quadrant.stars q /\
                n = 0
  | _ => q' = q /\ n = 0
  end.

(** What the TOR command has done when it returns the result [res] and
    leaves the world [w']: a torpedo was fired, or nothing has changed. *)
Definition tor_outcome (w : World) (res : CommandResult) (w' : World) : Prop :=
  ship_on_map w' /\
  if success res
  then
    exists q q' n,
      quadrant_at (galaxy w) (Enterprise.quadrant_row (enterprise w))
                  (Enterprise.quadrant_col (enterprise w)) = Some q /\
      w' = MkWorld
             (Galaxy.set_total_klingons (Galaxy.total_klingons (galaxy w) - n)
                (Galaxy.store_quadrant (Enterprise.quadrant_row (enterprise w))
                   (Enterprise.quadrant_col (enterprise w)) q' (galaxy w)))
             (Enterprise.set_torpedoes (Enterprise.torpedoes (enterprise w) - 1) (enterprise w))
             (rng w) /\
      torpedo_hit (message res) n q q' /\
      trigger_klingon_attack res = (0 <? Quadrant.klingons q')
  else w' = w /\ trigger_klingon_attack res = false.

(** The second command of that game: a torpedo in direction 6.6875, at
    the hostile ship of the quadrant. *)
Definition new_game_after_tor : CommandResult * World :=
  Eval vm_compute in
    match execute_tor (Some 6.6875%float) (snd new_game_after_nav) with
    | Ret res w => (res, w)
    | _ => (command_result false MsgNone, snd new_game_after_nav)
    end.

(** ** A turn of the game *)

(** The quadrants of the galaxy, their scanned flags apart. *)
Definition unscanned_view (g : Galaxy.t) : list (list Quadrant.t) :=
  fmap (M := list) (Quadrant.set_scanned false) <$> Galaxy.quadrants g.

Definition ship_place (e : Enterprise.t) : Z * Z * Z * Z :=
  (Enterprise.quadrant_row e, Enterprise.quadrant_col e,
   Enterprise.sector_row e, Enterprise.sector_col e).

(** The quadrants of the galaxy, their scanned flags apart, and its two
    counters. *)
Definition galaxy_view (g : Galaxy.t) : list (list Quadrant.t) * Z * Z :=
  (unscanned_view g, Galaxy.total_klingons g, Galaxy.total_starbases g).

(** What the place of the ship on the map and the counts of the galaxy
    depend on. *)
Definition place_view (w : World) : list (list Quadrant.t) * Z * Z * (Z * Z * Z * Z) :=
  (galaxy_view (galaxy w), ship_place (enterprise w)).

(** The state accesses of [Display.print_status_bar]: the hostile count
    of the current quadrant is read. *)
Definition print_status_bar : M World unit :=
  quadrant <- get_current_quadrant ;;
  with_quadrant quadrant (gets (fun s => Quadrant.klingons (snd s))) ;;;
  ret tt.

(** One turn of [game_loop] on a recognised command: the command, then
    what the loop does with its result, then the refreshed display (the
    status bar and the combined display), which a command that quits the
    game does not reach.  What is printed and read from the keyboard on
    the way is not part of the state. *)
Definition game_turn (fuel : nat) (c : Command) : M World CommandResult :=
  result <- execute_command fuel c ;;
  after_command result ;;;
  (if quit_game result then ret tt
   else print_status_bar ;;; print_combined_display fuel) ;;;
  ret result.

(** What a turn that returns has kept: the ship is on the map, and after
    a command that neither moves nor fires, every quadrant is as it was,
    its scanned flag apart, the counters of the galaxy are as they were and
    the ship is where it was. *)
Definition turn_outcome (c : Command) (w w' : World) : Prop :=
  ship_on_map w' /\
  match c with
  | NAV _ _ | PHA _ | TOR _ => True
  | _ => place_view w' = place_view w
  end.

(** The invariant of a turn: the ship is on the map, and the galaxy-wide
    hostile counter is as far from the hostile counts of the quadrants as
    at the start [w] of the turn. *)
Definition turn_kept (w w' : World) : Prop :=
  ship_on_map w' /\ klingon_balance w' = klingon_balance w.

(** The second turn of the game [new_game_world], after the move of
    [new_game_after_nav]: a long-range scan. *)
Definition new_game_after_scan : CommandResult * World :=
  Eval vm_compute in
    match game_turn 100 LRS (snd new_game_after_nav) with
    | Ret res w => (res, w)
    | _ => (command_result false MsgNone, new_game_world)
    end.

(** Or, instead of the scan, a turn with a volley of 500 units at the
    hostile ship of the quadrant, and its answer. *)
Definition new_game_after_volley : CommandResult * World :=
  Eval vm_compute in
    match game_turn 100 (PHA (Some 500)) (snd new_game_after_nav) with
    | Ret res w => (res, w)
    | _ => (command_result false MsgNone, new_game_world)
    end.

(** ** The hostile top-up of the galaxy generation *)

(** What [_initialize] runs before the top-up loop: the draws for the 64
    quadrants and the forced starbase. *)
Definition generation_draws : M (Galaxy.t * Rng) unit :=
  zoom Galaxy.self (modify (Galaxy.set_quadrants
    (map (fun r => map (fun c => Quadrant.new r c) (range 8)) (range 8)))) ;;;
  zoom Galaxy.self (modify (Galaxy.set_total_klingons 0)) ;;;
  zoom Galaxy.self (modify (Galaxy.set_total_starbases 0)) ;;;
  for_each (range 8) (fun r => for_each (range 8) (fun c => Galaxy.populate_quadrant r c)) ;;;
  nb <- gets (fun s => Galaxy.total_starbases (fst s)) ;;
  (if nb =? 0 then
     r <- zoom Galaxy.random (random_randint 0 7) ;;
     c <- zoom Galaxy.random (random_randint 0 7) ;;
     zoom Galaxy.self (Galaxy.on_quadrant r c (modify (Quadrant.set_starbases 1))) ;;;
     zoom Galaxy.self (modify (Galaxy.set_total_starbases 1))
   else ret tt).

(** What it runs after the loop. *)
Definition generation_finish : M (Galaxy.t * Rng) unit :=
  zoom Galaxy.self (modify (fun g => Galaxy.set_initial_klingons (Galaxy.total_klingons g) g)) ;;;
  d <- zoom Galaxy.random (random_randint 20 40) ;;
  zoom Galaxy.self (modify (Galaxy.set_stardate (Z2F d * 100.0)%float)) ;;;
  l <- zoom Galaxy.random (random_randint 0 10) ;;
  zoom Galaxy.self (modify (Galaxy.set_time_limit (25 + l))).

(** The 64 positions of the galaxy grid. *)
Definition galaxy_cells : list (Z * Z) :=
  flat_map (fun r => map (fun c => (r, c)) (range 8)) (range 8).

(** The hostiles the quadrant at [p] can still take: the cap of the
    top-up is 3 a quadrant. *)
Definition room (g : Galaxy.t) (p : Z * Z) : Z :=
  match quadrant_at g (fst p) (snd p) with
  | Some q => 3 - Quadrant.klingons q
  | None => 0
  end.

(** The first [n] quadrants the top-up picks on the stream [rng], two
    draws each. *)
Definition picks (n : nat) (rng : Rng) : list (Z * Z) := map (probe rng) (seq 0 n).

Definition times_picked (c : Z * Z) (ps : list (Z * Z)) : Z :=
  Z.of_nat (length (filter (fun p => p = c) ps)).

(** The hostiles the picks [ps] can add to the galaxy [g]: a quadrant
    counts as often as it is picked, up to the room it has. *)
Definition picks_gain (g : Galaxy.t) (ps : list (Z * Z)) : Z :=
  sum_with (fun c => Z.max 0 (Z.min (times_picked c ps) (room g c))) galaxy_cells.

(** A stream that draws no hostile and no starbase for the 64 quadrants
    (192 draws of [2^52]: [random()] is 0.5) and then counts: the forced
    starbase goes to quadrant (0, 1), and the top-up picks the quadrants
    (2, 3), (4, 5), (6, 7), (0, 1), (2, 3), ... in turn. *)
Definition sparse_stream (n : nat) : Z := if (n <? 192)%nat then 2 ^ 52 else Z.of_nat n.

Definition sparse_rng : Rng := MkRng sparse_stream 0.

(** The galaxy drawn from [sparse_stream] when the top-up starts, and the
    galaxy [Galaxy()] returns. *)
Definition sparse_drawn : Galaxy.t :=
  Eval vm_compute in
    match generation_draws (blank_galaxy, sparse_rng) with
    | Ret _ s => fst s
    | _ => blank_galaxy
    end.

Definition sparse_galaxy : Galaxy.t :=
  Eval vm_compute in
    match Galaxy.new 100 sparse_rng with
    | Ret g _ => g
    | _ => blank_galaxy
    end.

(** * Proof rules *)

Section Rules.
Context {S : Type}.

Lemma returns_ret {A} (a : A) (s : S) Q : Q a s -> returns (ret a) s Q.
Proof. intros H. exists a, s. split; [reflexivity | exact H]. Qed.

Lemma returns_bind {A B} (m : M S A) (k : A -> M S B) (s : S) Q :
  returns m s (fun a s' => returns (k a) s' Q) -> returns (bind m k) s Q.
Proof.
  intros (a & s' & Hm & b & s'' & Hk & HQ).
  exists b, s''. split; [| exact HQ]. unfold bind. rewrite Hm. exact Hk.
Qed.

Lemma returns_get (s : S) Q : Q s s -> returns get s Q.
Proof. intros H. exists s, s. split; [reflexivity | exact H]. Qed.

Lemma returns_gets {A} (f : S -> A) (s : S) Q : Q (f s) s -> returns (gets f) s Q.
Proof. intros H. exists (f s), s. split; [reflexivity | exact H]. Qed.

Lemma returns_put (v s : S) Q : Q tt v -> returns (put v) s Q.
Proof. intros H. exists tt, v. split; [reflexivity | exact H]. Qed.

Lemma returns_modify (f : S -> S) (s : S) Q : Q tt (f s) -> returns (modify f) s Q.
Proof. intros H. exists tt, (f s). split; [reflexivity | exact H]. Qed.

Lemma returns_expect {A} (e : PyExn) (o : option A) (a : A) (s : S) Q :
  o = Some a -> Q a s -> returns (expect e o) s Q.
Proof. intros -> H. exists a, s. split; [reflexivity | exact H]. Qed.

Lemma returns_zoom {T A} (l : Lens S T) (m : M T A) (s : S) Q :
  returns m (view l s) (fun a t => Q a (update l t s)) -> returns (zoom l m) s Q.
Proof.
  intros (a & t & Hm & HQ). exists a, (update l t s).
  split; [| exact HQ]. unfold zoom. rewrite Hm. reflexivity.
Qed.

Lemma returns_weaken {A} (m : M S A) (s : S) (Q Q' : A -> S -> Prop) :
  returns m s Q -> (forall a s', Q a s' -> Q' a s') -> returns m s Q'.
Proof. intros (a & s' & Hm & HQ) HW. exists a, s'. auto. Qed.

Lemma returns_run {A} (m : M S A) (s : S) Q a s' :
  returns m s Q -> m s = Ret a s' -> Q a s'.
Proof. intros (a0 & s0 & Hm & HQ) Hr. congruence. Qed.

Lemma bind_Ret_inv {A B} (m : M S A) (k : A -> M S B) (s : S) b s'' :
  bind m k s = Ret b s'' -> exists a s', m s = Ret a s' /\ k a s' = Ret b s''.
Proof.
  unfold bind. destruct (m s) as [a s' | |]; [| discriminate | discriminate].
  intros H. exists a, s'. split; [reflexivity | exact H].
Qed.

Lemma returns_intro {A} (m : M S A) (s : S) (Q : A -> S -> Prop) a s' :
  m s = Ret a s' -> Q a s' -> returns m s Q.
Proof. intros Hm HQ. exists a, s'. auto. Qed.

Lemma raises_raise {A} (e : PyExn) (s : S) (E : PyExn -> S -> Prop) :
  E e s -> raises (@raise S A e) s E.
Proof. intros H. exists e, s. split; [reflexivity | exact H]. Qed.

Lemma raises_bind_l {A B} (m : M S A) (k : A -> M S B) (s : S) E :
  raises m s E -> raises (bind m k) s E.
Proof.
  intros (e & s' & Hm & HE). exists e, s'. split; [| exact HE].
  unfold bind. rewrite Hm. reflexivity.
Qed.

Lemma raises_bind_r {A B} (m : M S A) (k : A -> M S B) (s : S) E :
  returns m s (fun a s' => raises (k a) s' E) -> raises (bind m k) s E.
Proof.
  intros (a & s' & Hm & e & s'' & Hk & HE). exists e, s''. split; [| exact HE].
  unfold bind. rewrite Hm. exact Hk.
Qed.

Lemma raises_zoom {T A} (l : Lens S T) (m : M T A) (s : S) E :
  raises m (view l s) (fun e t => E e (update l t s)) -> raises (zoom l m) s E.
Proof.
  intros (e & t & Hm & HE). exists e, (update l t s).
  split; [| exact HE]. unfold zoom. rewrite Hm. reflexivity.
Qed.

Lemma ensures_ret {A} (a : A) (s : S) Q E : Q a s -> ensures (ret a) s Q E.
Proof. intros H. exact H. Qed.

Lemma ensures_raise {A} (e : PyExn) (s : S) (Q : A -> S -> Prop) E :
  E e s -> ensures (raise e) s Q E.
Proof. intros H. exact H. Qed.

Lemma ensures_out_of_fuel {A} (s : S) (Q : A -> S -> Prop) E :
  ensures out_of_fuel s Q E.
Proof. exact I. Qed.

Lemma ensures_bind {A B} (m : M S A) (k : A -> M S B) (s : S) Q E :
  ensures m s (fun a s' => ensures (k a) s' Q E) E -> ensures (bind m k) s Q E.
Proof. unfold ensures, bind. destruct (m s); auto. Qed.

Lemma ensures_get (s : S) Q E : Q s s -> ensures get s Q E.
Proof. intros H. exact H. Qed.

Lemma ensures_gets {A} (f : S -> A) (s : S) Q E : Q (f s) s -> ensures (gets f) s Q E.
Proof. intros H. exact H. Qed.

Lemma ensures_put (v s : S) Q E : Q tt v -> ensures (put v) s Q E.
Proof. intros H. exact H. Qed.

Lemma ensures_modify (f : S -> S) (s : S) Q E : Q tt (f s) -> ensures (modify f) s Q E.
Proof. intros H. exact H. Qed.

Lemma ensures_expect {A} (e : PyExn) (o : option A) (s : S) (Q : A -> S -> Prop) E :
  (forall a, o = Some a -> Q a s) -> (o = None -> E e s) -> ensures (expect e o) s Q E.
Proof. intros HS HN. destruct o; [apply HS | apply HN]; reflexivity. Qed.

Lemma ensures_lift_exn {A} (r : PyExn + A) (s : S) (Q : A -> S -> Prop) E :
  (forall a, r = inr a -> Q a s) -> (forall e, r = inl e -> E e s) ->
  ensures (lift_exn r) s Q E.
Proof. intros HS HN. destruct r; [apply HN | apply HS]; reflexivity. Qed.

Lemma ensures_zoom {T A} (l : Lens S T) (m : M T A) (s : S) Q E :
  ensures m (view l s) (fun a t => Q a (update l t s)) (fun e t => E e (update l t s)) ->
  ensures (zoom l m) s Q E.
Proof. unfold ensures, zoom. destruct (m (view l s)); auto. Qed.

Lemma ensures_weaken {A} (m : M S A) (s : S) (Q Q' : A -> S -> Prop) (E E' : PyExn -> S -> Prop) :
  ensures m s Q E ->
  (forall a s', Q a s' -> Q' a s') -> (forall e s', E e s' -> E' e s') ->
  ensures m s Q' E'.
Proof. unfold ensures. destruct (m s); auto. Qed.

Lemma ensures_run {A} (m : M S A) (s : S) Q E a s' :
  ensures m s Q E -> m s = Ret a s' -> Q a s'.
Proof. unfold ensures. intros H Hr. rewrite Hr in H. exact H. Qed.

Lemma ensures_bind_returns {A B} (m : M S A) (k : A -> M S B) (s : S) Q E :
  returns m s (fun a s' => ensures (k a) s' Q E) -> ensures (bind m k) s Q E.
Proof.
  intros (a & s' & Hm & Hk). unfold ensures, bind in *. rewrite Hm. exact Hk.
Qed.

(** Loop invariants: [P rest] holds when the elements [rest] remain. *)
Lemma returns_for_each {A} (P : list A -> S -> Prop) (body : A -> M S unit) :
  (forall x rest s, P (x :: rest) s -> returns (body x) s (fun _ s' => P rest s')) ->
  forall l s, P l s -> returns (for_each l body) s (fun _ s' => P [] s').
Proof.
  intros Hbody l. induction l as [| x l IH]; intros s HP; cbn [for_each].
  - apply returns_ret. exact HP.
  - apply returns_bind. eapply returns_weaken; [apply Hbody; exact HP |].
    intros u s' HP'. apply IH. exact HP'.
Qed.

Lemma ensures_while_loop (Inv : S -> Prop) (fuel : nat) (cond : S -> bool) (body : M S unit) E :
  (forall s, Inv s -> cond s = true -> ensures body s (fun _ s' => Inv s') E) ->
  forall s, Inv s ->
    ensures (while_loop fuel cond body) s (fun _ s' => Inv s' /\ cond s' = false) E.
Proof.
  intros Hbody. induction fuel as [| fuel IH]; intros s HI; cbn [while_loop].
  - exact Logic.I.
  - apply ensures_bind, ensures_get.
    destruct (cond s) eqn:Hc.
    + apply ensures_bind. eapply ensures_weaken; [apply Hbody; assumption | | auto].
      intros u s' HI'. apply IH. exact HI'.
    + apply ensures_ret. auto.
Qed.

Lemma returns_ensures {A} (m : M S A) (s : S) Q E :
  returns m s Q -> ensures m s Q E.
Proof. intros (a & s' & Hm & HQ). unfold ensures. rewrite Hm. exact HQ. Qed.
End Rules.

(** The draws of the random library always return and only advance the
    cursor of the stream. *)

Lemma returns_random_random (g : Rng) Q :
  (forall x, Q x (advance g)) -> returns random_random g Q.
Proof. intros H. eexists _, _. split; [reflexivity | apply H]. Qed.

Lemma returns_random_randint (a b : Z) (g : Rng) (Q : Z -> Rng -> Prop) :
  (forall x, (a <= b -> a <= x <= b) -> Q x (advance g)) -> returns (random_randint a b) g Q.
Proof.
  intros H. eexists _, _. split; [reflexivity |]. apply H. intros Hab.
  pose proof (Z.mod_pos_bound (draws g (cursor g)) (b - a + 1)). lia.
Qed.

Lemma returns_random_uniform (a b : float) (g : Rng) Q :
  (forall x, Q x (advance g)) -> returns (random_uniform a b) g Q.
Proof. intros H. eexists _, _. split; [reflexivity | apply H]. Qed.

Lemma returns_random_choice {A} (l : list A) (g : Rng) (Q : A -> Rng -> Prop) :
  l <> [] -> (forall x, x ∈ l -> Q x (advance g)) -> returns (random_choice l) g Q.
Proof.
  intros Hl H. destruct l as [|a l]; [congruence|].
  set (n := Z.of_nat (length (a :: l))).
  assert (Hn : 0 < n) by (unfold n; simpl; lia).
  pose proof (Z.mod_pos_bound (draws g (cursor g)) n Hn) as Hb.
  destruct ((a :: l) !! Z.to_nat (draws g (cursor g) mod n)) as [x|] eqn:Hx.
  - exists x, (advance g). split.
    + unfold random_choice, bind, next_raw. fold n. rewrite Hx. reflexivity.
    + apply H. eapply list_elem_of_lookup_2; eauto.
  - apply lookup_ge_None in Hx. unfold n in *. lia.
Qed.

(** One step of symbolic execution of a computation that returns. *)
Ltac returns_step :=
  lazymatch goal with
  | |- returns (bind _ _) _ _ => apply returns_bind
  | |- returns (ret _) _ _ => apply returns_ret
  | |- returns get _ _ => apply returns_get
  | |- returns (gets _) _ _ => apply returns_gets
  | |- returns (put _) _ _ => apply returns_put
  | |- returns (modify _) _ _ => apply returns_modify
  | |- returns (zoom _ _) _ _ => apply returns_zoom
  | |- returns random_random _ _ => apply returns_random_random; intros ?
  | |- returns (random_uniform _ _) _ _ => apply returns_random_uniform; intros ?
  | |- returns (random_randint _ _) _ _ => apply returns_random_randint; intros ? ?
  | |- returns (random_choice _) _ _ =>
      apply returns_random_choice; [discriminate | intros ? _]
  | |- returns (if ?c then _ else _) _ _ => destruct c eqn:?
  end.

(** Case analysis on the integer comparisons of a goal. *)
Ltac compare_cases :=
  repeat match goal with
         | H : context [?a <? ?b] |- _ => destruct (Z.ltb_spec a b)
         | H : context [?a <=? ?b] |- _ => destruct (Z.leb_spec a b)
         | H : context [?a =? ?b] |- _ => destruct (Z.eqb_spec a b)
         | |- context [?a <? ?b] => destruct (Z.ltb_spec a b)
         | |- context [?a <=? ?b] => destruct (Z.leb_spec a b)
         | |- context [?a =? ?b] => destruct (Z.eqb_spec a b)
         end.

(** * Python sequences *)

Section Sequences.
Context {A : Type}.
Implicit Types (l : list A) (i j : Z) (x y : A).

Lemma py_pos_lt n i p : py_pos n i = Some p -> (p < n)%nat.
Proof.
  unfold py_pos.
  destruct (Z.leb_spec 0 i), (Z.ltb_spec i (Z.of_nat n)); cbn [andb];
    try (intros [= <-]; lia);
    destruct (Z.leb_spec (- Z.of_nat n) i), (Z.ltb_spec i 0); cbn [andb];
    try (intros [= <-]; lia); discriminate.
Qed.

Lemma py_pos_nonneg n i : 0 <= i < Z.of_nat n -> py_pos n i = Some (Z.to_nat i).
Proof.
  intros H. unfold py_pos.
  destruct (Z.leb_spec 0 i), (Z.ltb_spec i (Z.of_nat n)); cbn [andb]; try lia; reflexivity.
Qed.

Lemma py_index_pos l i : py_index l i = p ← py_pos (length l) i; l !! p.
Proof.
  unfold py_index, py_pos.
  destruct ((0 <=? i) && (i <? Z.of_nat (length l))); [reflexivity |].
  destruct ((- Z.of_nat (length l) <=? i) && (i <? 0)); reflexivity.
Qed.

Lemma py_setitem_pos l i x : py_setitem l i x = p ← py_pos (length l) i; Some (<[p := x]> l).
Proof.
  unfold py_setitem, py_pos.
  destruct ((0 <=? i) && (i <? Z.of_nat (length l))); [reflexivity |].
  destruct ((- Z.of_nat (length l) <=? i) && (i <? 0)); reflexivity.
Qed.

Lemma py_index_nil i : py_index (@nil A) i = None.
Proof.
  rewrite py_index_pos. destruct (py_pos (length (@nil A)) i) as [p |] eqn:Hp; [| reflexivity].
  apply py_pos_lt in Hp. cbn in Hp. lia.
Qed.

Lemma py_setitem_length l i x l' : py_setitem l i x = Some l' -> length l' = length l.
Proof.
  rewrite py_setitem_pos. destruct (py_pos (length l) i); [| discriminate].
  cbn. intros [= <-]. apply length_insert.
Qed.

Lemma py_setitem_same l i x : py_index l i = Some x -> py_setitem l i x = Some l.
Proof.
  rewrite py_index_pos, py_setitem_pos.
  destruct (py_pos (length l) i) as [p |]; [| discriminate].
  cbn. intros H. f_equal. apply list_insert_id. exact H.
Qed.

Lemma py_setitem_twice l i x y l' :
  py_setitem l i x = Some l' -> py_setitem l' i y = py_setitem l i y.
Proof.
  intros H. pose proof (py_setitem_length _ _ _ _ H) as Hlen. revert H.
  rewrite !py_setitem_pos, Hlen.
  destruct (py_pos (length l) i) as [p |]; [| discriminate].
  cbn. intros [= <-]. f_equal. apply list_insert_insert_eq.
Qed.

Lemma py_index_setitem_eq l i x l' : py_setitem l i x = Some l' -> py_index l' i = Some x.
Proof.
  intros H. pose proof (py_setitem_length _ _ _ _ H) as Hlen. revert H.
  rewrite py_setitem_pos, py_index_pos, Hlen.
  destruct (py_pos (length l) i) as [p |] eqn:Hp; [| discriminate].
  cbn. intros [= <-]. apply list_lookup_insert_eq. eapply py_pos_lt; eauto.
Qed.

Lemma py_setitem_is_Some l i x : is_Some (py_index l i) -> is_Some (py_setitem l i x).
Proof.
  rewrite py_index_pos, py_setitem_pos.
  destruct (py_pos (length l) i); cbn; [eauto | intros [? [=]]].
Qed.

Lemma py_setitem_Some_index l i x l' : py_setitem l i x = Some l' -> is_Some (py_index l i).
Proof.
  rewrite py_setitem_pos, py_index_pos.
  destruct (py_pos (length l) i) as [p |] eqn:Hp; [| discriminate].
  cbn. intros _. apply lookup_lt_is_Some. eapply py_pos_lt; eauto.
Qed.

Lemma py_index_setitem_ne l i i' x l' :
  0 <= i -> 0 <= i' -> i <> i' ->
  py_setitem l i x = Some l' -> py_index l' i' = py_index l i'.
Proof.
  intros Hi Hi' Hne H. pose proof (py_setitem_length _ _ _ _ H) as Hlen. revert H.
  rewrite py_setitem_pos, !py_index_pos, Hlen.
  destruct (py_pos (length l) i) as [p |] eqn:Hp; [| discriminate].
  cbn. intros [= <-].
  destruct (py_pos (length l) i') as [p' |] eqn:Hp'; [| reflexivity].
  cbn. apply list_lookup_insert_ne.
  unfold py_pos in Hp, Hp'.
  destruct (Z.leb_spec 0 i), (Z.ltb_spec i (Z.of_nat (length l))); cbn [andb] in Hp; try lia;
    destruct (Z.leb_spec 0 i'), (Z.ltb_spec i' (Z.of_nat (length l))); cbn [andb] in Hp'; try lia;
    try (injection Hp as <-; injection Hp' as <-; lia).
  all: destruct (Z.leb_spec (- Z.of_nat (length l)) i), (Z.ltb_spec i 0);
    cbn [andb] in Hp; try lia; try discriminate.
  all: destruct (Z.leb_spec (- Z.of_nat (length l)) i'), (Z.ltb_spec i' 0);
    cbn [andb] in Hp'; try lia; try discriminate.
Qed.

End Sequences.

(** Lists of lists. *)
Section Grids.
Context {A : Type}.
Implicit Types (g : list (list A)) (i j : Z) (x y : A).

Lemma py_setitem2_length g i j x g' : py_setitem2 g i j x = Some g' -> length g' = length g.
Proof.
  unfold py_setitem2. destruct (py_index g i) as [r |]; [| discriminate].
  destruct (py_setitem r j x) as [r' |]; [| discriminate].
  apply py_setitem_length.
Qed.

Lemma py_setitem2_same g i j x : py_index2 g i j = Some x -> py_setitem2 g i j x = Some g.
Proof.
  unfold py_index2, py_setitem2.
  destruct (py_index g i) as [r |] eqn:Hr; [| discriminate].
  intros H. rewrite (py_setitem_same _ _ _ H). apply py_setitem_same. exact Hr.
Qed.

Lemma py_setitem2_twice g i j x y g' :
  py_setitem2 g i j x = Some g' -> py_setitem2 g' i j y = py_setitem2 g i j y.
Proof.
  unfold py_setitem2.
  destruct (py_index g i) as [r |] eqn:Hr; [| discriminate].
  destruct (py_setitem r j x) as [r' |] eqn:Hr'; [| discriminate].
  intros H. rewrite (py_index_setitem_eq _ _ _ _ H).
  rewrite (py_setitem_twice _ _ _ y _ Hr').
  destruct (py_setitem r j y) as [r'' |]; [| reflexivity].
  eapply py_setitem_twice. exact H.
Qed.

Lemma py_index2_setitem2_eq g i j x g' :
  py_setitem2 g i j x = Some g' -> py_index2 g' i j = Some x.
Proof.
  unfold py_setitem2, py_index2.
  destruct (py_index g i) as [r |] eqn:Hr; [| discriminate].
  destruct (py_setitem r j x) as [r' |] eqn:Hr'; [| discriminate].
  intros H. rewrite (py_index_setitem_eq _ _ _ _ H).
  eapply py_index_setitem_eq. exact Hr'.
Qed.

Lemma py_setitem2_is_Some g i j x : is_Some (py_index2 g i j) -> is_Some (py_setitem2 g i j x).
Proof.
  unfold py_index2, py_setitem2.
  destruct (py_index g i) as [r |] eqn:Hr; [| intros [? [=]]].
  intros H. destruct (py_setitem_is_Some r j x H) as [r' ->].
  apply py_setitem_is_Some. eauto.
Qed.

Lemma py_setitem2_Some_index g i j x g' :
  py_setitem2 g i j x = Some g' -> is_Some (py_index2 g i j).
Proof.
  unfold py_setitem2, py_index2.
  destruct (py_index g i) as [r |]; [| discriminate].
  destruct (py_setitem r j x) as [r' |] eqn:Hr'; [| discriminate].
  intros _. eapply py_setitem_Some_index; eauto.
Qed.

Lemma py_index2_setitem2_ne g i j i' j' x g' :
  0 <= i -> 0 <= i' -> 0 <= j -> 0 <= j' -> (i, j) <> (i', j') ->
  py_setitem2 g i j x = Some g' -> py_index2 g' i' j' = py_index2 g i' j'.
Proof.
  intros Hi Hi' Hj Hj' Hne. unfold py_setitem2, py_index2.
  destruct (py_index g i) as [r |] eqn:Hr; [| discriminate].
  destruct (py_setitem r j x) as [r' |] eqn:Hr'; [| discriminate].
  intros H. destruct (Z.eq_dec i i') as [<- | Hii].
  - rewrite (py_index_setitem_eq _ _ _ _ H), Hr.
    eapply py_index_setitem_ne; [| | | exact Hr']; try lia. congruence.
  - rewrite (py_index_setitem_ne _ _ _ _ _ Hi Hi' Hii H). reflexivity.
Qed.
End Grids.

Lemma py_index_fmap {A B} (f : A -> B) (l : list A) (i : Z) :
  py_index (f <$> l) i = f <$> py_index l i.
Proof.
  rewrite !py_index_pos, length_fmap.
  destruct (py_pos (length l) i); cbn; [apply list_lookup_fmap | reflexivity].
Qed.

Lemma py_setitem_fmap {A B} (f : A -> B) (l : list A) (i : Z) (x : A) :
  py_setitem (f <$> l) i (f x) = fmap (M := list) f <$> py_setitem l i x.
Proof.
  rewrite !py_setitem_pos, length_fmap.
  destruct (py_pos (length l) i); cbn; [| reflexivity].
  f_equal. symmetry. apply list_fmap_insert.
Qed.

Lemma py_index2_fmap {A B} (f : A -> B) (g : list (list A)) (i j : Z) :
  py_index2 (fmap (M := list) f <$> g) i j = f <$> py_index2 g i j.
Proof.
  unfold py_index2. rewrite py_index_fmap.
  destruct (py_index g i); cbn; [apply py_index_fmap | reflexivity].
Qed.

Lemma py_setitem2_fmap {A B} (f : A -> B) (g : list (list A)) (i j : Z) (x : A) :
  py_setitem2 (fmap (M := list) f <$> g) i j (f x) =
    fmap (M := list) (fmap (M := list) f) <$> py_setitem2 g i j x.
Proof.
  unfold py_setitem2. rewrite py_index_fmap.
  destruct (py_index g i) as [r |]; cbn; [| reflexivity].
  rewrite py_setitem_fmap.
  destruct (py_setitem r j x) as [r' |]; cbn; [| reflexivity].
  apply (py_setitem_fmap (fmap (M := list) f)).
Qed.

(** * Sums over lists and grids *)

Section Sums.
Context {A : Type} (f : A -> Z).

Lemma sum_with_insert (l : list A) (i : nat) (x y : A) :
  l !! i = Some y -> sum_with f (<[i := x]> l) = sum_with f l - f y + f x.
Proof.
  revert i. induction l as [| a l IH]; intros [| i] H; try discriminate.
  - injection H as ->. cbn. lia.
  - cbn [list_insert insert]. change (sum_with f (a :: <[i := x]> l))
      with (f a + sum_with f (<[i := x]> l)).
    change (sum_with f (a :: l)) with (f a + sum_with f l).
    rewrite (IH i H). lia.
Qed.

Lemma sum_with_nonneg (l : list A) : Forall (fun a => 0 <= f a) l -> 0 <= sum_with f l.
Proof.
  induction 1 as [| a l Ha Hl IH]; [cbn; lia |].
  change (sum_with f (a :: l)) with (f a + sum_with f l). lia.
Qed.

Lemma sum_with_lookup_le (l : list A) (i : nat) (y : A) :
  Forall (fun a => 0 <= f a) l -> l !! i = Some y -> f y <= sum_with f l.
Proof.
  intros Hl. revert i. induction Hl as [| a l Ha Hl IH]; intros [| i] H;
    try discriminate; change (sum_with f (a :: l)) with (f a + sum_with f l).
  - injection H as ->. pose proof (sum_with_nonneg l Hl). lia.
  - specialize (IH i H). lia.
Qed.
End Sums.

(** What [g[i][j] = x] does to a grid, in terms of list positions. *)
Lemma py_setitem2_inv {A} (g g' : list (list A)) (i j : Z) (x : A) :
  py_setitem2 g i j x = Some g' ->
  exists pi pj row y,
    g !! pi = Some row /\ row !! pj = Some y /\ py_index2 g i j = Some y /\
    g' = <[pi := <[pj := x]> row]> g.
Proof.
  unfold py_setitem2, py_index2.
  destruct (py_index g i) as [row |] eqn:Hrow; [| discriminate].
  destruct (py_setitem row j x) as [row' |] eqn:Hrow'; [| discriminate].
  intros Hg'.
  rewrite py_index_pos in Hrow. rewrite py_setitem_pos in Hrow'. rewrite py_setitem_pos in Hg'.
  destruct (py_pos (length g) i) as [pi |]; [| discriminate].
  destruct (py_pos (length row) j) as [pj |] eqn:Hpj; [| discriminate].
  cbn in Hrow, Hrow', Hg'. injection Hrow' as <-. injection Hg' as <-.
  destruct (lookup_lt_is_Some_2 row pj (py_pos_lt _ _ _ Hpj)) as [y Hy].
  exists pi, pj, row, y. repeat split; try assumption.
  rewrite py_index_pos, Hpj. exact Hy.
Qed.

Lemma grid_sum_setitem2 {A} (f : A -> Z) (g g' : list (list A)) (i j : Z) (x y : A) :
  py_setitem2 g i j x = Some g' -> py_index2 g i j = Some y ->
  sum_with (sum_with f) g' = sum_with (sum_with f) g - f y + f x.
Proof.
  intros Hset Hget.
  destruct (py_setitem2_inv _ _ _ _ _ Hset) as (pi & pj & row & y' & Hrow & Hy & Hget' & ->).
  assert (y' = y) as -> by congruence.
  rewrite (sum_with_insert _ _ _ _ _ Hrow), (sum_with_insert _ _ _ _ _ Hy). lia.
Qed.

Lemma grid_Forall_setitem2 {A} (P : A -> Prop) (g g' : list (list A)) (i j : Z) (x : A) :
  py_setitem2 g i j x = Some g' -> Forall (Forall P) g -> P x -> Forall (Forall P) g'.
Proof.
  intros Hset Hg Hx.
  destruct (py_setitem2_inv _ _ _ _ _ Hset) as (pi & pj & row & y & Hrow & Hy & _ & ->).
  apply Forall_insert; [exact Hg |].
  apply Forall_insert; [| exact Hx].
  rewrite Forall_lookup in Hg. exact (Hg _ _ Hrow).
Qed.

Lemma grid_sum_lookup_le {A} (f : A -> Z) (g : list (list A)) (i j : Z) (y : A) :
  Forall (Forall (fun a => 0 <= f a)) g -> py_index2 g i j = Some y ->
  f y <= sum_with (sum_with f) g.
Proof.
  intros Hg Hget. unfold py_index2 in Hget.
  destruct (py_index g i) as [row |] eqn:Hrow; [| discriminate].
  rewrite py_index_pos in Hrow. rewrite py_index_pos in Hget.
  destruct (py_pos (length g) i) as [pi |]; [| discriminate].
  destruct (py_pos (length row) j) as [pj |]; [| discriminate].
  cbn in Hrow, Hget.
  assert (Hrows : Forall (fun r => 0 <= sum_with f r) g).
  { eapply Forall_impl; [exact Hg |]. intros r Hr. apply sum_with_nonneg. exact Hr. }
  pose proof (sum_with_lookup_le (sum_with f) g pi row Hrows Hrow) as H1.
  rewrite Forall_lookup in Hg.
  pose proof (sum_with_lookup_le f row pj y (Hg _ _ Hrow) Hget) as H2. lia.
Qed.

(** * Frame rules: what a computation leaves unobserved *)

Section FrameRules.
Context {S X : Type} (obs : S -> X).

Lemma preserves_ret {A} (a : A) : preserves obs (ret a).
Proof. intros s. reflexivity. Qed.

Lemma preserves_raise {A} (e : PyExn) : preserves obs (@raise S A e).
Proof. intros s. reflexivity. Qed.

Lemma preserves_out_of_fuel {A} : preserves obs (@out_of_fuel S A).
Proof. intros s. exact I. Qed.

Lemma preserves_get : preserves obs get.
Proof. intros s. reflexivity. Qed.

Lemma preserves_gets {A} (f : S -> A) : preserves obs (gets f).
Proof. intros s. reflexivity. Qed.

Lemma preserves_expect {A} (e : PyExn) (o : option A) : preserves obs (expect e o).
Proof. intros s. destruct o; reflexivity. Qed.

Lemma preserves_lift_exn {A} (r : PyExn + A) : preserves obs (lift_exn r).
Proof. intros s. destruct r; reflexivity. Qed.

Lemma preserves_modify (f : S -> S) : (forall s, obs (f s) = obs s) -> preserves obs (modify f).
Proof. intros H s. apply H. Qed.

Lemma preserves_bind {A B} (m : M S A) (k : A -> M S B) :
  preserves obs m -> (forall a, preserves obs (k a)) -> preserves obs (bind m k).
Proof.
  intros Hm Hk s. specialize (Hm s). unfold ensures, bind in *.
  destruct (m s) as [a s' | e s' |]; [| exact Hm | exact I].
  specialize (Hk a s'). unfold ensures in Hk.
  destruct (k a s'); [congruence | congruence | exact I].
Qed.

Lemma preserves_for_each {A} (l : list A) (body : A -> M S unit) :
  (forall x, preserves obs (body x)) -> preserves obs (for_each l body).
Proof.
  intros Hb. induction l as [| x l IH]; cbn [for_each].
  - apply preserves_ret.
  - apply preserves_bind; [apply Hb | intros _; exact IH].
Qed.

Lemma preserves_repeat_times (n : nat) (body : M S unit) :
  preserves obs body -> preserves obs (repeat_times n body).
Proof.
  intros Hb. induction n as [| n IH]; cbn [repeat_times].
  - apply preserves_ret.
  - apply preserves_bind; [exact Hb | intros _; exact IH].
Qed.

Lemma preserves_map_m {A B} (f : A -> M S B) (l : list A) :
  (forall x, preserves obs (f x)) -> preserves obs (map_m f l).
Proof.
  intros Hf. induction l as [| x l IH]; cbn [map_m].
  - apply preserves_ret.
  - apply preserves_bind; [apply Hf | intros y].
    apply preserves_bind; [exact IH | intros ys; apply preserves_ret].
Qed.

Lemma preserves_fold_m {A B} (f : B -> A -> M S B) (l : list A) (b : B) :
  (forall b x, preserves obs (f b x)) -> preserves obs (fold_m f l b).
Proof.
  intros Hf. revert b. induction l as [| x l IH]; intros b; cbn [fold_m].
  - apply preserves_ret.
  - apply preserves_bind; [apply Hf | intros b'; apply IH].
Qed.

Lemma preserves_while_loop (fuel : nat) (cond : S -> bool) (body : M S unit) :
  preserves obs body -> preserves obs (while_loop fuel cond body).
Proof.
  intros Hb. induction fuel as [| fuel IH]; cbn [while_loop].
  - apply preserves_out_of_fuel.
  - apply preserves_bind; [apply preserves_get | intros s].
    destruct (cond s); [| apply preserves_ret].
    apply preserves_bind; [exact Hb | intros _; exact IH].
Qed.

(** A computation on a component the observation does not look at. *)
Lemma preserves_zoom_frame {T A} (l : Lens S T) (m : M T A) :
  (forall s t, obs (update l t s) = obs s) -> preserves obs (zoom l m).
Proof.
  intros H s. unfold ensures, zoom. destruct (m (view l s)); auto.
Qed.

(** A computation on a component, itself preserving what the observation
    reads there. *)
Lemma preserves_zoom {T A Y} (obsT : T -> Y) (l : Lens S T) (m : M T A) :
  (forall s t, obsT t = obsT (view l s) -> obs (update l t s) = obs s) ->
  preserves obsT m -> preserves obs (zoom l m).
Proof.
  intros H Hm s. specialize (Hm (view l s)). unfold ensures, zoom in *.
  destruct (m (view l s)); auto.
Qed.
End FrameRules.

(** One structural step of a frame proof. *)
Ltac frame_step :=
  lazymatch goal with
  | |- preserves _ (bind _ _) => apply preserves_bind; [| intros ?]
  | |- preserves _ (ret _) => apply preserves_ret
  | |- preserves _ (raise _) => apply preserves_raise
  | |- preserves _ out_of_fuel => apply preserves_out_of_fuel
  | |- preserves _ get => apply preserves_get
  | |- preserves _ (gets _) => apply preserves_gets
  | |- preserves _ (expect _ _) => apply preserves_expect
  | |- preserves _ (lift_exn _) => apply preserves_lift_exn
  | |- preserves _ (for_each _ _) => apply preserves_for_each; intros ?
  | |- preserves _ (repeat_times _ _) => apply preserves_repeat_times
  | |- preserves _ (map_m _ _) => apply preserves_map_m; intros ?
  | |- preserves _ (fold_m _ _ _) => apply preserves_fold_m; intros ? ?
  | |- preserves _ (while_loop _ _ _) => apply preserves_while_loop
  | |- preserves _ (if ?c then _ else _) => destruct c
  | |- preserves _ (match ?x with _ => _ end) => destruct x
  end.

(** * game/enterprise.py: resources and damage *)

Lemma new_ship_damage_map_complete : damage_map_complete Enterprise.new.
Proof. intros []; vm_compute; eauto. Qed.

Lemma shielded_ship_damage_map_complete : damage_map_complete shielded_ship.
Proof. intros []; vm_compute; eauto. Qed.

Lemma set_damage_idem (d d' : gmap ShipSystem float) (e : Enterprise.t) :
  Enterprise.set_damage d (Enterprise.set_damage d' e) = Enterprise.set_damage d e.
Proof. reflexivity. Qed.

Lemma set_damage_same (e : Enterprise.t) : Enterprise.set_damage (Enterprise.damage e) e = e.
Proof. destruct e; reflexivity. Qed.

(** What [apply_damage] leaves behind: the shields, the energy and the
    destroyed flag are functions of the old ship and the amount; every other
    field but the damage map is untouched. *)
Lemma apply_damage_outcome (e : Enterprise.t) (g : Rng) (D : Z) :
  damage_map_complete e ->
  returns (Enterprise.apply_damage D) (e, g) (fun _ s' =>
    let e' := fst s' in
    Enterprise.shields e' =
      (if 0 <? Enterprise.shields e
       then if D <=? Enterprise.shields e then Enterprise.shields e - D else 0
       else Enterprise.shields e) /\
    Enterprise.energy e' =
      (let amount := if 0 <? Enterprise.shields e
                     then if D <=? Enterprise.shields e then 0 else D - Enterprise.shields e
                     else D in
       if 0 <? amount then Enterprise.energy e - amount else Enterprise.energy e) /\
    Enterprise.destroyed e' =
      (if Enterprise.energy e' <=? 0 then true else Enterprise.destroyed e) /\
    Enterprise.set_damage (Enterprise.damage e) e' =
      Enterprise.set_destroyed (Enterprise.destroyed e')
        (Enterprise.set_energy (Enterprise.energy e')
          (Enterprise.set_shields (Enterprise.shields e') e))).
Proof.
  intros Hc. unfold Enterprise.apply_damage.
  destruct e as [qr qc sr sc en men tp mtp sh dk ds dm].
  unfold damage_map_complete in Hc. simpl in Hc.
  repeat (repeat returns_step; cbn in *;
          try match goal with
              | |- returns (expect KeyError (dm !! ?s)) _ _ =>
                  let d := fresh "d" in
                  let Hd := fresh "Hd" in
                  destruct (Hc s) as [d Hd]; eapply returns_expect; [exact Hd |]
              end).
  all: repeat match goal with H : _ = _ |- _ => rewrite H end.
  all: try discriminate; try lia.
  all: cbn.
  all: try (repeat split; reflexivity).
Qed.

(** C6.  Damage [D >= 0] applied to a ship with [shields >= 0] (and a
    complete damage map): the shields absorb first.  If [shields >= D] the
    shields decrease by [D] and the energy is unchanged; otherwise the
    shields become 0 and the energy decreases by [D - shields].  The call
    sets the destroyed flag exactly when the resulting energy is [<= 0]. *)
Theorem apply_damage_shields_absorb_first (e : Enterprise.t) (g : Rng) (D : Z) :
  damage_map_complete e ->
  0 <= Enterprise.shields e ->
  0 <= D ->
  exists e' g',
    Enterprise.apply_damage D (e, g) = Ret tt (e', g') /\
    (D <= Enterprise.shields e ->
       Enterprise.shields e' = Enterprise.shields e - D /\
       Enterprise.energy e' = Enterprise.energy e) /\
    (Enterprise.shields e < D ->
       Enterprise.shields e' = 0 /\
       Enterprise.energy e' = Enterprise.energy e - (D - Enterprise.shields e)) /\
    (Enterprise.energy e' <= 0 -> Enterprise.destroyed e' = true) /\
    (0 < Enterprise.energy e' -> Enterprise.destroyed e' = Enterprise.destroyed e).
Proof.
  intros Hc Hsh HD.
  destruct (apply_damage_outcome e g D Hc) as (u & [e' g'] & Hrun & Hs & He & Hd & _).
  destruct u. exists e', g'. split; [exact Hrun |].
  cbn [fst] in Hs, He, Hd.
  rewrite Hd, Hs, He. clear Hd Hs He Hrun.
  repeat split; intros; compare_cases; try lia; try reflexivity.
Qed.

Lemma apply_damage_shields_absorb_first_witness :
  exists e' g',
    Enterprise.apply_damage 250 (shielded_ship, mix_rng) = Ret tt (e', g') /\
    (250 <= Enterprise.shields shielded_ship ->
       Enterprise.shields e' = Enterprise.shields shielded_ship - 250 /\
       Enterprise.energy e' = Enterprise.energy shielded_ship) /\
    (Enterprise.shields shielded_ship < 250 ->
       Enterprise.shields e' = 0 /\
       Enterprise.energy e' =
         Enterprise.energy shielded_ship - (250 - Enterprise.shields shielded_ship)) /\
    (Enterprise.energy e' <= 0 -> Enterprise.destroyed e' = true) /\
    (0 < Enterprise.energy e' -> Enterprise.destroyed e' = Enterprise.destroyed shielded_ship).
Proof.
  apply (apply_damage_shields_absorb_first shielded_ship mix_rng 250).
  - exact shielded_ship_damage_map_complete.
  - vm_compute. discriminate.
  - lia.
Defined.

(** C10.  For a ship with [shields >= 0] and an amount [D >= 0], applying
    the damage decreases [energy + shields] by exactly [D] and leaves the
    shields non-negative, whatever the random stream: on any other stream
    the resulting ship differs in the damage map only. *)
Theorem apply_damage_conserves_total (e : Enterprise.t) (g : Rng) (D : Z) :
  damage_map_complete e ->
  0 <= Enterprise.shields e ->
  0 <= D ->
  exists e' g',
    Enterprise.apply_damage D (e, g) = Ret tt (e', g') /\
    Enterprise.energy e' + Enterprise.shields e' =
      Enterprise.energy e + Enterprise.shields e - D /\
    0 <= Enterprise.shields e' /\
    (forall g2 : Rng, exists e2 g2',
        Enterprise.apply_damage D (e, g2) = Ret tt (e2, g2') /\
        e2 = Enterprise.set_damage (Enterprise.damage e2) e').
Proof.
  intros Hc Hsh HD.
  destruct (apply_damage_outcome e g D Hc) as (u & [e' g'] & Hrun & Hs & He & Hd & Hrest).
  destruct u. exists e', g'. split; [exact Hrun |].
  cbn [fst] in Hs, He, Hd, Hrest.
  split; [| split].
  - rewrite Hs, He. compare_cases; lia.
  - rewrite Hs. compare_cases; lia.
  - intros g2.
    destruct (apply_damage_outcome e g2 D Hc) as (u & [e2 g2'] & Hrun2 & Hs2 & He2 & Hd2 & Hrest2).
    destruct u. exists e2, g2'. split; [exact Hrun2 |].
    cbn [fst] in Hs2, He2, Hd2, Hrest2.
    assert (Heq : Enterprise.set_damage (Enterprise.damage e) e2 =
                  Enterprise.set_damage (Enterprise.damage e) e').
    { rewrite Hrest, Hrest2, Hd, Hd2, He, He2, Hs, Hs2. reflexivity. }
    rewrite <- (set_damage_idem (Enterprise.damage e2) (Enterprise.damage e) e').
    rewrite <- Heq. rewrite set_damage_idem. symmetry. apply set_damage_same.
Qed.

Lemma apply_damage_conserves_total_witness :
  exists e' g',
    Enterprise.apply_damage 250 (shielded_ship, mix_rng) = Ret tt (e', g') /\
    Enterprise.energy e' + Enterprise.shields e' =
      Enterprise.energy shielded_ship + Enterprise.shields shielded_ship - 250 /\
    0 <= Enterprise.shields e' /\
    (forall g2 : Rng, exists e2 g2',
        Enterprise.apply_damage 250 (shielded_ship, g2) = Ret tt (e2, g2') /\
        e2 = Enterprise.set_damage (Enterprise.damage e2) e').
Proof.
  apply (apply_damage_conserves_total shielded_ship mix_rng 250).
  - exact shielded_ship_damage_map_complete.
  - vm_compute. discriminate.
  - lia.
Defined.

(** The roll does fire on some streams and not on others. *)
Example apply_damage_roll_fires :
  match Enterprise.apply_damage 250 (shielded_ship, MkRng mix_stream 3) with
  | Ret _ s => Enterprise.damage (fst s) !! PHASER_CONTROL
  | _ => None
  end <> Enterprise.damage shielded_ship !! PHASER_CONTROL.
Proof. vm_compute. discriminate. Qed.

Example apply_damage_roll_does_not_fire :
  match Enterprise.apply_damage 250 (shielded_ship, MkRng mix_stream 4) with
  | Ret _ s => Some (Enterprise.damage (fst s))
  | _ => None
  end = Some (Enterprise.damage shielded_ship).
Proof. vm_compute. reflexivity. Qed.

(** C5, the claim as stated fails: with 100 units in the shields,
    [transfer_to_shields(-200)] does not fail although [|n| > shields]; it
    returns [True] after moving the 100 units there are. *)
Lemma transfer_to_shields_overdraw_counterexample :
  Enterprise.shields shielded_ship < Z.abs (-200) /\
  Enterprise.transfer_to_shields (-200) shielded_ship <> Ret false shielded_ship /\
  Enterprise.transfer_to_shields (-200) shielded_ship =
    Ret true (Enterprise.set_energy 3100 (Enterprise.set_shields 0 shielded_ship)).
Proof.
  split; [vm_compute; reflexivity |].
  split; [vm_compute; discriminate | vm_compute; reflexivity].
Qed.

(** C5, amended.  [transfer_to_shields(n)] with positive [n] moves [n]
    energy to the shields and fails (returns [False], no mutation) if
    [n > energy]; with negative [n] it always returns [True] and moves
    [min(|n|, shields)] from the shields back to the energy.  The rejection of
    [|n| > shields] is made by the SHE command, which returns a failure and
    leaves the state as it is. *)
Theorem transfer_to_shields_amended (g : Galaxy.t) (e : Enterprise.t) (r : Rng) (n : Z) :
  (0 < n -> n <= Enterprise.energy e ->
   Enterprise.transfer_to_shields n e =
     Ret true (Enterprise.set_shields (Enterprise.shields e + n)
                 (Enterprise.set_energy (Enterprise.energy e - n) e))) /\
  (0 < n -> Enterprise.energy e < n ->
   Enterprise.transfer_to_shields n e = Ret false e) /\
  (n < 0 ->
   Enterprise.transfer_to_shields n e =
     Ret true (Enterprise.set_energy (Enterprise.energy e + Z.min (- n) (Enterprise.shields e))
                 (Enterprise.set_shields (Enterprise.shields e - Z.min (- n) (Enterprise.shields e)) e))) /\
  (n < 0 -> Enterprise.shields e < - n -> Enterprise.can_use_shields e = true ->
   execute_she (Some n) (MkWorld g e r) =
     Ret (command_result false MsgCannotTransferMoreThanShields) (MkWorld g e r)).
Proof.
  repeat split.
  - intros Hn He. unfold Enterprise.transfer_to_shields, bind, get, modify, ret.
    destruct (Z.ltb_spec n 0); [lia |].
    destruct (Z.leb_spec n (Enterprise.energy e)); [| lia].
    destruct e; reflexivity.
  - intros Hn He. unfold Enterprise.transfer_to_shields, bind, get, modify, ret.
    destruct (Z.ltb_spec n 0); [lia |].
    destruct (Z.leb_spec n (Enterprise.energy e)); [lia |].
    reflexivity.
  - intros Hn. unfold Enterprise.transfer_to_shields, bind, get, modify, ret.
    destruct (Z.ltb_spec n 0); [| lia].
    destruct e; reflexivity.
  - intros Hn Hs Hc. unfold execute_she, bind, gets, ret. cbn [enterprise].
    rewrite Hc. cbn [negb].
    destruct (Z.eqb_spec n 0); [lia |].
    destruct (Z.ltb_spec 0 n); [lia |]. cbn [andb].
    destruct (Z.ltb_spec n 0); [| lia].
    destruct (Z.ltb_spec (Enterprise.shields e) (- n)); [| lia].
    reflexivity.
Qed.

Lemma transfer_to_shields_amended_witness :
  Enterprise.transfer_to_shields (-200) shielded_ship =
    Ret true (Enterprise.set_energy
                (Enterprise.energy shielded_ship + Z.min (- -200) (Enterprise.shields shielded_ship))
                (Enterprise.set_shields
                   (Enterprise.shields shielded_ship - Z.min (- -200) (Enterprise.shields shielded_ship))
                   shielded_ship)) /\
  execute_she (Some (-200)) (MkWorld blank_galaxy shielded_ship mix_rng) =
    Ret (command_result false MsgCannotTransferMoreThanShields)
        (MkWorld blank_galaxy shielded_ship mix_rng).
Proof.
  destruct (transfer_to_shields_amended blank_galaxy shielded_ship mix_rng (-200))
    as (_ & _ & Hmove & Hreject).
  split.
  - apply Hmove. lia.
  - apply Hreject; [lia | vm_compute; reflexivity | vm_compute; reflexivity].
Defined.

(** * game/galaxy.py: sector maps *)

(** Where the addressed cell exists and holds no Klingon, [remove_klingon]
    returns [False] and leaves the quadrant as it is. *)
Lemma remove_klingon_other_entity (q : Quadrant.t) (r c : Z) (e : EntityType) :
  py_index2 (Quadrant.sector_map q) r c = Some e ->
  e <> KLINGON ->
  Quadrant.remove_klingon r c q = Ret false q.
Proof.
  intros Hcell Hne.
  unfold Quadrant.remove_klingon, Quadrant.cell, bind, get, expect, ret.
  rewrite Hcell. destruct (decide (e = KLINGON)); [contradiction | reflexivity].
Qed.

(** C9, the code at inputs the claim covers.  [get_entity_at] reports
    [EMPTY] (no hostile) in each case, but [remove_klingon] has no guard:
    without a sector map, or with a row past the map, it raises [IndexError]
    instead of returning [False]; with row [-1] Python indexes the last row,
    and the Klingon at (7, 3) is taken off the map and off the count while
    the hostile list keeps it. *)
Theorem remove_klingon_unguarded :
  (Quadrant.get_entity_at 0 0 (Quadrant.new 0 0) = Ret EMPTY (Quadrant.new 0 0) /\
   Quadrant.remove_klingon 0 0 (Quadrant.new 0 0) = Raise IndexError (Quadrant.new 0 0)) /\
  (Quadrant.get_entity_at 8 3 klingon_quadrant = Ret EMPTY klingon_quadrant /\
   Quadrant.remove_klingon 8 3 klingon_quadrant = Raise IndexError klingon_quadrant) /\
  (Quadrant.get_entity_at (-1) 3 klingon_quadrant = Ret EMPTY klingon_quadrant /\
   Quadrant.remove_klingon (-1) 3 klingon_quadrant =
     Ret true (Quadrant.set_klingons 0
                 (Quadrant.set_sector_map empty_sector_map klingon_quadrant))).
Proof. repeat split; vm_compute; reflexivity. Qed.

(** * game/combat.py: phasers *)

(** The overheat chance of a volley is computed whenever the volley is not
    beyond the floats: the only failure of [(E - 1500) / 1500] is an
    [OverflowError]. *)
Lemma overheat_chance_failure (E : Z) (ex : PyExn) :
  py_truediv (E - 1500) 1500 = inl ex -> ex = OverflowError.
Proof.
  unfold py_truediv. cbn [Z.eqb].
  destruct (SFdiv prec emax (Z2SF (E - 1500)) (Z2SF 1500)); congruence.
Qed.

(** C1, the code on the overheat path.  When the guards of [fire_phasers]
    pass and [E > 1500], the energy is consumed first.  If the overheat
    chance [(E - 1500) / 1500] is computed and the overheat roll succeeds,
    a magnitude is drawn, but evaluating the key
    [enterprise.damage.__class__.PHASER_CONTROL] raises [AttributeError]:
    no result is returned and the damage map is left as it was.  If the
    chance is beyond the floats, the division raises [OverflowError]
    before anything is drawn. *)
Theorem fire_phasers_overheat_raises
    (e : Enterprise.t) (q : Quadrant.t) (g : Rng) (E : Z) :
  Enterprise.can_fire_phasers e = true ->
  1500 < E ->
  E <= Enterprise.energy e ->
  Quadrant.klingon_ships q <> [] ->
  (forall chance x g1,
     py_truediv (E - 1500) 1500 = inr chance ->
     random_random g = Ret x g1 ->
     (x <? chance)%float = true ->
     fire_phasers E ((e, q), g) =
       Raise AttributeError
         ((Enterprise.set_energy (Enterprise.energy e - E) e, q), advance g1)) /\
  (forall ex,
     py_truediv (E - 1500) 1500 = inl ex ->
     ex = OverflowError /\
     fire_phasers E ((e, q), g) =
       Raise OverflowError ((Enterprise.set_energy (Enterprise.energy e - E) e, q), g)).
Proof.
  intros Hcan HE Hen Hk.
  assert (Hstart : forall (P : PyExn -> Combat.St -> Prop),
             raises
               (overheat_chance <- lift_exn (py_truediv (E - 1500) 1500) ;;
                x <- zoom Combat.random random_random ;;
                if (x <? overheat_chance)%float then
                  v <- zoom Combat.random (random_uniform 1.0 3.0) ;;
                  key <- dict_class_PHASER_CONTROL ;;
                  zoom Combat.ship (modify (fun e0 =>
                    Enterprise.set_damage (<[key := (- v)%float]> (Enterprise.damage e0)) e0)) ;;;
                  ret true
                else ret false)
               ((Enterprise.set_energy (Enterprise.energy e - E) e, q), g) P ->
             raises (fire_phasers E) ((e, q), g) P).
  { intros P Hrest. unfold fire_phasers.
    apply raises_bind_r, returns_get.
    cbn [view Combat.ship Combat.quad fst snd].
    rewrite Hcan. cbn [negb].
    destruct (Z.leb_spec E 0); [lia |].
    destruct (Z.ltb_spec (Enterprise.energy e) E); [lia |].
    destruct (Quadrant.klingon_ships q) as [|k ks] eqn:Hks; [congruence |].
    apply raises_bind_r, returns_zoom.
    cbn [view Combat.ship fst snd].
    unfold Enterprise.use_energy.
    apply returns_bind, returns_get.
    destruct (Z.leb_spec E (Enterprise.energy e)); [| lia].
    repeat returns_step.
    cbn [view update Combat.ship fst snd].
    apply raises_bind_l.
    destruct (Z.ltb_spec 1500 E); [| lia].
    exact Hrest. }
  split.
  - intros chance x g1 Hdiv Hx Hroll.
    enough (Hr : raises (fire_phasers E) ((e, q), g)
                   (fun ex s' => ex = AttributeError /\
                      s' = ((Enterprise.set_energy (Enterprise.energy e - E) e, q), advance g1))).
    { destruct Hr as (ex & s' & Hrun & -> & ->). exact Hrun. }
    apply Hstart.
    apply raises_bind_r. rewrite Hdiv. cbn [lift_exn]. apply returns_ret.
    apply raises_bind_r, returns_zoom.
    eapply returns_intro; [exact Hx |].
    rewrite Hroll.
    apply raises_bind_r.
    repeat returns_step.
    apply raises_bind_l, raises_raise.
    split; reflexivity.
  - intros ex Hdiv.
    pose proof (overheat_chance_failure E ex Hdiv) as ->.
    split; [reflexivity |].
    enough (Hr : raises (fire_phasers E) ((e, q), g)
                   (fun ex s' => ex = OverflowError /\
                      s' = ((Enterprise.set_energy (Enterprise.energy e - E) e, q), g))).
    { destruct Hr as (ex & s' & Hrun & -> & ->). exact Hrun. }
    apply Hstart.
    apply raises_bind_l. rewrite Hdiv. cbn [lift_exn]. apply raises_raise.
    split; reflexivity.
Qed.

Lemma fire_phasers_overheat_raises_witness :
  py_truediv (3000 - 1500) 1500 = inr 1%float /\
  fire_phasers 3000 ((Enterprise.new, klingon_quadrant), mix_rng) =
    Raise AttributeError
      ((Enterprise.set_energy (Enterprise.energy Enterprise.new - 3000) Enterprise.new,
        klingon_quadrant),
       advance (advance mix_rng)).
Proof.
  assert (Hdiv : py_truediv (3000 - 1500) 1500 = inr 1%float) by (vm_compute; reflexivity).
  split; [exact Hdiv |].
  refine (proj1 (fire_phasers_overheat_raises Enterprise.new klingon_quadrant mix_rng 3000
                   _ _ _ _) 1%float _ (advance mix_rng) Hdiv _ _).
  - vm_compute. reflexivity.
  - lia.
  - vm_compute. discriminate.
  - discriminate.
  - reflexivity.
  - vm_compute. reflexivity.
Defined.

(** * What the operations of a turn leave alone

    The lemmas of this section hold for any observation [gobs] of the galaxy
    that reads, of each quadrant, at most [qobs], where [qobs] does not look
    at the fields the quadrant methods write, and [gobs] does not look at the
    Klingon counter or the stardate. *)

Section Frame.
Context {X Y : Type} (gobs : Galaxy.t -> X) (qobs : Quadrant.t -> Y).

Hypothesis gobs_store :
  forall g g' r c q0 q',
    py_index2 (Galaxy.quadrants g) r c = Some q0 ->
    gobs g' = gobs g -> qobs q' = qobs q0 ->
    gobs (Galaxy.store_quadrant r c q' g') = gobs g.
Hypothesis gobs_total_klingons :
  forall v g, gobs (Galaxy.set_total_klingons v g) = gobs g.
Hypothesis gobs_stardate :
  forall v g, gobs (Galaxy.set_stardate v g) = gobs g.
Hypothesis qobs_sector_map : forall v q, qobs (Quadrant.set_sector_map v q) = qobs q.
Hypothesis qobs_klingon_ships : forall v q, qobs (Quadrant.set_klingon_ships v q) = qobs q.
Hypothesis qobs_klingons : forall v q, qobs (Quadrant.set_klingons v q) = qobs q.
Hypothesis qobs_starbases : forall v q, qobs (Quadrant.set_starbases v q) = qobs q.
Hypothesis qobs_starbase_pos : forall v q, qobs (Quadrant.set_starbase_pos v q) = qobs q.
Hypothesis qobs_star_positions : forall v q, qobs (Quadrant.set_star_positions v q) = qobs q.

(** Solving the side conditions of the rules. *)
Ltac frame_side :=
  intros;
  repeat match goal with
         | p : (_ * _)%type |- _ => destruct p
         | w : World |- _ => destruct w
         end;
  cbn in *; unfold quadrant_random_obs, combat_obs, object_obs, taken_obs, taken_object_obs, world_obs in *;
  cbn in *;
  rewrite ?qobs_sector_map, ?qobs_klingon_ships, ?qobs_klingons, ?qobs_starbases,
    ?qobs_starbase_pos, ?qobs_star_positions, ?gobs_total_klingons, ?gobs_stardate;
  try reflexivity; try congruence.

Ltac frame_zoom :=
  lazymatch goal with
  | |- preserves _ (zoom _ _) =>
      first
        [ apply preserves_zoom_frame; solve [frame_side]
        | apply (preserves_zoom _ qobs); [solve [frame_side] |]
        | apply (preserves_zoom _ (quadrant_random_obs qobs)); [solve [frame_side] |]
        | apply (preserves_zoom _ (combat_obs qobs)); [solve [frame_side] |]
        | apply (preserves_zoom _ (object_obs qobs)); [solve [frame_side] |]
        | apply (preserves_zoom _ gobs); [solve [frame_side] |] ]
  | |- preserves _ (modify _) => apply preserves_modify; solve [frame_side]
  end.

Ltac frame := repeat first [frame_step | frame_zoom].

(** ** Quadrant methods *)

Lemma set_cell_preserves (r c : Z) (e : EntityType) : preserves qobs (Quadrant.set_cell r c e).
Proof.
  unfold Quadrant.set_cell. frame.
Qed.

Lemma cell_preserves {S Z'} (obs : S -> Z') (q : Quadrant.t) (r c : Z) :
  preserves obs (Quadrant.cell q r c).
Proof. unfold Quadrant.cell. frame. Qed.

Lemma remove_enterprise_preserves (r c : Z) : preserves qobs (Quadrant.remove_enterprise r c).
Proof.
  unfold Quadrant.remove_enterprise. frame;
    first [apply cell_preserves | apply set_cell_preserves].
Qed.

Lemma remove_klingon_preserves (r c : Z) : preserves qobs (Quadrant.remove_klingon r c).
Proof.
  unfold Quadrant.remove_klingon. frame;
    first [apply cell_preserves | apply set_cell_preserves].
Qed.

Lemma get_entity_at_preserves (r c : Z) : preserves qobs (Quadrant.get_entity_at r c).
Proof. unfold Quadrant.get_entity_at. frame; apply cell_preserves. Qed.

Lemma find_empty_sector_preserves (fuel : nat) :
  preserves (quadrant_random_obs qobs) (Quadrant._find_empty_sector fuel).
Proof.
  induction fuel as [| fuel IH]; cbn [Quadrant._find_empty_sector]; frame;
    first [apply cell_preserves | exact IH].
Qed.

Lemma initialize_sector_map_preserves (fuel : nat) :
  preserves (quadrant_random_obs qobs) (Quadrant.initialize_sector_map fuel).
Proof.
  unfold Quadrant.initialize_sector_map. frame;
    first [apply find_empty_sector_preserves | apply set_cell_preserves].
Qed.

Lemma place_enterprise_preserves (fuel : nat) (r c : Z) :
  preserves (quadrant_random_obs qobs) (Quadrant.place_enterprise fuel r c).
Proof.
  unfold Quadrant.place_enterprise. frame;
    first [apply find_empty_sector_preserves | apply set_cell_preserves
          | apply initialize_sector_map_preserves | apply cell_preserves].
Qed.

(** ** Galaxy methods *)

Lemma get_quadrant_preserves {Z'} (obs : Galaxy.t -> Z') (r c : Z) :
  preserves obs (Galaxy.get_quadrant r c).
Proof. unfold Galaxy.get_quadrant. frame. Qed.

Lemma klingon_destroyed_preserves : preserves gobs Galaxy.klingon_destroyed.
Proof. unfold Galaxy.klingon_destroyed. frame. Qed.

Lemma advance_time_preserves (days : float) : preserves gobs (Galaxy.advance_time days).
Proof. unfold Galaxy.advance_time. frame. Qed.

(** ** Using a quadrant of the galaxy *)

Lemma with_quadrant_preserves {A} (ref : option (Z * Z)) (m : M (World * Quadrant.t) A) :
  preserves (taken_obs gobs qobs) m -> preserves (world_obs gobs) (with_quadrant ref m).
Proof.
  intros Hm w. unfold ensures, with_quadrant.
  destruct ref as [[r c] |]; [| reflexivity].
  destruct (py_index2 (Galaxy.quadrants (galaxy w)) r c) as [q0 |] eqn:Hq0; [| reflexivity].
  specialize (Hm (w, q0)). unfold ensures in Hm.
  destruct (m (w, q0)) as [a [w' q'] | e [w' q'] |]; [| | exact I];
    unfold taken_obs in Hm; cbn in Hm; injection Hm as Hg Hq;
    unfold store_back, world_obs; cbn; eapply gobs_store; eauto.
Qed.

Lemma with_quadrant_object_preserves {A} (ref : option (Z * Z))
    (m : M (World * option Quadrant.t) A) :
  preserves (taken_object_obs gobs qobs) m ->
  preserves (world_obs gobs) (with_quadrant_object ref m).
Proof.
  intros Hm w. unfold ensures, with_quadrant_object.
  destruct ref as [[r c] |].
  - destruct (py_index2 (Galaxy.quadrants (galaxy w)) r c) as [q0 |] eqn:Hq0; [| reflexivity].
    specialize (Hm (w, Some q0)). unfold ensures in Hm.
    destruct (m (w, Some q0)) as [a [w' oq] | e [w' oq] |]; [| | exact I];
      unfold taken_object_obs in Hm; cbn in Hm; injection Hm as Hg Hq;
      destruct oq as [q' |]; try discriminate; injection Hq as Hq;
      unfold store_back, world_obs; cbn; eapply gobs_store; eauto.
  - specialize (Hm (w, None)). unfold ensures in Hm.
    destruct (m (w, None)) as [a [w' oq] | e [w' oq] |]; [| | exact I];
      unfold taken_object_obs in Hm; cbn in Hm; injection Hm as Hg Hq; exact Hg.
Qed.

Lemma on_object_preserves {S A} (m : M Quadrant.t A) :
  preserves qobs m ->
  preserves (fun s : S * option Quadrant.t => qobs <$> snd s) (on_object m).
Proof.
  intros Hm [x [q |]]; unfold ensures, on_object; cbn; [| reflexivity].
  specialize (Hm q). unfold ensures in Hm.
  destruct (m q); cbn; congruence.
Qed.

(** ** Combat *)

Lemma phaser_hit_preserves (ept : float) (acc : list (Z * Z * Z) * list Klingon.t * Z) (i : nat) :
  preserves (combat_obs qobs) (phaser_hit ept acc i).
Proof. unfold phaser_hit. frame. Qed.

Lemma fire_phasers_preserves (energy_amount : Z) :
  preserves (combat_obs qobs) (fire_phasers energy_amount).
Proof.
  unfold fire_phasers, dict_class_PHASER_CONTROL. frame;
    first [apply phaser_hit_preserves | apply remove_klingon_preserves].
Qed.

Lemma torpedo_travel_preserves (steps : nat) (dr dc cr cc : float) :
  preserves (object_obs qobs) (torpedo_travel steps dr dc cr cc).
Proof.
  revert cr cc. induction steps as [| steps IH]; intros cr cc; cbn [torpedo_travel]; frame;
    first [ apply IH
          | apply (on_object_preserves (S := Enterprise.t));
            first [ apply get_entity_at_preserves | apply remove_klingon_preserves
                  | apply set_cell_preserves | frame ] ].
Qed.

Lemma fire_torpedo_preserves (direction : float) :
  preserves (object_obs qobs) (fire_torpedo direction).
Proof. unfold fire_torpedo. frame; apply torpedo_travel_preserves. Qed.

(** ** Commands *)

Lemma get_current_quadrant_preserves : preserves (world_obs gobs) get_current_quadrant.
Proof. unfold get_current_quadrant. frame. apply get_quadrant_preserves. Qed.

Ltac frame_world :=
  frame;
  repeat first
    [ apply get_current_quadrant_preserves
    | apply get_quadrant_preserves
    | apply klingon_destroyed_preserves
    | apply advance_time_preserves
    | apply with_quadrant_preserves; frame
    | apply with_quadrant_object_preserves; frame
    | apply initialize_sector_map_preserves
    | apply place_enterprise_preserves
    | apply find_empty_sector_preserves
    | apply get_entity_at_preserves
    | apply remove_enterprise_preserves
    | apply set_cell_preserves
    | apply fire_phasers_preserves
    | apply fire_torpedo_preserves ].

Lemma nav_arrive_preserves (fuel : nat) (warp : float) (energy_required : Z)
    (current_quadrant : option (Z * Z)) (p : NavPos) :
  preserves (world_obs gobs) (nav_arrive fuel warp energy_required current_quadrant p).
Proof. unfold nav_arrive. frame_world. Qed.

Lemma execute_nav_preserves (fuel : nat) (course_in warp_in : option float) :
  preserves (world_obs gobs) (execute_nav fuel course_in warp_in).
Proof. unfold execute_nav. frame_world. apply nav_arrive_preserves. Qed.

Lemma execute_srs_preserves : preserves (world_obs gobs) execute_srs.
Proof. unfold execute_srs. frame_world. Qed.

Lemma execute_pha_preserves (energy_in : option Z) :
  preserves (world_obs gobs) (execute_pha energy_in).
Proof. unfold execute_pha. frame_world. Qed.

Lemma execute_tor_preserves (direction_in : option float) :
  preserves (world_obs gobs) (execute_tor direction_in).
Proof. unfold execute_tor. frame_world. Qed.

Lemma execute_she_preserves (energy_in : option Z) :
  preserves (world_obs gobs) (execute_she energy_in).
Proof. unfold execute_she. frame_world. Qed.

Lemma execute_dam_preserves (answer_yes : bool) :
  preserves (world_obs gobs) (execute_dam answer_yes).
Proof. unfold execute_dam. frame_world. Qed.

Lemma execute_com_preserves (func_in : option Z) (coords : option (Z * Z * Z * Z)) :
  preserves (world_obs gobs) (execute_com func_in coords).
Proof. unfold execute_com. frame_world. Qed.

Lemma execute_xxx_preserves (answer_yes : bool) :
  preserves (world_obs gobs) (execute_xxx answer_yes).
Proof. unfold execute_xxx. frame_world. Qed.

Lemma process_klingon_attack_preserves : preserves (world_obs gobs) process_klingon_attack.
Proof. unfold process_klingon_attack. frame_world. Qed.

Lemma after_command_preserves (result : CommandResult) :
  preserves (world_obs gobs) (after_command result).
Proof. unfold after_command. frame_world. apply process_klingon_attack_preserves. Qed.

Lemma print_short_range_scan_preserves (fuel : nat) :
  preserves (world_obs gobs) (print_short_range_scan fuel).
Proof. unfold print_short_range_scan. frame_world. Qed.
End Frame.

(** * The scanned flags *)

Lemma scanned_view_store (g g' : Galaxy.t) (r c : Z) (q0 q' : Quadrant.t) :
  py_index2 (Galaxy.quadrants g) r c = Some q0 ->
  scanned_view g' = scanned_view g ->
  Quadrant.scanned q' = Quadrant.scanned q0 ->
  scanned_view (Galaxy.store_quadrant r c q' g') = scanned_view g.
Proof.
  intros Hq0 Hview Hflag. unfold Galaxy.store_quadrant.
  destruct (py_setitem2 (Galaxy.quadrants g') r c q') as [qs |] eqn:Hset; [| exact Hview].
  unfold scanned_view in *. cbn [Galaxy.quadrants Galaxy.set_quadrants].
  pose proof (py_setitem2_fmap Quadrant.scanned (Galaxy.quadrants g') r c q') as Hmap.
  rewrite Hset, Hview, Hflag in Hmap. cbn in Hmap.
  rewrite py_setitem2_same in Hmap; [congruence |].
  rewrite py_index2_fmap, Hq0. reflexivity.
Qed.

Ltac scanned_side :=
  intros; first [reflexivity | eapply scanned_view_store; eassumption].

(** No command but LRS changes a scanned flag, whatever its outcome. *)
Lemma command_preserves_scanned (fuel : nat) (c : Command) :
  c <> LRS -> preserves (world_obs scanned_view) (execute_command fuel c).
Proof.
  intros Hc.
  destruct c; cbn [execute_command]; try congruence.
  - apply (execute_nav_preserves scanned_view Quadrant.scanned); scanned_side.
  - apply execute_srs_preserves.
  - apply (execute_pha_preserves scanned_view Quadrant.scanned); scanned_side.
  - apply (execute_tor_preserves scanned_view Quadrant.scanned); scanned_side.
  - apply execute_she_preserves.
  - apply execute_dam_preserves.
  - apply (execute_com_preserves scanned_view Quadrant.scanned); scanned_side.
  - apply execute_xxx_preserves.
Qed.

(** Nor do the passing of time, the repairs and the Klingon counter-attack
    that follow a command, or the short-range display. *)
Lemma after_command_preserves_scanned (result : CommandResult) :
  preserves (world_obs scanned_view) (after_command result).
Proof. apply (after_command_preserves scanned_view Quadrant.scanned); scanned_side. Qed.

Lemma print_short_range_scan_preserves_scanned (fuel : nat) :
  preserves (world_obs scanned_view) (print_short_range_scan fuel).
Proof. apply (print_short_range_scan_preserves scanned_view Quadrant.scanned); scanned_side. Qed.

(** ** Reading and writing the quadrants of the galaxy *)

Lemma set_quadrants_same (g : Galaxy.t) : Galaxy.set_quadrants (Galaxy.quadrants g) g = g.
Proof. destruct g; reflexivity. Qed.

Lemma store_quadrant_same (g : Galaxy.t) (r c : Z) (q : Quadrant.t) :
  quadrant_at g r c = Some q -> Galaxy.store_quadrant r c q g = g.
Proof.
  intros H. unfold Galaxy.store_quadrant.
  rewrite (py_setitem2_same _ _ _ _ H). apply set_quadrants_same.
Qed.

Lemma quadrant_at_store_eq (g : Galaxy.t) (r c : Z) (q : Quadrant.t) :
  is_Some (quadrant_at g r c) -> quadrant_at (Galaxy.store_quadrant r c q g) r c = Some q.
Proof.
  intros H. unfold Galaxy.store_quadrant, quadrant_at in *.
  destruct (py_setitem2_is_Some _ r c q H) as [qs Hqs]. rewrite Hqs.
  cbn [Galaxy.quadrants Galaxy.set_quadrants]. eapply py_index2_setitem2_eq; eauto.
Qed.

Lemma quadrant_at_store_ne (g : Galaxy.t) (r c r' c' : Z) (q : Quadrant.t) :
  0 <= r -> 0 <= c -> 0 <= r' -> 0 <= c' -> (r, c) <> (r', c') ->
  quadrant_at (Galaxy.store_quadrant r c q g) r' c' = quadrant_at g r' c'.
Proof.
  intros Hr Hc Hr' Hc' Hne. unfold Galaxy.store_quadrant, quadrant_at.
  destruct (py_setitem2 (Galaxy.quadrants g) r c q) as [qs |] eqn:Hqs; [| reflexivity].
  cbn [Galaxy.quadrants Galaxy.set_quadrants].
  eapply py_index2_setitem2_ne; [| | | | | exact Hqs]; assumption.
Qed.

Lemma store_quadrant_twice (g : Galaxy.t) (r c : Z) (q q' : Quadrant.t) :
  Galaxy.store_quadrant r c q' (Galaxy.store_quadrant r c q g) = Galaxy.store_quadrant r c q' g.
Proof.
  unfold Galaxy.store_quadrant.
  destruct (py_setitem2 (Galaxy.quadrants g) r c q) as [qs |] eqn:Hqs; [| reflexivity].
  cbn [Galaxy.quadrants Galaxy.set_quadrants].
  rewrite (py_setitem2_twice _ _ _ _ q' _ Hqs).
  destruct (py_setitem2_is_Some _ r c q' (py_setitem2_Some_index _ _ _ _ _ Hqs)) as [qs' ->].
  reflexivity.
Qed.

Lemma in_bounds_range (r c : Z) : Galaxy.in_bounds r c = true <-> 0 <= r < 8 /\ 0 <= c < 8.
Proof. unfold Galaxy.in_bounds. rewrite !andb_true_iff. lia. Qed.

Lemma on_quadrant_modify (g : Galaxy.t) (r c : Z) (f : Quadrant.t -> Quadrant.t) (q : Quadrant.t) :
  quadrant_at g r c = Some q ->
  Galaxy.on_quadrant r c (modify f) g = Ret tt (Galaxy.store_quadrant r c (f q) g).
Proof. intros H. unfold Galaxy.on_quadrant. unfold quadrant_at in H. rewrite H. reflexivity. Qed.

Lemma on_quadrant_gets {A} (g : Galaxy.t) (r c : Z) (f : Quadrant.t -> A) (q : Quadrant.t) :
  quadrant_at g r c = Some q ->
  Galaxy.on_quadrant r c (gets f) g = Ret (f q) g.
Proof.
  intros H. unfold Galaxy.on_quadrant. pose proof H as H'. unfold quadrant_at in H. rewrite H.
  cbn. rewrite (store_quadrant_same _ _ _ _ H'). reflexivity.
Qed.

(** ** The long-range scan *)

Lemma quadrant_at_mark_scanned (g : Galaxy.t) (rc : Z * Z) (r c : Z) :
  Galaxy.in_bounds r c = true ->
  quadrant_at (mark_scanned g rc) r c =
    if decide (rc = (r, c)) then Quadrant.set_scanned true <$> quadrant_at g r c
    else quadrant_at g r c.
Proof.
  intros Hb. destruct rc as [r0 c0]. unfold mark_scanned. cbn [fst snd].
  destruct (decide ((r0, c0) = (r, c))) as [[= -> ->] | Hne].
  - rewrite Hb. destruct (quadrant_at g r c) as [q |] eqn:Hq; [| rewrite Hq; reflexivity].
    cbn. apply quadrant_at_store_eq. rewrite Hq. eauto.
  - destruct (Galaxy.in_bounds r0 c0) eqn:Hb0; [| reflexivity].
    destruct (quadrant_at g r0 c0) as [q |]; [| reflexivity].
    apply in_bounds_range in Hb, Hb0.
    apply quadrant_at_store_ne; try lia. exact Hne.
Qed.

Lemma mark_scanned_grid_ok (g : Galaxy.t) (rc : Z * Z) :
  galaxy_grid_ok g -> galaxy_grid_ok (mark_scanned g rc).
Proof.
  intros Hg r c Hb. rewrite quadrant_at_mark_scanned by exact Hb.
  destruct (Hg r c Hb) as [q Hq]. rewrite Hq. destruct (decide _); cbn; eauto.
Qed.

Lemma lrs_cell_mark_scanned (g : Galaxy.t) (rc : Z * Z) (r c : Z) :
  lrs_cell (mark_scanned g rc) r c = lrs_cell g r c.
Proof.
  unfold lrs_cell. destruct (Galaxy.in_bounds r c) eqn:Hb; [| reflexivity].
  rewrite quadrant_at_mark_scanned by exact Hb.
  destruct (decide _); [| reflexivity].
  destruct (quadrant_at g r c) as [[]|]; reflexivity.
Qed.

Lemma mark_scanned_other_fields (g : Galaxy.t) (rc : Z * Z) (qs : list (list Quadrant.t)) :
  Galaxy.set_quadrants qs (mark_scanned g rc) = Galaxy.set_quadrants qs g.
Proof.
  unfold mark_scanned. destruct (Galaxy.in_bounds _ _); [| reflexivity].
  destruct (quadrant_at g _ _); [| reflexivity].
  unfold Galaxy.store_quadrant. destruct (py_setitem2 _ _ _ _); reflexivity.
Qed.

(** One cell of the scan. *)
Lemma scan_cell_run (g : Galaxy.t) (r c : Z) :
  galaxy_grid_ok g ->
  (if Galaxy.in_bounds r c then
     Galaxy.on_quadrant r c (modify (Quadrant.set_scanned true)) ;;;
     v <- Galaxy.on_quadrant r c (gets Quadrant.get_lrs_value) ;;
     ret (Some v)
   else ret None) g = Ret (lrs_cell g r c) (mark_scanned g (r, c)).
Proof.
  intros Hg. unfold lrs_cell, mark_scanned. cbn [fst snd].
  destruct (Galaxy.in_bounds r c) eqn:Hb; [| reflexivity].
  destruct (Hg r c Hb) as [q Hq]. rewrite Hq. cbn [fmap option_fmap option_map].
  unfold bind. rewrite (on_quadrant_modify _ _ _ _ _ Hq).
  erewrite on_quadrant_gets by (apply quadrant_at_store_eq; rewrite Hq; eauto).
  destruct q; reflexivity.
Qed.

(** The scan as a whole: the nine cells are marked in turn. *)
Lemma get_lrs_data_run (g : Galaxy.t) (center_row center_col : Z) :
  galaxy_grid_ok g ->
  Galaxy.get_lrs_data center_row center_col g =
    Ret (lrs_block g center_row center_col)
        (foldl mark_scanned g (block_cells center_row center_col)).
Proof.
  intros Hg. unfold Galaxy.get_lrs_data, lrs_block, block_cells.
  cbn [map_m mbind list_bind fmap list_fmap app foldl mret list_ret].
  unfold bind, ret.
  repeat (rewrite scan_cell_run by (repeat apply mark_scanned_grid_ok; exact Hg)).
  rewrite !lrs_cell_mark_scanned. reflexivity.
Qed.

Lemma quadrant_at_marks (g : Galaxy.t) (cells : list (Z * Z)) (r c : Z) :
  Galaxy.in_bounds r c = true ->
  quadrant_at (foldl mark_scanned g cells) r c =
    if decide ((r, c) ∈ cells) then Quadrant.set_scanned true <$> quadrant_at g r c
    else quadrant_at g r c.
Proof.
  intros Hb. revert g. induction cells as [| rc cells IH]; intros g; cbn [foldl].
  - destruct (decide _) as [Hin |]; [| reflexivity]. inversion Hin.
  - rewrite IH, quadrant_at_mark_scanned by exact Hb.
    destruct (decide ((r, c) ∈ cells)) as [Hin | Hnin];
      destruct (decide (rc = (r, c))) as [-> | Hne];
      destruct (decide ((r, c) ∈ _ :: cells)) as [Hin' | Hnin'];
      try reflexivity.
    + destruct (quadrant_at g r c) as [[]|]; reflexivity.
    + exfalso. apply Hnin'. left.
    + exfalso. apply Hnin'. right. exact Hin.
    + exfalso. apply Hnin'. left.
    + exfalso. apply elem_of_cons in Hin' as [Heq | Hin']; [congruence | contradiction].
Qed.

Lemma marks_other_fields (g : Galaxy.t) (cells : list (Z * Z)) (qs : list (list Quadrant.t)) :
  Galaxy.set_quadrants qs (foldl mark_scanned g cells) = Galaxy.set_quadrants qs g.
Proof.
  revert g. induction cells as [| rc cells IH]; intros g; cbn [foldl]; [reflexivity |].
  rewrite IH. apply mark_scanned_other_fields.
Qed.

Lemma elem_of_block_cells (center_row center_col r c : Z) :
  (r, c) ∈ block_cells center_row center_col <-> in_block center_row center_col r c = true.
Proof.
  unfold in_block. rewrite andb_true_iff, !Z.leb_le.
  unfold block_cells. cbn [mbind list_bind fmap list_fmap app mret list_ret].
  rewrite !elem_of_cons, elem_of_nil. split.
  - intros H. repeat destruct H as [H | H]; try (injection H as -> ->; lia). contradiction.
  - intros [Hr Hc].
    assert (Hr' : r = center_row + -1 \/ r = center_row + 0 \/ r = center_row + 1) by lia.
    assert (Hc' : c = center_col + -1 \/ c = center_col + 0 \/ c = center_col + 1) by lia.
    destruct Hr' as [-> | [-> | ->]], Hc' as [-> | [-> | ->]]; auto 10.
Qed.

(** The long-range scan on a galaxy with all its quadrants: it returns the
    3x3 grid of values, with no value outside the galaxy; inside the galaxy,
    the quadrants of the block are marked scanned and are otherwise as they
    were, and so is the rest of the galaxy. *)
Lemma get_lrs_data_spec (g : Galaxy.t) (center_row center_col : Z) :
  galaxy_grid_ok g ->
  exists g',
    Galaxy.get_lrs_data center_row center_col g = Ret (lrs_block g center_row center_col) g' /\
    (forall r c, Galaxy.in_bounds r c = true ->
       quadrant_at g' r c =
         if in_block center_row center_col r c
         then Quadrant.set_scanned true <$> quadrant_at g r c
         else quadrant_at g r c) /\
    Galaxy.set_quadrants (Galaxy.quadrants g) g' = g.
Proof.
  intros Hg. eexists. split; [apply get_lrs_data_run; exact Hg |]. split.
  - intros r c Hb. rewrite quadrant_at_marks by exact Hb.
    destruct (decide _) as [Hin | Hnin].
    + apply elem_of_block_cells in Hin. rewrite Hin. reflexivity.
    + destruct (in_block center_row center_col r c) eqn:Hblock; [| reflexivity].
      exfalso. apply Hnin, elem_of_block_cells. exact Hblock.
  - rewrite marks_other_fields. apply set_quadrants_same.
Qed.

(** ** New-game initialisation *)

(** When [initialize_game] completes, the quadrant the ship is in is marked
    scanned. *)
Lemma initialize_game_marks_start (fuel : nat) (w w' : World) :
  initialize_game fuel w = Ret tt w' ->
  exists q,
    quadrant_at (galaxy w') (Enterprise.quadrant_row (enterprise w'))
                (Enterprise.quadrant_col (enterprise w')) = Some q /\
    Quadrant.scanned q = true.
Proof.
  intros H. unfold initialize_game in H.
  destruct (bind_Ret_inv _ _ _ _ _ H) as (g & w1 & _ & H1); clear H.
  destruct (bind_Ret_inv _ _ _ _ _ H1) as (_ & w2 & _ & H2); clear H1.
  destruct (bind_Ret_inv _ _ _ _ _ H2) as (_ & w3 & _ & H3); clear H2.
  destruct (bind_Ret_inv _ _ _ _ _ H3) as (r & w4 & _ & H4); clear H3.
  destruct (bind_Ret_inv _ _ _ _ _ H4) as (c & w5 & _ & H5); clear H4.
  destruct (bind_Ret_inv _ _ _ _ _ H5) as (sr & w6 & _ & H6); clear H5.
  destruct (bind_Ret_inv _ _ _ _ _ H6) as (sc & w7 & _ & H7); clear H6.
  destruct (bind_Ret_inv _ _ _ _ _ H7) as (ref & w8 & Href & H8); clear H7.
  destruct (bind_Ret_inv _ _ _ _ _ H8) as (_ & w9 & _ & H9); clear H8.
  destruct (bind_Ret_inv _ _ _ _ _ H9) as (actual & w10 & _ & H10); clear H9.
  destruct (bind_Ret_inv _ _ _ _ _ H10) as (u & w11 & Hpos & Hmark); clear H10.
  assert (Href' : ref = Some (r, c) \/ ref = None).
  { unfold zoom, Galaxy.get_quadrant, bind, get, expect, ret in Href.
    destruct (Galaxy.in_bounds r c).
    - destruct (py_index2 _ r c); cbn in Href; [| discriminate].
      injection Href as Href _. auto.
    - injection Href as Href _. auto. }
  assert (Hship : Enterprise.quadrant_row (enterprise w11) = r /\
                  Enterprise.quadrant_col (enterprise w11) = c).
  { unfold zoom, Enterprise.set_position, modify in Hpos. cbn in Hpos.
    injection Hpos as _ Hpos. rewrite <- Hpos. cbn. auto. }
  destruct Hship as [Hrow Hcol].
  destruct Href' as [-> | ->]; [| discriminate Hmark].
  unfold with_quadrant in Hmark.
  destruct (py_index2 (Galaxy.quadrants (galaxy w11)) r c) as [q |] eqn:Hq; [| discriminate Hmark].
  cbn in Hmark. injection Hmark as Hmark. rewrite <- Hmark. cbn.
  rewrite Hrow, Hcol.
  exists (Quadrant.set_scanned true q). split; [| reflexivity].
  apply quadrant_at_store_eq. unfold quadrant_at. rewrite Hq. eauto.
Qed.

Lemma galaxy_grid_ok_8x8 (g : Galaxy.t) :
  length (Galaxy.quadrants g) = 8%nat ->
  Forall (fun row => length row = 8%nat) (Galaxy.quadrants g) ->
  galaxy_grid_ok g.
Proof.
  intros Hlen Hrows r c Hb. apply in_bounds_range in Hb.
  unfold quadrant_at, py_index2.
  rewrite py_index_pos, py_pos_nonneg by lia. cbn.
  destruct (lookup_lt_is_Some_2 (Galaxy.quadrants g) (Z.to_nat r)) as [row Hrow]; [lia |].
  rewrite Hrow.
  rewrite Forall_lookup in Hrows. specialize (Hrows _ _ Hrow). cbn in Hrows.
  rewrite py_index_pos, py_pos_nonneg by lia. cbn.
  apply lookup_lt_is_Some_2. lia.
Qed.

Lemma new_game_world_is_initialized : initialize_game 100 blank_world = Ret tt new_game_world.
Proof. vm_compute. reflexivity. Qed.

Lemma new_game_world_grid_ok : galaxy_grid_ok (galaxy new_game_world).
Proof.
  apply galaxy_grid_ok_8x8; [vm_compute; reflexivity |].
  repeat constructor.
Qed.

(** C8, the claim as stated fails: the galaxy is generated with every
    scanned flag false, and new-game initialisation, which performs no
    long-range scan, leaves the starting quadrant (1, 6) marked scanned. *)
Lemma initialize_game_writes_scanned_counterexample :
  match Galaxy.new 100 mix_rng with
  | Ret g _ => scanned_view g = replicate 8 (replicate 8 false)
  | _ => False
  end /\
  initialize_game 100 blank_world = Ret tt new_game_world /\
  Quadrant.scanned <$> quadrant_at (galaxy new_game_world) 1 6 = Some true.
Proof.
  split; [vm_compute; reflexivity |].
  split; [exact new_game_world_is_initialized | vm_compute; reflexivity].
Qed.

(** C8, amended.  The long-range scan marks each in-bounds quadrant of the
    3x3 block centred on the given quadrant as scanned (changing nothing else
    of the galaxy) and reports out-of-bounds cells as no data.  New-game
    initialisation also writes the flag: when it completes, the quadrant the
    ship starts in is marked scanned.  No other operation of a turn changes
    a scanned flag: not a command other than LRS, whatever its outcome, nor
    the time advance, repairs and counter-attack after a command, nor the
    short-range display. *)
Theorem long_range_scan_and_scanned_writers :
  (forall g center_row center_col,
     galaxy_grid_ok g ->
     exists g',
       Galaxy.get_lrs_data center_row center_col g =
         Ret (lrs_block g center_row center_col) g' /\
       (forall r c, Galaxy.in_bounds r c = true ->
          quadrant_at g' r c =
            if in_block center_row center_col r c
            then Quadrant.set_scanned true <$> quadrant_at g r c
            else quadrant_at g r c) /\
       Galaxy.set_quadrants (Galaxy.quadrants g) g' = g) /\
  (forall g center_row center_col i j,
     In i [0; 1; 2] -> In j [0; 1; 2] ->
     py_index2 (lrs_block g center_row center_col) i j =
       Some (lrs_cell g (center_row + (i - 1)) (center_col + (j - 1))) /\
     (Galaxy.in_bounds (center_row + (i - 1)) (center_col + (j - 1)) = false ->
      lrs_cell g (center_row + (i - 1)) (center_col + (j - 1)) = None)) /\
  (forall fuel w w',
     initialize_game fuel w = Ret tt w' ->
     exists q,
       quadrant_at (galaxy w') (Enterprise.quadrant_row (enterprise w'))
                   (Enterprise.quadrant_col (enterprise w')) = Some q /\
       Quadrant.scanned q = true) /\
  (forall fuel c w,
     c <> LRS ->
     match execute_command fuel c w with
     | Ret _ w' | Raise _ w' => scanned_view (galaxy w') = scanned_view (galaxy w)
     | OutOfFuel => True
     end) /\
  (forall result w,
     match after_command result w with
     | Ret _ w' | Raise _ w' => scanned_view (galaxy w') = scanned_view (galaxy w)
     | OutOfFuel => True
     end) /\
  (forall fuel w,
     match print_short_range_scan fuel w with
     | Ret _ w' | Raise _ w' => scanned_view (galaxy w') = scanned_view (galaxy w)
     | OutOfFuel => True
     end).
Proof.
  split; [exact get_lrs_data_spec |].
  split.
  { intros g cr cc i j Hi Hj. split.
    - cbn in Hi, Hj.
      destruct Hi as [<- | [<- | [<- | []]]], Hj as [<- | [<- | [<- | []]]];
        reflexivity.
    - intros Hout. unfold lrs_cell. rewrite Hout. reflexivity. }
  split; [exact initialize_game_marks_start |].
  split.
  { intros fuel c w Hc. pose proof (command_preserves_scanned fuel c Hc w) as H.
    unfold ensures, world_obs in H. destruct (execute_command fuel c w); exact H. }
  split.
  { intros result w. pose proof (after_command_preserves_scanned result w) as H.
    unfold ensures, world_obs in H. destruct (after_command result w); exact H. }
  intros fuel w. pose proof (print_short_range_scan_preserves_scanned fuel w) as H.
  unfold ensures, world_obs in H. destruct (print_short_range_scan fuel w); exact H.
Qed.

Lemma long_range_scan_and_scanned_writers_witness :
  (exists g',
     Galaxy.get_lrs_data 1 6 (galaxy new_game_world) =
       Ret (lrs_block (galaxy new_game_world) 1 6) g' /\
     (forall r c, Galaxy.in_bounds r c = true ->
        quadrant_at g' r c =
          if in_block 1 6 r c
          then Quadrant.set_scanned true <$> quadrant_at (galaxy new_game_world) r c
          else quadrant_at (galaxy new_game_world) r c) /\
     Galaxy.set_quadrants (Galaxy.quadrants (galaxy new_game_world)) g' = galaxy new_game_world) /\
  (exists q,
     quadrant_at (galaxy new_game_world) (Enterprise.quadrant_row (enterprise new_game_world))
                 (Enterprise.quadrant_col (enterprise new_game_world)) = Some q /\
     Quadrant.scanned q = true) /\
  match execute_command 100 (TOR (Some 7.8%float)) new_game_world with
  | Ret _ w' | Raise _ w' => scanned_view (galaxy w') = scanned_view (galaxy new_game_world)
  | OutOfFuel => True
  end.
Proof.
  destruct long_range_scan_and_scanned_writers as (Hscan & _ & Hinit & Hcmd & _).
  split; [apply Hscan; exact new_game_world_grid_ok |].
  split; [apply (Hinit 100%nat blank_world); exact new_game_world_is_initialized |].
  apply Hcmd. discriminate.
Defined.

(** * game/commands.py: navigation *)

(** The movement loop stops at the galactic barrier exactly when one of its
    steps takes a quadrant coordinate outside the galaxy. *)
Lemma nav_walk_barrier (steps : nat) (dr dc : float) (p : NavPos) :
  nav_walk steps dr dc p = None <-> crosses_barrier steps dr dc p.
Proof.
  unfold crosses_barrier. revert p.
  induction steps as [| steps IH]; intros p; cbn [nav_walk].
  - split; [discriminate | intros (k & Hk & _); lia].
  - destruct (outside_galaxy (nav_advance dr dc p)) eqn:Hout.
    + split; [intros _ | reflexivity]. exists 0%nat. split; [lia | exact Hout].
    + rewrite IH. split.
      * intros (k & Hk & Hk'). exists (S k). split; [lia |].
        rewrite Nat.iter_succ_r. exact Hk'.
      * intros (k & Hk & Hk'). destruct k as [| k].
        -- cbn in Hk'. congruence.
        -- exists k. split; [lia |]. rewrite Nat.iter_succ_r in Hk'. exact Hk'.
Qed.

Lemma set_docked_false_same (e : Enterprise.t) :
  Enterprise.docked e = false -> Enterprise.set_docked false e = e.
Proof. destruct e; cbn. intros ->. reflexivity. Qed.

Lemma returns_with_quadrant {A} (r c : Z) (q : Quadrant.t) (m : M (World * Quadrant.t) A)
    (w : World) (Q : A -> World -> Prop) :
  quadrant_at (galaxy w) r c = Some q ->
  returns m (w, q) (fun a s => Q a (store_back r c (fst s, Some (snd s)))) ->
  returns (with_quadrant (Some (r, c)) m) w Q.
Proof.
  intros Hq (a & s' & Hm & HQ). exists a. eexists. split; [| exact HQ].
  unfold with_quadrant. unfold quadrant_at in Hq. rewrite Hq, Hm. reflexivity.
Qed.

Lemma returns_lift_exn {S A} (r : PyExn + A) (a : A) (s : S) (Q : A -> S -> Prop) :
  r = inr a -> Q a s -> returns (lift_exn r) s Q.
Proof. intros -> H. exists a, s. split; [reflexivity | exact H]. Qed.

(** Taking the ship off its cell and putting it back restores the sector
    map. *)
Lemma remove_enterprise_run (q : Quadrant.t) (r c : Z) :
  Quadrant.in_sector_bounds r c = true ->
  py_index2 (Quadrant.sector_map q) r c = Some ENTERPRISE ->
  exists m,
    py_setitem2 (Quadrant.sector_map q) r c EMPTY = Some m /\
    Quadrant.remove_enterprise r c q = Ret tt (Quadrant.set_sector_map m q).
Proof.
  intros Hb Hcell.
  destruct (py_setitem2_is_Some (Quadrant.sector_map q) r c EMPTY) as [m Hm];
    [rewrite Hcell; eauto |].
  exists m. split; [exact Hm |].
  unfold Quadrant.remove_enterprise, Quadrant.set_cell, Quadrant.cell, bind, get, expect, modify, ret.
  destruct (Quadrant.sector_map q) as [| row rows] eqn:Hmap.
  { unfold py_index2 in Hcell. rewrite py_index_nil in Hcell. discriminate Hcell. }
  rewrite Hb, Hcell.
  destruct (decide (ENTERPRISE = ENTERPRISE)); [| congruence].
  rewrite Hmap, Hm. reflexivity.
Qed.

Lemma set_cell_restores (q : Quadrant.t) (r c : Z) (m : list (list EntityType)) (e : EntityType) :
  py_index2 (Quadrant.sector_map q) r c = Some e ->
  py_setitem2 (Quadrant.sector_map q) r c EMPTY = Some m ->
  Quadrant.set_cell r c e (Quadrant.set_sector_map m q) = Ret tt q.
Proof.
  intros Hcell Hm.
  unfold Quadrant.set_cell, bind, get, expect, modify, ret. cbn [Quadrant.sector_map Quadrant.set_sector_map].
  rewrite (py_setitem2_twice _ _ _ _ e _ Hm), (py_setitem2_same _ _ _ _ Hcell).
  destruct q; reflexivity.
Qed.

(** C3.  A navigation that passes the checks of the command (warp engines
    operational, course and warp in range, warp not 0, enough energy) from a
    ship standing on its ENTERPRISE cell, and whose stepping takes a quadrant
    coordinate outside [[0, 8)], aborts with a failure result.  No energy is
    deducted, the position fields are as before, and the galaxy, with the
    sector map and its ENTERPRISE cell, is exactly as before the command:
    the only difference in the state is that the ship is no longer docked. *)
Theorem nav_barrier_aborts_and_restores
    (fuel : nat) (g : Galaxy.t) (e : Enterprise.t) (r : Rng)
    (course warp : float) (sectors : Z) (dr dc : float) (q : Quadrant.t) :
  Enterprise.can_warp e = true ->
  ((course <? 1)%float || (9 <? course)%float) = false ->
  ((warp <? 0)%float || (8 <? warp)%float) = false ->
  (warp =? 0)%float = false ->
  py_int (warp * 8)%float = inr sectors ->
  sectors + 10 <= Enterprise.energy e ->
  nav_step_vector course = inr (dr, dc) ->
  Galaxy.in_bounds (Enterprise.quadrant_row e) (Enterprise.quadrant_col e) = true ->
  quadrant_at g (Enterprise.quadrant_row e) (Enterprise.quadrant_col e) = Some q ->
  Quadrant.in_sector_bounds (Enterprise.sector_row e) (Enterprise.sector_col e) = true ->
  py_index2 (Quadrant.sector_map q) (Enterprise.sector_row e) (Enterprise.sector_col e)
    = Some ENTERPRISE ->
  crosses_barrier (Z.to_nat sectors) dr dc (nav_start e) ->
  execute_nav fuel (Some course) (Some warp) (MkWorld g e r) =
    Ret (command_result false MsgGalacticBarrier)
        (MkWorld g (Enterprise.set_docked false e) r).
Proof.
  intros Hwarp Hcourse Hw Hw0 Hsec Hen Hvec Hqb Hq Hsb Hcell Hcross.
  apply nav_walk_barrier in Hcross.
  enough (Hr : returns (execute_nav fuel (Some course) (Some warp)) (MkWorld g e r)
                 (fun a s => a = command_result false MsgGalacticBarrier /\
                             s = MkWorld g (Enterprise.set_docked false e) r)).
  { destruct Hr as (a & s & Hrun & -> & ->). exact Hrun. }
  unfold execute_nav.
  apply returns_bind, returns_gets. cbn [enterprise].
  rewrite Hwarp. cbn [negb]. rewrite Hcourse, Hw, Hw0.
  eapply returns_bind, returns_lift_exn; [exact Hsec |].
  destruct (Z.ltb_spec (Enterprise.energy e) (sectors + 10)); [lia |].
  apply returns_bind.
  apply (returns_intro _ _ _ tt (MkWorld g (Enterprise.set_docked false e) r)).
  { destruct (Enterprise.docked e) eqn:Hd; [reflexivity |].
    rewrite set_docked_false_same by exact Hd. reflexivity. }
  eapply returns_bind, returns_lift_exn; [exact Hvec |].
  apply returns_bind.
  unfold get_current_quadrant.
  apply returns_bind, returns_gets. apply returns_zoom.
  cbn [view update the_galaxy galaxy enterprise rng Enterprise.set_docked
       Enterprise.quadrant_row Enterprise.quadrant_col].
  unfold Galaxy.get_quadrant. rewrite Hqb.
  apply returns_bind, returns_get.
  eapply returns_bind, returns_expect; [exact Hq |].
  apply returns_ret.
  apply returns_bind, returns_gets.
  cbn [enterprise Enterprise.set_docked Enterprise.sector_row Enterprise.sector_col
       Enterprise.quadrant_row Enterprise.quadrant_col].
  destruct (remove_enterprise_run q _ _ Hsb Hcell) as (m & Hm & Hrem).
  apply returns_bind.
  eapply returns_with_quadrant; [exact Hq |].
  apply returns_zoom. eapply returns_intro; [exact Hrem |].
  cbn [view update quadrant_only snd_lens fst snd store_back the_galaxy galaxy enterprise rng].
  unfold nav_start in Hcross. cbn [fst snd]. rewrite Hcross.
  apply returns_bind, returns_gets.
  cbn [enterprise Enterprise.set_docked Enterprise.sector_row Enterprise.sector_col].
  apply returns_bind.
  eapply returns_with_quadrant.
  { cbn [galaxy]. apply quadrant_at_store_eq. rewrite Hq. eauto. }
  apply returns_zoom. eapply returns_intro; [exact (set_cell_restores _ _ _ _ _ Hcell Hm) |].
  cbn [view update quadrant_only snd_lens fst snd store_back the_galaxy galaxy enterprise rng].
  apply returns_ret. split; [reflexivity |].
  rewrite store_quadrant_twice, (store_quadrant_same _ _ _ _ Hq). reflexivity.
Qed.

Lemma nav_barrier_aborts_and_restores_witness :
  execute_nav 100 (Some 3%float) (Some 2%float)
    (MkWorld (galaxy new_game_world) (enterprise new_game_world) (rng new_game_world)) =
  Ret (command_result false MsgGalacticBarrier)
      (MkWorld (galaxy new_game_world)
               (Enterprise.set_docked false (enterprise new_game_world))
               (rng new_game_world)).
Proof.
  eapply (nav_barrier_aborts_and_restores 100 (galaxy new_game_world)
            (enterprise new_game_world) (rng new_game_world) 3%float 2%float 16).
  - vm_compute. reflexivity.
  - vm_compute. reflexivity.
  - vm_compute. reflexivity.
  - vm_compute. reflexivity.
  - vm_compute. reflexivity.
  - vm_compute. discriminate.
  - vm_compute. reflexivity.
  - vm_compute. reflexivity.
  - vm_compute. reflexivity.
  - vm_compute. reflexivity.
  - vm_compute. reflexivity.
  - exists 8%nat. split; [vm_compute; lia | vm_compute; reflexivity].
Defined.

(** * game/combat.py and game/commands.py: torpedoes *)

(** Nothing in the TOR command writes the galaxy-wide starbase counter,
    whatever the torpedo hits: [Galaxy.starbase_destroyed] is never called. *)
Lemma execute_tor_keeps_total_starbases (direction_in : option float) (w : World) :
  match execute_tor direction_in w with
  | Ret _ w' | Raise _ w' =>
      Galaxy.total_starbases (galaxy w') = Galaxy.total_starbases (galaxy w)
  | OutOfFuel => True
  end.
Proof.
  pose proof (execute_tor_preserves Galaxy.total_starbases (fun _ : Quadrant.t => tt)) as H.
  assert (Hstore : forall g g' r c (q0 q' : Quadrant.t),
             py_index2 (Galaxy.quadrants g) r c = Some q0 ->
             Galaxy.total_starbases g' = Galaxy.total_starbases g -> tt = tt ->
             Galaxy.total_starbases (Galaxy.store_quadrant r c q' g') = Galaxy.total_starbases g).
  { intros g g' r c q0 q' _ Hg _. unfold Galaxy.store_quadrant.
    destruct (py_setitem2 _ _ _ _); exact Hg. }
  specialize (H Hstore (fun _ _ => eq_refl) (fun _ _ => eq_refl) (fun _ _ => eq_refl)
                (fun _ _ => eq_refl) (fun _ _ => eq_refl) (fun _ _ => eq_refl)
                direction_in w).
  unfold ensures, world_obs in H. destruct (execute_tor direction_in w); exact H.
Qed.

(** C2, the code where a torpedo reaches a starbase.  In the game set up
    from [mix_stream] the ship is at sector (0, 0) of quadrant (1, 6), whose
    starbase, the only one of the galaxy, is at sector (5, 4).  A torpedo on
    course 7.8 reaches that cell first: the cell is cleared, the quadrant's
    starbase position and starbase count are reset and the torpedo stops;
    but the galaxy-wide counter still says 1 although no quadrant holds a
    starbase any more. *)
Theorem torpedo_starbase_hit_keeps_galaxy_counter :
  exists q result w' q',
    quadrant_at (galaxy new_game_world) 1 6 = Some q /\
    Quadrant.starbases q = 1 /\
    Quadrant.starbase_pos q = Some (5, 4) /\
    py_index2 (Quadrant.sector_map q) 5 4 = Some STARBASE /\
    Galaxy.total_starbases (galaxy new_game_world) = 1 /\
    galaxy_sum Quadrant.starbases (galaxy new_game_world) = 1 /\
    execute_tor (Some 7.8%float) new_game_world = Ret result w' /\
    message result = MsgTorpedoHitStarbase /\
    quadrant_at (galaxy w') 1 6 = Some q' /\
    Quadrant.starbases q' = 0 /\
    Quadrant.starbase_pos q' = None /\
    py_index2 (Quadrant.sector_map q') 5 4 = Some EMPTY /\
    Enterprise.torpedoes (enterprise w') = 9 /\
    galaxy_sum Quadrant.starbases (galaxy w') = 0 /\
    Galaxy.total_starbases (galaxy w') = 1.
Proof.
  eexists _, _, _, _.
  split; [vm_compute; reflexivity |].
  split; [vm_compute; reflexivity |].
  split; [vm_compute; reflexivity |].
  split; [vm_compute; reflexivity |].
  split; [vm_compute; reflexivity |].
  split; [vm_compute; reflexivity |].
  split; [vm_compute; reflexivity |].
  split; [vm_compute; reflexivity |].
  split; [vm_compute; reflexivity |].
  repeat split; vm_compute; reflexivity.
Qed.

(** * game/galaxy.py: galaxy generation *)

Lemma store_quadrant_set_total_klingons (r c : Z) (q : Quadrant.t) (v : Z) (g : Galaxy.t) :
  Galaxy.store_quadrant r c q (Galaxy.set_total_klingons v g) =
  Galaxy.set_total_klingons v (Galaxy.store_quadrant r c q g).
Proof.
  unfold Galaxy.store_quadrant. cbn [Galaxy.quadrants Galaxy.set_total_klingons].
  destruct (py_setitem2 _ _ _ _); reflexivity.
Qed.

Lemma store_quadrant_set_total_starbases (r c : Z) (q : Quadrant.t) (v : Z) (g : Galaxy.t) :
  Galaxy.store_quadrant r c q (Galaxy.set_total_starbases v g) =
  Galaxy.set_total_starbases v (Galaxy.store_quadrant r c q g).
Proof.
  unfold Galaxy.store_quadrant. cbn [Galaxy.quadrants Galaxy.set_total_starbases].
  destruct (py_setitem2 _ _ _ _); reflexivity.
Qed.

Lemma store_quadrant_totals (r c : Z) (q : Quadrant.t) (g : Galaxy.t) :
  Galaxy.total_klingons (Galaxy.store_quadrant r c q g) = Galaxy.total_klingons g /\
  Galaxy.total_starbases (Galaxy.store_quadrant r c q g) = Galaxy.total_starbases g.
Proof. unfold Galaxy.store_quadrant. destruct (py_setitem2 _ _ _ _); split; reflexivity. Qed.

Lemma store_quadrant_sum (f : Quadrant.t -> Z) (g : Galaxy.t) (r c : Z) (q q0 : Quadrant.t) :
  quadrant_at g r c = Some q0 ->
  galaxy_sum f (Galaxy.store_quadrant r c q g) = galaxy_sum f g - f q0 + f q.
Proof.
  intros Hq0. unfold Galaxy.store_quadrant, galaxy_sum, quadrant_at in *.
  destruct (py_setitem2_is_Some (Galaxy.quadrants g) r c q) as [qs Hqs]; [rewrite Hq0; eauto |].
  rewrite Hqs. cbn [Galaxy.quadrants Galaxy.set_quadrants].
  eapply grid_sum_setitem2; eauto.
Qed.

Lemma store_quadrant_Forall (P : Quadrant.t -> Prop) (g : Galaxy.t) (r c : Z) (q : Quadrant.t) :
  Forall (Forall P) (Galaxy.quadrants g) -> P q ->
  Forall (Forall P) (Galaxy.quadrants (Galaxy.store_quadrant r c q g)).
Proof.
  intros Hg Hq. unfold Galaxy.store_quadrant.
  destruct (py_setitem2 (Galaxy.quadrants g) r c q) as [qs |] eqn:Hqs; [| exact Hg].
  cbn [Galaxy.quadrants Galaxy.set_quadrants]. eapply grid_Forall_setitem2; eauto.
Qed.

Lemma store_quadrant_grid_ok (g : Galaxy.t) (r c : Z) (q : Quadrant.t) :
  Galaxy.in_bounds r c = true -> galaxy_grid_ok g ->
  galaxy_grid_ok (Galaxy.store_quadrant r c q g).
Proof.
  intros Hb Hg r' c' Hb'.
  destruct (decide ((r, c) = (r', c'))) as [[= <- <-] | Hne].
  - rewrite quadrant_at_store_eq by (apply Hg; exact Hb). eauto.
  - apply in_bounds_range in Hb, Hb'.
    rewrite quadrant_at_store_ne by (try lia; exact Hne). apply Hg, in_bounds_range. exact Hb'.
Qed.

(** Replacing the quadrant at [(r, c)] and adding to the two counters what
    the replacement adds to the two counts keeps the counters consistent. *)
Lemma counters_consistent_update (g : Galaxy.t) (r c : Z) (q0 q : Quadrant.t) :
  Galaxy.in_bounds r c = true ->
  counters_consistent g ->
  quadrant_at g r c = Some q0 ->
  0 <= Quadrant.starbases q ->
  counters_consistent
    (Galaxy.set_total_starbases
       (Galaxy.total_starbases g + (Quadrant.starbases q - Quadrant.starbases q0))
       (Galaxy.set_total_klingons
          (Galaxy.total_klingons g + (Quadrant.klingons q - Quadrant.klingons q0))
          (Galaxy.store_quadrant r c q g))).
Proof.
  intros Hb (Hgrid & Hnn & Hk & Hs) Hq0 Hq.
  unfold counters_consistent.
  split; [| split; [| split]].
  - intros r' c' Hb'. apply (store_quadrant_grid_ok g r c q Hb Hgrid r' c' Hb').
  - apply (store_quadrant_Forall _ g r c q Hnn Hq).
  - cbn [Galaxy.total_klingons Galaxy.set_total_starbases Galaxy.set_total_klingons].
    change (galaxy_sum Quadrant.klingons (Galaxy.set_total_starbases _ (Galaxy.set_total_klingons _ ?x)))
      with (galaxy_sum Quadrant.klingons x).
    rewrite (store_quadrant_sum _ _ _ _ _ _ Hq0). lia.
  - cbn [Galaxy.total_starbases Galaxy.set_total_starbases].
    change (galaxy_sum Quadrant.starbases (Galaxy.set_total_starbases _ (Galaxy.set_total_klingons _ ?x)))
      with (galaxy_sum Quadrant.starbases x).
    rewrite (store_quadrant_sum _ _ _ _ _ _ Hq0). lia.
Qed.

Lemma returns_on_quadrant_modify (g : Galaxy.t) (r c : Z) (f : Quadrant.t -> Quadrant.t)
    (q : Quadrant.t) (Q : unit -> Galaxy.t -> Prop) :
  quadrant_at g r c = Some q ->
  Q tt (Galaxy.store_quadrant r c (f q) g) ->
  returns (Galaxy.on_quadrant r c (modify f)) g Q.
Proof. intros Hq HQ. eapply returns_intro; [apply on_quadrant_modify; exact Hq | exact HQ]. Qed.

Lemma returns_on_quadrant_gets {A} (g : Galaxy.t) (r c : Z) (f : Quadrant.t -> A)
    (q : Quadrant.t) (Q : A -> Galaxy.t -> Prop) :
  quadrant_at g r c = Some q ->
  Q (f q) g ->
  returns (Galaxy.on_quadrant r c (gets f)) g Q.
Proof. intros Hq HQ. eapply returns_intro; [apply on_quadrant_gets; exact Hq | exact HQ]. Qed.

Lemma quadrant_at_set_totals (v v' : Z) (g : Galaxy.t) (r c : Z) :
  quadrant_at (Galaxy.set_total_starbases v (Galaxy.set_total_klingons v' g)) r c =
  quadrant_at g r c.
Proof. reflexivity. Qed.

Lemma set_total_starbases_same (g : Galaxy.t) (v : Z) :
  v = Galaxy.total_starbases g -> Galaxy.set_total_starbases v g = g.
Proof. intros ->. destruct g; reflexivity. Qed.

(** What the body of the generation loops does to a fresh quadrant: it
    gives it its counts and adds them to the counters. *)
Lemma populate_quadrant_run (g : Galaxy.t) (rng : Rng) (r c : Z) (q0 : Quadrant.t) :
  quadrant_at g r c = Some q0 ->
  Quadrant.klingons q0 = 0 -> Quadrant.starbases q0 = 0 ->
  returns (Galaxy.populate_quadrant r c) (g, rng) (fun _ s' =>
    exists q,
      0 <= Quadrant.starbases q /\
      fst s' =
        Galaxy.set_total_starbases (Galaxy.total_starbases g + Quadrant.starbases q)
          (Galaxy.set_total_klingons (Galaxy.total_klingons g + Quadrant.klingons q)
             (Galaxy.store_quadrant r c q g))).
Proof.
  intros Hq0 Hk0 Hs0. unfold Galaxy.populate_quadrant.
  assert (Hsome : is_Some (quadrant_at g r c)) by (rewrite Hq0; eauto).
  apply returns_bind, returns_zoom, returns_random_random. intros x.
  set (k := if (x <? 0.08)%float then 3 else if (x <? 0.20)%float then 2
            else if (x <? 0.50)%float then 1 else 0).
  apply returns_bind, returns_zoom.
  eapply returns_on_quadrant_modify; [exact Hq0 |].
  apply returns_bind, returns_zoom.
  eapply returns_on_quadrant_gets; [apply quadrant_at_store_eq; exact Hsome |].
  apply returns_bind, returns_zoom, returns_modify.
  apply returns_bind, returns_zoom, returns_random_random. intros y.
  cbn [view update Galaxy.self Galaxy.random fst_lens snd_lens fst snd].
  rewrite (proj1 (store_quadrant_totals _ _ _ _)).
  destruct (y <? 0.04)%float.
  - apply returns_bind. apply returns_bind, returns_zoom.
    eapply returns_on_quadrant_modify.
    { change (quadrant_at (Galaxy.set_total_klingons ?v ?x) r c) with (quadrant_at x r c).
      apply quadrant_at_store_eq; exact Hsome. }
    apply returns_zoom, returns_modify.
    apply returns_bind, returns_zoom, returns_random_randint. intros n _.
    apply returns_zoom.
    cbn [view update Galaxy.self Galaxy.random fst_lens snd_lens fst snd].
    eapply returns_on_quadrant_modify.
    { rewrite store_quadrant_set_total_klingons, store_quadrant_twice.
      change (quadrant_at (Galaxy.set_total_starbases ?v (Galaxy.set_total_klingons ?v' ?x)) r c)
        with (quadrant_at x r c).
      apply quadrant_at_store_eq; exact Hsome. }
    cbn [view update Galaxy.self Galaxy.random fst_lens snd_lens fst snd].
    exists (Quadrant.set_stars n (Quadrant.set_starbases 1 (Quadrant.set_klingons k q0))).
    split; [| rewrite !store_quadrant_set_total_klingons,
                         !store_quadrant_set_total_starbases,
                         !store_quadrant_set_total_klingons, !store_quadrant_twice;
                       cbn [Galaxy.total_starbases Galaxy.set_total_klingons];
                       rewrite (proj2 (store_quadrant_totals _ _ _ _));
                       cbn [Quadrant.klingons Quadrant.starbases Quadrant.set_stars
                            Quadrant.set_starbases Quadrant.set_klingons];
                       reflexivity].
    cbn. lia.
  - apply returns_bind, returns_ret.
    apply returns_bind, returns_zoom, returns_random_randint. intros n _.
    apply returns_zoom.
    cbn [view update Galaxy.self Galaxy.random fst_lens snd_lens fst snd].
    eapply returns_on_quadrant_modify.
    { change (quadrant_at (Galaxy.set_total_klingons ?v ?x) r c) with (quadrant_at x r c).
      apply quadrant_at_store_eq; exact Hsome. }
    cbn [view update Galaxy.self Galaxy.random fst_lens snd_lens fst snd].
    exists (Quadrant.set_stars n (Quadrant.set_klingons k q0)).
    split; [| rewrite !store_quadrant_set_total_klingons, !store_quadrant_twice;
                       cbn [Quadrant.klingons Quadrant.starbases Quadrant.set_stars
                            Quadrant.set_starbases Quadrant.set_klingons];
                       rewrite Hs0, Z.add_0_r;
                       symmetry; apply set_total_starbases_same;
                       cbn [Galaxy.total_starbases Galaxy.set_total_klingons];
                       rewrite (proj2 (store_quadrant_totals _ _ _ _)); reflexivity].
    cbn. lia.
Qed.

(** Consistency of the counters looks at the quadrants and the two counters
    only, and survives the replacement of a quadrant when the counters move
    with its counts. *)
Lemma counters_consistent_store (g g' : Galaxy.t) (r c : Z) (q0 q : Quadrant.t) :
  Galaxy.in_bounds r c = true ->
  counters_consistent g ->
  quadrant_at g r c = Some q0 ->
  0 <= Quadrant.starbases q ->
  Galaxy.quadrants g' = Galaxy.quadrants (Galaxy.store_quadrant r c q g) ->
  Galaxy.total_klingons g' =
    Galaxy.total_klingons g + (Quadrant.klingons q - Quadrant.klingons q0) ->
  Galaxy.total_starbases g' =
    Galaxy.total_starbases g + (Quadrant.starbases q - Quadrant.starbases q0) ->
  counters_consistent g'.
Proof.
  intros Hb (Hgrid & Hnn & Hk & Hs) Hq0 Hq Hquads Hk' Hs'.
  unfold counters_consistent, galaxy_grid_ok, quadrant_at, galaxy_sum. rewrite Hquads, Hk', Hs'.
  split; [| split; [| split]].
  - exact (store_quadrant_grid_ok g r c q Hb Hgrid).
  - exact (store_quadrant_Forall _ g r c q Hnn Hq).
  - pose proof (store_quadrant_sum Quadrant.klingons g r c q q0 Hq0) as H.
    unfold galaxy_sum in H. rewrite H. unfold galaxy_sum in Hk. lia.
  - pose proof (store_quadrant_sum Quadrant.starbases g r c q q0 Hq0) as H.
    unfold galaxy_sum in H. rewrite H. unfold galaxy_sum in Hs. lia.
Qed.

Lemma counters_consistent_same (g g' : Galaxy.t) :
  counters_consistent g ->
  Galaxy.quadrants g' = Galaxy.quadrants g ->
  Galaxy.total_klingons g' = Galaxy.total_klingons g ->
  Galaxy.total_starbases g' = Galaxy.total_starbases g ->
  counters_consistent g'.
Proof.
  intros (Hgrid & Hnn & Hk & Hs) Hquads Hk' Hs'.
  unfold counters_consistent, galaxy_grid_ok, quadrant_at, galaxy_sum in *.
  rewrite Hquads, Hk', Hs'. auto.
Qed.

Lemma elem_of_range_8 (x : Z) : (x ∈ range 8) <-> (0 <= x < 8).
Proof.
  change (range 8) with [0; 1; 2; 3; 4; 5; 6; 7].
  rewrite !elem_of_cons, elem_of_nil. lia.
Qed.

Lemma range_8_NoDup : NoDup (range 8).
Proof.
  change (range 8) with [0; 1; 2; 3; 4; 5; 6; 7].
  repeat (apply NoDup_cons; split; [rewrite ?elem_of_cons, ?elem_of_nil; lia |]).
  apply NoDup_nil. exact I.
Qed.

Lemma range_8_suffix (pre : list Z) (x : Z) (rest : list Z) :
  range 8 = pre ++ x :: rest ->
  0 <= x < 8 /\ (x ∉ rest) /\ (forall y, (y ∈ rest) -> 0 <= y < 8).
Proof.
  intros Heq. pose proof range_8_NoDup as Hnd. rewrite Heq in Hnd.
  apply NoDup_app in Hnd as (_ & _ & Hnd). apply NoDup_cons in Hnd as [Hx _].
  split; [| split; [exact Hx |]].
  - apply elem_of_range_8. rewrite Heq. apply elem_of_app. right. left.
  - intros y Hy. apply elem_of_range_8. rewrite Heq. apply elem_of_app. right. right. exact Hy.
Qed.

(** One row of the generation loops. *)
Lemma populate_row (r : Z) (g : Galaxy.t) (rng : Rng) :
  0 <= r < 8 ->
  counters_consistent g ->
  (forall c, c ∈ range 8 -> fresh_quadrant g r c) ->
  returns (for_each (range 8) (fun c => Galaxy.populate_quadrant r c)) (g, rng) (fun _ s' =>
    counters_consistent (fst s') /\
    forall r' c', Galaxy.in_bounds r' c' = true -> r' <> r ->
      quadrant_at (fst s') r' c' = quadrant_at g r' c').
Proof.
  intros Hr Hcons Hfresh.
  pose (P := fun (cols : list Z) (s : Galaxy.t * Rng) =>
    (exists pre, range 8 = pre ++ cols) /\
    counters_consistent (fst s) /\
    (forall c, c ∈ cols -> fresh_quadrant (fst s) r c) /\
    (forall r' c', Galaxy.in_bounds r' c' = true -> r' <> r ->
       quadrant_at (fst s) r' c' = quadrant_at g r' c')).
  eapply returns_weaken.
  - apply (returns_for_each P).
    + intros c cols [g1 rng1] ([pre Hpre] & Hc1 & Hf1 & Hother). cbn [fst] in *.
      destruct (range_8_suffix _ _ _ Hpre) as (Hc & Hnin & Hcols).
      destruct (Hf1 c) as (q0 & Hq0 & Hk0 & Hs0); [left |].
      assert (Hb : Galaxy.in_bounds r c = true) by (apply in_bounds_range; lia).
      eapply returns_weaken; [apply (populate_quadrant_run g1 rng1 r c q0 Hq0 Hk0 Hs0) |].
      intros u [g2 rng2] (q & Hq & Hg2). cbn [fst] in *. subst g2.
      split; [exists (pre ++ [c]); rewrite <- app_assoc; exact Hpre |].
      split; [| split].
      * eapply (counters_consistent_store g1 _ r c q0 q Hb Hc1 Hq0 Hq).
        -- reflexivity.
        -- cbn. lia.
        -- cbn. lia.
      * intros c' Hc'. destruct (Hf1 c') as (q1 & Hq1 & Hk1 & Hs1); [right; exact Hc' |].
        exists q1. cbn [fst]. split; [| auto].
        rewrite quadrant_at_set_totals.
        rewrite quadrant_at_store_ne; [exact Hq1 | lia | lia | lia | |].
        -- specialize (Hcols c' Hc'). lia.
        -- intros [= Heq]. subst c'. contradiction.
      * intros r' c' Hb' Hne. cbn [fst].
        rewrite quadrant_at_set_totals.
        apply in_bounds_range in Hb'.
        rewrite quadrant_at_store_ne; [apply Hother; [apply in_bounds_range; lia | exact Hne]
                                      | lia | lia | lia | lia |].
        intros [= Heq _]. congruence.
    + unfold P. cbn [fst]. split; [exists []; reflexivity |]. auto.
  - intros u s' (_ & Hc' & _ & Hother). auto.
Qed.

(** The generation loops as a whole. *)
Lemma populate_all (g : Galaxy.t) (rng : Rng) :
  counters_consistent g ->
  (forall r c, r ∈ range 8 -> c ∈ range 8 -> fresh_quadrant g r c) ->
  returns (for_each (range 8)
             (fun r => for_each (range 8) (fun c => Galaxy.populate_quadrant r c)))
    (g, rng) (fun _ s' => counters_consistent (fst s')).
Proof.
  intros Hcons Hfresh.
  pose (P := fun (rows : list Z) (s : Galaxy.t * Rng) =>
    (exists pre, range 8 = pre ++ rows) /\
    counters_consistent (fst s) /\
    (forall r c, r ∈ rows -> c ∈ range 8 -> fresh_quadrant (fst s) r c)).
  eapply returns_weaken.
  - apply (returns_for_each P).
    + intros r rows [g1 rng1] ([pre Hpre] & Hc1 & Hf1). cbn [fst] in *.
      destruct (range_8_suffix _ _ _ Hpre) as (Hr & Hnin & Hrows).
      eapply returns_weaken;
        [apply (populate_row r g1 rng1 Hr Hc1); intros c Hc; apply Hf1; [left | exact Hc] |].
      intros u [g2 rng2] (Hc2 & Hother). cbn [fst] in *.
      split; [exists (pre ++ [r]); rewrite <- app_assoc; exact Hpre |].
      split; [exact Hc2 |].
      intros r' c Hr' Hc.
      destruct (Hf1 r' c) as (q & Hq & Hk & Hs); [right; exact Hr' | exact Hc |].
      exists q. split; [| auto].
      rewrite Hother; [exact Hq | | intros ->; contradiction].
      apply in_bounds_range. specialize (Hrows r' Hr'). apply elem_of_range_8 in Hc. lia.
    + unfold P. cbn [fst]. split; [exists []; reflexivity |]. auto.
  - intros u s' (_ & Hc' & _). exact Hc'.
Qed.

Lemma generation_start_fresh (g : Galaxy.t) (r c : Z) :
  r ∈ range 8 -> c ∈ range 8 -> fresh_quadrant (generation_start g) r c.
Proof.
  intros Hr Hc. change (range 8) with [0; 1; 2; 3; 4; 5; 6; 7] in Hr, Hc.
  exists (Quadrant.new r c).
  repeat (apply elem_of_cons in Hr as [-> | Hr]); [.. | inversion Hr];
    (repeat (apply elem_of_cons in Hc as [-> | Hc]); [.. | inversion Hc]);
    repeat split; reflexivity.
Qed.

Lemma generation_start_consistent (g : Galaxy.t) : counters_consistent (generation_start g).
Proof.
  split; [| split; [| split]].
  - apply galaxy_grid_ok_8x8; [reflexivity |]. repeat constructor.
  - repeat (constructor; [repeat (constructor; [cbn; lia |]); constructor |]). constructor.
  - reflexivity.
  - reflexivity.
Qed.

Lemma grid_Forall_lookup {A} (P : A -> Prop) (g : list (list A)) (i j : Z) (y : A) :
  Forall (Forall P) g -> py_index2 g i j = Some y -> P y.
Proof.
  intros Hg Hget. unfold py_index2 in Hget.
  destruct (py_index g i) as [row |] eqn:Hrow; [| discriminate].
  rewrite py_index_pos in Hrow. rewrite py_index_pos in Hget.
  destruct (py_pos (length g) i) as [pi |]; [| discriminate].
  destruct (py_pos (length row) j) as [pj |]; [| discriminate].
  cbn in Hrow, Hget.
  rewrite Forall_lookup in Hg. specialize (Hg _ _ Hrow).
  rewrite Forall_lookup in Hg. exact (Hg _ _ Hget).
Qed.

Lemma starbases_nonneg (g : Galaxy.t) (r c : Z) (q : Quadrant.t) :
  counters_consistent g -> quadrant_at g r c = Some q -> 0 <= Quadrant.starbases q.
Proof.
  intros (_ & Hnn & _) Hq.
  exact (grid_Forall_lookup _ _ _ _ _ Hnn Hq).
Qed.

(** The body of the top-up loop keeps the counters consistent and does not
    touch the starbase counter. *)
Lemma top_up_klingons_spec (g : Galaxy.t) (rng : Rng) :
  counters_consistent g ->
  returns Galaxy.top_up_klingons (g, rng) (fun _ s' =>
    counters_consistent (fst s') /\
    Galaxy.total_starbases (fst s') = Galaxy.total_starbases g).
Proof.
  intros Hcons. unfold Galaxy.top_up_klingons.
  apply returns_bind, returns_zoom, returns_random_randint. intros r Hr.
  apply returns_bind, returns_zoom, returns_random_randint. intros c Hc.
  cbn [view update Galaxy.self Galaxy.random fst_lens snd_lens fst snd].
  assert (Hb : Galaxy.in_bounds r c = true) by (apply in_bounds_range; lia).
  destruct (proj1 Hcons r c Hb) as [q0 Hq0].
  apply returns_bind, returns_zoom.
  eapply returns_on_quadrant_gets; [exact Hq0 |].
  cbn [view update Galaxy.self Galaxy.random fst_lens snd_lens fst snd].
  destruct (Quadrant.klingons q0 <? 3).
  - apply returns_bind, returns_zoom.
    eapply returns_on_quadrant_modify; [exact Hq0 |].
    apply returns_zoom, returns_modify.
    cbn [view update Galaxy.self Galaxy.random fst_lens snd_lens fst snd].
    split.
    + apply (counters_consistent_store g _ r c q0
               (Quadrant.set_klingons (Quadrant.klingons q0 + 1) q0) Hb Hcons Hq0).
      * exact (starbases_nonneg g r c q0 Hcons Hq0).
      * reflexivity.
      * cbn. rewrite (proj1 (store_quadrant_totals _ _ _ _)). lia.
      * cbn. rewrite (proj2 (store_quadrant_totals _ _ _ _)). lia.
    + cbn. apply (proj2 (store_quadrant_totals _ _ _ _)).
  - apply returns_ret. auto.
Qed.

(** The forced starbase: when no starbase was drawn, one quadrant gets one
    and the counter is set to 1. *)
Lemma force_starbase_spec (g : Galaxy.t) (rng : Rng) :
  counters_consistent g ->
  Galaxy.total_starbases g = 0 ->
  returns
    (r <- zoom Galaxy.random (random_randint 0 7) ;;
     c <- zoom Galaxy.random (random_randint 0 7) ;;
     zoom Galaxy.self (Galaxy.on_quadrant r c (modify (Quadrant.set_starbases 1))) ;;;
     zoom Galaxy.self (modify (Galaxy.set_total_starbases 1)))
    (g, rng) (fun _ s' =>
      counters_consistent (fst s') /\ Galaxy.total_starbases (fst s') = 1).
Proof.
  intros Hcons Hzero.
  apply returns_bind, returns_zoom, returns_random_randint. intros r Hr.
  apply returns_bind, returns_zoom, returns_random_randint. intros c Hc.
  cbn [view update Galaxy.self Galaxy.random fst_lens snd_lens fst snd].
  assert (Hb : Galaxy.in_bounds r c = true) by (apply in_bounds_range; lia).
  destruct (proj1 Hcons r c Hb) as [q0 Hq0].
  apply returns_bind, returns_zoom.
  eapply returns_on_quadrant_modify; [exact Hq0 |].
  apply returns_zoom, returns_modify.
  cbn [view update Galaxy.self Galaxy.random fst_lens snd_lens fst snd].
  assert (Hs0 : Quadrant.starbases q0 = 0).
  { pose proof (starbases_nonneg g r c q0 Hcons Hq0) as Hge.
    destruct Hcons as (_ & Hnn & _ & Hs).
    pose proof (grid_sum_lookup_le Quadrant.starbases _ r c q0 Hnn Hq0) as Hle.
    unfold galaxy_sum in Hs. lia. }
  split; [| reflexivity].
  apply (counters_consistent_store g _ r c q0 (Quadrant.set_starbases 1 q0) Hb Hcons Hq0).
  - cbn. lia.
  - reflexivity.
  - cbn. rewrite (proj1 (store_quadrant_totals _ _ _ _)). lia.
  - cbn. lia.
Qed.

(** Generation either completes with consistent counters, at least ten
    hostiles and at least one starbase, or runs out of fuel in the top-up
    loop; it never raises. *)
Lemma initialize_ensures (fuel : nat) (g0 : Galaxy.t) (rng : Rng) :
  ensures (Galaxy._initialize fuel) (g0, rng)
    (fun _ s' =>
       counters_consistent (fst s') /\
       10 <= Galaxy.total_klingons (fst s') /\
       1 <= Galaxy.total_starbases (fst s'))
    (fun _ _ => False).
Proof.
  unfold Galaxy._initialize.
  apply ensures_bind_returns, returns_zoom, returns_modify.
  apply ensures_bind_returns, returns_zoom, returns_modify.
  apply ensures_bind_returns, returns_zoom, returns_modify.
  cbn [view update Galaxy.self Galaxy.random fst_lens snd_lens fst snd].
  change (Galaxy.set_total_starbases 0 (Galaxy.set_total_klingons 0 (Galaxy.set_quadrants _ g0)))
    with (generation_start g0).
  apply ensures_bind_returns.
  eapply returns_weaken;
    [apply populate_all; [apply generation_start_consistent | apply generation_start_fresh] |].
  intros u [g1 rng1] Hc1. cbn [fst] in Hc1.
  apply ensures_bind_returns, returns_gets. cbn [fst].
  apply ensures_bind_returns.
  apply (returns_weaken _ _ (fun _ s' =>
           counters_consistent (fst s') /\ 1 <= Galaxy.total_starbases (fst s'))).
  { destruct (Z.eqb_spec (Galaxy.total_starbases g1) 0) as [Hz | Hnz].
    - eapply returns_weaken; [apply force_starbase_spec; assumption |].
      intros v s' (Hc & Hs). split; [exact Hc | lia].
    - apply returns_ret. cbn [fst]. split; [exact Hc1 |].
      destruct Hc1 as (_ & Hnn & _ & Hs).
      assert (0 <= galaxy_sum Quadrant.starbases g1).
      { unfold galaxy_sum. apply sum_with_nonneg.
        eapply Forall_impl; [exact Hnn |]. intros row Hrow. apply sum_with_nonneg. exact Hrow. }
      lia. }
  intros v [g2 rng2] (Hc2 & Hs2). cbn [fst] in *.
  apply ensures_bind.
  eapply ensures_weaken.
  - apply (ensures_while_loop
             (fun s => counters_consistent (fst s) /\ 1 <= Galaxy.total_starbases (fst s))
             fuel _ _ (fun _ _ => False)).
    + intros [g rng'] (Hc & Hs) _. cbn [fst] in *.
      apply returns_ensures.
      eapply returns_weaken; [apply top_up_klingons_spec; exact Hc |].
      intros w s' (Hc' & Hs'). split; [exact Hc' | lia].
    + cbn [fst]. auto.
  - intros w [g3 rng3] ((Hc3 & Hs3) & Hcond). cbn [fst] in *.
    apply Z.ltb_ge in Hcond.
    apply ensures_bind_returns, returns_zoom, returns_modify.
    apply ensures_bind_returns, returns_zoom, returns_random_randint. intros d _.
    apply ensures_bind_returns, returns_zoom, returns_modify.
    apply ensures_bind_returns, returns_zoom, returns_random_randint. intros l _.
    apply returns_ensures, returns_zoom, returns_modify.
    cbn [view update Galaxy.self Galaxy.random fst_lens snd_lens fst snd].
    split; [| split].
    + eapply counters_consistent_same; [exact Hc3 | reflexivity ..].
    + exact Hcond.
    + exact Hs3.
  - intros e s' [].
Qed.

(** ** The shape of the grid *)

Lemma py_setitem2_shape {A} (g g' : list (list A)) (i j : Z) (x : A) :
  py_setitem2 g i j x = Some g' -> map length g' = map length g.
Proof.
  unfold py_setitem2.
  destruct (py_index g i) as [r |] eqn:Hr; [| discriminate].
  destruct (py_setitem r j x) as [r' |] eqn:Hr'; [| discriminate].
  apply py_setitem_length in Hr'.
  rewrite py_index_pos in Hr. rewrite py_setitem_pos.
  destruct (py_pos (length g) i) as [p |]; [| discriminate].
  cbn in Hr |- *. intros [= <-].
  rewrite list_fmap_insert, Hr'.
  apply list_insert_id. rewrite list_lookup_fmap, Hr. reflexivity.
Qed.

Lemma store_quadrant_shape (r c : Z) (q : Quadrant.t) (g : Galaxy.t) :
  grid_shape (Galaxy.store_quadrant r c q g) = grid_shape g.
Proof.
  unfold Galaxy.store_quadrant, grid_shape.
  destruct (py_setitem2 (Galaxy.quadrants g) r c q) as [qs |] eqn:Hset; [| reflexivity].
  cbn. exact (py_setitem2_shape _ _ _ _ _ Hset).
Qed.

Lemma on_quadrant_shape {A} (r c : Z) (m : M Quadrant.t A) :
  preserves grid_shape (Galaxy.on_quadrant r c m).
Proof.
  intros g. unfold ensures, Galaxy.on_quadrant.
  destruct (py_index2 (Galaxy.quadrants g) r c) as [q |]; [| reflexivity].
  destruct (m q); try exact Logic.I; apply store_quadrant_shape.
Qed.

Ltac shape_step :=
  lazymatch goal with
  | |- preserves _ (zoom Galaxy.random _) =>
      apply preserves_zoom_frame; intros [? ?] ?; reflexivity
  | |- preserves _ (zoom Galaxy.self (Galaxy.on_quadrant _ _ _)) =>
      apply (preserves_zoom _ grid_shape);
      [intros [? ?] ? Heq; exact Heq | apply on_quadrant_shape]
  | |- preserves _ (zoom Galaxy.self (modify _)) =>
      apply (preserves_zoom _ grid_shape);
      [intros [? ?] ? Heq; exact Heq | apply preserves_modify; intros ?; reflexivity]
  end.

Lemma populate_quadrant_shape (r c : Z) :
  preserves (fun s => grid_shape (fst s)) (Galaxy.populate_quadrant r c).
Proof. unfold Galaxy.populate_quadrant. repeat first [frame_step | shape_step]. Qed.

Lemma top_up_klingons_shape :
  preserves (fun s => grid_shape (fst s)) Galaxy.top_up_klingons.
Proof. unfold Galaxy.top_up_klingons. repeat first [frame_step | shape_step]. Qed.

(** Generation leaves a grid of 8 rows of 8 quadrants. *)
Lemma initialize_shape (fuel : nat) (g0 : Galaxy.t) (rng : Rng) :
  ensures (Galaxy._initialize fuel) (g0, rng)
    (fun _ s' => grid_shape (fst s') = replicate 8 8%nat) (fun _ _ => True).
Proof.
  unfold Galaxy._initialize.
  apply ensures_bind_returns, returns_zoom, returns_modify.
  cbn [view update Galaxy.self fst_lens fst snd].
  match goal with
  | |- ensures ?m ?s _ _ =>
      assert (Hrest : preserves (fun st => grid_shape (fst st)) m);
      [| specialize (Hrest s); unfold ensures in *; destruct (m s) as [u s' | e s' |];
         [exact Hrest | exact Logic.I ..] ]
  end.
  repeat first [frame_step | shape_step];
    first [apply populate_quadrant_shape | apply top_up_klingons_shape].
Qed.

(** [Galaxy()] never raises. *)
Lemma galaxy_new_does_not_raise (fuel : nat) (rng rng' : Rng) (e : PyExn) :
  Galaxy.new fuel rng <> Raise e rng'.
Proof.
  unfold Galaxy.new. pose proof (initialize_ensures fuel blank_galaxy rng) as H.
  unfold ensures, blank_galaxy in H.
  destruct (Galaxy._initialize fuel (Galaxy.mk [] 0 0 0 0%float 0, rng)) as [u [g r] | e' [g r] |];
    [discriminate | destruct H | discriminate].
Qed.


(** * A stream on which generation does not end *)

Section OutOfFuel.
Context {S : Type}.

Lemma out_of_fuel_bind_returns {A B} (m : M S A) (k : A -> M S B) (s : S) :
  returns m s (fun a s' => k a s' = OutOfFuel) -> bind m k s = OutOfFuel.
Proof. intros (a & s' & Hm & Hk). unfold bind. rewrite Hm. exact Hk. Qed.

Lemma out_of_fuel_bind_l {A B} (m : M S A) (k : A -> M S B) (s : S) :
  m s = OutOfFuel -> bind m k s = OutOfFuel.
Proof. intros Hm. unfold bind. rewrite Hm. reflexivity. Qed.

(** A loop whose condition holds on an invariant of its body uses up any
    amount of fuel. *)
Lemma while_loop_out_of_fuel (Inv : S -> Prop) (cond : S -> bool) (body : M S unit) :
  (forall s, Inv s -> cond s = true /\ returns body s (fun _ s' => Inv s')) ->
  forall fuel s, Inv s -> while_loop fuel cond body s = OutOfFuel.
Proof.
  intros Hbody fuel. induction fuel as [| fuel IH]; intros s Hs; cbn [while_loop].
  - reflexivity.
  - destruct (Hbody s Hs) as (Hcond & Hret).
    apply out_of_fuel_bind_returns, returns_get. rewrite Hcond.
    apply out_of_fuel_bind_returns.
    eapply returns_weaken; [exact Hret |].
    intros u s' Hs'. apply IH. exact Hs'.
Qed.
End OutOfFuel.

Lemma randint_stuck (rng : Rng) :
  draws rng = stuck_stream -> random_randint 0 7 rng = Ret 0 (advance rng).
Proof.
  intros Hd. unfold random_randint, bind, next_raw, ret, advance.
  rewrite Hd. reflexivity.
Qed.

(** On [stuck_stream] the top-up always picks quadrant (0, 0). *)
Lemma top_up_klingons_stuck (s : Galaxy.t * Rng) :
  stuck_loop s ->
  (Galaxy.total_klingons (fst s) <? 10) = true /\
  returns Galaxy.top_up_klingons s (fun _ s' => stuck_loop s').
Proof.
  destruct s as [g rng]. intros (Hd & q & Hq & Htotal & Hle). cbn [fst snd] in *.
  split; [apply Z.ltb_lt; lia |].
  unfold Galaxy.top_up_klingons.
  apply returns_bind, returns_zoom.
  eapply returns_intro; [apply randint_stuck; exact Hd |].
  apply returns_bind, returns_zoom.
  eapply returns_intro; [apply randint_stuck; exact Hd |].
  cbn [view update Galaxy.self Galaxy.random fst_lens snd_lens fst snd].
  apply returns_bind, returns_zoom.
  eapply returns_on_quadrant_gets; [exact Hq |].
  cbn [view update Galaxy.self Galaxy.random fst_lens snd_lens fst snd].
  destruct (Z.ltb_spec (Quadrant.klingons q) 3) as [Hlt | Hge].
  - apply returns_bind, returns_zoom.
    eapply returns_on_quadrant_modify; [exact Hq |].
    apply returns_zoom, returns_modify.
    cbn [view update Galaxy.self Galaxy.random fst_lens snd_lens fst snd].
    split; [exact Hd |].
    exists (Quadrant.set_klingons (Quadrant.klingons q + 1) q).
    split; [| split].
    + unfold quadrant_at. cbn [Galaxy.quadrants Galaxy.set_total_klingons].
      apply quadrant_at_store_eq. rewrite Hq. eauto.
    + cbn. rewrite (proj1 (store_quadrant_totals _ _ _ _)). lia.
    + cbn. lia.
  - apply returns_ret. split; [exact Hd |]. exists q. auto.
Qed.

(** [Galaxy()] on [stuck_stream]: no hostile and no starbase is drawn, the
    starbase is forced into quadrant (0, 0), and the top-up loop picks
    quadrant (0, 0) for ever: after three hostiles the quadrant is full,
    and the count stays at 3.  No number of iterations completes the
    generation. *)
Lemma generation_does_not_end (fuel : nat) : Galaxy.new fuel stuck_rng = OutOfFuel.
Proof.
  unfold Galaxy.new.
  assert (Hinit : Galaxy._initialize fuel (Galaxy.mk [] 0 0 0 0%float 0, stuck_rng) = OutOfFuel);
    [| rewrite Hinit; reflexivity].
  unfold Galaxy._initialize.
  apply out_of_fuel_bind_returns, returns_zoom, returns_modify.
  apply out_of_fuel_bind_returns, returns_zoom, returns_modify.
  apply out_of_fuel_bind_returns, returns_zoom, returns_modify.
  apply out_of_fuel_bind_returns.
  eapply returns_intro; [vm_compute; reflexivity |].
  apply out_of_fuel_bind_returns, returns_gets.
  apply out_of_fuel_bind_returns.
  eapply returns_intro; [vm_compute; reflexivity |].
  apply out_of_fuel_bind_l.
  apply (while_loop_out_of_fuel stuck_loop); [exact top_up_klingons_stuck |].
  split; [reflexivity |].
  eexists. split; [vm_compute; reflexivity |].
  split; vm_compute; [reflexivity | discriminate].
Qed.
(** * Binary rounding: bounds on the rounded operations *)

Section Bpow.
Local Open Scope R_scope.

Lemma bpow_pos (e : Z) : 0 < bpow e.
Proof. apply powerRZ_lt. lra. Qed.

Lemma bpow_plus (a b : Z) : bpow (a + b) = bpow a * bpow b.
Proof. apply powerRZ_add. lra. Qed.

Lemma bpow_IZR (n : Z) : (0 <= n)%Z -> bpow n = IZR (2 ^ n).
Proof.
  intros Hn. unfold bpow. rewrite <- (Z2Nat.id n Hn) at 1.
  rewrite <- pow_powerRZ. rewrite pow_IZR. rewrite Z2Nat.id by exact Hn. reflexivity.
Qed.

Lemma bpow_ge_1 (n : Z) : (0 <= n)%Z -> 1 <= bpow n.
Proof.
  intros Hn. rewrite bpow_IZR by exact Hn. apply IZR_le.
  pose proof (Z.pow_pos_nonneg 2 n ltac:(lia) Hn). lia.
Qed.

Lemma bpow_le (a b : Z) : (a <= b)%Z -> bpow a <= bpow b.
Proof.
  intros Hab. replace b with (a + (b - a))%Z by lia. rewrite bpow_plus.
  pose proof (bpow_pos a). pose proof (bpow_ge_1 (b - a) ltac:(lia)). nra.
Qed.

Lemma bpow_lt (a b : Z) : (a < b)%Z -> bpow a < bpow b.
Proof.
  intros Hab. replace b with (a + 1 + (b - a - 1))%Z by lia. rewrite !bpow_plus.
  pose proof (bpow_pos a). pose proof (bpow_ge_1 (b - a - 1) ltac:(lia)).
  change (bpow 1) with (2 * 1). nra.
Qed.

Lemma bpow_lt_inv (a b : Z) : bpow a < bpow b -> (a < b)%Z.
Proof.
  intros H. destruct (Z.lt_ge_cases a b) as [Hlt | Hge]; [exact Hlt |].
  pose proof (bpow_le b a Hge). lra.
Qed.

Lemma bpow_le_inv (a b : Z) : bpow a <= bpow b -> (a <= b)%Z.
Proof.
  intros H. destruct (Z.le_gt_cases a b) as [Hle | Hgt]; [exact Hle |].
  pose proof (bpow_lt b a Hgt). lra.
Qed.

(** A mantissa shifted between two exponents. *)
Lemma bpow_shift (m e k : Z) : (0 <= k)%Z -> IZR (m * 2 ^ k) * bpow e = IZR m * bpow (e + k).
Proof. intros Hk. rewrite mult_IZR, bpow_plus, (bpow_IZR k) by exact Hk. ring. Qed.
End Bpow.

(** ** Digits *)

Lemma digits2_pos_spec (p : positive) :
  2 ^ (Zpos (digits2_pos p) - 1) <= Zpos p < 2 ^ Zpos (digits2_pos p).
Proof.
  induction p as [p IH | p IH |]; cbn [digits2_pos].
  - rewrite Pos2Z.inj_succ.
    replace (Z.succ (Zpos (digits2_pos p)) - 1) with (Z.pos (digits2_pos p) - 1 + 1) by lia.
    rewrite Z.pow_add_r, Z.pow_succ_r by lia. rewrite Z.pow_1_r. lia.
  - rewrite Pos2Z.inj_succ.
    replace (Z.succ (Zpos (digits2_pos p)) - 1) with (Z.pos (digits2_pos p) - 1 + 1) by lia.
    rewrite Z.pow_add_r, Z.pow_succ_r by lia. rewrite Z.pow_1_r. lia.
  - cbn. lia.
Qed.

Lemma Zdigits2_spec (m : Z) : 0 < m -> 2 ^ (Zdigits2 m - 1) <= m < 2 ^ Zdigits2 m.
Proof. destruct m as [| p | p]; [lia | intros _; apply digits2_pos_spec | lia]. Qed.

Lemma Zdigits2_pos (m : Z) : 0 < m -> 0 < Zdigits2 m.
Proof. destruct m; cbn; lia. Qed.

Lemma Zdigits2_ge (m k : Z) : 0 <= k -> 2 ^ k <= m -> k + 1 <= Zdigits2 m.
Proof.
  intros Hk Hm.
  assert (Hpos : 0 < m) by (pose proof (Z.pow_pos_nonneg 2 k ltac:(lia) Hk); lia).
  pose proof (Zdigits2_spec m Hpos) as [_ Hlt].
  pose proof (Zdigits2_pos m Hpos).
  destruct (Z.lt_ge_cases k (Zdigits2 m)) as [? | Hge]; [lia |].
  pose proof (Z.pow_le_mono_r 2 (Zdigits2 m) k ltac:(lia) Hge). lia.
Qed.

Lemma Zdigits2_le (m k : Z) : 0 <= k -> 0 <= m < 2 ^ k -> Zdigits2 m <= k.
Proof.
  intros Hk [Hm0 Hm].
  destruct (Z.eq_dec m 0) as [-> | Hne]; [cbn; lia |].
  pose proof (Zdigits2_spec m ltac:(lia)) as [Hge _].
  destruct (Z.le_gt_cases (Zdigits2 m) k) as [? | Hgt]; [lia |].
  pose proof (Z.pow_le_mono_r 2 k (Zdigits2 m - 1) ltac:(lia) ltac:(lia)). lia.
Qed.

(** ** The shifts of the rounding *)

Lemma shr_1_rel (x : shr_record) : 0 <= shr_m x -> shr_rel 1 x (shr_1 x).
Proof.
  destruct x as [m r s]. cbn [shr_m]. intros Hm. unfold shr_rel, exact_rec.
  change (2 ^ 1) with 2.
  destruct m as [| [p | p |] | p]; cbn [shr_1 shr_m shr_r shr_s]; try lia.
  - split; [reflexivity |]. rewrite orb_false_iff. cbn. tauto.
  - split; [rewrite Pos2Z.inj_xI; apply Z.div_unique with (r := 1); lia |].
    rewrite Pos2Z.inj_xI.
    replace ((2 * Z.pos p + 1) mod 2) with 1
      by (apply Z.mod_unique with (q := Z.pos p); lia).
    split; [intros [? _]; discriminate | intros [_ ?]; lia].
  - split; [rewrite Pos2Z.inj_xO; apply Z.div_unique with (r := 0); lia |].
    rewrite Pos2Z.inj_xO.
    replace ((2 * Z.pos p) mod 2) with 0
      by (apply Z.mod_unique with (q := Z.pos p); lia).
    rewrite orb_false_iff. tauto.
  - split; [reflexivity |].
    split; [intros [? _]; discriminate | intros [_ H]; vm_compute in H; discriminate H].
Qed.

Lemma shr_rel_nonneg (k : Z) (x y : shr_record) :
  0 <= k -> 0 <= shr_m x -> shr_rel k x y -> 0 <= shr_m y.
Proof.
  intros Hk Hx [Hm _]. rewrite Hm. apply Z.div_pos; [exact Hx |].
  apply Z.pow_pos_nonneg; lia.
Qed.

Lemma shr_rel_comp (j k : Z) (x y z : shr_record) :
  0 <= j -> 0 <= k -> 0 <= shr_m x ->
  shr_rel j x y -> shr_rel k y z -> shr_rel (j + k) x z.
Proof.
  intros Hj Hk Hx [Hy Hey] [Hz Hez].
  pose proof (Z.pow_pos_nonneg 2 j ltac:(lia) Hj) as Hpj.
  pose proof (Z.pow_pos_nonneg 2 k ltac:(lia) Hk) as Hpk.
  split.
  - rewrite Hz, Hy, Z.pow_add_r, Z.div_div by lia. reflexivity.
  - rewrite Hez, Hey, Hy, Z.pow_add_r by lia.
    rewrite Z.rem_mul_r by lia.
    pose proof (Z.mod_pos_bound (shr_m x) (2 ^ j) Hpj).
    pose proof (Z.mod_pos_bound (shr_m x / 2 ^ j) (2 ^ k) Hpk).
    split.
    + intros [[He Hm1] Hm2]. split; [exact He |]. rewrite Hm1, Hm2. lia.
    + intros [He Hsum]. split; [split; [exact He |] |]; nia.
Qed.

Lemma iter_pos_shr (p : positive) :
  forall x, 0 <= shr_m x -> shr_rel (Zpos p) x (SpecFloat.iter_pos shr_1 p x).
Proof.
  induction p as [p IH | p IH |]; intros x Hx; cbn [SpecFloat.iter_pos].
  - pose proof (shr_1_rel x Hx) as H1.
    pose proof (shr_rel_nonneg 1 _ _ ltac:(lia) Hx H1) as Hx1.
    pose proof (IH _ Hx1) as H2.
    pose proof (shr_rel_nonneg (Zpos p) _ _ ltac:(lia) Hx1 H2) as Hx2.
    pose proof (IH _ Hx2) as H3.
    pose proof (shr_rel_comp 1 (Zpos p) _ _ _ ltac:(lia) ltac:(lia) Hx H1 H2) as H12.
    pose proof (shr_rel_comp (1 + Zpos p) (Zpos p) _ _ _ ltac:(lia) ltac:(lia) Hx H12 H3) as H.
    replace (Zpos p~1) with (1 + Zpos p + Zpos p) by lia. exact H.
  - pose proof (IH _ Hx) as H2.
    pose proof (shr_rel_nonneg (Zpos p) _ _ ltac:(lia) Hx H2) as Hx2.
    pose proof (IH _ Hx2) as H3.
    pose proof (shr_rel_comp (Zpos p) (Zpos p) _ _ _ ltac:(lia) ltac:(lia) Hx H2 H3) as H.
    replace (Zpos p~0) with (Zpos p + Zpos p) by lia. exact H.
  - apply shr_1_rel. exact Hx.
Qed.

Lemma loc_of_record_of_loc (m : Z) (l : location) :
  loc_of_shr_record (shr_record_of_loc m l) = l /\ shr_m (shr_record_of_loc m l) = m.
Proof. destruct l as [| []]; split; reflexivity. Qed.

Lemma exact_record_of_loc (m : Z) (l : location) :
  exact_rec (shr_record_of_loc m l) <-> l = loc_Exact.
Proof. unfold exact_rec. destruct l as [| []]; cbn; split; intros; try tauto; try discriminate; destruct H; discriminate. Qed.

Lemma loc_of_record_exact (x : shr_record) : loc_of_shr_record x = loc_Exact <-> exact_rec x.
Proof.
  unfold exact_rec. destruct x as [m [] []]; cbn; split; intros H;
    try discriminate; try tauto; destruct H; discriminate.
Qed.

Lemma fexp_spec (n : Z) : fexp prec emax n = Z.max (n - 53) (-1074).
Proof. reflexivity. Qed.

Lemma fexp_mono (a b : Z) : a <= b -> fexp prec emax a <= fexp prec emax b.
Proof. rewrite !fexp_spec. lia. Qed.

Lemma canonical_bounds (mB : positive) (eB : Z) :
  canonical_mantissa prec emax mB eB = true ->
  -1074 <= eB /\ Zpos mB < 2 ^ 53 /\ (-1074 < eB -> 2 ^ 52 <= Zpos mB) /\
  fexp prec emax (Zpos (digits2_pos mB) + eB) = eB.
Proof.
  unfold canonical_mantissa. intros H. apply Z.eqb_eq in H.
  pose proof (digits2_pos_spec mB) as [Hlo Hhi].
  pose proof H as H'. rewrite fexp_spec in H'.
  assert (Hd : Zpos (digits2_pos mB) <= 53) by lia.
  split; [lia |]. split; [| split; [| exact H]].
  - pose proof (Z.pow_le_mono_r 2 _ 53 ltac:(lia) Hd). lia.
  - intros He. assert (Hd53 : Zpos (digits2_pos mB) = 53) by lia.
    rewrite Hd53 in Hlo. exact Hlo.
Qed.

(** One shift of the rounding: to the exponent of the format, if that is
    above the exponent of the input. *)
Lemma shr_fexp_spec (m e : Z) (l : location) (v : R) :
  0 <= m -> inb m e l v ->
  let E := Z.max e (fexp prec emax (Zdigits2 m + e)) in
  exists mrs, shr_fexp prec emax m e l = (mrs, E) /\
    shr_m mrs = m / 2 ^ (E - e) /\
    inb (shr_m mrs) E (loc_of_shr_record mrs) v.
Proof.
  intros Hm Hv E. unfold shr_fexp, shr.
  destruct (loc_of_record_of_loc m l) as [Hloc Hrm].
  destruct (fexp prec emax (Zdigits2 m + e) - e) as [| p | p] eqn:Hn.
  - assert (HE : E = e) by (unfold E; lia).
    exists (shr_record_of_loc m l). rewrite HE, Z.sub_diag, Hloc, Hrm.
    change (2 ^ 0) with 1. rewrite Z.div_1_r. auto.
  - assert (HE : E = e + Zpos p) by (unfold E; lia).
    pose proof (iter_pos_shr p (shr_record_of_loc m l) ltac:(rewrite Hrm; exact Hm)) as [Hq Hex].
    rewrite Hrm in Hq, Hex.
    exists (SpecFloat.iter_pos shr_1 p (shr_record_of_loc m l)).
    rewrite HE. replace (e + Zpos p - e) with (Zpos p) by lia.
    split; [reflexivity |]. split; [exact Hq |].
    rewrite Hq. set (k := Zpos p) in *. set (m1 := m / 2 ^ k) in *.
    assert (Hk : 0 <= k) by (unfold k; lia).
    pose proof (Z.pow_pos_nonneg 2 k ltac:(lia) Hk) as Hpk.
    pose proof (Z.div_mod m (2 ^ k) ltac:(lia)) as Hdm. fold m1 in Hdm.
    pose proof (Z.mod_pos_bound m (2 ^ k) Hpk) as Hmod.
    destruct Hv as [[Hlo Hhi] Hexact].
    pose proof (bpow_pos e) as Hbe.
    unfold inb. rewrite <- !bpow_shift by exact Hk.
    assert (H1 : (IZR (m1 * 2 ^ k) <= IZR m)%R) by (apply IZR_le; lia).
    assert (H2 : (IZR (m + 1) <= IZR ((m1 + 1) * 2 ^ k))%R) by (apply IZR_le; lia).
    split; [split; nra |].
    rewrite loc_of_record_exact, Hex, exact_record_of_loc, Hexact.
    split.
    + intros [-> Hz]. f_equal. f_equal. lia.
    + intros Heq.
      assert (Heq' : IZR (m1 * 2 ^ k) = IZR m) by nra.
      apply eq_IZR in Heq'. split; [| lia]. rewrite Heq, Heq'. reflexivity.
  - assert (HE : E = e) by (unfold E; lia).
    exists (shr_record_of_loc m l). rewrite HE, Z.sub_diag, Hloc, Hrm.
    change (2 ^ 0) with 1. rewrite Z.div_1_r. auto.
Qed.

Lemma round_nearest_even_spec (m : Z) (l : location) :
  m <= round_nearest_even m l <= m + 1 /\ (l = loc_Exact -> round_nearest_even m l = m).
Proof.
  destruct l as [| []]; cbn [round_nearest_even];
    try destruct (Z.even m); split; try lia; try reflexivity; intros; discriminate.
Qed.

Lemma inb_exact (m e : Z) : inb m e loc_Exact (IZR m * bpow e).
Proof.
  split; [| tauto]. pose proof (bpow_pos e). rewrite plus_IZR. split; nra.
Qed.

(** The rounding, as two shifts around the choice of a neighbour. *)
Lemma round_aux_core (sx : bool) (m e : Z) (l : location) (v : R) :
  0 <= m -> inb m e l v ->
  let E1 := Z.max e (fexp prec emax (Zdigits2 m + e)) in
  exists m1 l1 m2 m3 E2,
    m1 = m / 2 ^ (E1 - e) /\ inb m1 E1 l1 v /\
    m1 <= m2 <= m1 + 1 /\ (l1 = loc_Exact -> m2 = m1) /\
    E2 = Z.max E1 (fexp prec emax (Zdigits2 m2 + E1)) /\
    m3 = m2 / 2 ^ (E2 - E1) /\
    binary_round_aux prec emax sx m e l =
      match m3 with
      | Z0 => S754_zero sx
      | Zpos p => if E2 <=? emax - prec then S754_finite sx p E2 else S754_infinity sx
      | Zneg _ => S754_nan
      end.
Proof.
  intros Hm Hv E1.
  destruct (shr_fexp_spec m e l v Hm Hv) as (mrs1 & Hs1 & Hm1 & Hin1). fold E1 in Hs1, Hm1, Hin1.
  pose proof (round_nearest_even_spec (shr_m mrs1) (loc_of_shr_record mrs1)) as [Hr1 Hr2].
  set (m2 := round_nearest_even (shr_m mrs1) (loc_of_shr_record mrs1)) in *.
  assert (Hm1nn : 0 <= shr_m mrs1).
  { rewrite Hm1. apply Z.div_pos; [exact Hm |]. apply Z.pow_pos_nonneg; [lia |]. unfold E1. lia. }
  destruct (shr_fexp_spec m2 E1 loc_Exact _ ltac:(lia) (inb_exact m2 E1)) as (mrs2 & Hs2 & Hm3 & _).
  exists (shr_m mrs1), (loc_of_shr_record mrs1), m2, (shr_m mrs2),
    (Z.max E1 (fexp prec emax (Zdigits2 m2 + E1))).
  split; [exact Hm1 |]. split; [exact Hin1 |]. split; [exact Hr1 |]. split; [exact Hr2 |].
  split; [reflexivity |]. split; [exact Hm3 |].
  unfold binary_round_aux. rewrite Hs1. fold m2. rewrite Hs2. reflexivity.
Qed.

Lemma fexp_value_le (m e : Z) (mB : positive) (eB : Z) :
  0 < m -> (IZR m * bpow e <= IZR (Zpos mB) * bpow eB)%R ->
  canonical_mantissa prec emax mB eB = true ->
  fexp prec emax (Zdigits2 m + e) <= eB.
Proof.
  intros Hm Hle Hcan.
  destruct (canonical_bounds mB eB Hcan) as (_ & _ & _ & Hfix).
  rewrite <- Hfix. apply fexp_mono.
  pose proof (Zdigits2_spec m Hm) as [Hlo _].
  pose proof (Zdigits2_pos m Hm) as Hd.
  pose proof (digits2_pos_spec mB) as [_ Hhi].
  assert (H1 : (bpow (Zdigits2 m - 1 + e) <= IZR m * bpow e)%R).
  { rewrite bpow_plus, (bpow_IZR (Zdigits2 m - 1)) by lia.
    pose proof (bpow_pos e). apply IZR_le in Hlo. nra. }
  assert (H2 : (IZR (Zpos mB) * bpow eB < bpow (Zpos (digits2_pos mB) + eB))%R).
  { rewrite bpow_plus, (bpow_IZR (Zpos (digits2_pos mB))) by lia.
    pose proof (bpow_pos eB). apply IZR_lt in Hhi. nra. }
  assert (H3 : (bpow (Zdigits2 m - 1 + e) < bpow (Zpos (digits2_pos mB) + eB))%R) by lra.
  apply bpow_lt_inv in H3. lia.
Qed.

(** The rounding does not go above a number of the format that the value
    does not exceed. *)
Lemma round_aux_upper (sx : bool) (m e : Z) (l : location) (v : R) (mB : positive) (eB : Z) :
  0 <= m -> inb m e l v -> e <= fexp prec emax (Zdigits2 m + e) ->
  canonical_mantissa prec emax mB eB = true -> eB <= emax - prec ->
  (v <= IZR (Zpos mB) * bpow eB)%R ->
  match binary_round_aux prec emax sx m e l with
  | S754_zero s => s = sx
  | S754_finite s m' e' => s = sx /\ (IZR (Zpos m') * bpow e' <= IZR (Zpos mB) * bpow eB)%R
  | _ => False
  end.
Proof.
  intros Hm Hv Hpc Hcan HeB HvB.
  destruct (round_aux_core sx m e l v Hm Hv)
    as (m1 & l1 & m2 & m3 & E2 & Hm1 & Hin1 & Hm2 & Hex & HE2 & Hm3 & Hres).
  rewrite Hres. clear Hres.
  replace (Z.max e (fexp prec emax (Zdigits2 m + e))) with (fexp prec emax (Zdigits2 m + e)) in *
    by lia.
  set (E1 := fexp prec emax (Zdigits2 m + e)) in *.
  destruct (canonical_bounds mB eB Hcan) as (HeBmin & _ & _ & _).
  assert (HE1 : E1 <= eB).
  { destruct (Z.eq_dec m 0) as [-> | Hne].
    - unfold E1 in *. cbn [Zdigits2] in *. rewrite Z.add_0_l, fexp_spec in *. lia.
    - apply (fexp_value_le m e mB eB); [lia | | exact Hcan].
      destruct Hv as [[Hlo _] _]. lra. }
  pose proof (bpow_pos E1) as HbE1.
  set (NB := Zpos mB * 2 ^ (eB - E1)).
  assert (HB : (IZR (Zpos mB) * bpow eB = IZR NB * bpow E1)%R).
  { unfold NB. rewrite bpow_shift by lia. f_equal. f_equal. lia. }
  destruct Hin1 as [[Hlo1 Hhi1] Hexact1].
  assert (Hm1NB : m1 <= NB) by (apply le_IZR; nra).
  assert (Hm2NB : m2 <= NB).
  { destruct (Z.eq_dec m2 m1) as [-> | Hne]; [exact Hm1NB |].
    destruct (Z.eq_dec m1 NB) as [Heq | Hne']; [| lia].
    exfalso. apply Hne, Hex, Hexact1. rewrite Heq in Hlo1 |- *. lra. }
  assert (Hm1nn : 0 <= m1).
  { rewrite Hm1. apply Z.div_pos; [exact Hm |]. apply Z.pow_pos_nonneg; lia. }
  assert (HE21 : E1 <= E2) by lia.
  pose proof (Z.pow_pos_nonneg 2 (E2 - E1) ltac:(lia) ltac:(lia)) as Hp2.
  pose proof (Z.div_mod m2 (2 ^ (E2 - E1)) ltac:(lia)) as Hdm. rewrite <- Hm3 in Hdm.
  pose proof (Z.mod_pos_bound m2 (2 ^ (E2 - E1)) Hp2) as Hmod.
  assert (Hval : (IZR m3 * bpow E2 <= IZR (Zpos mB) * bpow eB)%R).
  { replace E2 with (E1 + (E2 - E1)) by lia. rewrite <- bpow_shift by lia. rewrite HB.
    assert (IZR (m3 * 2 ^ (E2 - E1)) <= IZR NB)%R by (apply IZR_le; lia). nra. }
  destruct m3 as [| p | p].
  - reflexivity.
  - assert (Hm2pos : 0 < m2).
    { destruct (Z.eq_dec m2 0) as [Hz | ?]; [| lia]. rewrite Hz, Z.div_0_l in Hm3 by lia. lia. }
    assert (HE2B : E2 <= eB).
    { rewrite HE2. apply Z.max_lub; [exact HE1 |].
      apply (fexp_value_le m2 E1 mB eB Hm2pos); [| exact Hcan].
      rewrite HB. assert (IZR m2 <= IZR NB)%R by (apply IZR_le; lia). nra. }
    replace (E2 <=? emax - prec) with true by (symmetry; apply Z.leb_le; lia).
    split; [reflexivity | exact Hval].
  - assert (0 <= Zneg p); [| lia].
    rewrite Hm3. apply Z.div_pos; lia.
Qed.

(** A shift does not go below a number of the format that the mantissa
    reaches. *)
Lemma stage_lower (m e : Z) (mB : positive) (eB : Z) :
  0 < m -> canonical_mantissa prec emax mB eB = true ->
  (IZR (Zpos mB) * bpow eB <= IZR m * bpow e)%R ->
  let E := Z.max e (fexp prec emax (Zdigits2 m + e)) in
  (IZR (Zpos mB) * bpow eB <= IZR (m / 2 ^ (E - e)) * bpow E)%R.
Proof.
  intros Hm Hcan HB E.
  destruct (canonical_bounds mB eB Hcan) as (HeBmin & HmB & _ & _).
  destruct (Z.eq_dec E e) as [-> | HEe].
  - rewrite Z.sub_diag. change (2 ^ 0) with 1. rewrite Z.div_1_r. exact HB.
  - assert (HE : E = fexp prec emax (Zdigits2 m + e)) by (unfold E in *; lia).
    assert (Hk : 0 < E - e) by (unfold E in *; lia).
    set (k := E - e) in *. set (m1 := m / 2 ^ k).
    pose proof (Z.pow_pos_nonneg 2 k ltac:(lia) ltac:(lia)) as Hpk.
    pose proof (Z.div_mod m (2 ^ k) ltac:(lia)) as Hdm. fold m1 in Hdm.
    pose proof (Z.mod_pos_bound m (2 ^ k) Hpk) as Hmod.
    pose proof (bpow_pos E) as HbE. pose proof (bpow_pos e) as Hbe.
    assert (HEk : E = e + k) by (unfold k; lia).
    destruct (Z.le_gt_cases E eB) as [Hgrid | Hbelow].
    + set (NB := Zpos mB * 2 ^ (eB - E)).
      assert (HBg : (IZR (Zpos mB) * bpow eB = IZR NB * bpow E)%R).
      { unfold NB. rewrite bpow_shift by lia. f_equal. f_equal. lia. }
      assert (Hlt : (IZR m * bpow e < IZR (m1 + 1) * bpow E)%R).
      { rewrite HEk, <- bpow_shift by lia.
        assert (IZR m < IZR ((m1 + 1) * 2 ^ k))%R by (apply IZR_lt; lia). nra. }
      assert (HNB : NB < m1 + 1) by (apply lt_IZR; nra).
      rewrite HBg. assert (IZR NB <= IZR m1)%R by (apply IZR_le; lia). nra.
    + rewrite fexp_spec in HE.
      assert (Hd : Zdigits2 m = k + 53) by (unfold k; lia).
      pose proof (Zdigits2_spec m Hm) as [Hlo _]. rewrite Hd in Hlo.
      replace (k + 53 - 1) with (k + 52) in Hlo by lia.
      rewrite Z.pow_add_r in Hlo by lia.
      assert (Hm1 : 2 ^ 52 <= m1) by (apply Z.div_le_lower_bound; lia).
      assert (H1 : (IZR (Zpos mB) * bpow eB < bpow (53 + eB))%R).
      { rewrite bpow_plus, (bpow_IZR 53) by lia.
        pose proof (bpow_pos eB). apply IZR_lt in HmB. nra. }
      assert (H2 : (bpow (53 + eB) <= bpow (52 + E))%R) by (apply bpow_le; lia).
      assert (H3 : (bpow (52 + E) <= IZR m1 * bpow E)%R).
      { rewrite bpow_plus, (bpow_IZR 52) by lia. apply IZR_le in Hm1. nra. }
      lra.
Qed.

(** The rounding does not go below a number of the format that the
    mantissa it starts from reaches. *)
Lemma round_aux_lower (sx : bool) (m e : Z) (l : location) (v : R) (mB : positive) (eB : Z) :
  0 <= m -> inb m e l v ->
  canonical_mantissa prec emax mB eB = true ->
  (IZR (Zpos mB) * bpow eB <= IZR m * bpow e)%R ->
  match binary_round_aux prec emax sx m e l with
  | S754_finite s m' e' => s = sx /\ (IZR (Zpos mB) * bpow eB <= IZR (Zpos m') * bpow e')%R
  | S754_infinity s => s = sx
  | _ => False
  end.
Proof.
  intros Hm Hv Hcan HB.
  destruct (round_aux_core sx m e l v Hm Hv)
    as (m1 & l1 & m2 & m3 & E2 & Hm1 & Hin1 & Hm2 & Hex & HE2 & Hm3 & Hres).
  rewrite Hres. clear Hres.
  set (E1 := Z.max e (fexp prec emax (Zdigits2 m + e))) in *.
  assert (HBpos : (0 < IZR (Zpos mB) * bpow eB)%R).
  { pose proof (bpow_pos eB). assert (0 < IZR (Zpos mB))%R by (apply IZR_lt; lia). nra. }
  assert (Hmpos : 0 < m).
  { destruct (Z.eq_dec m 0) as [-> | ?]; [| lia]. rewrite Rmult_0_l in HB. lra. }
  pose proof (stage_lower m e mB eB Hmpos Hcan HB) as H1. cbv zeta in H1. fold E1 in H1. rewrite <- Hm1 in H1.
  pose proof (bpow_pos E1) as HbE1.
  assert (H2 : (IZR (Zpos mB) * bpow eB <= IZR m2 * bpow E1)%R).
  { assert (IZR m1 <= IZR m2)%R by (apply IZR_le; lia). nra. }
  assert (Hm2pos : 0 < m2).
  { apply lt_IZR. nra. }
  pose proof (stage_lower m2 E1 mB eB Hm2pos Hcan H2) as H3. cbv zeta in H3. rewrite <- HE2, <- Hm3 in H3.
  pose proof (bpow_pos E2) as HbE2.
  destruct m3 as [| p | p].
  - rewrite Rmult_0_l in H3. lra.
  - destruct (E2 <=? emax - prec); [split; [reflexivity | exact H3] | reflexivity].
  - assert (IZR (Zneg p) < 0)%R by (apply IZR_lt; lia). nra.
Qed.

(** ** Comparisons *)

Lemma finite_value_pos (m : positive) (e : Z) : (0 < IZR (Zpos m) * bpow e)%R.
Proof.
  pose proof (bpow_pos e). assert (0 < IZR (Zpos m))%R by (apply IZR_lt; lia). nra.
Qed.

Lemma valid_finite (s : bool) (m : positive) (e : Z) :
  valid_binary (S754_finite s m e) = true ->
  canonical_mantissa prec emax m e = true /\ e <= emax - prec.
Proof.
  intros H. change (canonical_mantissa prec emax m e && (e <=? emax - prec) = true) in H.
  apply andb_prop in H as [Hc Hb]. split; [exact Hc | apply Z.leb_le; exact Hb].
Qed.

Lemma compare_pos_value (m1 : positive) (e1 : Z) (m2 : positive) (e2 : Z) :
  canonical_mantissa prec emax m1 e1 = true ->
  canonical_mantissa prec emax m2 e2 = true ->
  match (match e1 ?= e2 with Lt => Lt | Gt => Gt | Eq => Pos.compare_cont Eq m1 m2 end) with
  | Lt => (IZR (Zpos m1) * bpow e1 < IZR (Zpos m2) * bpow e2)%R
  | Eq => (IZR (Zpos m1) * bpow e1 = IZR (Zpos m2) * bpow e2)%R
  | Gt => (IZR (Zpos m2) * bpow e2 < IZR (Zpos m1) * bpow e1)%R
  end.
Proof.
  intros H1 H2.
  destruct (canonical_bounds m1 e1 H1) as (Hmin1 & Hhi1 & Hlo1 & _).
  destruct (canonical_bounds m2 e2 H2) as (Hmin2 & Hhi2 & Hlo2 & _).
  assert (Hbelow : forall (ma : positive) ea (mb : positive) eb,
             Zpos ma < 2 ^ 53 -> 2 ^ 52 <= Zpos mb -> ea < eb ->
             (IZR (Zpos ma) * bpow ea < IZR (Zpos mb) * bpow eb)%R).
  { intros ma ea mb eb Ha Hb Hlt.
    assert (Ha' : (IZR (Zpos ma) * bpow ea < bpow (53 + ea))%R).
    { rewrite bpow_plus, (bpow_IZR 53) by lia. pose proof (bpow_pos ea).
      apply IZR_lt in Ha. nra. }
    assert (Hb' : (bpow (52 + eb) <= IZR (Zpos mb) * bpow eb)%R).
    { rewrite bpow_plus, (bpow_IZR 52) by lia. pose proof (bpow_pos eb).
      apply IZR_le in Hb. nra. }
    pose proof (bpow_le (53 + ea) (52 + eb) ltac:(lia)). lra. }
  destruct (Z.compare_spec e1 e2) as [-> | Hlt | Hgt].
  - change (Pos.compare_cont Eq m1 m2) with (Pos.compare m1 m2).
    pose proof (bpow_pos e2).
    destruct (Pos.compare_spec m1 m2) as [-> | Hm | Hm].
    + reflexivity.
    + assert (IZR (Zpos m1) < IZR (Zpos m2))%R by (apply IZR_lt; lia). nra.
    + assert (IZR (Zpos m2) < IZR (Zpos m1))%R by (apply IZR_lt; lia). nra.
  - apply Hbelow; [exact Hhi1 | apply Hlo2; lia | exact Hlt].
  - apply Hbelow; [exact Hhi2 | apply Hlo1; lia | lia].
Qed.

(** On numbers of the format, the comparison is that of the values. *)
Lemma SFcompare_value (x y : spec_float) :
  valid_binary x = true -> valid_binary y = true ->
  is_fin x = true -> is_fin y = true ->
  match SFcompare x y with
  | Some Lt => (SF2R x < SF2R y)%R
  | Some Eq => (SF2R x = SF2R y)%R
  | Some Gt => (SF2R y < SF2R x)%R
  | None => False
  end.
Proof.
  intros Hx Hy Hfx Hfy.
  destruct x as [sx | sx | | sx mx ex]; try discriminate Hfx;
    destruct y as [sy | sy | | sy my ey]; try discriminate Hfy; cbn [SFcompare SF2R].
  - reflexivity.
  - pose proof (finite_value_pos my ey). destruct sy; lra.
  - pose proof (finite_value_pos mx ex). destruct sx; lra.
  - pose proof (finite_value_pos mx ex). pose proof (finite_value_pos my ey).
    destruct (valid_finite _ _ _ Hx) as [Hcx _]. destruct (valid_finite _ _ _ Hy) as [Hcy _].
    pose proof (compare_pos_value mx ex my ey Hcx Hcy) as Hc.
    destruct sx, sy; try lra.
    + destruct (ex ?= ey); [destruct (Pos.compare_cont Eq mx my) | |]; cbn [CompOpp]; lra.
    + destruct (ex ?= ey); [destruct (Pos.compare_cont Eq mx my) | |]; lra.
Qed.

Lemma SFleb_value (x y : spec_float) :
  valid_binary x = true -> valid_binary y = true ->
  is_fin x = true -> is_fin y = true ->
  (SFleb x y = true <-> (SF2R x <= SF2R y)%R).
Proof.
  intros Hx Hy Hfx Hfy. pose proof (SFcompare_value x y Hx Hy Hfx Hfy) as H.
  unfold SFleb. destruct (SFcompare x y) as [[] |]; [| | | contradiction];
    split; intros; try reflexivity; try discriminate; lra.
Qed.

Lemma SFltb_value (x y : spec_float) :
  valid_binary x = true -> valid_binary y = true ->
  is_fin x = true -> is_fin y = true ->
  (SFltb x y = true <-> (SF2R x < SF2R y)%R).
Proof.
  intros Hx Hy Hfx Hfy. pose proof (SFcompare_value x y Hx Hy Hfx Hfy) as H.
  unfold SFltb. destruct (SFcompare x y) as [[] |]; [| | | contradiction];
    split; intros; try reflexivity; try discriminate; lra.
Qed.

(** ** Rounding an exact number between two numbers of the format *)

Lemma round_exact_between (sx : bool) (m e : Z) (lo hi : spec_float) :
  0 < m -> e <= fexp prec emax (Zdigits2 m + e) ->
  valid_binary lo = true -> valid_binary hi = true ->
  is_fin lo = true -> is_fin hi = true ->
  (SF2R lo <= (if sx then - (IZR m * bpow e) else IZR m * bpow e) <= SF2R hi)%R ->
  is_fin (binary_round_aux prec emax sx m e loc_Exact) = true /\
  (SF2R lo <= SF2R (binary_round_aux prec emax sx m e loc_Exact) <= SF2R hi)%R.
Proof.
  intros Hm Hpc Hvlo Hvhi Hflo Hfhi Hbetween.
  assert (HV : (0 < IZR m * bpow e)%R).
  { pose proof (bpow_pos e). assert (0 < IZR m)%R by (apply IZR_lt; lia). nra. }
  pose proof (inb_exact m e) as Hin.
  (* the bound on the side of the sign, and the bound on the other side *)
  assert (Hup : forall (mB : positive) eB,
             valid_binary (S754_finite false mB eB) = true ->
             (IZR m * bpow e <= IZR (Zpos mB) * bpow eB)%R ->
             match binary_round_aux prec emax sx m e loc_Exact with
             | S754_zero s => s = sx
             | S754_finite s m' e' =>
                 s = sx /\ (IZR (Zpos m') * bpow e' <= IZR (Zpos mB) * bpow eB)%R
             | _ => False
             end).
  { intros mB eB HvB HB. destruct (valid_finite _ _ _ HvB) as [Hc Hb].
    exact (round_aux_upper sx m e loc_Exact _ mB eB ltac:(lia) Hin Hpc Hc Hb HB). }
  assert (Hlow : forall (mB : positive) eB,
             valid_binary (S754_finite false mB eB) = true ->
             (IZR (Zpos mB) * bpow eB <= IZR m * bpow e)%R ->
             match binary_round_aux prec emax sx m e loc_Exact with
             | S754_finite s m' e' =>
                 s = sx /\ (IZR (Zpos mB) * bpow eB <= IZR (Zpos m') * bpow e')%R
             | S754_infinity s => s = sx
             | _ => False
             end).
  { intros mB eB HvB HB. destruct (valid_finite _ _ _ HvB) as [Hc Hb].
    exact (round_aux_lower sx m e loc_Exact _ mB eB ltac:(lia) Hin Hc HB). }
  destruct Hbetween as [Hlo Hhi].
  destruct sx.
  - (* a negative number *)
    destruct lo as [sl | sl | | sl ml el]; try discriminate Hflo; cbn [SF2R] in Hlo;
      [lra |].
    pose proof (finite_value_pos ml el) as Hlpos.
    destruct sl; [| lra].
    specialize (Hup ml el Hvlo ltac:(lra)).
    destruct hi as [sh | sh | | sh mh eh]; try discriminate Hfhi; cbn [SF2R] in Hhi |- *.
    + destruct (binary_round_aux prec emax true m e loc_Exact) as [s | s | | s m' e'];
        try contradiction; cbn [is_fin SF2R].
      * split; [reflexivity | lra].
      * destruct Hup as [-> Hup]. pose proof (finite_value_pos m' e'). split; [reflexivity | lra].
    + pose proof (finite_value_pos mh eh) as Hhpos.
      destruct sh.
      * specialize (Hlow mh eh Hvhi ltac:(lra)).
        destruct (binary_round_aux prec emax true m e loc_Exact) as [s | s | | s m' e'];
          try contradiction; cbn [is_fin SF2R].
        destruct Hup as [-> Hup]. destruct Hlow as [_ Hlow]. split; [reflexivity | lra].
      * destruct (binary_round_aux prec emax true m e loc_Exact) as [s | s | | s m' e'];
          try contradiction; cbn [is_fin SF2R].
        -- split; [reflexivity | lra].
        -- destruct Hup as [-> Hup]. pose proof (finite_value_pos m' e').
           split; [reflexivity | lra].
  - (* a positive number *)
    destruct hi as [sh | sh | | sh mh eh]; try discriminate Hfhi; cbn [SF2R] in Hhi;
      [lra |].
    pose proof (finite_value_pos mh eh) as Hhpos.
    destruct sh; [lra |].
    specialize (Hup mh eh Hvhi ltac:(lra)).
    destruct lo as [sl | sl | | sl ml el]; try discriminate Hflo; cbn [SF2R] in Hlo |- *.
    + destruct (binary_round_aux prec emax false m e loc_Exact) as [s | s | | s m' e'];
        try contradiction; cbn [is_fin SF2R].
      * split; [reflexivity | lra].
      * destruct Hup as [-> Hup]. pose proof (finite_value_pos m' e'). split; [reflexivity | lra].
    + pose proof (finite_value_pos ml el) as Hlpos.
      destruct sl.
      * destruct (binary_round_aux prec emax false m e loc_Exact) as [s | s | | s m' e'];
          try contradiction; cbn [is_fin SF2R].
        -- split; [reflexivity | lra].
        -- destruct Hup as [-> Hup]. pose proof (finite_value_pos m' e').
           split; [reflexivity | lra].
      * specialize (Hlow ml el Hvlo ltac:(lra)).
        destruct (binary_round_aux prec emax false m e loc_Exact) as [s | s | | s m' e'];
          try contradiction; cbn [is_fin SF2R].
        destruct Hup as [-> Hup]. destruct Hlow as [_ Hlow]. split; [reflexivity | lra].
Qed.

(** Rounding a number that a positive number of the format bounds in
    magnitude. *)
Lemma round_magnitude (sx : bool) (m e : Z) (l : location) (v : R) (b : spec_float) :
  0 <= m -> inb m e l v -> e <= fexp prec emax (Zdigits2 m + e) ->
  valid_binary b = true -> is_fin b = true ->
  (v <= SF2R b)%R ->
  is_fin (binary_round_aux prec emax sx m e l) = true /\
  (Rabs (SF2R (binary_round_aux prec emax sx m e l)) <= SF2R b)%R.
Proof.
  intros Hm Hin Hpc Hvb Hfb Hv.
  assert (Hv0 : (0 <= v)%R).
  { destruct Hin as [[Hlo _] _]. pose proof (bpow_pos e).
    assert (0 <= IZR m)%R by (apply IZR_le; lia). nra. }
  destruct b as [sb | sb | | sb mb eb]; try discriminate Hfb; cbn [SF2R] in Hv |- *.
  - (* the bound is zero: so is the value *)
    assert (Hvz : v = 0%R) by lra. subst v.
    destruct Hin as [[Hlo Hhi] Hex]. pose proof (bpow_pos e).
    assert (Hmz : m = 0).
    { destruct (Z.eq_dec m 0) as [? | Hne]; [assumption |].
      assert (1 <= IZR m)%R by (apply IZR_le; lia). nra. }
    subst m.
    destruct (round_aux_core sx 0 e l 0%R ltac:(lia) (conj (conj Hlo Hhi) Hex))
      as (m1 & l1 & m2 & m3 & E2 & Hm1 & Hin1 & Hm2 & Hex1 & HE2 & Hm3 & Hres).
    rewrite Z.div_0_l in Hm1 by (apply Z.pow_nonzero; lia). subst m1.
    assert (Hm2z : m2 = 0).
    { apply Hex1. apply (proj2 Hin1). lra. }
    subst m2. rewrite Z.div_0_l in Hm3 by (apply Z.pow_nonzero; lia). subst m3.
    rewrite Hres. cbn [is_fin SF2R]. rewrite Rabs_R0. split; [reflexivity | lra].
  - pose proof (finite_value_pos mb eb) as Hbpos.
    destruct sb; [lra |].
    destruct (valid_finite _ _ _ Hvb) as [Hc Hb].
    pose proof (round_aux_upper sx m e l v mb eb Hm Hin Hpc Hc Hb Hv) as Hup.
    destruct (binary_round_aux prec emax sx m e l) as [s | s | | s m' e'];
      try contradiction; cbn [is_fin SF2R].
    + rewrite Rabs_R0. split; [reflexivity | lra].
    + destruct Hup as [_ Hup]. pose proof (finite_value_pos m' e').
      split; [reflexivity |].
      destruct s; [rewrite Rabs_Ropp |]; rewrite Rabs_pos_eq by lra; exact Hup.
Qed.

(** ** The operations on numbers of the format *)

Lemma Rabs_SF2R_finite (s : bool) (m : positive) (e : Z) :
  Rabs (SF2R (S754_finite s m e)) = (IZR (Zpos m) * bpow e)%R.
Proof.
  pose proof (finite_value_pos m e). cbn [SF2R].
  destruct s; [rewrite Rabs_Ropp |]; apply Rabs_pos_eq; lra.
Qed.

Lemma Zdigits2_mul_pow2 (m k : Z) : 0 < m -> 0 <= k -> Zdigits2 (m * 2 ^ k) = Zdigits2 m + k.
Proof.
  intros Hm Hk.
  pose proof (Zdigits2_spec m Hm) as [Hlo Hhi]. pose proof (Zdigits2_pos m Hm) as Hd.
  pose proof (Z.pow_pos_nonneg 2 k ltac:(lia) Hk) as Hpk.
  apply Z.le_antisymm.
  - apply Zdigits2_le; [lia |]. rewrite Z.pow_add_r by lia. nia.
  - replace (Zdigits2 m + k) with (Zdigits2 m - 1 + k + 1) by lia.
    apply Zdigits2_ge; [lia |]. rewrite Z.pow_add_r by lia. nia.
Qed.

Lemma pos_iter_xO (m d : positive) : Zpos (Pos.iter xO m d) = Zpos m * 2 ^ Zpos d.
Proof.
  induction d as [| d IH] using Pos.peano_ind.
  - cbn [Pos.iter]. rewrite Pos2Z.inj_xO. change (2 ^ 1) with 2. lia.
  - rewrite Pos.iter_succ, Pos2Z.inj_xO, IH, Pos2Z.inj_succ, Z.pow_succ_r by lia. lia.
Qed.

Lemma shl_align_spec (m : positive) (e e' : Z) :
  let k := Z.max 0 (e - e') in
  shl_align m e e' = (Z.to_pos (Zpos m * 2 ^ k), e - k).
Proof.
  unfold shl_align. destruct (e' - e) as [| p | p] eqn:Hd; cbn zeta.
  - replace (Z.max 0 (e - e')) with 0 by lia. rewrite Z.mul_1_r, Z.sub_0_r. reflexivity.
  - replace (Z.max 0 (e - e')) with 0 by lia. rewrite Z.mul_1_r, Z.sub_0_r. reflexivity.
  - replace (Z.max 0 (e - e')) with (Zpos p) by lia.
    rewrite <- pos_iter_xO. cbn [Z.to_pos]. f_equal. lia.
Qed.

(** Rounding an integer mantissa that may have to be shifted left first. *)
Lemma binary_round_between (sx : bool) (m : positive) (e : Z) (lo hi : spec_float) :
  valid_binary lo = true -> valid_binary hi = true ->
  is_fin lo = true -> is_fin hi = true ->
  (SF2R lo <= (if sx then - (IZR (Zpos m) * bpow e) else IZR (Zpos m) * bpow e) <= SF2R hi)%R ->
  is_fin (binary_round prec emax sx m e) = true /\
  (SF2R lo <= SF2R (binary_round prec emax sx m e) <= SF2R hi)%R.
Proof.
  intros Hvlo Hvhi Hflo Hfhi Hbetween. unfold binary_round.
  rewrite shl_align_spec. cbv zeta.
  set (k := Z.max 0 (e - fexp prec emax (Zpos (digits2_pos m) + e))).
  assert (Hk : 0 <= k) by (unfold k; lia).
  pose proof (Z.pow_pos_nonneg 2 k ltac:(lia) Hk) as Hpk.
  assert (Hmz : Zpos (Z.to_pos (Zpos m * 2 ^ k)) = Zpos m * 2 ^ k) by (apply Z2Pos.id; lia).
  rewrite Hmz.
  assert (Hval : (IZR (Zpos m * 2 ^ k) * bpow (e - k) = IZR (Zpos m) * bpow e)%R).
  { rewrite bpow_shift by exact Hk. f_equal. f_equal. lia. }
  apply round_exact_between; try assumption; [lia | | rewrite Hval; exact Hbetween].
  rewrite Zdigits2_mul_pow2 by lia. cbn [Zdigits2].
  replace (Zpos (digits2_pos m) + k + (e - k)) with (Zpos (digits2_pos m) + e) by lia.
  unfold k. lia.
Qed.

(** The sum of two numbers of the format lies between the numbers of the
    format that the exact sum lies between. *)
Lemma SFadd_between (x y lo hi : spec_float) :
  valid_binary x = true -> valid_binary y = true ->
  valid_binary lo = true -> valid_binary hi = true ->
  is_fin x = true -> is_fin y = true -> is_fin lo = true -> is_fin hi = true ->
  (SF2R lo <= SF2R x + SF2R y <= SF2R hi)%R ->
  is_fin (SFadd prec emax x y) = true /\
  (SF2R lo <= SF2R (SFadd prec emax x y) <= SF2R hi)%R.
Proof.
  intros Hvx Hvy Hvlo Hvhi Hfx Hfy Hflo Hfhi Hb.
  destruct x as [sx | sx | | sx mx ex]; try discriminate Hfx;
    destruct y as [sy | sy | | sy my ey]; try discriminate Hfy.
  - cbn [SF2R] in Hb. destruct sx, sy; cbn [SFadd is_fin SF2R]; (split; [reflexivity | lra]).
  - cbn [SFadd]. split; [reflexivity |]. cbn [SF2R] in Hb |- *. destruct sy; lra.
  - cbn [SFadd]. split; [reflexivity |]. cbn [SF2R] in Hb |- *. destruct sx; lra.
  - cbn [SFadd]. rewrite !shl_align_spec. cbv zeta. cbn [fst].
    set (ez := Z.min ex ey).
    replace (Z.max 0 (ex - ez)) with (ex - ez) by (unfold ez; lia).
    replace (Z.max 0 (ey - ez)) with (ey - ez) by (unfold ez; lia).
    pose proof (Z.pow_pos_nonneg 2 (ex - ez) ltac:(lia) ltac:(unfold ez; lia)) as Hpx.
    pose proof (Z.pow_pos_nonneg 2 (ey - ez) ltac:(lia) ltac:(unfold ez; lia)) as Hpy.
    rewrite !Z2Pos.id by lia.
    set (S := cond_Zopp sx (Zpos mx * 2 ^ (ex - ez)) + cond_Zopp sy (Zpos my * 2 ^ (ey - ez))).
    assert (Hx : (IZR (Zpos mx * 2 ^ (ex - ez)) * bpow ez = IZR (Zpos mx) * bpow ex)%R).
    { rewrite bpow_shift by (unfold ez; lia). f_equal. f_equal. lia. }
    assert (Hy : (IZR (Zpos my * 2 ^ (ey - ez)) * bpow ez = IZR (Zpos my) * bpow ey)%R).
    { rewrite bpow_shift by (unfold ez; lia). f_equal. f_equal. lia. }
    assert (HS : (IZR S * bpow ez = SF2R (S754_finite sx mx ex) + SF2R (S754_finite sy my ey))%R).
    { unfold S. rewrite plus_IZR. cbn [SF2R].
      destruct sx, sy; cbn [cond_Zopp]; rewrite ?opp_IZR; lra. }
    rewrite <- HS in Hb.
    destruct S as [| p | p]; cbn [binary_normalize].
    + rewrite Rmult_0_l in Hb. cbn [is_fin SF2R]. split; [reflexivity | exact Hb].
    + apply binary_round_between; assumption.
    + apply binary_round_between; try assumption.
      replace (IZR (Zneg p)) with (- IZR (Zpos p))%R in Hb by (rewrite <- opp_IZR; reflexivity).
      lra.
Qed.

(** The product of two numbers of the format is bounded in magnitude by
    the numbers of the format that bound the exact product. *)
Lemma SFmul_magnitude (x y b : spec_float) :
  valid_binary x = true -> valid_binary y = true -> valid_binary b = true ->
  is_fin x = true -> is_fin y = true -> is_fin b = true ->
  (Rabs (SF2R x) * Rabs (SF2R y) <= SF2R b)%R ->
  is_fin (SFmul prec emax x y) = true /\ (Rabs (SF2R (SFmul prec emax x y)) <= SF2R b)%R.
Proof.
  intros Hvx Hvy Hvb Hfx Hfy Hfb Hb.
  assert (Hb0 : (0 <= SF2R b)%R).
  { pose proof (Rabs_pos (SF2R x)). pose proof (Rabs_pos (SF2R y)). nra. }
  destruct x as [sx | sx | | sx mx ex]; try discriminate Hfx;
    destruct y as [sy | sy | | sy my ey]; try discriminate Hfy;
    cbn [SFmul]; try (cbn [is_fin SF2R]; rewrite Rabs_R0; split; [reflexivity | exact Hb0]).
  rewrite !Rabs_SF2R_finite in Hb.
  destruct (valid_finite _ _ _ Hvx) as [Hcx _]. destruct (valid_finite _ _ _ Hvy) as [Hcy _].
  destruct (canonical_bounds mx ex Hcx) as (_ & _ & _ & Hfixx).
  destruct (canonical_bounds my ey Hcy) as (_ & _ & _ & Hfixy).
  apply (round_magnitude _ _ _ loc_Exact (IZR (Zpos (mx * my)) * bpow (ex + ey)));
    try assumption; [lia | apply inb_exact | |].
  - pose proof (digits2_pos_spec mx) as [Hlx _]. pose proof (digits2_pos_spec my) as [Hly _].
    assert (Hdx : 0 < Zpos (digits2_pos mx)) by lia.
    assert (Hdy : 0 < Zpos (digits2_pos my)) by lia.
    assert (Hd : Zpos (digits2_pos mx) + Zpos (digits2_pos my) - 2 + 1 <=
                 Zdigits2 (Zpos (mx * my))).
    { apply Zdigits2_ge; [lia |].
      replace (Zpos (digits2_pos mx) + Zpos (digits2_pos my) - 2)
        with ((Zpos (digits2_pos mx) - 1) + (Zpos (digits2_pos my) - 1)) by lia.
      rewrite Z.pow_add_r, Pos2Z.inj_mul by lia.
      pose proof (Z.pow_pos_nonneg 2 (Zpos (digits2_pos mx) - 1) ltac:(lia) ltac:(lia)).
      pose proof (Z.pow_pos_nonneg 2 (Zpos (digits2_pos my) - 1) ltac:(lia) ltac:(lia)).
      nia. }
    rewrite fexp_spec in *. lia.
  - rewrite Pos2Z.inj_mul, mult_IZR, bpow_plus.
    replace (IZR (Zpos mx) * IZR (Zpos my) * (bpow ex * bpow ey))%R
      with (IZR (Zpos mx) * bpow ex * (IZR (Zpos my) * bpow ey))%R by ring.
    exact Hb.
Qed.

Lemma new_location_exact (nb k : Z) : new_location nb k = loc_Exact <-> k = 0.
Proof.
  unfold new_location, new_location_even, new_location_odd.
  destruct (Z.even nb); destruct (Z.eqb_spec k 0) as [-> | Hne];
    split; intros H; try reflexivity; try discriminate; contradiction.
Qed.

(** The quotient of two numbers of the format is bounded in magnitude by
    the numbers of the format that bound the exact quotient. *)
Lemma SFdiv_magnitude (x b : spec_float) (sy : bool) (my : positive) (ey : Z) :
  valid_binary x = true -> valid_binary (S754_finite sy my ey) = true ->
  valid_binary b = true -> is_fin x = true -> is_fin b = true ->
  (Rabs (SF2R x) <= SF2R b * (IZR (Zpos my) * bpow ey))%R ->
  is_fin (SFdiv prec emax x (S754_finite sy my ey)) = true /\
  (Rabs (SF2R (SFdiv prec emax x (S754_finite sy my ey))) <= SF2R b)%R.
Proof.
  intros Hvx Hvy Hvb Hfx Hfb Hb.
  pose proof (finite_value_pos my ey) as Hypos.
  assert (Hb0 : (0 <= SF2R b)%R).
  { pose proof (Rabs_pos (SF2R x)). nra. }
  destruct x as [sx | sx | | sx mx ex]; try discriminate Hfx; cbn [SFdiv].
  { cbn [is_fin SF2R]. rewrite Rabs_R0. split; [reflexivity | exact Hb0]. }
  rewrite Rabs_SF2R_finite in Hb.
  destruct (valid_finite _ _ _ Hvx) as [Hcx _]. destruct (valid_finite _ _ _ Hvy) as [Hcy _].
  unfold SFdiv_core_binary. cbn [Zdigits2].
  set (dx := Zpos (digits2_pos mx)). set (dy := Zpos (digits2_pos my)).
  set (e' := Z.min (fexp prec emax (dx + ex - (dy + ey))) (ex - ey)).
  set (s := ex - ey - e').
  assert (Hs : 0 <= s) by (unfold s, e'; lia).
  set (m' := match s with Zpos _ => Z.shiftl (Zpos mx) s | Z0 => Zpos mx | Zneg _ => 0 end).
  assert (Hm' : m' = Zpos mx * 2 ^ s).
  { unfold m'. destruct s as [| p | p]; [rewrite Z.mul_1_r; reflexivity | | lia].
    apply Z.shiftl_mul_pow2. lia. }
  pose proof (Z.pow_pos_nonneg 2 s ltac:(lia) Hs) as Hps.
  pose proof (Z.div_mod m' (Zpos my) ltac:(lia)) as Hdm.
  pose proof (Z.mod_pos_bound m' (Zpos my) ltac:(lia)) as Hmod.
  unfold Z.div, Z.modulo in Hdm, Hmod.
  destruct (Z.div_eucl m' (Zpos my)) as [q r]. cbn [fst snd] in Hdm, Hmod.
  assert (Hq : 0 <= q) by nia.
  pose proof (bpow_pos e') as Hbe'.
  assert (Hval : (IZR m' * bpow e' = IZR (Zpos mx) * bpow ex / (IZR (Zpos my) * bpow ey) *
                                       (IZR (Zpos my)))%R).
  { rewrite Hm', bpow_shift by exact Hs.
    replace (e' + s) with (ex + - ey) by (unfold s; lia). rewrite bpow_plus.
    pose proof (bpow_plus ey (- ey)) as Hinv. rewrite Z.add_opp_diag_r in Hinv.
    change (bpow 0) with 1%R in Hinv.
    pose proof (bpow_pos ey). pose proof (bpow_pos (- ey)).
    assert (0 < IZR (Zpos my))%R by (apply IZR_lt; lia).
    assert (Hneg : bpow (- ey) = (/ bpow ey)%R)
      by (apply Rmult_eq_reg_l with (bpow ey); [rewrite Rinv_r by lra; lra | lra]).
    rewrite Hneg. field. split; lra. }
  set (v := (IZR (Zpos mx) * bpow ex / (IZR (Zpos my) * bpow ey))%R) in *.
  assert (Hmy : (0 < IZR (Zpos my))%R) by (apply IZR_lt; lia).
  assert (Hin : inb q e' (new_location (Zpos my) r) v).
  { assert (Hm'R : IZR m' = (IZR (Zpos my) * IZR q + IZR r)%R)
      by (rewrite Hdm, plus_IZR, mult_IZR; reflexivity).
    assert (Hr0 : (0 <= IZR r)%R) by (apply IZR_le; lia).
    assert (Hr1 : (IZR r < IZR (Zpos my))%R) by (apply IZR_lt; lia).
    rewrite Hm'R in Hval.
    split; [rewrite plus_IZR; split; nra |].
    rewrite new_location_exact. split.
    - intros ->. change (IZR 0) with 0%R in Hval.
      apply Rmult_eq_reg_r with (IZR (Zpos my)); [rewrite <- Hval; ring | lra].
    - intros Hv. rewrite Hv in Hval.
      assert (Hrz : (IZR r * bpow e' = 0)%R) by lra.
      apply eq_IZR. destruct (Rmult_integral _ _ Hrz); [assumption | lra]. }
  apply (round_magnitude _ q e' _ v); try assumption.
  - (* the quotient has the digits of the format *)
    destruct (Z.le_gt_cases e' (-1074)) as [Hlow | Hhigh]; [rewrite fexp_spec; lia |].
    assert (He' : e' <= dx + ex - (dy + ey) - 53) by (unfold e' in *; rewrite fexp_spec in *; lia).
    set (t := dx + ex - (dy + ey) - e').
    assert (Ht : 53 <= t) by (unfold t; lia).
    pose proof (digits2_pos_spec mx) as [Hlx _]. pose proof (digits2_pos_spec my) as [_ Hhy].
    fold dx in Hlx. fold dy in Hhy.
    assert (Hdx : 0 < dx) by (unfold dx; lia). assert (Hdy : 0 < dy) by (unfold dy; lia).
    assert (Hpow : 2 ^ (t - 1) * 2 ^ dy = 2 ^ (dx - 1) * 2 ^ s).
    { rewrite <- !Z.pow_add_r by lia. f_equal. unfold t, s. lia. }
    assert (Hqlow : 2 ^ (t - 1) <= q).
    { pose proof (Z.pow_pos_nonneg 2 (t - 1) ltac:(lia) ltac:(lia)) as Hpt.
      destruct (Z.le_gt_cases (2 ^ (t - 1)) q) as [? | Hlt]; [assumption |]. exfalso.
      assert (m' < 2 ^ (t - 1) * Zpos my) by nia. nia. }
    pose proof (Zdigits2_ge q (t - 1) ltac:(lia) Hqlow) as Hdq.
    rewrite fexp_spec. unfold t in Hdq. lia.
  - unfold v. apply Rmult_le_reg_r with (IZR (Zpos my) * bpow ey)%R; [lra |].
    unfold Rdiv. rewrite Rmult_assoc, Rinv_l by lra. lra.
Qed.

(** ** The digits of a shifted mantissa, and the validity of a rounding *)

Lemma Zdigits2_div_pow2 (m k : Z) :
  0 <= k -> 0 < m / 2 ^ k -> Zdigits2 (m / 2 ^ k) = Zdigits2 m - k.
Proof.
  intros Hk Hq.
  pose proof (Z.pow_pos_nonneg 2 k ltac:(lia) Hk) as Hpk.
  assert (Hm : 0 < m).
  { destruct (Z.le_gt_cases m 0) as [Hle | ?]; [| assumption].
    pose proof (Z.div_le_upper_bound m (2 ^ k) 0 Hpk ltac:(lia)). lia. }
  pose proof (Zdigits2_spec m Hm) as [Hlo Hhi]. pose proof (Zdigits2_pos m Hm) as Hd.
  pose proof (Z.div_mod m (2 ^ k) ltac:(lia)) as Hdm.
  pose proof (Z.mod_pos_bound m (2 ^ k) Hpk) as Hmod.
  assert (Hkd : k < Zdigits2 m).
  { destruct (Z.lt_ge_cases k (Zdigits2 m)) as [? | Hge]; [assumption |].
    pose proof (Z.pow_le_mono_r 2 (Zdigits2 m) k ltac:(lia) Hge).
    assert (m / 2 ^ k = 0) by (apply Z.div_small; lia). lia. }
  apply Z.le_antisymm.
  - apply Zdigits2_le; [lia |]. split; [lia |].
    apply Z.div_lt_upper_bound; [lia |]. rewrite <- Z.pow_add_r by lia.
    replace (k + (Zdigits2 m - k)) with (Zdigits2 m) by lia. exact Hhi.
  - replace (Zdigits2 m - k) with (Zdigits2 m - 1 - k + 1) by lia.
    apply Zdigits2_ge; [lia |]. apply Z.div_le_lower_bound; [lia |].
    rewrite <- Z.pow_add_r by lia. replace (k + (Zdigits2 m - 1 - k)) with (Zdigits2 m - 1) by lia.
    exact Hlo.
Qed.

Lemma Zdigits2_mono (a b : Z) : 0 <= a <= b -> Zdigits2 a <= Zdigits2 b.
Proof.
  intros [Ha Hab]. destruct (Z.eq_dec a 0) as [-> | Hne].
  - destruct b; cbn; lia.
  - pose proof (Zdigits2_spec a ltac:(lia)) as [Hlo _].
    pose proof (Zdigits2_pos a ltac:(lia)).
    replace (Zdigits2 a) with (Zdigits2 a - 1 + 1) by lia.
    apply Zdigits2_ge; lia.
Qed.

(** A rounding of an exact number gives a number of the format, or an
    infinity. *)
Lemma round_exact_valid (sx : bool) (m e : Z) :
  0 <= m -> e <= fexp prec emax (Zdigits2 m + e) ->
  valid_binary (binary_round_aux prec emax sx m e loc_Exact) = true /\
  binary_round_aux prec emax sx m e loc_Exact <> S754_nan.
Proof.
  intros Hm Hpc.
  destruct (round_aux_core sx m e loc_Exact _ Hm (inb_exact m e))
    as (m1 & l1 & m2 & m3 & E2 & Hm1 & Hin1 & Hm2 & Hex & HE2 & Hm3 & Hres).
  rewrite Hres. clear Hres.
  replace (Z.max e (fexp prec emax (Zdigits2 m + e))) with (fexp prec emax (Zdigits2 m + e)) in *
    by lia.
  set (E1 := fexp prec emax (Zdigits2 m + e)) in *.
  assert (Hm1nn : 0 <= m1).
  { rewrite Hm1. apply Z.div_pos; [exact Hm |]. apply Z.pow_pos_nonneg; lia. }
  assert (Hm3nn : 0 <= m3).
  { rewrite Hm3. apply Z.div_pos; [lia |]. apply Z.pow_pos_nonneg; lia. }
  destruct m3 as [| p | p]; [split; [reflexivity | discriminate] | | lia].
  destruct (Z.leb_spec E2 (emax - prec)) as [Hle | Hgt]; [| split; [reflexivity | discriminate]].
  split; [| discriminate].
  change (canonical_mantissa prec emax p E2 && (E2 <=? emax - prec) = true).
  apply andb_true_intro. split; [| apply Z.leb_le; exact Hle].
  unfold canonical_mantissa. apply Z.eqb_eq.
  change (Zpos (digits2_pos p)) with (Zdigits2 (Zpos p)).
  assert (Hm2pos : 0 < m2).
  { destruct (Z.eq_dec m2 0) as [Hz | ?]; [| lia]. rewrite Hz, Z.div_0_l in Hm3 by (apply Z.pow_nonzero; lia). lia. }
  (* after the first shift the exponent is that of the format *)
  assert (Hstage1 : E1 <= fexp prec emax (Zdigits2 m2 + E1)).
  { destruct (Z.eq_dec m1 0) as [Hz | Hnz].
    - (* the mantissa was shifted out *)
      assert (Hsmall : m < 2 ^ (E1 - e)).
      { destruct (Z.lt_ge_cases m (2 ^ (E1 - e))) as [? | Hge]; [assumption |].
        pose proof (Z.div_le_lower_bound m (2 ^ (E1 - e)) 1
                      ltac:(apply Z.pow_pos_nonneg; lia) ltac:(lia)). lia. }
      pose proof (Zdigits2_le m (E1 - e) ltac:(lia) ltac:(lia)) as Hd.
      assert (HE1 : E1 = Z.max (Zdigits2 m + e - 53) (-1074)) by reflexivity.
      rewrite fexp_spec. lia.
    - assert (Hd1 : Zdigits2 m1 = Zdigits2 m - (E1 - e)).
      { rewrite Hm1. apply Zdigits2_div_pow2; [lia |]. rewrite <- Hm1. lia. }
      pose proof (Zdigits2_mono m1 m2 ltac:(lia)) as Hmono.
      assert (Hfix : fexp prec emax (Zdigits2 m1 + E1) = E1).
      { rewrite Hd1. replace (Zdigits2 m - (E1 - e) + E1) with (Zdigits2 m + e) by lia.
        reflexivity. }
      rewrite <- Hfix at 1. apply fexp_mono. lia. }
  destruct (Z.eq_dec E2 E1) as [HE | HE].
  - assert (H32 : Zpos p = m2).
    { rewrite Hm3, HE, Z.sub_diag. change (2 ^ 0) with 1. apply Z.div_1_r. }
    rewrite H32, HE. lia.
  - assert (Hd3 : Zdigits2 (Zpos p) = Zdigits2 m2 - (E2 - E1)).
    { rewrite Hm3. apply Zdigits2_div_pow2; [lia |]. rewrite <- Hm3. lia. }
    rewrite Hd3. replace (Zdigits2 m2 - (E2 - E1) + E2) with (Zdigits2 m2 + E1) by lia. lia.
Qed.

Lemma binary_normalize_valid (z : Z) :
  valid_binary (binary_normalize prec emax z 0 false) = true /\
  binary_normalize prec emax z 0 false <> S754_nan.
Proof.
  assert (Hround : forall sx p,
             valid_binary (binary_round prec emax sx p 0) = true /\
             binary_round prec emax sx p 0 <> S754_nan).
  { intros sx p. unfold binary_round. rewrite shl_align_spec. cbv zeta.
    set (k := Z.max 0 (0 - fexp prec emax (Zpos (digits2_pos p) + 0))).
    assert (Hk : 0 <= k) by (unfold k; lia).
    pose proof (Z.pow_pos_nonneg 2 k ltac:(lia) Hk) as Hpk.
    rewrite Z2Pos.id by lia.
    apply round_exact_valid; [lia |].
    rewrite Zdigits2_mul_pow2 by lia. cbn [Zdigits2].
    replace (Zpos (digits2_pos p) + k + (0 - k)) with (Zpos (digits2_pos p) + 0) by lia.
    unfold k. lia. }
  destruct z as [| p | p]; cbn [binary_normalize]; [split; [reflexivity | discriminate] | ..];
    apply Hround.
Qed.

(** ** Floats *)

Lemma finite_not_nan (x : float) : finite x -> is_nan x = false.
Proof.
  unfold finite, is_nan. intros Hf. rewrite FloatAxioms.eqb_spec.
  pose proof (SFcompare_value _ _ (Prim2SF_valid x) (Prim2SF_valid x) Hf Hf) as H.
  unfold SFeqb. destruct (SFcompare (Prim2SF x) (Prim2SF x)) as [[] |];
    [reflexivity | lra | lra | contradiction].
Qed.

Lemma leb_F2R (x y : float) :
  finite x -> finite y -> ((x <=? y)%float = true <-> (F2R x <= F2R y)%R).
Proof.
  intros Hx Hy. rewrite FloatAxioms.leb_spec.
  apply SFleb_value; [apply Prim2SF_valid | apply Prim2SF_valid | exact Hx | exact Hy].
Qed.

Lemma ltb_F2R (x y : float) :
  finite x -> finite y -> ((x <? y)%float = true <-> (F2R x < F2R y)%R).
Proof.
  intros Hx Hy. rewrite FloatAxioms.ltb_spec.
  apply SFltb_value; [apply Prim2SF_valid | apply Prim2SF_valid | exact Hx | exact Hy].
Qed.

(** What lies between two finite floats is finite. *)
Lemma finite_between (lo hi a : float) :
  finite lo -> finite hi ->
  (lo <=? a)%float = true -> (a <=? hi)%float = true -> finite a.
Proof.
  unfold finite. rewrite !FloatAxioms.leb_spec. intros Hlo Hhi H1 H2.
  destruct (Prim2SF a) as [s | [] | | s m e]; try reflexivity; exfalso.
  - destruct (Prim2SF lo) as [? | ? | | ? ? ?]; try discriminate Hlo; discriminate H1.
  - destruct (Prim2SF hi) as [? | ? | | ? ? ?]; try discriminate Hhi; discriminate H2.
  - destruct (Prim2SF lo) as [? | ? | | ? ? ?]; discriminate H1.
Qed.

Lemma add_between (x y lo hi : float) :
  finite x -> finite y -> finite lo -> finite hi ->
  (F2R lo <= F2R x + F2R y <= F2R hi)%R ->
  finite (x + y) /\ (F2R lo <= F2R (x + y) <= F2R hi)%R.
Proof.
  intros Hx Hy Hlo Hhi Hb. unfold finite, F2R. rewrite FloatAxioms.add_spec.
  apply SFadd_between; try apply Prim2SF_valid; assumption.
Qed.

Lemma mul_magnitude (x y b : float) :
  finite x -> finite y -> finite b ->
  (Rabs (F2R x) * Rabs (F2R y) <= F2R b)%R ->
  finite (x * y) /\ (Rabs (F2R (x * y)) <= F2R b)%R.
Proof.
  intros Hx Hy Hb H. unfold finite, F2R. rewrite FloatAxioms.mul_spec.
  apply SFmul_magnitude; try apply Prim2SF_valid; assumption.
Qed.

Lemma div_magnitude (x y b : float) (sy : bool) (my : positive) (ey : Z) :
  finite x -> finite b -> Prim2SF y = S754_finite sy my ey ->
  (Rabs (F2R x) <= F2R b * (IZR (Zpos my) * bpow ey))%R ->
  finite (x / y) /\ (Rabs (F2R (x / y)) <= F2R b)%R.
Proof.
  intros Hx Hb Hy H. unfold finite, F2R. rewrite FloatAxioms.div_spec, Hy.
  apply SFdiv_magnitude; try apply Prim2SF_valid; try assumption.
  rewrite <- Hy. apply Prim2SF_valid.
Qed.

Lemma bpow_neg (n : Z) : 0 <= n -> bpow (- n) = (/ IZR (2 ^ n))%R.
Proof.
  intros Hn. pose proof (bpow_plus n (- n)) as H. rewrite Z.add_opp_diag_r in H.
  change (bpow 0) with 1%R in H. rewrite (bpow_IZR n Hn) in H.
  assert (IZR (2 ^ n) <> 0)%R by (intros Hz; rewrite Hz in H; lra).
  apply Rmult_eq_reg_l with (IZR (2 ^ n)); [| assumption]. rewrite Rinv_r by assumption. lra.
Qed.

Lemma Rabs_bound (x b : R) : (Rabs x <= b)%R -> (- b <= x <= b)%R.
Proof. unfold Rabs. destruct (Rcase_abs x); lra. Qed.

(** The value of a float given by its mantissa and a negative exponent. *)
Lemma F2R_constant (x : float) (s : bool) (m : positive) (n : Z) :
  Prim2SF x = S754_finite s m (- n) -> 0 <= n ->
  finite x /\ F2R x = (if s then - (IZR (Zpos m) / IZR (2 ^ n)) else IZR (Zpos m) / IZR (2 ^ n))%R.
Proof.
  intros Hx Hn. unfold finite, F2R. rewrite Hx. split; [reflexivity |].
  cbn [SF2R]. rewrite (bpow_neg n Hn). destruct s; reflexivity.
Qed.

Ltac float_constant x s m n H :=
  let F := fresh "Hfin" in
  destruct (F2R_constant x s m n ltac:(vm_compute; reflexivity) ltac:(lia)) as [F H];
  let t := eval vm_compute in (2 ^ n)%Z in change (2 ^ n)%Z with t in H.

(** The compass: whatever angle between [-pi] and [pi] the library
    returns, the direction lies between 1 and 9. *)
Lemma wrap_direction_range (a : float) :
  (- math_pi <=? a)%float = true -> (a <=? math_pi)%float = true ->
  (1 <=? wrap_direction (1.0 + a * 4.0 / math_pi))%float = true /\
  (wrap_direction (1.0 + a * 4.0 / math_pi) <=? 9)%float = true.
Proof.
  intros Hlo Hhi.
  float_constant math_pi false 7074237752028440%positive 51 Hpi.
  float_constant (- math_pi)%float true 7074237752028440%positive 51 Hnpi.
  float_constant 0x1.921fb54442d18p+3%float false 7074237752028440%positive 49 H4pi.
  float_constant 4.0%float false 4503599627370496%positive 50 H4.
  float_constant 1.0%float false 4503599627370496%positive 52 H1.
  float_constant 8%float false 4503599627370496%positive 49 H8.
  float_constant 9%float false 5066549580791808%positive 49 H9.
  float_constant 5%float false 5629499534213120%positive 50 H5.
  float_constant (-3)%float true 6755399441055744%positive 51 Hm3.
  assert (Hfa : finite a) by (apply (finite_between (- math_pi) math_pi); assumption).
  apply leb_F2R in Hlo; [| assumption | assumption].
  apply leb_F2R in Hhi; [| assumption | assumption].
  set (pi_d := (IZR 7074237752028440 / IZR 2251799813685248)%R) in *.
  assert (Hpid : (0 < pi_d)%R) by (unfold pi_d; lra).
  (* angle * 4 *)
  destruct (mul_magnitude a 4.0 0x1.921fb54442d18p+3 Hfa ltac:(assumption) ltac:(assumption))
    as [Hfx Hx].
  { rewrite H4, H4pi, Hpi, Hnpi in *. rewrite (Rabs_pos_eq (_ / _)) by lra.
    assert (Rabs (F2R a) <= pi_d)%R by (apply Rabs_le; fold pi_d in Hlo, Hhi; lra).
    unfold pi_d in *. lra. }
  (* / pi *)
  destruct (div_magnitude (a * 4.0) math_pi 4.0 false 7074237752028440 (-51) Hfx
              ltac:(assumption) ltac:(vm_compute; reflexivity)) as [Hft Ht].
  { rewrite H4, H4pi in *. replace (bpow (-51)) with (/ IZR (2 ^ 51))%R
      by (symmetry; apply (bpow_neg 51); lia).
    change (2 ^ 51) with 2251799813685248. lra. }
  rewrite H4 in Ht. apply Rabs_bound in Ht.
  (* 1 + *)
  destruct (add_between 1.0 (a * 4.0 / math_pi) (-3) 5
              ltac:(assumption) Hft ltac:(assumption) ltac:(assumption)) as [Hfd Hd].
  { rewrite H1, Hm3, H5. lra. }
  rewrite Hm3, H5 in Hd.
  set (d := (1.0 + a * 4.0 / math_pi)%float) in *.
  unfold wrap_direction.
  destruct (d <? 1)%float eqn:Hd1.
  - apply ltb_F2R in Hd1; [| assumption | assumption]. rewrite H1 in Hd1.
    destruct (add_between d 8 5 9 Hfd ltac:(assumption) ltac:(assumption) ltac:(assumption))
      as [Hfd8 Hd8].
    { rewrite H8, H5, H9. lra. }
    rewrite H5, H9 in Hd8.
    replace (9 <? d + 8)%float with false.
    + split; apply leb_F2R; try assumption; rewrite ?H1, ?H9; lra.
    + symmetry. apply not_true_is_false. intros Hgt.
      apply ltb_F2R in Hgt; [| assumption | assumption]. rewrite H9 in Hgt. lra.
  - assert (Hge : (1 <= F2R d)%R).
    { apply Rnot_lt_le. intros Hlt.
      assert (Hlt' : (F2R d < F2R 1)%R) by (rewrite H1; lra).
      apply ltb_F2R in Hlt'; [| assumption | assumption]. congruence. }
    replace (9 <? d)%float with false.
    + split; apply leb_F2R; try assumption; rewrite ?H1, ?H9; lra.
    + symmetry. apply not_true_is_false. intros Hgt.
      apply ltb_F2R in Hgt; [| assumption | assumption]. rewrite H9 in Hgt. lra.
Qed.

(** * Directions *)

Lemma Z2F_0 : Z2F 0 = 0%float.
Proof. reflexivity. Qed.

Lemma Z2F_1 : Z2F 1 = 1%float.
Proof. reflexivity. Qed.

(** ** The conversion of an integer *)

Lemma py_float_0 : py_float 0 = inr 0%float.
Proof. reflexivity. Qed.

Lemma py_float_1 : py_float 1 = inr 1%float.
Proof. reflexivity. Qed.

Lemma py_float_Z2F (z : Z) (y : float) : py_float z = inr y -> y = Z2F z.
Proof.
  unfold py_float, Z2F.
  destruct (binary_normalize prec emax z 0 false); intros H; inversion H; reflexivity.
Qed.

Lemma py_float_failure (z : Z) (ex : PyExn) : py_float z = inl ex -> ex = OverflowError.
Proof.
  unfold py_float.
  destruct (binary_normalize prec emax z 0 false); intros H; inversion H; reflexivity.
Qed.

(** A converted integer is a finite double. *)
Lemma py_float_finite (z : Z) (y : float) : py_float z = inr y -> finite y.
Proof.
  destruct (binary_normalize_valid z) as [Hv Hn].
  unfold py_float, finite.
  destruct (binary_normalize prec emax z 0 false) as [s | s | | s m e] eqn:E; intros H.
  - assert (Hy : y = SF2Prim (S754_zero s)) by congruence.
    rewrite Hy, Prim2SF_SF2Prim by exact Hv. reflexivity.
  - discriminate H.
  - exfalso. apply Hn. reflexivity.
  - assert (Hy : y = SF2Prim (S754_finite s m e)) by congruence.
    rewrite Hy, Prim2SF_SF2Prim by exact Hv. reflexivity.
Qed.

(** The integers up to [2^1023] in magnitude are converted. *)
Lemma py_float_returns (z : Z) : Z.abs z <= 2 ^ 1023 -> exists y, py_float z = inr y.
Proof.
  intros Hz. unfold py_float.
  assert (Hfin : is_fin (binary_normalize prec emax z 0 false) = true).
  { destruct z as [| p | p]; [reflexivity | |].
    - refine (proj1 (binary_round_between false p 0
                (S754_finite true 4503599627370496 971)
                (S754_finite false 4503599627370496 971) _ _ _ _ _));
        try reflexivity.
      cbn [SF2R]. rewrite (bpow_IZR 971) by lia. change (bpow 0) with 1%R.
      rewrite <- mult_IZR.
      assert (Hp : (IZR (Zpos p) <= IZR (4503599627370496 * 2 ^ 971))%R)
        by (apply IZR_le; change (4503599627370496 * 2 ^ 971) with (2 ^ 1023); lia).
      assert (H0 : (0 < IZR (Zpos p))%R) by (apply IZR_lt; lia).
      lra.
    - refine (proj1 (binary_round_between true p 0
                (S754_finite true 4503599627370496 971)
                (S754_finite false 4503599627370496 971) _ _ _ _ _));
        try reflexivity.
      cbn [SF2R]. rewrite (bpow_IZR 971) by lia. change (bpow 0) with 1%R.
      rewrite <- mult_IZR.
      assert (Hp : (IZR (Zpos p) <= IZR (4503599627370496 * 2 ^ 971))%R)
        by (apply IZR_le; change (4503599627370496 * 2 ^ 971) with (2 ^ 1023); lia).
      assert (H0 : (0 < IZR (Zpos p))%R) by (apply IZR_lt; lia).
      lra. }
  destruct (binary_normalize prec emax z 0 false); try discriminate Hfin; eexists; reflexivity.
Qed.

(** ** The program's function *)

(** A returned direction is the specification's [direction_to] from the
    ship's sector. *)
Lemma calculate_torpedo_direction_unfold (math_atan2 : float -> float -> float)
    (e : Enterprise.t) (tr tc : Z) (d : float) :
  calculate_torpedo_direction math_atan2 e tr tc = inr d ->
  d = direction_to math_atan2 (Enterprise.sector_row e) (Enterprise.sector_col e) tr tc.
Proof.
  unfold calculate_torpedo_direction, direction_to, wrap_direction.
  replace (tr =? Enterprise.sector_row e) with (tr - Enterprise.sector_row e =? 0)
    by (destruct (Z.eqb_spec (tr - Enterprise.sector_row e) 0);
        destruct (Z.eqb_spec tr (Enterprise.sector_row e)); try reflexivity; lia).
  replace (tc =? Enterprise.sector_col e) with (tc - Enterprise.sector_col e =? 0)
    by (destruct (Z.eqb_spec (tc - Enterprise.sector_col e) 0);
        destruct (Z.eqb_spec tc (Enterprise.sector_col e)); try reflexivity; lia).
  cbv zeta.
  destruct ((tr - Enterprise.sector_row e =? 0) && (tc - Enterprise.sector_col e =? 0)).
  - intros H. inversion H. reflexivity.
  - destruct (py_float (- (tr - Enterprise.sector_row e))) as [ex | y] eqn:Ey;
      [discriminate |].
    destruct (py_float (tc - Enterprise.sector_col e)) as [ex | x] eqn:Ex;
      [discriminate |].
    intros H. inversion H.
    rewrite <- (py_float_Z2F _ _ Ey), <- (py_float_Z2F _ _ Ex). reflexivity.
Qed.

(** The only exception of the function is the one of the conversions. *)
Lemma calculate_torpedo_direction_failure (math_atan2 : float -> float -> float)
    (e : Enterprise.t) (tr tc : Z) (ex : PyExn) :
  calculate_torpedo_direction math_atan2 e tr tc = inl ex -> ex = OverflowError.
Proof.
  unfold calculate_torpedo_direction. cbv zeta.
  destruct ((tr - Enterprise.sector_row e =? 0) && (tc - Enterprise.sector_col e =? 0));
    [discriminate |].
  destruct (py_float (- (tr - Enterprise.sector_row e))) as [ex1 | y] eqn:Ey.
  - intros H. inversion H. subst ex1. exact (py_float_failure _ _ Ey).
  - destruct (py_float (tc - Enterprise.sector_col e)) as [ex2 | x] eqn:Ex.
    + intros H. inversion H. subst ex2. exact (py_float_failure _ _ Ex).
    + discriminate.
Qed.

(** It returns for every delta a double can hold. *)
Lemma calculate_torpedo_direction_returns (math_atan2 : float -> float -> float)
    (e : Enterprise.t) (tr tc : Z) :
  Z.abs (tr - Enterprise.sector_row e) <= 2 ^ 1023 ->
  Z.abs (tc - Enterprise.sector_col e) <= 2 ^ 1023 ->
  exists d, calculate_torpedo_direction math_atan2 e tr tc = inr d.
Proof.
  intros Hr Hc. unfold calculate_torpedo_direction. cbv zeta.
  destruct ((tr - Enterprise.sector_row e =? 0) && (tc - Enterprise.sector_col e =? 0));
    [eexists; reflexivity |].
  destruct (py_float_returns (- (tr - Enterprise.sector_row e))) as [y ->];
    [rewrite Z.abs_opp; exact Hr |].
  destruct (py_float_returns (tc - Enterprise.sector_col e)) as [x ->]; [exact Hc |].
  eexists; reflexivity.
Qed.

(** An integer beyond the doubles makes it raise. *)
Lemma calculate_torpedo_direction_overflow (math_atan2 : float -> float -> float) :
  calculate_torpedo_direction math_atan2 Enterprise.new (2 ^ 1024) 0 = inl OverflowError.
Proof. vm_compute. reflexivity. Qed.

Section Direction.
Context (math_atan2 : float -> float -> float) (Hc99 : c99_atan2 math_atan2).

Lemma direction_east (e : Enterprise.t) :
  calculate_torpedo_direction math_atan2 e
    (Enterprise.sector_row e) (Enterprise.sector_col e + 1) = inr 1.0%float.
Proof.
  unfold calculate_torpedo_direction. cbv zeta.
  replace (Enterprise.sector_row e - Enterprise.sector_row e) with 0 by lia.
  replace (Enterprise.sector_col e + 1 - Enterprise.sector_col e) with 1 by lia.
  change (- 0) with 0. change ((0 =? 0) && (1 =? 0)) with false. cbv iota.
  rewrite py_float_0, py_float_1, (proj1 Hc99) by reflexivity.
  reflexivity.
Qed.

Lemma direction_north (e : Enterprise.t) :
  calculate_torpedo_direction math_atan2 e
    (Enterprise.sector_row e - 1) (Enterprise.sector_col e) = inr 3.0%float.
Proof.
  unfold calculate_torpedo_direction. cbv zeta.
  replace (Enterprise.sector_row e - 1 - Enterprise.sector_row e) with (-1) by lia.
  replace (Enterprise.sector_col e - Enterprise.sector_col e) with 0 by lia.
  change (- -1) with 1. change ((-1 =? 0) && (0 =? 0)) with false. cbv iota.
  rewrite py_float_0, py_float_1, (proj1 (proj2 Hc99)) by reflexivity.
  reflexivity.
Qed.

Lemma direction_same (e : Enterprise.t) :
  calculate_torpedo_direction math_atan2 e
    (Enterprise.sector_row e) (Enterprise.sector_col e) = inr 1.0%float.
Proof.
  unfold calculate_torpedo_direction. cbv zeta.
  rewrite !Z.sub_diag. reflexivity.
Qed.

(** A returned direction lies on the compass, between 1 and 9. *)
Lemma calculate_torpedo_direction_range (e : Enterprise.t) (tr tc : Z) (d : float) :
  calculate_torpedo_direction math_atan2 e tr tc = inr d ->
  (1 <=? d)%float = true /\ (d <=? 9)%float = true.
Proof.
  unfold calculate_torpedo_direction. cbv zeta.
  destruct ((tr - Enterprise.sector_row e =? 0) && (tc - Enterprise.sector_col e =? 0)).
  - intros H. inversion H. split; reflexivity.
  - destruct (py_float (- (tr - Enterprise.sector_row e))) as [ex | y] eqn:Ey;
      [discriminate |].
    destruct (py_float (tc - Enterprise.sector_col e)) as [ex | x] eqn:Ex;
      [discriminate |].
    intros H. inversion H.
    destruct (proj2 (proj2 Hc99) y x
                (finite_not_nan _ (py_float_finite _ _ Ey))
                (finite_not_nan _ (py_float_finite _ _ Ex))) as [Hlo Hhi].
    exact (wrap_direction_range _ Hlo Hhi).
Qed.

(** C7: the direction computed for a target is, for the same position,
    1.0, and otherwise 1 + angle*4/pi for the angle atan2(-drow, dcol),
    plus 8 if below 1 and then minus 8 if above 9, as [direction_to] has
    it; every returned direction lies in [1,9], given that the library's
    atan2 stays between -pi and pi; the function returns for every delta
    up to 2^1023, and its only exception is the OverflowError of a delta
    beyond the doubles; one sector due east gives exactly 1.0 and one
    sector due north exactly 3.0, as from (0,0) to (0,1) and to (-1,0). *)
Theorem calculate_torpedo_direction_compass (e : Enterprise.t) (tr tc : Z) :
  let r := Enterprise.sector_row e in
  let c := Enterprise.sector_col e in
  (forall d, calculate_torpedo_direction math_atan2 e tr tc = inr d ->
     d = direction_to math_atan2 r c tr tc /\
     (1 <=? d)%float = true /\ (d <=? 9)%float = true) /\
  (forall ex, calculate_torpedo_direction math_atan2 e tr tc = inl ex ->
     ex = OverflowError) /\
  (Z.abs (tr - r) <= 2 ^ 1023 -> Z.abs (tc - c) <= 2 ^ 1023 ->
     exists d, calculate_torpedo_direction math_atan2 e tr tc = inr d) /\
  calculate_torpedo_direction math_atan2 e r (c + 1) = inr 1.0%float /\
  calculate_torpedo_direction math_atan2 e (r - 1) c = inr 3.0%float /\
  calculate_torpedo_direction math_atan2 e r c = inr 1.0%float.
Proof.
  intros r c.
  split.
  { intros d Hd. split.
    - exact (calculate_torpedo_direction_unfold _ _ _ _ _ Hd).
    - exact (calculate_torpedo_direction_range _ _ _ _ Hd). }
  split; [intros ex; apply calculate_torpedo_direction_failure |].
  split; [apply calculate_torpedo_direction_returns |].
  split; [apply direction_east |].
  split; [apply direction_north | apply direction_same].
Qed.
End Direction.

(** ** A function that meets what is assumed of atan2 *)

Lemma is_nan_false (x : float) : Prim2SF x <> S754_nan -> is_nan x = false.
Proof.
  intros Hx. destruct (Prim2SF x) as [s | s | | s m e] eqn:E.
  - apply finite_not_nan. unfold finite. rewrite E. reflexivity.
  - unfold is_nan. rewrite FloatAxioms.eqb_spec, E. destruct s; reflexivity.
  - contradiction.
  - apply finite_not_nan. unfold finite. rewrite E. reflexivity.
Qed.

Lemma positive_not_nan (x : float) : (0 <? x)%float = true -> is_nan x = false.
Proof.
  intros Hx. apply is_nan_false. intros E.
  rewrite FloatAxioms.ltb_spec, E in Hx. vm_compute in Hx. discriminate Hx.
Qed.

Lemma zero_in_range (y : float) :
  (y =? 0)%float = true ->
  (- math_pi <=? y)%float = true /\ (y <=? math_pi)%float = true.
Proof.
  intros Hy. rewrite FloatAxioms.eqb_spec in Hy. rewrite !FloatAxioms.leb_spec.
  destruct (Prim2SF y) as [[] | [] | | [] m e];
    vm_compute in Hy; try discriminate Hy; split; vm_compute; reflexivity.
Qed.

Lemma atan2_on_axes_c99 : c99_atan2 atan2_on_axes.
Proof.
  split; [| split].
  - intros x Hx. unfold atan2_on_axes.
    rewrite (positive_not_nan x Hx), Hx. reflexivity.
  - intros y Hy. unfold atan2_on_axes.
    rewrite (positive_not_nan y Hy). change (is_nan 0) with false. cbn [orb].
    destruct (y =? 0)%float eqn:Hy0.
    + exfalso. revert Hy Hy0. rewrite FloatAxioms.ltb_spec, FloatAxioms.eqb_spec.
      destruct (Prim2SF y) as [[] | [] | | [] m x]; cbn; congruence.
    + cbn [andb]. rewrite Hy. reflexivity.
  - intros y x Hy Hx. unfold atan2_on_axes. rewrite Hy, Hx. cbn [orb].
    destruct (y =? 0)%float eqn:Hy0.
    + destruct (0 <? x)%float; cbn [andb]; [exact (zero_in_range y Hy0) |].
      destruct (x <? 0)%float; cbn [andb]; [split; reflexivity |].
      destruct (x =? 0)%float; cbn [andb]. 
      * destruct (0 <? y)%float; [split; reflexivity |].
        destruct (y <? 0)%float; split; reflexivity.
      * split; reflexivity.
    + cbn [andb].
      destruct (x =? 0)%float; cbn [andb].
      * destruct (0 <? y)%float; [split; reflexivity |].
        destruct (y <? 0)%float; [split; reflexivity |].
        destruct (0 <? x)%float; [split; reflexivity |].
        destruct (x <? 0)%float; split; reflexivity.
      * destruct (0 <? x)%float; [destruct (0 <? y)%float; split; reflexivity |].
        destruct (x <? 0)%float; [destruct (0 <? y)%float; split; reflexivity |].
        split; reflexivity.
Qed.

Lemma calculate_torpedo_direction_compass_witness :
  c99_atan2 atan2_on_axes /\
  calculate_torpedo_direction atan2_on_axes Enterprise.new (-1) 1 = inr 2.0%float /\
  (2.0%float = direction_to atan2_on_axes 0 0 (-1) 1 /\
   (1 <=? 2.0)%float = true /\ (2.0 <=? 9)%float = true) /\
  (exists d, calculate_torpedo_direction atan2_on_axes Enterprise.new (-1) 1 = inr d) /\
  calculate_torpedo_direction atan2_on_axes Enterprise.new 0 1 = inr 1.0%float /\
  calculate_torpedo_direction atan2_on_axes Enterprise.new (-1) 0 = inr 3.0%float /\
  calculate_torpedo_direction atan2_on_axes Enterprise.new 0 0 = inr 1.0%float.
Proof.
  pose proof (calculate_torpedo_direction_compass atan2_on_axes atan2_on_axes_c99
                Enterprise.new (-1) 1) as [Hd [_ [Hret Hrest]]].
  split; [exact atan2_on_axes_c99 |].
  split; [reflexivity |].
  split; [exact (Hd 2.0%float eq_refl) |].
  split; [apply Hret; vm_compute; discriminate |].
  exact Hrest.
Defined.

(** ** The same compass over the reals *)

Section RealCompass.
Local Open Scope R_scope.

Lemma atan_nonpos (t : R) : t <= 0 -> atan t <= 0.
Proof.
  intros [Hlt | ->].
  - left. rewrite <- atan_0. apply atan_increasing. exact Hlt.
  - rewrite atan_0. apply Rle_refl.
Qed.

Lemma atan_pos (t : R) : 0 < t -> 0 < atan t.
Proof. intros Hlt. rewrite <- atan_0. apply atan_increasing. exact Hlt. Qed.

(** The angle lies in (-pi, pi]. *)
Lemma atan2_R_range (y x : R) : - PI < atan2_R y x <= PI.
Proof.
  pose proof PI_RGT_0 as Hpi. unfold atan2_R.
  destruct (Rlt_dec 0 x) as [Hx | Hx].
  - pose proof (atan_bound (y / x)). lra.
  - destruct (Rlt_dec x 0) as [Hx' | Hx'].
    + assert (Hinv : / x < 0) by (apply Rinv_neg; exact Hx').
      pose proof (atan_bound (y / x)) as Hb.
      destruct (Rle_dec 0 y) as [Hy | Hy].
      * assert (Hq : y / x <= 0) by (unfold Rdiv; nra).
        pose proof (atan_nonpos _ Hq). lra.
      * assert (Hq : 0 < y / x) by (unfold Rdiv; nra).
        pose proof (atan_pos _ Hq). lra.
    + destruct (Rlt_dec 0 y); [lra |]. destruct (Rlt_dec y 0); lra.
Qed.

Lemma wrap_direction_R_range (d : R) : -3 < d <= 5 -> 1 <= wrap_direction_R d <= 9.
Proof.
  intros Hd. unfold wrap_direction_R.
  destruct (Rlt_dec d 1); [destruct (Rlt_dec 9 (d + 8)) | destruct (Rlt_dec 9 d)]; lra.
Qed.

(** Every direction lies on the compass, between 1 and 9. *)
Lemma direction_to_R_range (from_r from_c to_r to_c : Z) :
  1 <= direction_to_R from_r from_c to_r to_c <= 9.
Proof.
  unfold direction_to_R.
  destruct ((to_r =? from_r)%Z && (to_c =? from_c)%Z); [lra |].
  apply wrap_direction_R_range.
  pose proof PI_RGT_0 as Hpi.
  pose proof (atan2_R_range (IZR (- (to_r - from_r))) (IZR (to_c - from_c))) as Ha.
  set (a := atan2_R _ _) in *.
  assert (Hinv : 0 < / PI) by (apply Rinv_0_lt_compat; exact Hpi).
  assert (Hone : PI * / PI = 1) by (apply Rinv_r; lra).
  unfold Rdiv. nra.
Qed.

Lemma atan2_R_east : atan2_R 0 1 = 0.
Proof.
  unfold atan2_R. destruct (Rlt_dec 0 1) as [_ | Hn]; [| lra].
  replace (0 / 1) with 0 by field. apply atan_0.
Qed.

Lemma atan2_R_north : atan2_R 1 0 = PI / 2.
Proof.
  unfold atan2_R. destruct (Rlt_dec 0 0) as [Hn | _]; [lra |].
  destruct (Rlt_dec 0 1) as [_ | Hn]; [reflexivity | lra].
Qed.

(** East is 1, north is 3, the same position is 1. *)
Lemma direction_to_R_compass :
  direction_to_R 0 0 0 1 = 1 /\ direction_to_R 0 0 (-1) 0 = 3 /\ direction_to_R 0 0 0 0 = 1.
Proof.
  pose proof PI_RGT_0 as Hpi.
  unfold direction_to_R, wrap_direction_R.
  repeat split.
  - change ((0 =? 0)%Z && (1 =? 0)%Z) with false. cbv iota.
    change (IZR (- (0 - 0))) with 0. change (IZR (1 - 0)) with 1.
    rewrite atan2_R_east.
    replace (1 + 0 * 4 / PI) with 1 by (field; lra).
    destruct (Rlt_dec 1 1); [lra |]. destruct (Rlt_dec 9 1); [lra | reflexivity].
  - change ((-1 =? 0)%Z && (0 =? 0)%Z) with false. cbv iota.
    change (IZR (- (-1 - 0))) with 1. change (IZR (0 - 0)) with 0.
    rewrite atan2_R_north.
    replace (1 + PI / 2 * 4 / PI) with 3 by (field; lra).
    destruct (Rlt_dec 3 1); [lra |]. destruct (Rlt_dec 9 3); [lra | reflexivity].
Qed.
End RealCompass.

(** * game/enterprise.py: repairs *)

Lemma all_systems_complete (s : ShipSystem) : s ∈ all_systems.
Proof. destruct s; apply (bool_decide_unpack _); vm_compute; exact Logic.I. Qed.

Lemma all_systems_NoDup : NoDup all_systems.
Proof. apply (bool_decide_unpack _). vm_compute. exact Logic.I. Qed.

Lemma repair_all_run (e : Enterprise.t) :
  exists e',
    Enterprise.repair_all e = Ret tt e' /\
    (forall s, Enterprise.damage e' !! s = Some 0%float) /\
    (forall s, Enterprise.is_system_damaged e' s = false) /\
    Enterprise.set_damage (Enterprise.damage e) e' = e.
Proof.
  eexists. split; [reflexivity |].
  cbn [Enterprise.damage Enterprise.set_damage].
  match goal with
  | |- (forall s, ?m !! s = _) /\ _ =>
      assert (Hall : forall s, m !! s = Some 0%float)
  end.
  { intros s.
    destruct s; repeat first [rewrite lookup_insert_eq; reflexivity
                           | rewrite lookup_insert_ne by discriminate]. }
  split; [exact Hall |].
  split.
  - intros s. unfold Enterprise.is_system_damaged.
    cbn [Enterprise.damage Enterprise.set_damage]. rewrite (Hall s). reflexivity.
  - destruct e; reflexivity.
Qed.

(** X1: [repair_all] returns with every system at 0.0, so that no system
    is damaged any more, whatever the damage map held before (entries
    missing included); nothing but the damage map changes, and a second
    [repair_all] changes nothing at all. *)
Theorem repair_all_makes_every_system_operational (e : Enterprise.t) :
  exists e',
    Enterprise.repair_all e = Ret tt e' /\
    (forall s, Enterprise.damage e' !! s = Some 0%float) /\
    (forall s, Enterprise.is_system_damaged e' s = false) /\
    Enterprise.set_damage (Enterprise.damage e) e' = e /\
    Enterprise.repair_all e' = Ret tt e'.
Proof.
  destruct (repair_all_run e) as (e' & Hrun & Hzero & Hfixed & Hrest).
  exists e'. repeat split; try assumption.
  destruct (repair_all_run e') as (e'' & Hrun' & Hzero' & _ & Hrest').
  rewrite Hrun'. f_equal.
  rewrite <- Hrest'. rewrite <- (set_damage_same e'') at 1. f_equal.
  apply map_eq. intros s. rewrite Hzero, Hzero'. reflexivity.
Qed.

Lemma concat_singletons {A} (b : A -> bool) (l : list A) :
  concat (map (fun s => if b s then [s] else []) l) = filter (fun s => b s = true) l.
Proof.
  induction l as [| x l IH]; [reflexivity |].
  cbn [map concat]. rewrite filter_cons, IH.
  destruct (b x); [| destruct (decide (false = true)); [discriminate | reflexivity]].
  destruct (decide (true = true)); [reflexivity | contradiction].
Qed.

(** [repair_systems] is the loop of [repair_one]. *)
Lemma repair_systems_unfold (t : float) (e : Enterprise.t) :
  Enterprise.repair_systems t e =
  (rs <- map_m (repair_one (repair_rate e) t) all_systems ;; ret (concat rs)) e.
Proof. reflexivity. Qed.

(** One step of the loop on a system that has an entry. *)
Lemma repair_one_run (rate t : float) (s : ShipSystem) (e : Enterprise.t) (d : float) :
  Enterprise.damage e !! s = Some d ->
  repair_one rate t s e =
    Ret (if is_repaired rate t d then [s] else [])
        (Enterprise.set_damage (<[s := repaired_value rate t d]> (Enterprise.damage e)) e).
Proof.
  intros Hd. unfold repair_one, bind at 1, get. unfold bind at 1. rewrite Hd.
  cbn [expect ret]. unfold is_repaired, repaired_value.
  destruct (d <? 0)%float.
  - cbn [andb]. cbv zeta.
    destruct (0 <=? d + rate * t)%float.
    + unfold bind, modify, ret. cbn [Enterprise.damage Enterprise.set_damage].
      rewrite insert_insert_eq. reflexivity.
    + unfold bind, modify, ret. reflexivity.
  - cbn [andb]. unfold ret. rewrite insert_id by exact Hd.
    rewrite set_damage_same. reflexivity.
Qed.

(** The loop of [repair_systems] over the systems [l], each of which has
    an entry: the entries of [l] are repaired one by one, the others are
    left alone. *)
Lemma repair_loop (rate t : float) (l : list ShipSystem) :
  NoDup l ->
  forall e,
    (forall s, s ∈ l -> is_Some (Enterprise.damage e !! s)) ->
    exists e',
      map_m (repair_one rate t) l e =
      Ret (map (fun s =>
             if is_repaired rate t (default 0%float (Enterprise.damage e !! s))
             then [s] else []) l) e' /\
      (forall s, Enterprise.damage e' !! s =
                 if decide (s ∈ l)
                 then repaired_value rate t <$> Enterprise.damage e !! s
                 else Enterprise.damage e !! s) /\
      Enterprise.set_damage (Enterprise.damage e) e' = e.
Proof.
  induction 1 as [| x l Hx Hl IH]; intros e Hin.
  - exists e. split; [reflexivity |]. split; [| apply set_damage_same].
    intros s. destruct (decide (s ∈ [])) as [Hs | _]; [set_solver | reflexivity].
  - destruct (Hin x ltac:(set_solver)) as [d Hd].
    set (e1 := Enterprise.set_damage
                 (<[x := repaired_value rate t d]> (Enterprise.damage e)) e).
    assert (Hother : forall s, s ≠ x ->
              Enterprise.damage e1 !! s = Enterprise.damage e !! s).
    { intros s Hs. unfold e1. cbn [Enterprise.damage Enterprise.set_damage].
      apply lookup_insert_ne. congruence. }
    destruct (IH e1) as (e' & Hrun & Hmap & Hrest).
    { intros s Hs. rewrite Hother by (intros ->; contradiction). apply Hin. set_solver. }
    exists e'. split; [| split].
    + subst e1. cbn [map_m map]. unfold bind at 1. rewrite (repair_one_run _ _ _ _ _ Hd).
      unfold bind at 1. rewrite Hrun. unfold ret. rewrite Hd. cbn [default].
      f_equal. f_equal.
      apply map_ext_in. intros s Hs. rewrite Hother; [reflexivity |].
      intros ->. apply Hx. apply list_elem_of_In. exact Hs.
    + intros s. rewrite Hmap.
      destruct (decide (s = x)) as [-> | Hne].
      * destruct (decide (x ∈ l)) as [Hxl | _]; [contradiction |].
        destruct (decide (x ∈ x :: l)) as [_ | Hn]; [| set_solver].
        unfold e1. cbn [Enterprise.damage Enterprise.set_damage].
        rewrite lookup_insert_eq, Hd. reflexivity.
      * rewrite Hother by exact Hne.
        destruct (decide (s ∈ l)) as [Hsl | Hsl];
          destruct (decide (s ∈ x :: l)) as [Hsxl | Hsxl]; try reflexivity; set_solver.
    + rewrite <- (set_damage_idem (Enterprise.damage e) (Enterprise.damage e1) e'), Hrest.
      subst e1. rewrite set_damage_idem. apply set_damage_same.
Qed.

(** X2: on a ship whose damage map has an entry for every system,
    [repair_systems(t)] returns; each damaged system (value below 0) gains
    [rate * t], with rate 1.0 when docked and 0.1 otherwise, and is set to 0
    once the sum reaches 0; systems that are not damaged are left alone;
    the list returned holds, in the order of the enumeration, exactly the
    systems brought back to 0; nothing but the damage map changes. *)
Theorem repair_systems_pointwise (t : float) (e : Enterprise.t) :
  damage_map_complete e ->
  exists e',
    Enterprise.repair_systems t e =
      Ret (repaired_systems (repair_rate e) t (Enterprise.damage e) all_systems) e' /\
    Enterprise.damage e' = repaired_value (repair_rate e) t <$> Enterprise.damage e /\
    Enterprise.set_damage (Enterprise.damage e) e' = e.
Proof.
  intros Hc.
  destruct (repair_loop (repair_rate e) t all_systems all_systems_NoDup e)
    as (e' & Hrun & Hmap & Hrest).
  { intros s _. apply Hc. }
  exists e'. split; [| split; [| exact Hrest]].
  - rewrite repair_systems_unfold. unfold bind. rewrite Hrun. unfold ret, repaired_systems.
    rewrite concat_singletons. reflexivity.
  - apply map_eq. intros s. rewrite Hmap, lookup_fmap.
    destruct (decide (s ∈ all_systems)) as [_ | Hn]; [reflexivity |].
    destruct Hn. apply all_systems_complete.
Qed.

Lemma repair_systems_pointwise_witness :
  exists e',
    Enterprise.repair_systems 1.0%float (Enterprise.set_docked true damaged_ship) =
      Ret [PHASER_CONTROL] e' /\
    Enterprise.damage e' !! WARP_ENGINES = Some (-1.5)%float /\
    Enterprise.damage e' !! PHASER_CONTROL = Some 0%float.
Proof.
  destruct (repair_systems_pointwise 1.0%float (Enterprise.set_docked true damaged_ship))
    as (e' & Hrun & Hmap & _).
  { intros []; vm_compute; eauto. }
  exists e'. split; [exact Hrun |]. rewrite Hmap. split; vm_compute; reflexivity.
Defined.

(** The loop stops with [KeyError] at the first system without an entry. *)
Lemma repair_loop_missing (rate t : float) (s : ShipSystem) (l : list ShipSystem) :
  s ∈ l ->
  forall e, Enterprise.damage e !! s = None ->
    raises (map_m (repair_one rate t) l) e (fun x _ => x = KeyError).
Proof.
  induction l as [| x l IH]; intros Hs e Hnone; [set_solver |].
  cbn [map_m].
  destruct (Enterprise.damage e !! x) as [d |] eqn:Hd.
  - assert (Hne : s <> x) by congruence.
    apply raises_bind_r. eapply returns_intro; [apply (repair_one_run _ _ _ _ _ Hd) |].
    apply raises_bind_l. apply IH; [set_solver |].
    cbn [Enterprise.damage Enterprise.set_damage].
    rewrite lookup_insert_ne by congruence. exact Hnone.
  - apply raises_bind_l. unfold repair_one.
    apply raises_bind_r, returns_get. apply raises_bind_l.
    rewrite Hd. apply raises_raise. reflexivity.
Qed.

(** X3: where the damage map lacks the entry of a system ([Enterprise]
    built with a partial dictionary), [repair_systems] raises [KeyError],
    although [is_system_damaged] reads the missing entry as an operational
    system. *)
Theorem repair_systems_missing_entry (t : float) (e : Enterprise.t) (s : ShipSystem) :
  Enterprise.damage e !! s = None ->
  Enterprise.is_system_damaged e s = false /\
  exists e', Enterprise.repair_systems t e = Raise KeyError e'.
Proof.
  intros Hs. split.
  - unfold Enterprise.is_system_damaged. rewrite Hs. reflexivity.
  - destruct (repair_loop_missing (repair_rate e) t s all_systems
                (all_systems_complete s) e Hs) as (x & e' & Hrun & ->).
    exists e'. rewrite repair_systems_unfold. unfold bind. rewrite Hrun. reflexivity.
Qed.

Lemma repair_systems_missing_entry_witness :
  Enterprise.damage partial_ship !! PHASER_CONTROL = None /\
  Enterprise.is_system_damaged partial_ship PHASER_CONTROL = false /\
  exists e', Enterprise.repair_systems 1.0%float partial_ship = Raise KeyError e'.
Proof.
  assert (Hs : Enterprise.damage partial_ship !! PHASER_CONTROL = None) by reflexivity.
  split; [exact Hs |].
  exact (repair_systems_missing_entry 1.0%float partial_ship PHASER_CONTROL Hs).
Defined.

(** * game/commands.py: what the commands leave as it is *)

Section EnsuresMore.
Context {S : Type}.

(** When every outcome of the continuation is fine, the first computation
    does not matter. *)
Lemma ensures_bind_any {A B} (m : M S A) (k : A -> M S B) (s : S)
    (Q : B -> S -> Prop) (E : PyExn -> S -> Prop) :
  (forall a s', ensures (k a) s' Q E) -> (forall e s', E e s') ->
  ensures (bind m k) s Q E.
Proof.
  intros Hk HE. unfold ensures, bind. destruct (m s) as [a s' | e s' |]; [| apply HE | exact I].
  apply Hk.
Qed.

Lemma ensures_lift_exn_any {A} (r : PyExn + A) (s : S) (Q : A -> S -> Prop) E :
  (forall a, Q a s) -> (forall e, E e s) -> ensures (lift_exn r) s Q E.
Proof. intros HQ HE. destruct r; [apply HE | apply HQ]. Qed.

Lemma ensures_repeat_times (Inv : S -> Prop) (n : nat) (body : M S unit) E :
  (forall s, Inv s -> ensures body s (fun _ s' => Inv s') E) ->
  forall s, Inv s -> ensures (repeat_times n body) s (fun _ s' => Inv s') E.
Proof.
  intros Hbody. induction n as [| n IH]; intros s Hs; cbn [repeat_times].
  - exact Hs.
  - apply ensures_bind. eapply ensures_weaken; [apply Hbody; exact Hs | | auto].
    intros u s' Hs'. apply IH. exact Hs'.
Qed.

Lemma ensures_for_each {A} (Inv : S -> Prop) (l : list A) (body : A -> M S unit) E :
  (forall x s, x ∈ l -> Inv s -> ensures (body x) s (fun _ s' => Inv s') E) ->
  forall s, Inv s -> ensures (for_each l body) s (fun _ s' => Inv s') E.
Proof.
  induction l as [| x l IH]; intros Hbody s Hs; cbn [for_each].
  - exact Hs.
  - apply ensures_bind. eapply ensures_weaken; [apply Hbody; [set_solver | exact Hs] | | auto].
    intros u s' Hs'. apply IH; [| exact Hs'].
    intros y s0 Hy. apply Hbody. set_solver.
Qed.
End EnsuresMore.

Section Finishes.
Context {S : Type}.

Lemma finishes_ret {A} (a : A) : finishes (@ret S A a).
Proof. intros s. discriminate. Qed.

Lemma finishes_raise {A} (e : PyExn) : finishes (@raise S A e).
Proof. intros s. discriminate. Qed.

Lemma finishes_get : finishes (@get S).
Proof. intros s. discriminate. Qed.

Lemma finishes_gets {A} (f : S -> A) : finishes (gets f).
Proof. intros s. discriminate. Qed.

Lemma finishes_modify (f : S -> S) : finishes (modify f).
Proof. intros s. discriminate. Qed.

Lemma finishes_expect {A} (e : PyExn) (o : option A) : finishes (@expect S A e o).
Proof. intros s. destruct o; discriminate. Qed.

Lemma finishes_lift_exn {A} (r : PyExn + A) : finishes (@lift_exn S A r).
Proof. intros s. destruct r; discriminate. Qed.

Lemma finishes_bind {A B} (m : M S A) (k : A -> M S B) :
  finishes m -> (forall a, finishes (k a)) -> finishes (bind m k).
Proof.
  intros Hm Hk s. unfold bind. specialize (Hm s).
  destruct (m s) as [a s' | e s' |]; [apply Hk | discriminate | contradiction].
Qed.

Lemma finishes_zoom {T A} (l : Lens S T) (m : M T A) : finishes m -> finishes (zoom l m).
Proof.
  intros Hm s. unfold zoom. specialize (Hm (view l s)).
  destruct (m (view l s)); [discriminate | discriminate | contradiction].
Qed.

Lemma finishes_map_m {A B} (f : A -> M S B) (l : list A) :
  (forall x, finishes (f x)) -> finishes (map_m f l).
Proof.
  intros Hf. induction l as [| x l IH]; cbn [map_m]; [apply finishes_ret |].
  apply finishes_bind; [apply Hf |]. intros y.
  apply finishes_bind; [exact IH |]. intros ys. apply finishes_ret.
Qed.

Lemma finishes_for_each {A} (l : list A) (body : A -> M S unit) :
  (forall x, finishes (body x)) -> finishes (for_each l body).
Proof.
  intros Hb. induction l as [| x l IH]; cbn [for_each]; [apply finishes_ret |].
  apply finishes_bind; [apply Hb | intros _; exact IH].
Qed.

Lemma finishes_fold_m {A B} (f : B -> A -> M S B) (l : list A) (b : B) :
  (forall b x, finishes (f b x)) -> finishes (fold_m f l b).
Proof.
  intros Hf. revert b. induction l as [| x l IH]; intros b; cbn [fold_m]; [apply finishes_ret |].
  apply finishes_bind; [apply Hf | intros b'; apply IH].
Qed.

Lemma finishes_repeat_times (n : nat) (body : M S unit) :
  finishes body -> finishes (repeat_times n body).
Proof.
  intros Hb. induction n as [| n IH]; cbn [repeat_times]; [apply finishes_ret |].
  apply finishes_bind; [exact Hb | intros _; exact IH].
Qed.
End Finishes.

Ltac finishes_step :=
  lazymatch goal with
  | |- finishes (bind _ _) => apply finishes_bind; [| intros ?]
  | |- finishes (ret _) => apply finishes_ret
  | |- finishes (raise _) => apply finishes_raise
  | |- finishes get => apply finishes_get
  | |- finishes (gets _) => apply finishes_gets
  | |- finishes (modify _) => apply finishes_modify
  | |- finishes (expect _ _) => apply finishes_expect
  | |- finishes (lift_exn _) => apply finishes_lift_exn
  | |- finishes (zoom _ _) => apply finishes_zoom
  | |- finishes (map_m _ _) => apply finishes_map_m; intros ?
  | |- finishes (for_each _ _) => apply finishes_for_each; intros ?
  | |- finishes (fold_m _ _ _) => apply finishes_fold_m; intros ? ?
  | |- finishes (repeat_times _ _) => apply finishes_repeat_times
  | |- finishes (if ?c then _ else _) => destruct c
  | |- finishes (match ?x with _ => _ end) => destruct x
  end.

(** Storing back the quadrant that was taken changes nothing. *)
Lemma store_back_same (w : World) (r c : Z) (q : Quadrant.t) :
  quadrant_at (galaxy w) r c = Some q -> store_back r c (w, Some q) = w.
Proof.
  intros Hq. unfold store_back. cbn [fst snd update the_galaxy].
  rewrite (store_quadrant_same _ _ _ _ Hq). destruct w; reflexivity.
Qed.

(** A computation on a quadrant of the galaxy: what has to be shown of it. *)
Lemma ensures_with_quadrant {A} (ref : option (Z * Z)) (m : M (World * Quadrant.t) A)
    (w : World) (Q : A -> World -> Prop) (E : PyExn -> World -> Prop) :
  (forall e, E e w) ->
  (forall r c q, ref = Some (r, c) -> quadrant_at (galaxy w) r c = Some q ->
     ensures m (w, q)
       (fun a s => Q a (store_back r c (fst s, Some (snd s))))
       (fun e s => E e (store_back r c (fst s, Some (snd s))))) ->
  ensures (with_quadrant ref m) w Q E.
Proof.
  intros HE Hm. unfold ensures, with_quadrant.
  destruct ref as [[r c] |]; [| apply HE].
  destruct (py_index2 (Galaxy.quadrants (galaxy w)) r c) as [q |] eqn:Hq; [| apply HE].
  specialize (Hm r c q eq_refl Hq). unfold ensures in Hm.
  destruct (m (w, q)); exact Hm.
Qed.

Lemma ensures_with_quadrant_object {A} (ref : option (Z * Z))
    (m : M (World * option Quadrant.t) A)
    (w : World) (Q : A -> World -> Prop) (E : PyExn -> World -> Prop) :
  (forall e, E e w) ->
  (ref = None ->
     ensures m (w, None) (fun a s => Q a (fst s)) (fun e s => E e (fst s))) ->
  (forall r c q, ref = Some (r, c) -> quadrant_at (galaxy w) r c = Some q ->
     ensures m (w, Some q)
       (fun a s => Q a (store_back r c s)) (fun e s => E e (store_back r c s))) ->
  ensures (with_quadrant_object ref m) w Q E.
Proof.
  intros HE Hnone Hm. unfold ensures, with_quadrant_object.
  destruct ref as [[r c] |].
  - destruct (py_index2 (Galaxy.quadrants (galaxy w)) r c) as [q |] eqn:Hq; [| apply HE].
    specialize (Hm r c q eq_refl Hq). unfold ensures in Hm.
    destruct (m (w, Some q)); exact Hm.
  - specialize (Hnone eq_refl). unfold ensures in Hnone.
    destruct (m (w, None)); exact Hnone.
Qed.

(** Reading the referenced quadrant leaves the world as it is. *)
Lemma ensures_with_quadrant_gets {A} (ref : option (Z * Z)) (f : World * Quadrant.t -> A)
    (w : World) (Q : A -> World -> Prop) (E : PyExn -> World -> Prop) :
  (forall e, E e w) ->
  (forall r c q, ref = Some (r, c) -> quadrant_at (galaxy w) r c = Some q -> Q (f (w, q)) w) ->
  ensures (with_quadrant ref (gets f)) w Q E.
Proof.
  intros HE HQ. apply ensures_with_quadrant; [exact HE |].
  intros r c q Href Hq. unfold ensures, gets. cbn [fst snd].
  rewrite (store_back_same _ _ _ _ Hq). exact (HQ r c q Href Hq).
Qed.

(** The reference to the current quadrant: the ship's quadrant
    coordinates when they are inside the galaxy, [None] otherwise. *)
Lemma ensures_get_current_quadrant (w : World)
    (Q : option (Z * Z) -> World -> Prop) (E : PyExn -> World -> Prop) :
  (forall e, E e w) ->
  (Galaxy.in_bounds (Enterprise.quadrant_row (enterprise w))
                    (Enterprise.quadrant_col (enterprise w)) = false -> Q None w) ->
  (Galaxy.in_bounds (Enterprise.quadrant_row (enterprise w))
                    (Enterprise.quadrant_col (enterprise w)) = true ->
   Q (Some (Enterprise.quadrant_row (enterprise w), Enterprise.quadrant_col (enterprise w))) w) ->
  ensures get_current_quadrant w Q E.
Proof.
  intros HE Hout Hin. unfold get_current_quadrant.
  apply ensures_bind, ensures_gets, ensures_zoom. unfold Galaxy.get_quadrant.
  cbn [view update the_galaxy].
  destruct (Galaxy.in_bounds _ _) eqn:Hb.
  - apply ensures_bind, ensures_get, ensures_bind, ensures_expect.
    + intros q _. apply ensures_ret. destruct w; apply Hin. reflexivity.
    + intros _. destruct w; apply HE.
  - apply ensures_ret. destruct w; apply Hout. reflexivity.
Qed.


(** * game/commands.py: reports and refusals *)

Lemma get_quadrant_world_unchanged (r c : Z) :
  preserves (fun w : World => w) (zoom the_galaxy (Galaxy.get_quadrant r c)).
Proof.
  intros [g e rn]. unfold ensures, zoom, Galaxy.get_quadrant, bind, get, expect, ret, raise.
  cbn [view update the_galaxy galaxy enterprise rng].
  destruct (Galaxy.in_bounds r c); [| reflexivity].
  destruct (py_index2 (Galaxy.quadrants g) r c); reflexivity.
Qed.

Lemma get_current_quadrant_unchanged : preserves (fun w : World => w) get_current_quadrant.
Proof.
  unfold get_current_quadrant. frame_step; [frame_step |].
  apply get_quadrant_world_unchanged.
Qed.

Lemma with_quadrant_gets_unchanged {A} (ref : option (Z * Z)) (f : World * Quadrant.t -> A) :
  preserves (fun w : World => w) (with_quadrant ref (gets f)).
Proof. intros w. apply ensures_with_quadrant_gets; reflexivity. Qed.

Lemma execute_com_unchanged (func_in : option Z) (coords : option (Z * Z * Z * Z)) :
  preserves (fun w : World => w) (execute_com func_in coords).
Proof.
  unfold execute_com.
  repeat first
    [ apply get_quadrant_world_unchanged
    | apply get_current_quadrant_unchanged
    | apply with_quadrant_gets_unchanged
    | frame_step ].
Qed.

Lemma get_quadrant_finishes (r c : Z) : finishes (zoom the_galaxy (Galaxy.get_quadrant r c)).
Proof.
  apply finishes_zoom. unfold Galaxy.get_quadrant.
  destruct (Galaxy.in_bounds r c); repeat finishes_step.
Qed.

Lemma get_current_quadrant_finishes : finishes get_current_quadrant.
Proof.
  unfold get_current_quadrant. finishes_step; [finishes_step | apply get_quadrant_finishes].
Qed.

Lemma with_quadrant_finishes {A} (ref : option (Z * Z)) (m : M (World * Quadrant.t) A) :
  finishes m -> finishes (with_quadrant ref m).
Proof.
  intros Hm w. unfold with_quadrant.
  destruct ref as [[r c] |]; [| discriminate].
  destruct (py_index2 _ r c) as [q |]; [| discriminate].
  specialize (Hm (w, q)). destruct (m (w, q)); [discriminate | discriminate | contradiction].
Qed.

(** The COM command has no loop that could go on for ever. *)
Lemma execute_com_finishes (func_in : option Z) (coords : option (Z * Z * Z * Z)) :
  finishes (execute_com func_in coords).
Proof.
  unfold execute_com.
  repeat first
    [ apply get_quadrant_finishes
    | apply get_current_quadrant_finishes
    | apply with_quadrant_finishes
    | finishes_step ].
Qed.

(** X5: the COM command only reports: whatever function is asked for and
    whatever the answers, the outcome, a result or an exception, comes with
    the galaxy, the ship and the random stream exactly as before. *)
Theorem execute_com_changes_nothing (func_in : option Z) (coords : option (Z * Z * Z * Z))
    (w : World) :
  match execute_com func_in coords w with
  | Ret _ w' => w' = w
  | Raise _ w' => w' = w
  | OutOfFuel => False
  end.
Proof.
  pose proof (execute_com_unchanged func_in coords w) as H. unfold ensures in H.
  destruct (execute_com func_in coords w) as [res w' | e w' |] eqn:Hrun; try exact H.
  revert Hrun. apply execute_com_finishes.
Qed.

(** Steps whose outcome does not matter for the property at hand. *)
Ltac any_step :=
  lazymatch goal with
  | |- ensures (bind _ _) _ _ _ => apply ensures_bind_any; [intros ? ? | intros; exact Logic.I]
  | |- ensures (ret _) _ _ _ => apply ensures_ret
  | |- ensures (if ?c then _ else _) _ _ _ => destruct c
  | |- ensures (match ?x with _ => _ end) _ _ _ => destruct x
  end.

(** Every outcome of a torpedo that was launched is a success. *)
Lemma torpedo_travel_success (steps : nat) (dr dc row col : float)
    (s : Enterprise.t * option Quadrant.t) :
  ensures (torpedo_travel steps dr dc row col) s
    (fun res _ => combat_success res = true) (fun _ _ => True).
Proof.
  revert row col s. induction steps as [| steps IH]; intros row col s; cbn [torpedo_travel].
  - reflexivity.
  - repeat first [apply IH | any_step]; reflexivity.
Qed.

(** A refused torpedo leaves the ship and the quadrant as they were. *)
Lemma fire_torpedo_refusal (direction : float) (s : Enterprise.t * option Quadrant.t) :
  ensures (fire_torpedo direction) s
    (fun res s' => combat_success res = false -> s' = s /\ klingons_destroyed res = 0)
    (fun _ _ => True).
Proof.
  unfold fire_torpedo. apply ensures_bind, ensures_gets.
  destruct (negb _); [apply ensures_ret; auto |].
  destruct (Z.leb_spec (Enterprise.torpedoes (fst s)) 0) as [Hnone | Hsome];
    [apply ensures_ret; auto |].
  destruct (_ || _); [apply ensures_ret; auto |].
  apply ensures_bind, ensures_zoom.
  unfold Enterprise.fire_torpedo. apply ensures_bind, ensures_get.
  cbn [view fst_lens].
  destruct (Z.ltb_spec 0 (Enterprise.torpedoes (fst s))); [| lia].
  apply ensures_bind, ensures_modify, ensures_ret. cbn [negb].
  any_step. any_step.
  eapply ensures_weaken; [apply torpedo_travel_success | | auto].
  cbn beta. intros res st Hs Hf. congruence.
Qed.

(** The overheat check of [fire_phasers] never reports an overheat: where
    the roll succeeds, the key expression raises. *)
Lemma overheat_check_returns_false (energy_amount : Z) (s : Combat.St) :
  ensures
    (if 1500 <? energy_amount then
       overheat_chance <- lift_exn (py_truediv (energy_amount - 1500) 1500) ;;
       x <- zoom Combat.random random_random ;;
       if (x <? overheat_chance)%float then
         v <- zoom Combat.random (random_uniform 1.0 3.0) ;;
         key <- dict_class_PHASER_CONTROL ;;
         zoom Combat.ship (modify (fun e =>
           Enterprise.set_damage (<[key := (- v)%float]> (Enterprise.damage e)) e)) ;;;
         ret true
       else ret false
     else ret false) s
    (fun b _ => b = false) (fun _ _ => True).
Proof.
  destruct (1500 <? energy_amount); [| reflexivity].
  any_step. any_step. any_step; [| reflexivity].
  any_step. apply ensures_bind. exact Logic.I.
Qed.

(** Refused phasers leave the ship, the quadrant and the random stream as
    they were. *)
Lemma fire_phasers_refusal (energy_amount : Z) (s : Combat.St) :
  ensures (fire_phasers energy_amount) s
    (fun res s' => combat_success res = false -> s' = s /\ klingons_destroyed res = 0)
    (fun _ _ => True).
Proof.
  unfold fire_phasers. apply ensures_bind, ensures_get.
  destruct (negb _); [apply ensures_ret; auto |].
  destruct (energy_amount <=? 0); [apply ensures_ret; auto |].
  destruct (_ <? energy_amount); [apply ensures_ret; auto |].
  destruct (Quadrant.klingon_ships (view Combat.quad s)) as [| k ks] eqn:Hships;
    [apply ensures_ret; auto |].
  any_step. apply ensures_bind.
  eapply ensures_weaken; [apply overheat_check_returns_false | | auto].
  cbn beta. intros b s1 ->.
  repeat any_step. cbn. discriminate.
Qed.

(** X6: a command that reports a failure has not changed the game: after
    SRS, LRS, PHA, TOR, SHE, DAM, COM or XXX, and after a NAV refused for
    any reason but the galactic barrier, a result with [success = False]
    comes with the galaxy, the ship and the random stream exactly as they
    were before the command. *)
Theorem refused_command_changes_nothing (fuel : nat) (c : Command) (w : World) :
  ensures (execute_command fuel c) w
    (fun result w' =>
       success result = false -> message result <> MsgGalacticBarrier -> w' = w)
    (fun _ _ => True).
Proof.
  destruct c as [course warp | | | energy | direction | energy | yes | func coords | yes];
    cbn [execute_command].
  - unfold execute_nav. apply ensures_bind, ensures_gets.
    destruct (negb _); [apply ensures_ret; auto |].
    destruct course as [course |]; [| apply ensures_ret; auto].
    destruct (_ || _); [apply ensures_ret; auto |].
    destruct warp as [warp |]; [| apply ensures_ret; auto].
    destruct (_ || _); [apply ensures_ret; auto |].
    destruct (warp =? 0)%float; [apply ensures_ret; auto |].
    apply ensures_bind, ensures_lift_exn; [| auto].
    intros sectors _.
    destruct (_ <? _); [apply ensures_ret; auto |].
    do 5 any_step.
    destruct (nav_walk _ _ _ _).
    + unfold nav_arrive. repeat any_step. cbn. discriminate.
    + repeat any_step. cbn. congruence.
  - unfold execute_srs. apply ensures_bind, ensures_gets.
    destruct (negb _); apply ensures_ret; auto.
  - unfold execute_lrs. apply ensures_bind, ensures_gets.
    destruct (negb _); [apply ensures_ret; auto |].
    repeat any_step. cbn. discriminate.
  - unfold execute_pha. apply ensures_bind, ensures_gets.
    destruct (negb _); [apply ensures_ret; auto |].
    apply ensures_bind.
    eapply ensures_weaken; [apply get_current_quadrant_unchanged | | auto].
    cbn beta. intros ref w0 ->.
    apply ensures_bind, ensures_with_quadrant_gets; [auto |].
    intros r c q -> Hq. cbn [snd].
    destruct (Quadrant.klingon_ships q) as [| k ks] eqn:Hships; [apply ensures_ret; auto |].
    destruct energy as [energy |]; [| apply ensures_ret; auto].
    destruct (energy <=? 0); [apply ensures_ret; auto |].
    apply ensures_bind, ensures_with_quadrant; [auto |].
    intros r' c' q' [= <- <-] Hq'. assert (q' = q) as -> by congruence.
    apply ensures_zoom.
    eapply ensures_weaken; [apply fire_phasers_refusal | | auto].
    cbn beta. intros res st Hres.
    destruct (combat_success res) eqn:Hok.
    + repeat any_step. cbn. congruence.
    + destruct (Hres eq_refl) as [-> Hzero]. rewrite Hzero.
      cbn [view update combat_state fst snd Z.ltb Z.compare].
      replace (MkWorld (galaxy w) (enterprise w) (rng w)) with w by (destruct w; reflexivity).
      rewrite (store_back_same _ _ _ _ Hq).
      apply ensures_bind, ensures_ret.
      apply ensures_bind, ensures_with_quadrant_gets; [auto |].
      intros r' c' q' _ _. apply ensures_ret. auto.
  - unfold execute_tor. apply ensures_bind, ensures_gets.
    destruct (negb _); [apply ensures_ret; auto |].
    destruct (_ <=? 0); [apply ensures_ret; auto |].
    destruct direction as [direction |]; [| apply ensures_ret; auto].
    destruct (_ || _); [apply ensures_ret; auto |].
    apply ensures_bind.
    eapply ensures_weaken; [apply get_current_quadrant_unchanged | | auto].
    cbn beta. intros ref w0 ->.
    apply ensures_bind, ensures_with_quadrant_object; [auto | |].
    + intros ->. apply ensures_zoom.
      eapply ensures_weaken; [apply fire_torpedo_refusal | | auto].
      cbn beta. intros res st Hres.
      destruct (combat_success res) eqn:Hok.
      * repeat any_step. cbn. congruence.
      * destruct (Hres eq_refl) as [-> Hzero]. rewrite Hzero.
        cbn [view update ship_quadrant fst snd Z.ltb Z.compare the_ship].
        replace (MkWorld (galaxy w) (enterprise w) (rng w)) with w by (destruct w; reflexivity).
        apply ensures_bind, ensures_ret.
        apply ensures_bind, ensures_with_quadrant_gets; [auto |].
        intros r' c' q' Hd. discriminate Hd.
    + intros r c q -> Hq. apply ensures_zoom.
      eapply ensures_weaken; [apply fire_torpedo_refusal | | auto].
      cbn beta. intros res st Hres.
      destruct (combat_success res) eqn:Hok.
      * repeat any_step. cbn. congruence.
      * destruct (Hres eq_refl) as [-> Hzero]. rewrite Hzero.
        cbn [view update ship_quadrant fst snd Z.ltb Z.compare the_ship].
        replace (MkWorld (galaxy w) (enterprise w) (rng w)) with w by (destruct w; reflexivity).
        rewrite (store_back_same _ _ _ _ Hq).
        apply ensures_bind, ensures_ret.
        apply ensures_bind, ensures_with_quadrant_gets; [auto |].
        intros r' c' q' _ _. apply ensures_ret. auto.
  - unfold execute_she. apply ensures_bind, ensures_gets.
    destruct (negb _); [apply ensures_ret; auto |].
    destruct energy as [energy |]; [| apply ensures_ret; auto].
    destruct (energy =? 0); [apply ensures_ret; auto |].
    destruct (_ && _); [apply ensures_ret; auto |].
    destruct (_ && _); [apply ensures_ret; auto |].
    repeat any_step. cbn. discriminate.
  - unfold execute_dam. repeat any_step. cbn. discriminate.
  - pose proof (execute_com_unchanged func coords w) as H.
    eapply ensures_weaken; [exact H | | auto]. cbn beta. auto.
  - unfold execute_xxx. destruct yes; apply ensures_ret; cbn; discriminate.
Qed.

(** * game/commands.py: the damage report *)



(** * game/combat.py: photon torpedoes *)

Lemma ensures_on_object {S T A} (m : M T A) (x : S) (q : T)
    (Q : A -> S * option T -> Prop) (E : PyExn -> S * option T -> Prop) :
  ensures m q (fun a q' => Q a (x, Some q')) (fun e q' => E e (x, Some q')) ->
  ensures (on_object m) (x, Some q) Q E.
Proof. unfold ensures, on_object. cbn [fst snd]. destruct (m q); auto. Qed.

(** [get_entity_at] only reads; an entity other than [EMPTY] is what the
    addressed cell holds. *)
Lemma get_entity_at_outcome (r c : Z) (q : Quadrant.t) :
  ensures (Quadrant.get_entity_at r c) q
    (fun e q' => q' = q /\ (e <> EMPTY -> py_index2 (Quadrant.sector_map q) r c = Some e))
    (fun _ q' => q' = q).
Proof.
  unfold Quadrant.get_entity_at, Quadrant.cell. apply ensures_bind, ensures_get.
  destruct (Quadrant.sector_map q) as [| row rows];
    [apply ensures_ret; split; [reflexivity | congruence] |].
  destruct (Quadrant.in_sector_bounds r c);
    [| apply ensures_ret; split; [reflexivity | congruence]].
  apply ensures_expect; [| reflexivity].
  intros e He. split; [reflexivity | intros _; exact He].
Qed.

(** Removing the Klingon of a cell that holds one. *)
Lemma remove_klingon_run (q : Quadrant.t) (r c : Z) :
  py_index2 (Quadrant.sector_map q) r c = Some KLINGON ->
  exists m,
    py_setitem2 (Quadrant.sector_map q) r c EMPTY = Some m /\
    Quadrant.remove_klingon r c q =
      Ret true
        (Quadrant.set_klingons (Quadrant.klingons q - 1)
           (Quadrant.set_klingon_ships (ships_elsewhere r c (Quadrant.klingon_ships q))
              (Quadrant.set_sector_map m q))).
Proof.
  intros Hcell.
  destruct (py_setitem2_is_Some (Quadrant.sector_map q) r c EMPTY) as [m Hm];
    [rewrite Hcell; eauto |].
  exists m. split; [exact Hm |].
  unfold Quadrant.remove_klingon, Quadrant.cell, Quadrant.set_cell, bind, get, expect, modify, ret.
  rewrite Hcell. destruct (decide (KLINGON = KLINGON)); [| congruence].
  rewrite Hm. reflexivity.
Qed.

(** The flight of a torpedo through a quadrant: it ends at the first
    Klingon, star or starbase, or outside; only a Klingon hit changes the
    hostile count, by one. *)
Lemma torpedo_travel_outcome (steps : nat) (dr dc row col : float)
    (e : Enterprise.t) (q : Quadrant.t) :
  ensures (torpedo_travel steps dr dc row col) (e, Some q)
    (fun res s' =>
       fst s' = e /\
       exists q', snd s' = Some q' /\
         Quadrant.klingons q' = Quadrant.klingons q - klingons_destroyed res /\
         0 <= klingons_destroyed res <= 1 /\
         combat_success res = true /\
         combat_message res <> MsgFailedToFire)
    (fun _ s' => s' = (e, Some q)).
Proof.
  revert row col. induction steps as [| steps IH]; intros row col; cbn [torpedo_travel].
  - apply ensures_ret. cbn. split; [reflexivity |]. exists q. repeat split; (lia || discriminate).
  - apply ensures_bind, ensures_lift_exn; [intros r _ | reflexivity].
    apply ensures_bind, ensures_lift_exn; [intros c _ | reflexivity].
    destruct (_ || _);
      [apply ensures_ret; cbn; split; [reflexivity |]; exists q; repeat split; (lia || discriminate) |].
    apply ensures_bind, ensures_on_object.
    eapply ensures_weaken; [apply get_entity_at_outcome | |]; cbn beta;
      [| intros x q' ->; reflexivity].
    intros entity q' [-> Hcell].
    destruct entity; try apply IH.
    + destruct (remove_klingon_run q r c (Hcell ltac:(discriminate))) as (m & Hm & Hrun).
      apply ensures_bind, ensures_on_object. unfold ensures at 1. rewrite Hrun.
      apply ensures_ret. cbn. split; [reflexivity |]. eexists. split; [reflexivity |].
      cbn. repeat split; (lia || discriminate).
    + apply ensures_bind, ensures_on_object, ensures_modify.
      apply ensures_bind, ensures_on_object, ensures_modify.
      apply ensures_bind, ensures_on_object.
      unfold Quadrant.set_cell. apply ensures_bind, ensures_get.
      cbn [Quadrant.sector_map Quadrant.set_starbase_pos Quadrant.set_starbases].
      destruct (py_setitem2_is_Some (Quadrant.sector_map q) r c EMPTY) as [m Hm];
        [rewrite (Hcell ltac:(discriminate)); eauto |].
      rewrite Hm. apply ensures_bind, ensures_ret, ensures_modify.
      apply ensures_ret. cbn. split; [reflexivity |]. eexists. split; [reflexivity |].
      cbn. repeat split; (lia || discriminate).
    + apply ensures_ret. cbn. split; [reflexivity |]. exists q. repeat split; (lia || discriminate).
Qed.

(** Without a quadrant object the torpedo destroys nothing. *)
Lemma torpedo_travel_no_quadrant (steps : nat) (dr dc row col : float) (e : Enterprise.t) :
  ensures (torpedo_travel steps dr dc row col) (e, None)
    (fun res _ => klingons_destroyed res = 0) (fun _ _ => True).
Proof.
  revert row col. induction steps as [| steps IH]; intros row col; cbn [torpedo_travel].
  - reflexivity.
  - apply ensures_bind, ensures_lift_exn; [intros r _ | intros; exact Logic.I].
    apply ensures_bind, ensures_lift_exn; [intros c _ | intros; exact Logic.I].
    destruct (_ || _); [reflexivity |].
    apply ensures_bind. exact Logic.I.
Qed.

(** What [fire_torpedo] does to the ship and to the quadrant it is given. *)
Lemma fire_torpedo_outcome (direction : float) (e : Enterprise.t) (q : Quadrant.t) :
  ensures (fire_torpedo direction) (e, Some q)
    (fun res s' =>
       fst s' = (if combat_success res
                 then Enterprise.set_torpedoes (Enterprise.torpedoes e - 1) e else e) /\
       exists q', snd s' = Some q' /\
         Quadrant.klingons q' = Quadrant.klingons q - klingons_destroyed res /\
         0 <= klingons_destroyed res <= 1 /\
         (combat_success res = false -> q' = q) /\
         combat_message res <> MsgFailedToFire)
    (fun _ s' => s' = (Enterprise.set_torpedoes (Enterprise.torpedoes e - 1) e, Some q)).
Proof.
  unfold fire_torpedo. apply ensures_bind, ensures_gets. cbn [fst].
  destruct (negb _);
    [apply ensures_ret; cbn; split; [reflexivity |]; exists q; repeat split; (lia || discriminate) |].
  destruct (Z.leb_spec (Enterprise.torpedoes e) 0) as [Hnone | Hsome];
    [apply ensures_ret; cbn; split; [reflexivity |]; exists q; repeat split; (lia || discriminate) |].
  destruct (_ || _);
    [apply ensures_ret; cbn; split; [reflexivity |]; exists q; repeat split; (lia || discriminate) |].
  apply ensures_bind, ensures_zoom.
  unfold Enterprise.fire_torpedo. apply ensures_bind, ensures_get. cbn [view fst_lens fst].
  destruct (Z.ltb_spec 0 (Enterprise.torpedoes e)); [| lia].
  apply ensures_bind, ensures_modify, ensures_ret. cbn [negb update fst_lens fst snd].
  apply ensures_bind, ensures_lift_exn; [intros v _ | reflexivity].
  apply ensures_bind, ensures_gets. cbn [fst].
  eapply ensures_weaken; [apply torpedo_travel_outcome | |]; cbn beta; [| auto].
  intros res s' (Hship & q' & Hq' & Hk & Hn & Hok & Hmsg). rewrite Hok.
  split; [exact Hship |]. exists q'. repeat split; try assumption; try lia; congruence.
Qed.

(** * The TOR command and the hostile counters *)

Lemma finishes_on_object {S T A} (m : M T A) :
  finishes m -> finishes (@on_object S T A m).
Proof.
  intros Hm [x [q |]]; unfold on_object; cbn [fst snd]; [| discriminate].
  specialize (Hm q). destruct (m q); [discriminate | discriminate | contradiction].
Qed.

Lemma set_cell_finishes (r c : Z) (e : EntityType) : finishes (Quadrant.set_cell r c e).
Proof. unfold Quadrant.set_cell. repeat finishes_step. Qed.

Lemma get_entity_at_finishes (r c : Z) : finishes (Quadrant.get_entity_at r c).
Proof. unfold Quadrant.get_entity_at, Quadrant.cell. repeat finishes_step. Qed.

Lemma remove_klingon_finishes (r c : Z) : finishes (Quadrant.remove_klingon r c).
Proof.
  unfold Quadrant.remove_klingon, Quadrant.cell.
  repeat first [apply set_cell_finishes | finishes_step].
Qed.

Lemma torpedo_travel_finishes (steps : nat) (dr dc row col : float) :
  finishes (torpedo_travel steps dr dc row col).
Proof.
  revert row col. induction steps as [| steps IH]; intros row col; cbn [torpedo_travel].
  - finishes_step.
  - repeat first
      [ apply IH
      | apply finishes_on_object;
        first [apply get_entity_at_finishes | apply remove_klingon_finishes
              | apply set_cell_finishes | finishes_step]
      | finishes_step ].
Qed.

Lemma fire_torpedo_finishes (direction : float) : finishes (fire_torpedo direction).
Proof.
  unfold fire_torpedo, Enterprise.fire_torpedo.
  repeat first [apply torpedo_travel_finishes | finishes_step].
Qed.

(** X8: [fire_torpedo] on a quadrant always ends.  A refusal (tubes
    damaged, no torpedo left, direction outside 1-9) changes nothing;
    otherwise exactly one torpedo is used, whatever the torpedo meets, also
    when an exception ends the flight.  At most one hostile is destroyed,
    and the hostile count of the quadrant goes down by exactly the number
    reported; the result is never [Failed to fire torpedo!]. *)
Theorem fire_torpedo_accounting (direction : float) (e : Enterprise.t) (q : Quadrant.t) :
  match fire_torpedo direction (e, Some q) with
  | Ret res (e', Some q') =>
      Quadrant.klingons q' = Quadrant.klingons q - klingons_destroyed res /\
      0 <= klingons_destroyed res <= 1 /\
      combat_message res <> MsgFailedToFire /\
      (if combat_success res
       then e' = Enterprise.set_torpedoes (Enterprise.torpedoes e - 1) e
       else e' = e /\ q' = q)
  | Ret _ (_, None) => False
  | Raise _ s' => s' = (Enterprise.set_torpedoes (Enterprise.torpedoes e - 1) e, Some q)
  | OutOfFuel => False
  end.
Proof.
  pose proof (fire_torpedo_outcome direction e q) as H.
  pose proof (fire_torpedo_finishes direction (e, Some q)) as Hfin.
  unfold ensures in H.
  destruct (fire_torpedo direction (e, Some q)) as [res [e' oq] | x s' |];
    [| exact H | contradiction].
  cbn [fst snd] in H. destruct H as (He' & q' & -> & Hk & Hn & Hsame & Hmsg).
  repeat split; try assumption; try lia.
  destruct (combat_success res); [exact He' | split; [exact He' | auto]].
Qed.

Lemma klingon_balance_store (w : World) (r c : Z) (q q' : Quadrant.t) (e : Enterprise.t) (rn : Rng) :
  quadrant_at (galaxy w) r c = Some q ->
  klingon_balance (store_back r c (MkWorld (galaxy w) e rn, Some q')) =
  klingon_balance w + (Quadrant.klingons q - Quadrant.klingons q').
Proof.
  intros Hq. unfold klingon_balance, store_back.
  cbn [fst snd update the_galaxy galaxy enterprise rng].
  rewrite (store_quadrant_sum _ _ _ _ _ _ Hq).
  rewrite (proj1 (store_quadrant_totals _ _ _ _)). lia.
Qed.

Lemma klingon_destroyed_balance (n : nat) (w : World) :
  ensures (repeat_times n (zoom the_galaxy Galaxy.klingon_destroyed)) w
    (fun _ w' => klingon_balance w' = klingon_balance w - Z.of_nat n
                 /\ galaxy_sum Quadrant.klingons (galaxy w') = galaxy_sum Quadrant.klingons (galaxy w))
    (fun _ _ => False).
Proof.
  revert w. induction n as [| n IH]; intros w; cbn [repeat_times].
  - apply ensures_ret. split; [lia | reflexivity].
  - apply ensures_bind, ensures_zoom. unfold Galaxy.klingon_destroyed. apply ensures_modify.
    eapply ensures_weaken; [apply IH | | auto]. cbn beta.
    intros _ w' [Hb Hs]. rewrite Hs, Hb. unfold klingon_balance.
    cbn [view update the_galaxy galaxy Galaxy.total_klingons Galaxy.set_total_klingons].
    unfold galaxy_sum. cbn [Galaxy.quadrants Galaxy.set_total_klingons]. split; [lia | reflexivity].
Qed.

(** What the TOR command does to the balance of the hostile counters. *)
Lemma execute_tor_balance (direction_in : option float) :
  preserves klingon_balance (execute_tor direction_in).
Proof.
  intros w. unfold execute_tor. apply ensures_bind, ensures_gets.
  destruct (negb _); [apply ensures_ret; reflexivity |].
  destruct (_ <=? 0); [apply ensures_ret; reflexivity |].
  destruct direction_in as [direction |]; [| apply ensures_ret; reflexivity].
  destruct (_ || _); [apply ensures_ret; reflexivity |].
  apply ensures_bind.
  eapply ensures_weaken; [apply get_current_quadrant_unchanged | |]; cbn beta;
    [| intros x w0 ->; reflexivity].
  intros ref w0 ->.
  apply ensures_bind.
  apply (ensures_weaken _ _
           (fun res w1 => klingon_balance w1 = klingon_balance w + klingons_destroyed res /\
                          0 <= klingons_destroyed res <= 1)
           _ (fun _ w1 => klingon_balance w1 = klingon_balance w)); [| | auto].
  - apply ensures_with_quadrant_object; [reflexivity | |].
    + intros ->. apply ensures_zoom.
      unfold fire_torpedo. apply ensures_bind, ensures_gets.
      cbn [view ship_quadrant fst snd].
      destruct (negb _); [apply ensures_ret; cbn; split; [destruct w; unfold klingon_balance; cbn; lia | lia] |].
      destruct (_ <=? 0); [apply ensures_ret; cbn; split; [destruct w; unfold klingon_balance; cbn; lia | lia] |].
      destruct (_ || _); [apply ensures_ret; cbn; split; [destruct w; unfold klingon_balance; cbn; lia | lia] |].
      apply ensures_bind, ensures_zoom.
      unfold Enterprise.fire_torpedo. apply ensures_bind, ensures_get.
      destruct (_ <? _).
      * apply ensures_bind, ensures_modify, ensures_ret. cbn [negb].
        apply ensures_bind, ensures_lift_exn; [intros v _ | intros; reflexivity].
        apply ensures_bind, ensures_gets.
        eapply ensures_weaken; [apply torpedo_travel_no_quadrant | |]; cbn beta.
        -- intros res s' ->. split; [unfold klingon_balance; cbn; lia | lia].
        -- intros x s' _. reflexivity.
      * apply ensures_ret. cbn [negb]. apply ensures_ret. cbn.
        split; [destruct w; unfold klingon_balance; cbn; lia | lia].
    + intros r c q -> Hq. apply ensures_zoom.
      eapply ensures_weaken; [apply fire_torpedo_outcome | |]; cbn beta.
      * intros res s' (He' & q' & Hq' & Hk & Hn & _ & _).
        destruct s' as [e' oq]. cbn [fst snd] in *. subst oq.
        cbn [update ship_quadrant fst snd the_ship].
        split; [| exact Hn].
        rewrite (klingon_balance_store w r c q q' _ _ Hq). lia.
      * intros x s' ->. cbn [update ship_quadrant fst snd the_ship].
        rewrite (klingon_balance_store w r c q q _ _ Hq). lia.
  - cbn beta. intros res w1 [Hb Hn].
    apply ensures_bind.
    apply (ensures_weaken _ _ (fun _ w2 => klingon_balance w2 = klingon_balance w)
             _ (fun _ w2 => klingon_balance w2 = klingon_balance w)); [| | auto].
    + destruct (Z.ltb_spec 0 (klingons_destroyed res)).
      * eapply ensures_weaken; [apply klingon_destroyed_balance | |]; cbn beta.
        -- intros _ w2 [Hb2 _]. rewrite Hb2, Hb. lia.
        -- intros x w2 [].
      * apply ensures_ret. lia.
    + cbn beta. intros _ w2 Hb2.
      apply ensures_bind, ensures_with_quadrant_gets; [intros; exact Hb2 |].
      intros r c q _ _. apply ensures_ret. exact Hb2.
Qed.

Lemma with_quadrant_object_finishes {A} (ref : option (Z * Z))
    (m : M (World * option Quadrant.t) A) :
  finishes m -> finishes (with_quadrant_object ref m).
Proof.
  intros Hm w. unfold with_quadrant_object.
  destruct ref as [[r c] |].
  - destruct (py_index2 _ r c) as [q |]; [| discriminate].
    specialize (Hm (w, Some q)).
    destruct (m (w, Some q)); [discriminate | discriminate | contradiction].
  - specialize (Hm (w, None)).
    destruct (m (w, None)); [discriminate | discriminate | contradiction].
Qed.

Lemma execute_tor_finishes (direction_in : option float) : finishes (execute_tor direction_in).
Proof.
  unfold execute_tor, Galaxy.klingon_destroyed.
  repeat first
    [ apply get_current_quadrant_finishes
    | apply with_quadrant_finishes
    | apply with_quadrant_object_finishes
    | apply fire_torpedo_finishes
    | finishes_step ].
Qed.

(** X9: the TOR command always ends, and whatever the torpedo does (a
    refusal, a miss, a hit, an exception), the galaxy-wide hostile counter
    stays in step with the quadrants: [total_klingons] minus the sum of the
    hostile counts of the 64 quadrants is the same after as before. *)
Theorem execute_tor_keeps_hostile_counters_in_step (direction_in : option float) (w : World) :
  match execute_tor direction_in w with
  | Ret _ w' => klingon_balance w' = klingon_balance w
  | Raise _ w' => klingon_balance w' = klingon_balance w
  | OutOfFuel => False
  end.
Proof.
  pose proof (execute_tor_balance direction_in w) as H.
  pose proof (execute_tor_finishes direction_in w) as Hfin.
  unfold ensures in H.
  destruct (execute_tor direction_in w); [exact H | exact H | contradiction].
Qed.

(** * game/galaxy.py: the loss of a starbase *)

Lemma mix_galaxy_generated :
  Galaxy._initialize 100 (blank_galaxy, mix_rng) =
  Ret tt (mix_galaxy, MkRng mix_stream mix_galaxy_cursor).
Proof. vm_compute. reflexivity. Qed.

Lemma mix_galaxy_consistent : counters_consistent mix_galaxy.
Proof.
  exact (proj1 (ensures_run _ _ _ _ _ _
                  (initialize_ensures 100 blank_galaxy mix_rng) mix_galaxy_generated)).
Qed.

(** X10: [starbase_destroyed(row, col)] on a quadrant of a galaxy whose
    counters agree with its quadrants returns and keeps them in agreement:
    where the quadrant has a starbase, its count and the galaxy-wide
    counter both go down by one; where it has none, nothing changes.  The
    hostile counter is not touched. *)
Theorem starbase_destroyed_keeps_counters (g : Galaxy.t) (r c : Z) (q : Quadrant.t) :
  counters_consistent g ->
  Galaxy.in_bounds r c = true ->
  quadrant_at g r c = Some q ->
  exists g',
    Galaxy.starbase_destroyed r c g = Ret tt g' /\
    counters_consistent g' /\
    Galaxy.total_klingons g' = Galaxy.total_klingons g /\
    (if 0 <? Quadrant.starbases q
     then Galaxy.total_starbases g' = Galaxy.total_starbases g - 1 /\
          quadrant_at g' r c = Some (Quadrant.set_starbases (Quadrant.starbases q - 1) q)
     else g' = g).
Proof.
  intros Hcons Hb Hq.
  assert (Hrun : returns (Galaxy.starbase_destroyed r c) g (fun _ g' =>
    counters_consistent g' /\
    Galaxy.total_klingons g' = Galaxy.total_klingons g /\
    (if 0 <? Quadrant.starbases q
     then Galaxy.total_starbases g' = Galaxy.total_starbases g - 1 /\
          quadrant_at g' r c = Some (Quadrant.set_starbases (Quadrant.starbases q - 1) q)
     else g' = g))).
  { unfold Galaxy.starbase_destroyed.
    apply returns_bind. eapply returns_on_quadrant_gets; [exact Hq |].
    destruct (Z.ltb_spec 0 (Quadrant.starbases q)) as [Hpos | Hnone].
    - apply returns_bind. eapply returns_on_quadrant_modify; [exact Hq |].
      apply returns_modify.
      split; [| split; [| split]].
      + apply (counters_consistent_store g _ r c q
                 (Quadrant.set_starbases (Quadrant.starbases q - 1) q) Hb Hcons Hq).
        * cbn. lia.
        * reflexivity.
        * cbn. rewrite (proj1 (store_quadrant_totals _ _ _ _)). lia.
        * cbn. rewrite (proj2 (store_quadrant_totals _ _ _ _)). lia.
      + cbn. apply (proj1 (store_quadrant_totals _ _ _ _)).
      + cbn. rewrite (proj2 (store_quadrant_totals _ _ _ _)). reflexivity.
      + unfold quadrant_at. cbn [Galaxy.quadrants Galaxy.set_total_starbases].
        apply quadrant_at_store_eq. rewrite Hq. eauto.
    - apply returns_ret. auto. }
  destruct Hrun as ([] & g' & Hg' & Hpost). exists g'. split; [exact Hg' | exact Hpost].
Qed.

Lemma starbase_destroyed_keeps_counters_witness :
  exists g',
    Galaxy.starbase_destroyed 1 6 mix_galaxy = Ret tt g' /\
    counters_consistent g' /\
    Galaxy.total_starbases g' = Galaxy.total_starbases mix_galaxy - 1.
Proof.
  assert (Hq : quadrant_at mix_galaxy 1 6 = Some mix_starbase_quadrant)
    by (vm_compute; reflexivity).
  destruct (starbase_destroyed_keeps_counters mix_galaxy 1 6 _
              mix_galaxy_consistent eq_refl Hq) as (g' & Hrun & Hcons & _ & Hpost).
  exists g'. split; [exact Hrun |]. split; [exact Hcons |]. exact (proj1 Hpost).
Defined.

(** * game/galaxy.py: the sector map and its records *)

(** In a grid of 8 rows of 8, every position in range has a cell. *)
Lemma grid_lookup_in_range {A} (g : list (list A)) (r c : Z) :
  map length g = replicate 8 8%nat -> 0 <= r < 8 -> 0 <= c < 8 ->
  is_Some (py_index2 g r c).
Proof.
  intros Hshape Hr Hc.
  assert (Hlen : length g = 8%nat).
  { rewrite <- (length_map length g), Hshape. reflexivity. }
  unfold py_index2. rewrite py_index_pos, py_pos_nonneg by lia. cbn.
  destruct (lookup_lt_is_Some_2 g (Z.to_nat r)) as [row Hrow]; [lia |].
  rewrite Hrow.
  assert (Hrowlen : length row = 8%nat).
  { assert (Hl : map length g !! Z.to_nat r = Some (length row))
      by (rewrite list_lookup_fmap, Hrow; reflexivity).
    rewrite Hshape in Hl. apply lookup_replicate in Hl. exact (proj1 Hl). }
  rewrite py_index_pos, py_pos_nonneg by lia. cbn.
  apply lookup_lt_is_Some_2. lia.
Qed.

Lemma cell_of_in_range (m : list (list EntityType)) (p : Z * Z) :
  map_8x8 m -> in_sector p -> is_Some (cell_of m p).
Proof. intros Hm [Hr Hc]. apply grid_lookup_in_range; assumption. Qed.

Lemma randint_0_7_run (rng : Rng) :
  random_randint 0 7 rng = Ret (draws rng (cursor rng) mod 8) (skip 1 rng).
Proof. reflexivity. Qed.

Lemma skip_skip (n k : nat) (rng : Rng) : skip n (skip k rng) = skip (n + k) rng.
Proof. unfold skip. cbn. f_equal. lia. Qed.

Lemma probe_skip (rng : Rng) (j : nat) : probe (skip 2 rng) j = probe rng (S j).
Proof.
  unfold probe, skip. cbn [draws cursor].
  replace (2 * j + (2 + cursor rng))%nat with (2 * S j + cursor rng)%nat by lia.
  reflexivity.
Qed.

Lemma probe_in_sector (rng : Rng) (k : nat) : in_sector (probe rng k).
Proof.
  unfold in_sector, probe. cbn [fst snd].
  split; apply Z.mod_pos_bound; lia.
Qed.

(** One look of the search. *)
Lemma find_empty_sector_step (fuel : nat) (q : Quadrant.t) (rng : Rng) (e : EntityType) :
  cell_of (Quadrant.sector_map q) (probe rng 0) = Some e ->
  Quadrant._find_empty_sector (S fuel) (q, rng) =
    if decide (e = EMPTY) then Ret (probe rng 0) (q, skip 2 rng)
    else Quadrant._find_empty_sector fuel (q, skip 2 rng).
Proof.
  intros Hcell. cbn [Quadrant._find_empty_sector].
  unfold bind at 1, zoom at 1. cbn [view Quadrant.random snd_lens snd].
  rewrite randint_0_7_run. cbn [update Quadrant.random snd_lens fst snd].
  unfold bind at 1, zoom at 1. cbn [view Quadrant.random snd_lens snd].
  rewrite randint_0_7_run. cbn [update Quadrant.random snd_lens fst snd].
  unfold bind at 1, gets. cbn [fst].
  unfold bind at 1, Quadrant.cell.
  unfold cell_of, probe in Hcell. cbn [fst snd] in Hcell.
  rewrite Nat.add_0_l in Hcell. cbn [skip cursor draws Nat.add].
  rewrite Hcell. cbn [expect ret].
  rewrite skip_skip. cbn [Nat.add].
  destruct (decide (e = EMPTY)); reflexivity.
Qed.

(** The search returns the first sector of its looks that is empty. *)
Lemma find_empty_sector_probes (fuel : nat) (q : Quadrant.t) (rng : Rng) :
  map_8x8 (Quadrant.sector_map q) ->
  match Quadrant._find_empty_sector fuel (q, rng) with
  | Ret p (q', rng') =>
      q' = q /\
      exists k, (k < fuel)%nat /\ p = probe rng k /\ rng' = skip (2 * k + 2) rng /\
                cell_of (Quadrant.sector_map q) p = Some EMPTY /\
                forall j, (j < k)%nat -> cell_of (Quadrant.sector_map q) (probe rng j) <> Some EMPTY
  | Raise _ _ => False
  | OutOfFuel =>
      forall j, (j < fuel)%nat -> cell_of (Quadrant.sector_map q) (probe rng j) <> Some EMPTY
  end.
Proof.
  intros Hmap. revert rng. induction fuel as [| fuel IH]; intros rng.
  - cbn. intros j Hj. lia.
  - destruct (cell_of_in_range _ (probe rng 0) Hmap (probe_in_sector rng 0)) as [e He].
    rewrite (find_empty_sector_step fuel q rng e He).
    destruct (decide (e = EMPTY)) as [-> | Hne].
    + split; [reflexivity |]. exists 0%nat.
      repeat split; try assumption; lia.
    + specialize (IH (skip 2 rng)).
      destruct (Quadrant._find_empty_sector fuel (q, skip 2 rng)) as [p [q' rng'] | x s' |].
      * destruct IH as (-> & k & Hk & -> & -> & Hcell & Hbefore).
        split; [reflexivity |]. exists (S k).
        rewrite probe_skip, skip_skip in *.
        repeat split; try assumption; try lia.
        -- f_equal. lia.
        -- intros [| j] Hj; [rewrite He; congruence |].
           rewrite <- probe_skip. apply Hbefore. lia.
      * exact IH.
      * intros [| j] Hj; [rewrite He; congruence |].
        rewrite <- probe_skip. apply IH. lia.
Qed.

(** X11: on a quadrant with an 8x8 sector map, the search for an empty
    sector looks at one random sector after the other, two draws each, and
    returns the first one whose cell is [EMPTY]; it leaves the quadrant as
    it is and never raises, and it goes on exactly as long as the sectors
    it looks at are occupied.  On a quadrant without a sector map the
    first look raises [IndexError]. *)
Theorem find_empty_sector_first_empty (fuel : nat) (q : Quadrant.t) (rng : Rng) :
  (map_8x8 (Quadrant.sector_map q) ->
   match Quadrant._find_empty_sector fuel (q, rng) with
   | Ret p (q', rng') =>
       q' = q /\ in_sector p /\
       exists k, (k < fuel)%nat /\ p = probe rng k /\ rng' = skip (2 * k + 2) rng /\
                 cell_of (Quadrant.sector_map q) p = Some EMPTY /\
                 forall j, (j < k)%nat -> cell_of (Quadrant.sector_map q) (probe rng j) <> Some EMPTY
   | Raise _ _ => False
   | OutOfFuel =>
       forall j, (j < fuel)%nat -> cell_of (Quadrant.sector_map q) (probe rng j) <> Some EMPTY
   end) /\
  (Quadrant.sector_map q = [] ->
   Quadrant._find_empty_sector (S fuel) (q, rng) = Raise IndexError (q, skip 2 rng)).
Proof.
  split.
  - intros Hmap. pose proof (find_empty_sector_probes fuel q rng Hmap) as H.
    destruct (Quadrant._find_empty_sector fuel (q, rng)) as [p [q' rng'] | x s' |];
      try exact H.
    destruct H as (-> & k & Hk & -> & Hrest). split; [reflexivity |].
    split; [apply probe_in_sector |]. exists k. auto.
  - intros Hnil. cbn [Quadrant._find_empty_sector].
    unfold bind at 1, zoom at 1. cbn [view Quadrant.random snd_lens snd].
    rewrite randint_0_7_run. cbn [update Quadrant.random snd_lens fst snd].
    unfold bind at 1, zoom at 1. cbn [view Quadrant.random snd_lens snd].
    rewrite randint_0_7_run. cbn [update Quadrant.random snd_lens fst snd].
    unfold bind at 1, gets. cbn [fst].
    unfold bind at 1, Quadrant.cell. rewrite Hnil.
    unfold py_index2. rewrite py_index_nil. cbn [expect raise].
    rewrite skip_skip. reflexivity.
Qed.

(** * Building the sector map *)

Section CountedLoop.
Context {S : Type}.

(** A loop of [n] iterations, with an invariant that counts them. *)
Lemma ensures_repeat_times_count (Inv : nat -> S -> Prop) (n : nat) (body : M S unit) E :
  (forall i s, (i < n)%nat -> Inv i s -> ensures body s (fun _ s' => Inv (Datatypes.S i) s') E) ->
  forall s, Inv 0%nat s -> ensures (repeat_times n body) s (fun _ s' => Inv n s') E.
Proof.
  intros Hbody.
  assert (Hgen : forall k i s, (i + k = n)%nat -> Inv i s ->
            ensures (repeat_times k body) s (fun _ s' => Inv n s') E).
  { induction k as [| k IH]; intros i s Hik Hs; cbn [repeat_times].
    - replace n with i by lia. exact Hs.
    - apply ensures_bind. eapply ensures_weaken; [apply (Hbody i); [lia | exact Hs] | | auto].
      intros u s' Hs'. apply (IH (Datatypes.S i)); [lia | exact Hs']. }
  intros s Hs. apply (Hgen n 0%nat); [lia | exact Hs].
Qed.
End CountedLoop.

(** Writing a cell of an 8x8 map: the new map differs at that cell only. *)
Lemma set_cell_run (q : Quadrant.t) (p : Z * Z) (e : EntityType) :
  map_8x8 (Quadrant.sector_map q) -> in_sector p ->
  exists m,
    Quadrant.set_cell (fst p) (snd p) e q = Ret tt (Quadrant.set_sector_map m q) /\
    py_setitem2 (Quadrant.sector_map q) (fst p) (snd p) e = Some m /\
    map_8x8 m /\ cell_of m p = Some e /\
    (forall p', in_sector p' -> p' <> p -> cell_of m p' = cell_of (Quadrant.sector_map q) p').
Proof.
  intros Hmap Hp.
  destruct (py_setitem2_is_Some (Quadrant.sector_map q) (fst p) (snd p) e) as [m Hm];
    [apply (cell_of_in_range _ p Hmap Hp) |].
  exists m. split; [| split; [exact Hm | split; [| split]]].
  - unfold Quadrant.set_cell, bind, get, expect, modify, ret. rewrite Hm. reflexivity.
  - unfold map_8x8 in *. rewrite (py_setitem2_shape _ _ _ _ _ Hm). exact Hmap.
  - exact (py_index2_setitem2_eq _ _ _ _ _ Hm).
  - intros p' Hp' Hne. unfold cell_of.
    destruct Hp as [Hr Hc], Hp' as [Hr' Hc'].
    apply (py_index2_setitem2_ne (Quadrant.sector_map q) (fst p) (snd p) (fst p') (snd p') e m);
      try lia; [| exact Hm].
    destruct p, p'; cbn; congruence.
Qed.

(** The records of one kind after an entity has been put on an empty
    sector. *)
Lemma records_after_place (m m' : list (list EntityType)) (p : Z * Z) (placed kind : EntityType)
    (ps : list (Z * Z)) :
  records_match m kind ps ->
  in_sector p -> cell_of m p = Some EMPTY -> cell_of m' p = Some placed ->
  (forall p', in_sector p' -> p' <> p -> cell_of m' p' = cell_of m p') ->
  kind <> EMPTY ->
  records_match m' kind (if decide (kind = placed) then ps ++ [p] else ps).
Proof.
  intros (Hnd & Hin & Hall) Hp Hold Hnew Hrest Hkind.
  assert (Hfresh : p ∉ ps).
  { intros Hmem. destruct (Hin p Hmem) as [_ Hc]. congruence. }
  destruct (decide (kind = placed)) as [-> | Hne].
  - split; [| split].
    + apply NoDup_app. split; [exact Hnd |]. split; [| apply NoDup_singleton].
      intros x Hx Hx'. apply list_elem_of_singleton in Hx'. subst x. contradiction.
    + intros x Hx. apply elem_of_app in Hx. destruct Hx as [Hx | Hx].
      * destruct (Hin x Hx) as [Hxs Hxc]. split; [exact Hxs |].
        rewrite Hrest; [exact Hxc | exact Hxs | intros ->; contradiction].
      * apply list_elem_of_singleton in Hx. subst x. auto.
    + intros x Hxs Hxc. apply elem_of_app.
      destruct (decide (x = p)) as [-> | Hxp]; [right; apply list_elem_of_singleton; reflexivity |].
      left. apply Hall; [exact Hxs |]. rewrite <- Hrest; assumption.
  - split; [exact Hnd | split].
    + intros x Hx. destruct (Hin x Hx) as [Hxs Hxc]. split; [exact Hxs |].
      rewrite Hrest; [exact Hxc | exact Hxs | intros ->; contradiction].
    + intros x Hxs Hxc.
      destruct (decide (x = p)) as [-> | Hxp]; [congruence |].
      apply Hall; [exact Hxs |]. rewrite <- Hrest; assumption.
Qed.

(** An empty 8x8 map has no record to match. *)
Lemma empty_map_cell (p : Z * Z) :
  in_sector p -> cell_of (replicate 8 (replicate 8 EMPTY)) p = Some EMPTY.
Proof.
  intros [Hr Hc]. unfold cell_of, py_index2.
  rewrite py_index_pos, py_pos_nonneg by (rewrite length_replicate; lia). cbn [mbind option_bind].
  rewrite lookup_replicate_2 by lia.
  rewrite py_index_pos, py_pos_nonneg by (rewrite length_replicate; lia). cbn [mbind option_bind].
  apply lookup_replicate_2. lia.
Qed.

Lemma empty_map_records (kind : EntityType) :
  kind <> EMPTY -> records_match (replicate 8 (replicate 8 EMPTY)) kind [].
Proof.
  intros Hkind. split; [apply NoDup_nil_2 | split].
  - intros p Hp. apply elem_of_nil in Hp. contradiction.
  - intros p Hp Hc. rewrite (empty_map_cell p Hp) in Hc. congruence.
Qed.

(** The search on a map of 8x8, for what follows it. *)
Lemma find_empty_sector_ensures (fuel : nat) (q : Quadrant.t) (rng : Rng)
    (Q : Z * Z -> Quadrant.t * Rng -> Prop) :
  map_8x8 (Quadrant.sector_map q) ->
  (forall p rng', in_sector p -> cell_of (Quadrant.sector_map q) p = Some EMPTY -> Q p (q, rng')) ->
  ensures (Quadrant._find_empty_sector fuel) (q, rng) Q (fun _ _ => False).
Proof.
  intros Hmap HQ. pose proof (find_empty_sector_probes fuel q rng Hmap) as H.
  unfold ensures.
  destruct (Quadrant._find_empty_sector fuel (q, rng)) as [p [q' rng'] | x s' |];
    [| exact H | exact Logic.I].
  destruct H as (-> & k & _ & -> & _ & Hcell & _).
  apply HQ; [apply probe_in_sector | exact Hcell].
Qed.

Ltac place_records Hrec Hp Hcell Hnew Hrest :=
  let H := fresh "H" in
  pose proof (records_after_place _ _ _ _ _ _ Hrec Hp Hcell Hnew Hrest ltac:(discriminate)) as H;
  match type of H with
  | context [decide (?a = ?b)] => destruct (decide (a = b)); [try discriminate | try contradiction]
  end;
  exact H.

Lemma building_place_klingon (q0 q : Quadrant.t) (nk ns : nat) (rng rng' : Rng)
    (p : Z * Z) (m : list (list EntityType)) (k : Klingon.t) :
  building q0 nk ns (q, rng) ->
  in_sector p -> cell_of (Quadrant.sector_map q) p = Some EMPTY ->
  map_8x8 m -> cell_of m p = Some KLINGON ->
  (forall p', in_sector p' -> p' <> p -> cell_of m p' = cell_of (Quadrant.sector_map q) p') ->
  ship_pos k = p -> 300 <= Klingon.energy k <= 599 ->
  building q0 (S nk) ns
    (Quadrant.set_klingon_ships (Quadrant.klingon_ships q ++ [k]) (Quadrant.set_sector_map m q),
     rng').
Proof.
  intros (Hmap & Hk & Hb & Hs & He & Hnk & Hns & Hen & Hsame) Hp Hcell Hm Hnew Hrest Hpos Hk_en.
  cbn [fst] in *. unfold building. cbn [fst].
  cbn [Quadrant.sector_map Quadrant.klingon_ships Quadrant.star_positions
       Quadrant.set_klingon_ships Quadrant.set_sector_map].
  split; [exact Hm |].
  split; [rewrite fmap_app; cbn [fmap list_fmap]; rewrite Hpos;
          place_records Hk Hp Hcell Hnew Hrest |].
  split; [change (starbase_list (Quadrant.set_klingon_ships _ (Quadrant.set_sector_map m q)))
            with (starbase_list q); place_records Hb Hp Hcell Hnew Hrest |].
  split; [place_records Hs Hp Hcell Hnew Hrest |].
  split; [place_records He Hp Hcell Hnew Hrest |].
  split; [rewrite length_app; cbn; lia |].
  split; [exact Hns |].
  split; [apply Forall_app; split; [exact Hen | repeat constructor; lia] |].
  exact Hsame.
Qed.

Lemma building_place_star (q0 q : Quadrant.t) (nk ns : nat) (rng rng' : Rng)
    (p : Z * Z) (m : list (list EntityType)) :
  building q0 nk ns (q, rng) ->
  in_sector p -> cell_of (Quadrant.sector_map q) p = Some EMPTY ->
  map_8x8 m -> cell_of m p = Some STAR ->
  (forall p', in_sector p' -> p' <> p -> cell_of m p' = cell_of (Quadrant.sector_map q) p') ->
  building q0 nk (S ns)
    (Quadrant.set_star_positions (Quadrant.star_positions q ++ [p]) (Quadrant.set_sector_map m q),
     rng').
Proof.
  intros (Hmap & Hk & Hb & Hs & He & Hnk & Hns & Hen & Hsame) Hp Hcell Hm Hnew Hrest.
  cbn [fst] in *. unfold building. cbn [fst].
  cbn [Quadrant.sector_map Quadrant.klingon_ships Quadrant.star_positions
       Quadrant.set_star_positions Quadrant.set_sector_map].
  split; [exact Hm |].
  split; [place_records Hk Hp Hcell Hnew Hrest |].
  split; [change (starbase_list (Quadrant.set_star_positions _ (Quadrant.set_sector_map m q)))
            with (starbase_list q); place_records Hb Hp Hcell Hnew Hrest |].
  split; [place_records Hs Hp Hcell Hnew Hrest |].
  split; [place_records He Hp Hcell Hnew Hrest |].
  split; [exact Hnk |].
  split; [rewrite length_app; cbn; lia |].
  split; [exact Hen | exact Hsame].
Qed.

Lemma building_place_starbase (q0 q : Quadrant.t) (nk ns : nat) (rng rng' : Rng)
    (p : Z * Z) (m : list (list EntityType)) :
  building q0 nk ns (q, rng) -> Quadrant.starbase_pos q = None ->
  in_sector p -> cell_of (Quadrant.sector_map q) p = Some EMPTY ->
  map_8x8 m -> cell_of m p = Some STARBASE ->
  (forall p', in_sector p' -> p' <> p -> cell_of m p' = cell_of (Quadrant.sector_map q) p') ->
  building q0 nk ns
    (Quadrant.set_starbase_pos (Some p) (Quadrant.set_sector_map m q), rng').
Proof.
  intros (Hmap & Hk & Hb & Hs & He & Hnk & Hns & Hen & Hsame) Hnone Hp Hcell Hm Hnew Hrest.
  cbn [fst] in *. unfold building. cbn [fst].
  cbn [Quadrant.sector_map Quadrant.klingon_ships Quadrant.star_positions
       Quadrant.set_starbase_pos Quadrant.set_sector_map].
  unfold starbase_list in Hb. rewrite Hnone in Hb.
  split; [exact Hm |].
  split; [place_records Hk Hp Hcell Hnew Hrest |].
  split; [change (starbase_list (Quadrant.set_starbase_pos (Some p) (Quadrant.set_sector_map m q)))
            with ([] ++ [p]); place_records Hb Hp Hcell Hnew Hrest |].
  split; [place_records Hs Hp Hcell Hnew Hrest |].
  split; [place_records He Hp Hcell Hnew Hrest |].
  split; [exact Hnk |].
  split; [exact Hns |].
  split; [exact Hen | exact Hsame].
Qed.

(** * [initialize_sector_map] builds a map that agrees with the records *)

Lemma initialize_sector_map_builds (fuel : nat) (q : Quadrant.t) (rng : Rng) :
  ensures (Quadrant.initialize_sector_map fuel) (q, rng)
    (fun _ s' =>
       building q (Z.to_nat (Quadrant.klingons q)) (Z.to_nat (Quadrant.stars q)) s' /\
       (is_Some (Quadrant.starbase_pos (fst s')) <-> 0 < Quadrant.starbases q))
    (fun _ _ => False).
Proof.
  unfold Quadrant.initialize_sector_map.
  apply ensures_bind, ensures_zoom, ensures_modify.
  apply ensures_bind, ensures_zoom, ensures_modify.
  apply ensures_bind, ensures_zoom, ensures_modify.
  apply ensures_bind, ensures_zoom, ensures_modify.
  cbn [view update Quadrant.self fst_lens fst snd].
  apply ensures_bind, ensures_gets.
  cbn [fst Quadrant.klingons Quadrant.set_starbase_pos Quadrant.set_star_positions
       Quadrant.set_klingon_ships Quadrant.set_sector_map].
  apply ensures_bind.
  apply (ensures_weaken _ _
           (fun _ s => building q (Z.to_nat (Quadrant.klingons q)) 0 s /\
                       Quadrant.starbase_pos (fst s) = None)
           _ (fun _ _ => False)); [| | auto].
  { apply (ensures_repeat_times_count
             (fun i s => building q i 0 s /\ Quadrant.starbase_pos (fst s) = None)).
    - intros i [q1 rng1] _ [Hb Hnone]. cbn [fst] in Hnone.
      pose proof Hb as (Hmap & _). cbn [fst] in Hmap.
      apply ensures_bind. apply find_empty_sector_ensures; [exact Hmap |].
      intros p rng2 Hp Hcell.
      destruct (set_cell_run q1 p KLINGON Hmap Hp) as (m & Hrun & _ & Hm & Hnew & Hrest).
      apply ensures_bind, ensures_zoom. unfold ensures at 1.
      cbn [view update Quadrant.self fst_lens fst snd]. rewrite Hrun.
      apply ensures_bind, ensures_zoom. unfold Klingon.new.
      apply ensures_bind, returns_ensures, returns_random_randint. intros x Hx.
      apply ensures_ret.
      apply ensures_zoom, ensures_modify.
      cbn [view update Quadrant.self Quadrant.random fst_lens snd_lens fst snd].
      split; [| exact Hnone].
      apply (building_place_klingon q q1 i 0 rng1 _ p m _ Hb Hp Hcell Hm Hnew Hrest).
      + destruct p; reflexivity.
      + cbn [Klingon.energy]. lia.
    - split; [| reflexivity].
      unfold building. cbn [fst].
      split; [reflexivity |].
      split; [exact (empty_map_records KLINGON ltac:(discriminate)) |].
      split; [exact (empty_map_records STARBASE ltac:(discriminate)) |].
      split; [exact (empty_map_records STAR ltac:(discriminate)) |].
      split; [exact (empty_map_records ENTERPRISE ltac:(discriminate)) |].
      split; [reflexivity |]. split; [reflexivity |]. split; [constructor |].
      unfold same_counts. cbn. auto 10. }
  cbn beta. intros _ [q2 rng2] [Hb2 Hnone2]. cbn [fst] in Hnone2.
  apply ensures_bind, ensures_gets. cbn [fst].
  assert (Hsb : Quadrant.starbases q2 = Quadrant.starbases q)
    by (destruct Hb2 as (_ & _ & _ & _ & _ & _ & _ & _ & Hsame); apply Hsame).
  rewrite Hsb.
  apply ensures_bind.
  apply (ensures_weaken _ _
           (fun _ s => building q (Z.to_nat (Quadrant.klingons q)) 0 s /\
                       (is_Some (Quadrant.starbase_pos (fst s)) <-> 0 < Quadrant.starbases q))
           _ (fun _ _ => False)); [| | auto].
  { destruct (Z.ltb_spec 0 (Quadrant.starbases q)) as [Hpos | Hnone].
    - pose proof Hb2 as (Hmap & _). cbn [fst] in Hmap.
      apply ensures_bind. apply find_empty_sector_ensures; [exact Hmap |].
      intros p rng3 Hp Hcell.
      destruct (set_cell_run q2 p STARBASE Hmap Hp) as (m & Hrun & _ & Hm & Hnew & Hrest).
      apply ensures_bind, ensures_zoom. unfold ensures at 1.
      cbn [view update Quadrant.self fst_lens fst snd]. rewrite Hrun.
      apply ensures_zoom, ensures_modify.
      cbn [view update Quadrant.self fst_lens fst snd].
      split.
      + replace p with (fst p, snd p) at 1 by (destruct p; reflexivity).
        replace (fst p, snd p) with p by (destruct p; reflexivity).
        exact (building_place_starbase q q2 _ 0 rng2 rng3 p m Hb2 Hnone2 Hp Hcell Hm Hnew Hrest).
      + cbn. split; [intros _; exact Hpos | intros _; eauto].
    - apply ensures_ret. split; [exact Hb2 |]. cbn [fst]. rewrite Hnone2.
      split; [intros [x Hx]; discriminate Hx | lia]. }
  cbn beta. intros _ [q3 rng3] [Hb3 Hsome3]. cbn [fst] in Hsome3.
  apply ensures_bind, ensures_gets. cbn [fst].
  assert (Hst : Quadrant.stars q3 = Quadrant.stars q)
    by (destruct Hb3 as (_ & _ & _ & _ & _ & _ & _ & _ & Hsame); apply Hsame).
  rewrite Hst.
  apply (ensures_repeat_times_count
           (fun i s => building q (Z.to_nat (Quadrant.klingons q)) i s /\
                       (is_Some (Quadrant.starbase_pos (fst s)) <-> 0 < Quadrant.starbases q)));
    [| split; assumption].
  intros i [q4 rng4] _ [Hb4 Hsome4]. cbn [fst] in Hsome4.
  pose proof Hb4 as (Hmap & _). cbn [fst] in Hmap.
  apply ensures_bind. apply find_empty_sector_ensures; [exact Hmap |].
  intros p rng5 Hp Hcell.
  destruct (set_cell_run q4 p STAR Hmap Hp) as (m & Hrun & _ & Hm & Hnew & Hrest).
  apply ensures_bind, ensures_zoom. unfold ensures at 1.
  cbn [view update Quadrant.self fst_lens fst snd]. rewrite Hrun.
  apply ensures_zoom, ensures_modify.
  cbn [view update Quadrant.self fst_lens fst snd].
  split; [| exact Hsome4].
  exact (building_place_star q q4 _ i rng4 rng5 p m Hb4 Hp Hcell Hm Hnew Hrest).
Qed.

Lemma building_consistent (q0 : Quadrant.t) (s : Quadrant.t * Rng) :
  building q0 (Z.to_nat (Quadrant.klingons q0)) (Z.to_nat (Quadrant.stars q0)) s ->
  sectors_consistent (fst s).
Proof.
  intros (Hmap & Hk & Hb & Hs & He & Hnk & Hns & Hen & Hsame).
  unfold sectors_consistent.
  split; [exact Hmap |]. split; [exact Hk |]. split; [exact Hb |]. split; [exact Hs |].
  rewrite Hnk. destruct Hsame as (_ & _ & Hkk & _). rewrite Hkk. reflexivity.
Qed.

(** X12: [initialize_sector_map] never raises, and whenever it completes
    the quadrant has an 8x8 sector map that agrees with its records: the
    cells showing a Klingon, a starbase and a star are exactly the
    positions of [klingon_ships], [starbase_pos] and [star_positions], all
    distinct and inside the quadrant; there are [klingons] ships, each with
    an energy between 300 and 599, [stars] stars, a starbase exactly when
    [starbases > 0], and no cell shows the Enterprise.  The counts, the
    coordinates and the scanned flag of the quadrant are as before. *)
Theorem initialize_sector_map_agrees_with_records (fuel : nat) (q : Quadrant.t) (rng : Rng) :
  (forall x s', Quadrant.initialize_sector_map fuel (q, rng) <> Raise x s') /\
  (forall q' rng',
     Quadrant.initialize_sector_map fuel (q, rng) = Ret tt (q', rng') ->
     sectors_consistent q' /\
     records_match (Quadrant.sector_map q') ENTERPRISE [] /\
     length (Quadrant.klingon_ships q') = Z.to_nat (Quadrant.klingons q) /\
     length (Quadrant.star_positions q') = Z.to_nat (Quadrant.stars q) /\
     (is_Some (Quadrant.starbase_pos q') <-> 0 < Quadrant.starbases q) /\
     Forall (fun k => 300 <= Klingon.energy k <= 599) (Quadrant.klingon_ships q') /\
     same_counts q q').
Proof.
  pose proof (initialize_sector_map_builds fuel q rng) as H. unfold ensures in H.
  destruct (Quadrant.initialize_sector_map fuel (q, rng)) as [u [q1 rng1] | x s' |].
  - split; [discriminate |]. intros q' rng' Heq. injection Heq as _ <- <-.
    destruct H as [Hb Hsome].
    pose proof (building_consistent q _ Hb) as Hc.
    destruct Hb as (Hmap & Hk & Hbase & Hs & He & Hnk & Hns & Hen & Hsame). cbn [fst] in *.
    split; [exact Hc |]. split; [exact He |]. split; [exact Hnk |]. split; [exact Hns |].
    split; [exact Hsome |]. split; [exact Hen | exact Hsame].
  - destruct H.
  - split; discriminate.
Qed.

Lemma initialize_sector_map_agrees_with_records_witness :
  Quadrant.initialize_sector_map 100 (busy_quadrant, mix_rng) =
    Ret tt (busy_sectors, MkRng mix_stream busy_sectors_cursor) /\
  sectors_consistent busy_sectors /\
  length (Quadrant.klingon_ships busy_sectors) = 2%nat /\
  length (Quadrant.star_positions busy_sectors) = 3%nat /\
  is_Some (Quadrant.starbase_pos busy_sectors).
Proof.
  assert (Hrun : Quadrant.initialize_sector_map 100 (busy_quadrant, mix_rng) =
                 Ret tt (busy_sectors, MkRng mix_stream busy_sectors_cursor))
    by (vm_compute; reflexivity).
  split; [exact Hrun |].
  destruct (proj2 (initialize_sector_map_agrees_with_records 100 busy_quadrant mix_rng)
              _ _ Hrun) as (Hc & _ & Hk & Hs & Hb & _).
  split; [exact Hc |]. split; [exact Hk |]. split; [exact Hs |].
  apply Hb. reflexivity.
Defined.


(** * Placing the ship in a quadrant and taking it off *)

Lemma map_8x8_not_nil (m : list (list EntityType)) : map_8x8 m -> m <> [].
Proof. intros H ->. discriminate H. Qed.

(** The branch of a test for the empty map, on a map that is not. *)
Lemma not_nil_branch {A B} (l : list A) (a b : B) :
  l <> [] -> match l with [] => a | _ :: _ => b end = b.
Proof. destruct l; [congruence | reflexivity]. Qed.

(** The records of the quadrant do not see the ship: they match the map
    with the ship on an empty sector as they matched the map without. *)
Lemma sectors_consistent_place (q : Quadrant.t) (p : Z * Z) (m : list (list EntityType)) :
  sectors_consistent q ->
  in_sector p -> cell_of (Quadrant.sector_map q) p = Some EMPTY ->
  map_8x8 m -> cell_of m p = Some ENTERPRISE ->
  (forall p', in_sector p' -> p' <> p -> cell_of m p' = cell_of (Quadrant.sector_map q) p') ->
  sectors_consistent (Quadrant.set_sector_map m q).
Proof.
  intros (Hmap & Hk & Hb & Hs & Hn) Hp Hcell Hm Hnew Hrest.
  unfold sectors_consistent.
  cbn [Quadrant.sector_map Quadrant.klingon_ships Quadrant.star_positions
       Quadrant.klingons Quadrant.set_sector_map].
  split; [exact Hm |].
  split; [place_records Hk Hp Hcell Hnew Hrest |].
  split; [change (starbase_list (Quadrant.set_sector_map m q)) with (starbase_list q);
          place_records Hb Hp Hcell Hnew Hrest |].
  split; [place_records Hs Hp Hcell Hnew Hrest | exact Hn].
Qed.

(** [place_enterprise] on a quadrant that has its sector map. *)
Lemma place_enterprise_on_map (fuel : nat) (r c : Z) (q : Quadrant.t) (rng : Rng) :
  map_8x8 (Quadrant.sector_map q) -> in_sector (r, c) ->
  ensures (Quadrant.place_enterprise fuel r c) (q, rng)
    (fun p s' =>
       in_sector p /\ cell_of (Quadrant.sector_map q) p = Some EMPTY /\
       (cell_of (Quadrant.sector_map q) (r, c) = Some EMPTY -> p = (r, c) /\ snd s' = rng) /\
       exists m,
         fst s' = Quadrant.set_sector_map m q /\
         py_setitem2 (Quadrant.sector_map q) (fst p) (snd p) ENTERPRISE = Some m /\
         map_8x8 m /\ cell_of m p = Some ENTERPRISE /\
         (forall p', in_sector p' -> p' <> p ->
                     cell_of m p' = cell_of (Quadrant.sector_map q) p'))
    (fun _ _ => False).
Proof.
  intros Hmap Hrc. unfold Quadrant.place_enterprise.
  apply ensures_bind, ensures_gets. cbn [fst].
  rewrite (not_nil_branch _ _ _ (map_8x8_not_nil _ Hmap)).
  apply ensures_bind, ensures_ret.
  apply ensures_bind, ensures_gets. cbn [fst].
  destruct (cell_of_in_range _ (r, c) Hmap Hrc) as [e He].
  unfold cell_of in He. cbn [fst snd] in He.
  apply ensures_bind. unfold Quadrant.cell. rewrite He. apply ensures_ret.
  apply ensures_bind.
  apply (ensures_weaken _ _
           (fun p s => fst s = q /\ in_sector p /\
                       cell_of (Quadrant.sector_map q) p = Some EMPTY /\
                       (e = EMPTY -> p = (r, c) /\ snd s = rng))
           _ (fun _ _ => False)); [| | auto].
  - destruct (decide (e = EMPTY)) as [-> | Hne].
    + apply ensures_ret. cbn [fst snd]. unfold cell_of. cbn [fst snd]. rewrite He. auto.
    + apply find_empty_sector_ensures; [exact Hmap |].
      intros p rng' Hp Hcell. cbn [fst snd].
      split; [reflexivity |]. split; [exact Hp |]. split; [exact Hcell |].
      intros Hempty. contradiction.
  - cbn beta. intros p [q1 rng1] (Hq1 & Hp & Hcell & Hsame). cbn [fst snd] in *. subst q1.
    destruct (set_cell_run q p ENTERPRISE Hmap Hp)
      as (m & Hrun & Hset & Hm & Hnew & Hrest).
    apply ensures_bind, ensures_zoom. unfold ensures at 1.
    cbn [view update Quadrant.self fst_lens fst snd]. rewrite Hrun.
    apply ensures_ret. cbn [fst snd].
    split; [exact Hp |]. split; [exact Hcell |].
    split.
    + intros Hrc_empty. apply Hsame. unfold cell_of in Hrc_empty. cbn [fst snd] in Hrc_empty.
      congruence.
    + exists m. auto.
Qed.

(** X13: on a quadrant with an 8x8 sector map, [place_enterprise(row,
    col)] with the sector inside the quadrant never raises.  When it
    returns a position, that position is inside the quadrant, its cell was
    [EMPTY] and now shows the Enterprise, and no other cell and no other
    field of the quadrant has changed; the sector asked for is the one
    returned, without a draw, when it was empty; and a map that agreed with
    the records of the quadrant still does. *)
Theorem place_enterprise_takes_an_empty_sector (fuel : nat) (r c : Z) (q : Quadrant.t)
    (rng : Rng) :
  map_8x8 (Quadrant.sector_map q) -> in_sector (r, c) ->
  (forall x s', Quadrant.place_enterprise fuel r c (q, rng) <> Raise x s') /\
  (forall p q' rng',
     Quadrant.place_enterprise fuel r c (q, rng) = Ret p (q', rng') ->
     in_sector p /\
     cell_of (Quadrant.sector_map q) p = Some EMPTY /\
     cell_of (Quadrant.sector_map q') p = Some ENTERPRISE /\
     (forall p', in_sector p' -> p' <> p ->
        cell_of (Quadrant.sector_map q') p' = cell_of (Quadrant.sector_map q) p') /\
     Quadrant.set_sector_map (Quadrant.sector_map q) q' = q /\
     (cell_of (Quadrant.sector_map q) (r, c) = Some EMPTY -> p = (r, c) /\ rng' = rng) /\
     (sectors_consistent q -> sectors_consistent q')).
Proof.
  intros Hmap Hrc.
  pose proof (place_enterprise_on_map fuel r c q rng Hmap Hrc) as H. unfold ensures in H.
  destruct (Quadrant.place_enterprise fuel r c (q, rng)) as [p0 [q1 rng1] | x s' |].
  - split; [discriminate |]. intros p q' rng' Heq. injection Heq as <- <- <-.
    destruct H as (Hp & Hcell & Hsame & m & Hq1 & _ & Hm & Hnew & Hrest).
    cbn [fst snd] in *. subst q1. cbn [Quadrant.sector_map Quadrant.set_sector_map].
    split; [exact Hp |]. split; [exact Hcell |]. split; [exact Hnew |].
    split; [exact Hrest |]. split; [destruct q; reflexivity |].
    split; [exact Hsame |].
    intros Hc. exact (sectors_consistent_place q p0 m Hc Hp Hcell Hm Hnew Hrest).
  - destruct H.
  - split; discriminate.
Qed.

Lemma busy_sectors_map : map_8x8 (Quadrant.sector_map busy_sectors).
Proof. reflexivity. Qed.

Lemma busy_placed_run :
  Quadrant.place_enterprise 100 7 4 (busy_sectors, busy_rng) =
  Ret (fst busy_placed) (snd busy_placed, MkRng mix_stream busy_placed_cursor).
Proof. vm_compute. reflexivity. Qed.

Lemma place_enterprise_takes_an_empty_sector_witness :
  cell_of (Quadrant.sector_map busy_sectors) (7, 4) = Some KLINGON /\
  fst busy_placed = (1, 3) /\
  cell_of (Quadrant.sector_map busy_sectors) (1, 3) = Some EMPTY /\
  cell_of (Quadrant.sector_map (snd busy_placed)) (1, 3) = Some ENTERPRISE.
Proof.
  split; [reflexivity |]. split; [reflexivity |].
  destruct (proj2 (place_enterprise_takes_an_empty_sector 100 7 4 busy_sectors busy_rng
                     busy_sectors_map ltac:(unfold in_sector; cbn; lia))
              _ _ _ busy_placed_run) as (_ & Hempty & Hship & _).
  split; [exact Hempty | exact Hship].
Defined.

(** X14: taking the ship off the sector where [place_enterprise] has just
    put it gives back the quadrant as it was before the ship was placed. *)
Theorem place_then_remove_enterprise (fuel : nat) (r c : Z) (q q' : Quadrant.t)
    (rng rng' : Rng) (p : Z * Z) :
  map_8x8 (Quadrant.sector_map q) -> in_sector (r, c) ->
  Quadrant.place_enterprise fuel r c (q, rng) = Ret p (q', rng') ->
  Quadrant.remove_enterprise (fst p) (snd p) q' = Ret tt q.
Proof.
  intros Hmap Hrc Hrun.
  pose proof (place_enterprise_on_map fuel r c q rng Hmap Hrc) as H. unfold ensures in H.
  rewrite Hrun in H.
  destruct H as (Hp & Hcell & _ & m & Hq' & Hset & Hm & Hnew & _). cbn [fst snd] in *. subst q'.
  unfold Quadrant.remove_enterprise, bind at 1, get.
  cbn [Quadrant.sector_map Quadrant.set_sector_map].
  rewrite (not_nil_branch _ _ _ (map_8x8_not_nil _ Hm)).
  assert (Hb : Quadrant.in_sector_bounds (fst p) (snd p) = true).
  { unfold Quadrant.in_sector_bounds. destruct Hp as [Hr Hc].
    destruct (Z.leb_spec 0 (fst p)), (Z.ltb_spec (fst p) 8),
      (Z.leb_spec 0 (snd p)), (Z.ltb_spec (snd p) 8); try lia; reflexivity. }
  rewrite Hb. unfold bind at 1, Quadrant.cell.
  cbn [Quadrant.sector_map Quadrant.set_sector_map].
  unfold cell_of in Hnew. rewrite Hnew. cbn [expect ret].
  destruct (decide (ENTERPRISE = ENTERPRISE)); [| congruence].
  unfold Quadrant.set_cell, bind, get, expect, modify, ret.
  cbn [Quadrant.sector_map Quadrant.set_sector_map].
  rewrite (py_setitem2_twice _ _ _ _ EMPTY _ Hset), (py_setitem2_same _ _ _ _ Hcell).
  destruct q; reflexivity.
Qed.

Lemma place_then_remove_enterprise_witness :
  Quadrant.remove_enterprise 1 3 (snd busy_placed) = Ret tt busy_sectors.
Proof.
  exact (place_then_remove_enterprise 100 7 4 busy_sectors (snd busy_placed) busy_rng _
           (fst busy_placed) busy_sectors_map ltac:(unfold in_sector; cbn; lia) busy_placed_run).
Defined.

(** * game/combat.py: phasers *)

(** ** The ships a volley destroys and the ships it leaves *)

Lemma ships_elsewhere_filter (r c : Z) (ships : list Klingon.t) :
  ships_elsewhere r c ships = filter (fun k => ship_pos k <> (r, c)) ships.
Proof.
  unfold ships_elsewhere. apply list_filter_iff. intros k. unfold ship_pos.
  destruct (Z.eqb_spec (Klingon.sector_row k) r), (Z.eqb_spec (Klingon.sector_col k) c);
    cbn; split; intros H; try congruence; try (intros [= ? ?]; congruence).
Qed.

Lemma filter_fmap_pos (P : Z * Z -> Prop) (Q : Klingon.t -> Prop)
    `{!forall p, Decision (P p)} `{!forall k, Decision (Q k)} (ships : list Klingon.t) :
  (forall k, Q k <-> P (ship_pos k)) ->
  ship_pos <$> filter Q ships = filter P (ship_pos <$> ships).
Proof.
  intros Hiff. induction ships as [| k ships IH]; [reflexivity |].
  rewrite fmap_cons, !filter_cons.
  destruct (decide (Q k)) as [Hq | Hq], (decide (P (ship_pos k))) as [Hp | Hp]; cbn;
    try congruence.
  - contradiction Hp. apply Hiff. exact Hq.
  - contradiction Hq. apply Hiff. exact Hp.
Qed.

Lemma filter_all {A} (P : A -> Prop) `{!forall x, Decision (P x)} (l : list A) :
  (forall x, P x) -> filter P l = l.
Proof.
  intros Hall. induction l as [| a l IH]; [reflexivity |].
  rewrite filter_cons_True by apply Hall. f_equal. exact IH.
Qed.

(** Taking one element out of a list without duplicates. *)
Lemma length_filter_out {A} `{EqDecision A} (p : A) (ps : list A) :
  NoDup ps -> p ∈ ps -> Datatypes.S (length (filter (fun x => x <> p) ps)) = length ps.
Proof.
  induction 1 as [| x ps Hx Hnd IH]; intros Hin; [inversion Hin |].
  rewrite filter_cons. destruct (decide (x <> p)) as [Hne | Heq].
  - cbn. f_equal. apply IH. apply elem_of_cons in Hin. destruct Hin; [congruence | assumption].
  - apply dec_stable in Heq. subst x. cbn. f_equal.
    clear IH Hin Hnd. induction ps as [| y ps IH]; [reflexivity |].
    rewrite filter_cons_True by (intros ->; apply Hx; left).
    cbn. f_equal. apply IH. intros Hp. apply Hx. right. exact Hp.
Qed.

(** The records of one kind after a sector has been emptied. *)
Lemma records_after_clear (m m' : list (list EntityType)) (p : Z * Z)
    (removed kind : EntityType) (ps : list (Z * Z)) :
  records_match m kind ps ->
  in_sector p -> cell_of m p = Some removed -> cell_of m' p = Some EMPTY ->
  (forall p', in_sector p' -> p' <> p -> cell_of m' p' = cell_of m p') ->
  kind <> EMPTY ->
  records_match m' kind (if decide (kind = removed) then filter (fun x => x <> p) ps else ps).
Proof.
  intros (Hnd & Hin & Hall) Hp Hold Hnew Hrest Hkind.
  destruct (decide (kind = removed)) as [-> | Hne].
  - split; [apply NoDup_filter; exact Hnd | split].
    + intros x Hx. apply list_elem_of_filter in Hx. destruct Hx as [Hxp Hx].
      destruct (Hin x Hx) as [Hxs Hxc]. split; [exact Hxs |].
      rewrite Hrest; assumption.
    + intros x Hxs Hxc. apply list_elem_of_filter.
      assert (Hxp : x <> p) by (intros ->; congruence).
      split; [exact Hxp |]. apply Hall; [exact Hxs |]. rewrite <- Hrest; assumption.
  - assert (Hfresh : p ∉ ps).
    { intros Hmem. destruct (Hin p Hmem) as [_ Hc]. congruence. }
    split; [exact Hnd | split].
    + intros x Hx. destruct (Hin x Hx) as [Hxs Hxc]. split; [exact Hxs |].
      rewrite Hrest; [exact Hxc | exact Hxs | intros ->; contradiction].
    + intros x Hxs Hxc.
      destruct (decide (x = p)) as [-> | Hxp]; [congruence |].
      apply Hall; [exact Hxs |]. rewrite <- Hrest; assumption.
Qed.

Lemma hit_keeps_position (kd : Klingon.t * Z) :
  ship_pos (if phaser_destroys kd then fst kd else weakened kd) = ship_pos (fst kd).
Proof. destruct (phaser_destroys kd); reflexivity. Qed.

Lemma after_hits_positions (ships : list Klingon.t) (ds : list Z) :
  length ds = length ships -> ship_pos <$> after_hits ships ds = ship_pos <$> ships.
Proof.
  intros Hlen. unfold after_hits. rewrite <- list_fmap_compose.
  rewrite <- (fst_zip ships ds) at 2 by lia. rewrite <- list_fmap_compose.
  apply list_fmap_ext. intros i kd _. apply hit_keeps_position.
Qed.

Lemma length_after_hits (ships : list Klingon.t) (ds : list Z) :
  length ds = length ships -> length (after_hits ships ds) = length ships.
Proof.
  intros Hlen. unfold after_hits. rewrite length_fmap, length_zip_with. lia.
Qed.

Lemma phaser_kills_sublist (ships : list Klingon.t) (ds : list Z) :
  length ds = length ships -> (phaser_kills ships ds).*1 `sublist_of` ships.
Proof.
  intros Hlen. rewrite <- (fst_zip ships ds) at 2 by lia.
  apply fmap_sublist, sublist_filter.
Qed.

(** Without two ships on one sector, a ship is told by its position. *)
Lemma same_position_same_ship {A} (f : A -> Z * Z) (l : list A) (x y : A) :
  NoDup (f <$> l) -> x ∈ l -> y ∈ l -> f x = f y -> x = y.
Proof.
  induction l as [| a l IH]; intros Hnd Hx Hy Hf; [inversion Hx |].
  rewrite fmap_cons in Hnd. apply NoDup_cons in Hnd. destruct Hnd as [Ha Hnd].
  apply elem_of_cons in Hx. apply elem_of_cons in Hy.
  destruct Hx as [-> | Hx], Hy as [-> | Hy]; [reflexivity | | | auto].
  - contradiction Ha. rewrite Hf. apply list_elem_of_fmap. eauto.
  - contradiction Ha. rewrite <- Hf. apply list_elem_of_fmap. eauto.
Qed.

Lemma filter_fmap_omap {A B} (P : B -> Prop) `{!forall b, Decision (P b)}
    (f g : A -> B) (Q : A -> bool) (l : list A) :
  (forall x, x ∈ l -> (P (f x) <-> Q x = false)) ->
  (forall x, Q x = false -> f x = g x) ->
  filter P (f <$> l) = omap (fun x => if Q x then None else Some (g x)) l.
Proof.
  intros Hiff Hfg. induction l as [| a l IH]; [reflexivity |].
  rewrite fmap_cons, filter_cons. cbn [omap list_omap].
  rewrite IH by (intros x Hx; apply Hiff; right; exact Hx).
  pose proof (Hiff a ltac:(left)) as Ha.
  destruct (decide (P (f a))) as [Hp | Hp], (Q a) eqn:Hq; try reflexivity.
  - apply Ha in Hp. discriminate.
  - rewrite (Hfg a Hq). reflexivity.
  - contradiction Hp. apply Ha. reflexivity.
Qed.

(** Removing the destroyed ships, found by their positions, from the ships
    as the loop left them gives the survivors. *)
Lemma survivors_by_position (ships : list Klingon.t) (ds : list Z) :
  length ds = length ships -> NoDup (ship_pos <$> ships) ->
  filter (fun k => ship_pos k ∉ ship_pos <$> (phaser_kills ships ds).*1)
         (after_hits ships ds) =
  phaser_survivors ships ds.
Proof.
  intros Hlen Hnd. unfold after_hits, phaser_survivors.
  apply (filter_fmap_omap (fun k => ship_pos k ∉ ship_pos <$> (phaser_kills ships ds).*1)).
  - intros kd Hkd. rewrite hit_keeps_position. split.
    + intros Hout. destruct (phaser_destroys kd) eqn:Hd; [| reflexivity].
      contradiction Hout. apply list_elem_of_fmap. exists (fst kd). split; [reflexivity |].
      apply list_elem_of_fmap. exists kd. split; [reflexivity |].
      apply list_elem_of_filter. split; assumption.
    + intros Hd Hmem. apply list_elem_of_fmap in Hmem. destruct Hmem as (k' & Hpos & Hk').
      apply list_elem_of_fmap in Hk'. destruct Hk' as (kd' & -> & Hkd').
      apply list_elem_of_filter in Hkd'. destruct Hkd' as [Hd' Hkd'].
      assert (kd = kd').
      { apply (same_position_same_ship (fun x => ship_pos (fst x)) (zip ships ds));
          try assumption.
        change (NoDup ((ship_pos ∘ fst) <$> zip ships ds)).
        rewrite (list_fmap_compose fst ship_pos), fst_zip by lia. exact Hnd. }
      subst kd'. congruence.
  - intros kd Hd. rewrite Hd. reflexivity.
Qed.

Lemma phaser_survivors_alive (ships : list Klingon.t) (ds : list Z) :
  Forall (fun k => 0 < Klingon.energy k) (phaser_survivors ships ds).
Proof.
  unfold phaser_survivors. apply Forall_forall. intros k Hk.
  apply list_elem_of_omap in Hk. destruct Hk as (kd & _ & Hk).
  unfold phaser_destroys in Hk. destruct (Z.leb_spec (Klingon.energy (fst kd)) (snd kd)); [discriminate |].
  injection Hk as <-. cbn. lia.
Qed.

(** Every ship is destroyed or left. *)
Lemma kills_and_survivors (ships : list Klingon.t) (ds : list Z) :
  (length (phaser_kills ships ds) + length (phaser_survivors ships ds))%nat =
  length (zip ships ds).
Proof.
  unfold phaser_kills, phaser_survivors.
  induction (zip ships ds) as [| kd l IH]; [reflexivity |].
  rewrite filter_cons. cbn [omap list_omap].
  destruct (phaser_destroys kd); cbn.
  - destruct (decide (true = true)); [| congruence]. cbn. lia.
  - destruct (decide (false = true)); [discriminate |]. cbn. lia.
Qed.

(** ** The two loops of [fire_phasers] *)

(** A loop over [range(n)] with carried locals. *)
Lemma ensures_fold_m_seq {St B} (Inv : nat -> B -> St -> Prop) (f : B -> nat -> M St B)
    (E : PyExn -> St -> Prop) (n : nat) :
  (forall i b s, (i < n)%nat -> Inv i b s ->
     ensures (f b i) s (fun b' s' => Inv (Datatypes.S i) b' s') E) ->
  forall b s, Inv 0%nat b s -> ensures (fold_m f (seq 0 n) b) s (fun b' s' => Inv n b' s') E.
Proof.
  intros Hstep.
  enough (H : forall m a b s, (a + m = n)%nat -> Inv a b s ->
                ensures (fold_m f (seq a m) b) s (fun b' s' => Inv n b' s') E)
    by (intros b s; apply H; lia).
  induction m as [| m IH]; intros a b s Ham Hinv; cbn [seq fold_m].
  - apply ensures_ret. replace n with a by lia. exact Hinv.
  - apply ensures_bind. eapply ensures_weaken; [apply Hstep; [lia | exact Hinv] | | auto].
    cbn beta. intros b' s' Hinv'. apply IH; [lia | exact Hinv'].
Qed.

Lemma insert_middle {A} (l1 l2 : list A) (x y : A) (i : nat) :
  length l1 = i -> <[i := x]> (l1 ++ y :: l2) = l1 ++ x :: l2.
Proof. intros <-. induction l1 as [| a l1 IH]; [reflexivity |]. cbn. f_equal. exact IH. Qed.

Lemma after_hits_snoc (done : list Klingon.t) (ds : list Z) (k : Klingon.t) (d : Z) :
  length done = length ds ->
  after_hits (done ++ [k]) (ds ++ [d]) =
  after_hits done ds ++ [if phaser_destroys (k, d) then k else weakened (k, d)].
Proof.
  intros Hlen. unfold after_hits. rewrite zip_with_app by exact Hlen.
  rewrite fmap_app. reflexivity.
Qed.

Lemma phaser_kills_snoc (done : list Klingon.t) (ds : list Z) (k : Klingon.t) (d : Z) :
  length done = length ds ->
  phaser_kills (done ++ [k]) (ds ++ [d]) =
  phaser_kills done ds ++ (if phaser_destroys (k, d) then [(k, d)] else []).
Proof.
  intros Hlen. unfold phaser_kills. rewrite zip_with_app by exact Hlen.
  rewrite filter_app. f_equal. cbn [zip_with]. rewrite filter_cons, filter_nil.
  destruct (phaser_destroys (k, d)).
  - destruct (decide (true = true)); [reflexivity | congruence].
  - destruct (decide (false = true)); [discriminate | reflexivity].
Qed.

Lemma dealt_snoc (done : list Klingon.t) (ds : list Z) (k : Klingon.t) (d : Z) :
  length done = length ds ->
  zip (ship_pos <$> done ++ [k]) (ds ++ [d]) =
  zip (ship_pos <$> done) ds ++ [(Klingon.sector_row k, Klingon.sector_col k, d)].
Proof.
  intros Hlen. rewrite fmap_app.
  rewrite zip_with_app by (rewrite length_fmap; exact Hlen). reflexivity.
Qed.

Lemma hits_done_positions (done todo : list Klingon.t) (ds : list Z) :
  length ds = length done ->
  ship_pos <$> after_hits done ds ++ todo = ship_pos <$> done ++ todo.
Proof. intros Hlen. rewrite !fmap_app, after_hits_positions by exact Hlen. reflexivity. Qed.

(** One hostile ship under fire. *)
Lemma phaser_hit_step (energy_per_target : float) (e1 : Enterprise.t) (q0 : Quadrant.t)
    (i : nat) (acc : list (Z * Z * Z) * list Klingon.t * Z) (s : Combat.St) :
  (i < length (Quadrant.klingon_ships q0))%nat ->
  hits_done e1 q0 i acc s ->
  ensures (phaser_hit energy_per_target acc i) s
    (fun acc' s' => hits_done e1 q0 (Datatypes.S i) acc' s')
    (fun _ s' => hits_interrupted e1 q0 s').
Proof.
  intros Hi (He & done & todo & ds & Hsplit & Hlen & Hds & Hq & Hdealt & Hrem & Hcount).
  destruct s as [[e qh] rng]. cbn [fst snd] in He, Hq. subst e qh.
  destruct todo as [| k todo].
  { rewrite app_nil_r in Hsplit. rewrite Hsplit in Hi. lia. }
  assert (Hlens : length done = length ds) by lia.
  assert (Hstop : forall rng', hits_interrupted e1 q0
            ((e1, Quadrant.set_klingon_ships (after_hits done ds ++ k :: todo) q0), rng')).
  { intros rng'. split; [reflexivity |]. cbn [fst snd].
    exists (after_hits done ds ++ k :: todo). split; [reflexivity |].
    rewrite Hsplit. apply hits_done_positions. lia. }
  unfold phaser_hit. apply ensures_bind, ensures_get.
  cbn [view Combat.ship Combat.quad fst snd Quadrant.klingon_ships Quadrant.set_klingon_ships].
  apply ensures_bind, ensures_expect.
  2:{ intros Hnone. apply lookup_ge_None in Hnone.
      rewrite length_app, length_after_hits in Hnone by lia. cbn in Hnone. lia. }
  intros k' Hk'.
  rewrite (list_lookup_middle (after_hits done ds) todo k i) in Hk'
    by (rewrite length_after_hits; lia).
  injection Hk' as <-.
  apply ensures_bind, ensures_zoom, returns_ensures, returns_random_uniform. intros mult.
  cbn [update Combat.random snd_lens fst snd].
  apply ensures_bind, ensures_lift_exn; [intros x _ | intros; apply Hstop].
  apply ensures_bind, ensures_lift_exn; [intros d _ | intros; apply Hstop].
  destruct (Klingon.energy k <=? d) eqn:Hd.
  - apply ensures_ret. split; [reflexivity |]. cbn [fst snd].
    exists (done ++ [k]), todo, (ds ++ [d]).
    rewrite after_hits_snoc, phaser_kills_snoc, dealt_snoc by exact Hlens.
    unfold phaser_destroys. cbn [fst snd]. rewrite Hd.
    split; [rewrite Hsplit, <- app_assoc; reflexivity |].
    split; [rewrite length_app; cbn; lia |].
    split; [rewrite length_app; cbn; lia |].
    split; [rewrite <- app_assoc; reflexivity |].
    split; [rewrite Hdealt; reflexivity |].
    split; [rewrite Hrem, fmap_app; reflexivity |].
    rewrite Hcount, length_app. cbn. lia.
  - apply ensures_bind, ensures_zoom, ensures_modify.
    cbn [view update Combat.quad fst snd Quadrant.klingon_ships Quadrant.set_klingon_ships].
    apply ensures_ret. split; [reflexivity |]. cbn [fst snd].
    exists (done ++ [k]), todo, (ds ++ [d]).
    rewrite after_hits_snoc, phaser_kills_snoc, dealt_snoc by exact Hlens.
    unfold phaser_destroys. cbn [fst snd]. rewrite Hd.
    split; [rewrite Hsplit, <- app_assoc; reflexivity |].
    split; [rewrite length_app; cbn; lia |].
    split; [rewrite length_app; cbn; lia |].
    split.
    { rewrite insert_middle by (rewrite length_after_hits; lia).
      rewrite <- app_assoc. destruct q0; reflexivity. }
    split; [rewrite Hdealt; reflexivity |].
    split; [rewrite Hrem, app_nil_r; reflexivity |].
    rewrite Hcount, app_nil_r. reflexivity.
Qed.

(** ** Removing the destroyed ships *)

Lemma sectors_consistent_in_place (q q' : Quadrant.t) :
  sectors_consistent q -> hostiles_in_place q q' ->
  sectors_consistent q' /\ Quadrant.klingons q' = Quadrant.klingons q /\
  Quadrant.sector_map q' = Quadrant.sector_map q /\ same_but_hostiles q q'.
Proof.
  intros (Hmap & Hk & Hb & Hs & Hn) (ships & -> & Hpos).
  split; [| split; [reflexivity | split; [reflexivity | unfold same_but_hostiles; cbn; auto 10]]].
  unfold sectors_consistent.
  cbn [Quadrant.sector_map Quadrant.klingon_ships Quadrant.set_klingon_ships
       Quadrant.star_positions Quadrant.klingons].
  split; [exact Hmap |]. split; [rewrite Hpos; exact Hk |].
  split; [exact Hb |]. split; [exact Hs |].
  rewrite <- Hn, <- (length_fmap ship_pos ships), Hpos, length_fmap. reflexivity.
Qed.

(** [remove_klingon] at the position of a ship of the quadrant. *)
Lemma remove_klingon_consistent (q : Quadrant.t) (k : Klingon.t) :
  sectors_consistent q -> ship_pos k ∈ ship_pos <$> Quadrant.klingon_ships q ->
  exists q',
    Quadrant.remove_klingon (Klingon.sector_row k) (Klingon.sector_col k) q = Ret true q' /\
    hostiles_removed [ship_pos k] q q'.
Proof.
  intros (Hmap & Hk & Hb & Hs & Hn) Hin.
  destruct (proj1 (proj2 Hk) _ Hin) as [Hp Hcell].
  destruct (set_cell_run q (ship_pos k) EMPTY Hmap Hp) as (m & _ & Hset & Hm & Hnew & Hrest).
  destruct (remove_klingon_run q (Klingon.sector_row k) (Klingon.sector_col k) Hcell)
    as (m' & Hset' & Hrun).
  cbn [ship_pos fst snd] in Hset. assert (m' = m) by congruence. subst m'.
  eexists. split; [exact Hrun |].
  pose proof (length_filter_out (ship_pos k) _ (proj1 Hk) Hin) as Hlen.
  unfold hostiles_removed, sectors_consistent.
  cbn [Quadrant.sector_map Quadrant.klingon_ships Quadrant.set_klingon_ships
       Quadrant.set_sector_map Quadrant.set_klingons Quadrant.star_positions Quadrant.klingons].
  rewrite ships_elsewhere_filter.
  change (ship_pos k) with (Klingon.sector_row k, Klingon.sector_col k) in *.
  assert (Hfilter :
    ship_pos <$> filter (fun x => ship_pos x <> (Klingon.sector_row k, Klingon.sector_col k))
                        (Quadrant.klingon_ships q) =
    filter (fun p => p <> (Klingon.sector_row k, Klingon.sector_col k))
           (ship_pos <$> Quadrant.klingon_ships q))
    by (apply filter_fmap_pos; intros; reflexivity).
  split; [split; [exact Hm | split; [| split; [| split]]] | split; [| split; [| split]]].
  - rewrite Hfilter.
    pose proof (records_after_clear _ m _ KLINGON KLINGON _ Hk Hp Hcell Hnew Hrest
                  ltac:(discriminate)) as H.
    destruct (decide (KLINGON = KLINGON)); [exact H | congruence].
  - change (starbase_list _) with (starbase_list q).
    pose proof (records_after_clear _ m _ KLINGON STARBASE _ Hb Hp Hcell Hnew Hrest
                  ltac:(discriminate)) as H.
    destruct (decide (STARBASE = KLINGON)); [discriminate | exact H].
  - pose proof (records_after_clear _ m _ KLINGON STAR _ Hs Hp Hcell Hnew Hrest
                  ltac:(discriminate)) as H.
    destruct (decide (STAR = KLINGON)); [discriminate | exact H].
  - rewrite <- (length_fmap ship_pos), Hfilter.
    rewrite length_fmap in Hlen. lia.
  - cbn. lia.
  - apply list_filter_iff. intros x. rewrite list_elem_of_singleton. reflexivity.
  - split; [exact Hm | split].
    + intros p Hp'. apply list_elem_of_singleton in Hp'. subst p. exact Hnew.
    + intros p Hp' Hout. apply Hrest; [exact Hp' |].
      intros ->. apply Hout. apply list_elem_of_singleton. reflexivity.
  - unfold same_but_hostiles. cbn. auto 10.
Qed.

Lemma same_but_hostiles_trans (q1 q2 q3 : Quadrant.t) :
  same_but_hostiles q1 q2 -> same_but_hostiles q2 q3 -> same_but_hostiles q1 q3.
Proof.
  unfold same_but_hostiles. intros (? & ? & ? & ? & ? & ? & ?) (? & ? & ? & ? & ? & ? & ?).
  repeat split; congruence.
Qed.

Lemma hostiles_removed_more (p : Z * Z) (ps : list (Z * Z)) (q q1 q2 : Quadrant.t) :
  in_sector p -> p ∉ ps ->
  hostiles_removed [p] q q1 -> hostiles_removed ps q1 q2 ->
  hostiles_removed (p :: ps) q q2.
Proof.
  intros Hp Hfresh (_ & Hn1 & Hs1 & (_ & Hc1 & Hr1) & Hsame1)
         (Hcons & Hn2 & Hs2 & (Hm2 & Hc2 & Hr2) & Hsame2).
  split; [exact Hcons |].
  split; [rewrite Hn2, Hn1; cbn [length]; lia |].
  split.
  { rewrite Hs2, Hs1, list_filter_filter. apply list_filter_iff. intros x.
    rewrite not_elem_of_cons, not_elem_of_cons, elem_of_nil. tauto. }
  split; [| exact (same_but_hostiles_trans _ _ _ Hsame1 Hsame2)].
  split; [exact Hm2 | split].
  - intros x Hx. destruct (decide (x ∈ ps)) as [Hin | Hout]; [apply Hc2; exact Hin |].
    apply elem_of_cons in Hx. destruct Hx as [-> | Hx]; [| contradiction].
    rewrite (Hr2 p Hp Hout). apply Hc1. apply list_elem_of_singleton. reflexivity.
  - intros x Hx Hout. apply not_elem_of_cons in Hout. destruct Hout as [Hne Hout].
    rewrite (Hr2 x Hx Hout). apply Hr1; [exact Hx |].
    rewrite list_elem_of_singleton. exact Hne.
Qed.

(** The loop over [klingons_to_remove]. *)
Lemma remove_destroyed_run (l : list Klingon.t) (e : Enterprise.t) (q : Quadrant.t) (rng : Rng) :
  sectors_consistent q ->
  NoDup (ship_pos <$> l) ->
  (forall p, p ∈ ship_pos <$> l -> p ∈ ship_pos <$> Quadrant.klingon_ships q) ->
  ensures
    (for_each l (fun klingon =>
       zoom Combat.quad
         (Quadrant.remove_klingon (Klingon.sector_row klingon) (Klingon.sector_col klingon)) ;;;
       ret tt))
    ((e, q), rng)
    (fun _ s' => fst (fst s') = e /\ snd s' = rng /\
                 hostiles_removed (ship_pos <$> l) q (snd (fst s')))
    (fun _ _ => False).
Proof.
  revert q. induction l as [| k l IH]; intros q Hcons Hnd Hin; cbn [for_each].
  - apply ensures_ret. cbn [fst snd]. split; [reflexivity |]. split; [reflexivity |].
    split; [exact Hcons |]. split; [cbn; lia |].
    split.
    { symmetry. apply filter_all. intros x. cbn. apply not_elem_of_nil. }
    split; [| unfold same_but_hostiles; auto 10].
    split; [apply Hcons | split]; [intros p Hp; inversion Hp | reflexivity].
  - rewrite fmap_cons in Hnd, Hin. apply NoDup_cons in Hnd. destruct Hnd as [Hfresh Hnd].
    destruct (remove_klingon_consistent q k Hcons ltac:(apply Hin; left))
      as (q1 & Hrun & Hrem).
    assert (Hp : in_sector (ship_pos k)).
    { destruct Hcons as (_ & Hk & _). apply (proj1 (proj2 Hk)). apply Hin. left. }
    apply ensures_bind, ensures_bind, ensures_zoom. unfold ensures at 1.
    cbn [view update Combat.quad fst snd]. rewrite Hrun.
    apply ensures_ret.
    eapply ensures_weaken; [apply (IH q1) | | auto].
    + apply Hrem.
    + exact Hnd.
    + intros p Hpl. destruct Hrem as (_ & _ & Hs1 & _). rewrite Hs1.
      assert (Hfilter :
        ship_pos <$> filter (fun x => ship_pos x ∉ [ship_pos k]) (Quadrant.klingon_ships q) =
        filter (fun x => x ∉ [ship_pos k]) (ship_pos <$> Quadrant.klingon_ships q))
        by (apply filter_fmap_pos; intros; reflexivity).
      rewrite Hfilter. apply list_elem_of_filter. split.
      * rewrite list_elem_of_singleton. intros ->. contradiction.
      * apply Hin. right. exact Hpl.
    + cbn beta. intros _ s' (He & Hr & Hrem2). split; [exact He |]. split; [exact Hr |].
      rewrite fmap_cons. exact (hostiles_removed_more _ _ _ _ _ Hp Hfresh Hrem Hrem2).
Qed.

(** ** A volley *)

(** The overheat check touches neither the ship nor the quadrant, and never
    reports an overheat. *)
Lemma overheat_check_frame (energy_amount : Z) (s : Combat.St) :
  ensures
    (if 1500 <? energy_amount then
       overheat_chance <- lift_exn (py_truediv (energy_amount - 1500) 1500) ;;
       x <- zoom Combat.random random_random ;;
       if (x <? overheat_chance)%float then
         v <- zoom Combat.random (random_uniform 1.0 3.0) ;;
         key <- dict_class_PHASER_CONTROL ;;
         zoom Combat.ship (modify (fun e =>
           Enterprise.set_damage (<[key := (- v)%float]> (Enterprise.damage e)) e)) ;;;
         ret true
       else ret false
     else ret false) s
    (fun b s' => b = false /\ fst s' = fst s) (fun _ s' => fst s' = fst s).
Proof.
  destruct (1500 <? energy_amount); [| apply ensures_ret; auto].
  apply ensures_bind, ensures_lift_exn; [intros oc _ | intros; reflexivity].
  apply ensures_bind, ensures_zoom, returns_ensures, returns_random_random. intros x.
  cbn [update Combat.random snd_lens fst snd].
  destruct (x <? oc)%float; [| apply ensures_ret; auto].
  apply ensures_bind, ensures_zoom, returns_ensures, returns_random_uniform. intros v.
  cbn [update Combat.random snd_lens fst snd].
  apply ensures_bind. reflexivity.
Qed.

Lemma hostiles_in_place_refl (q : Quadrant.t) : hostiles_in_place q q.
Proof. exists (Quadrant.klingon_ships q). split; [destruct q; reflexivity | reflexivity]. Qed.

(** What a volley that is fired does. *)
Lemma fire_phasers_volley (E : Z) (e : Enterprise.t) (q : Quadrant.t) (rng : Rng) :
  sectors_consistent q ->
  ensures (fire_phasers E) ((e, q), rng)
    (fun res s' =>
       combat_success res = true ->
       0 < E <= Enterprise.energy e /\
       fst (fst s') = Enterprise.set_energy (Enterprise.energy e - E) e /\
       fst <$> damage_dealt res = ship_pos <$> Quadrant.klingon_ships q /\
       length (snd <$> damage_dealt res) = length (Quadrant.klingon_ships q) /\
       klingons_destroyed res =
         Z.of_nat (length (phaser_kills (Quadrant.klingon_ships q) (snd <$> damage_dealt res))) /\
       hostiles_removed
         (ship_pos <$> (phaser_kills (Quadrant.klingon_ships q) (snd <$> damage_dealt res)).*1)
         (Quadrant.set_klingon_ships
            (after_hits (Quadrant.klingon_ships q) (snd <$> damage_dealt res)) q)
         (snd (fst s')))
    (fun _ s' =>
       0 < E <= Enterprise.energy e /\
       hits_interrupted (Enterprise.set_energy (Enterprise.energy e - E) e) q s').
Proof.
  intros Hcons. unfold fire_phasers. apply ensures_bind, ensures_get.
  cbn [view Combat.ship Combat.quad fst snd].
  destruct (negb _); [apply ensures_ret; discriminate |].
  destruct (Z.leb_spec E 0) as [| Hpos]; [apply ensures_ret; discriminate |].
  destruct (Z.ltb_spec (Enterprise.energy e) E) as [| Hle]; [apply ensures_ret; discriminate |].
  destruct (decide (Quadrant.klingon_ships q = [])) as [Hnil | Hne].
  { rewrite Hnil. apply ensures_ret. discriminate. }
  rewrite (not_nil_branch _ _ _ Hne).
  set (e1 := Enterprise.set_energy (Enterprise.energy e - E) e).
  apply ensures_bind, ensures_zoom. unfold Enterprise.use_energy.
  apply ensures_bind, ensures_get. cbn [view Combat.ship fst snd].
  destruct (Z.leb_spec E (Enterprise.energy e)); [| lia].
  apply ensures_bind, ensures_modify, ensures_ret.
  cbn [update Combat.ship fst snd]. fold e1.
  assert (Hstop : forall rng', 0 < E <= Enterprise.energy e /\
                               hits_interrupted e1 q ((e1, q), rng')).
  { intros rng'. split; [lia |]. split; [reflexivity | apply hostiles_in_place_refl]. }
  apply ensures_bind.
  eapply ensures_weaken; [apply overheat_check_frame | |]; cbn beta.
  2:{ intros x [[e' q'] rng1] Hfst. cbn [fst] in Hfst. injection Hfst as -> ->. apply Hstop. }
  intros b [[e' q'] rng1] [-> Hfst]. cbn [fst] in Hfst. injection Hfst as -> ->.
  apply ensures_bind, ensures_lift_exn; [intros ept _ | intros; apply Hstop].
  apply ensures_bind.
  eapply ensures_weaken;
    [apply (ensures_fold_m_seq (hits_done e1 q) _ (fun _ s' => hits_interrupted e1 q s'))
    | | intros x s' Hs'; split; [lia | exact Hs'] ].
  - intros i b s Hi Hinv. apply phaser_hit_step; assumption.
  - split; [reflexivity |]. exists [], (Quadrant.klingon_ships q), [].
    cbn. repeat split; try reflexivity. destruct q; reflexivity.
  - cbn beta.
    intros acc [[e' qh] rng2] (He & done & todo & ds & Hsplit & Hlen & Hds & Hq & Hdealt & Hrem & Hcount).
    cbn [fst snd] in He, Hq. subst e' qh.
    assert (todo = []) as ->.
    { rewrite Hsplit, length_app in Hlen. destruct todo; [reflexivity | cbn in Hlen; lia]. }
    rewrite app_nil_r in Hsplit. rewrite app_nil_r. subst done.
    set (ships := Quadrant.klingon_ships q) in *.
    assert (Hdsl : length ds = length ships) by lia.
    assert (Hplace : hostiles_in_place q (Quadrant.set_klingon_ships (after_hits ships ds) q)).
    { exists (after_hits ships ds). split; [reflexivity |]. apply after_hits_positions. exact Hdsl. }
    destruct (sectors_consistent_in_place _ _ Hcons Hplace) as (Hcons' & _).
    pose proof (phaser_kills_sublist ships ds Hdsl) as Hsub.
    apply ensures_bind. rewrite Hrem.
    eapply ensures_weaken; [apply remove_destroyed_run | | intros x s' []].
    + exact Hcons'.
    + eapply sublist_NoDup; [| apply fmap_sublist; exact Hsub]. apply Hcons.
    + intros p Hp. cbn [Quadrant.klingon_ships Quadrant.set_klingon_ships].
      rewrite after_hits_positions by exact Hdsl.
      eapply elem_of_sublist; [exact Hp | apply fmap_sublist; exact Hsub].
    + cbn beta. intros _ [[e' q'] rng3] (He' & _ & Hremoved). cbn [fst snd] in He', Hremoved.
      subst e'. apply ensures_ret. intros _. cbn [damage_dealt klingons_destroyed fst snd].
      rewrite Hdealt.
      assert (Hsnd : snd <$> zip (ship_pos <$> ships) ds = ds)
        by (apply snd_zip; rewrite length_fmap; lia).
      rewrite Hsnd.
      split; [lia |]. split; [reflexivity |].
      split; [apply fst_zip; rewrite length_fmap; lia |].
      split; [exact Hdsl |]. split; [exact Hcount | exact Hremoved].
Qed.

Lemma next_raw_finishes : finishes next_raw.
Proof. intros g. discriminate. Qed.

Lemma random_random_finishes : finishes random_random.
Proof. unfold random_random. repeat first [apply next_raw_finishes | finishes_step]. Qed.

Lemma random_uniform_finishes (a b : float) : finishes (random_uniform a b).
Proof. unfold random_uniform. repeat first [apply random_random_finishes | finishes_step]. Qed.

Lemma phaser_hit_finishes (energy_per_target : float)
    (acc : list (Z * Z * Z) * list Klingon.t * Z) (i : nat) :
  finishes (phaser_hit energy_per_target acc i).
Proof.
  unfold phaser_hit.
  repeat first [apply random_uniform_finishes | finishes_step | progress cbv zeta].
Qed.

Lemma fire_phasers_finishes (energy_amount : Z) : finishes (fire_phasers energy_amount).
Proof.
  unfold fire_phasers, Enterprise.use_energy, dict_class_PHASER_CONTROL.
  repeat first [apply phaser_hit_finishes | apply remove_klingon_finishes
               | apply random_uniform_finishes | apply random_random_finishes
               | finishes_step | progress cbv zeta].
Qed.

Lemma busy_sectors_consistent : sectors_consistent busy_sectors.
Proof.
  assert (Hrun : Quadrant.initialize_sector_map 100 (busy_quadrant, mix_rng) =
                 Ret tt (busy_sectors, busy_rng)) by (vm_compute; reflexivity).
  pose proof (ensures_run _ _ _ _ _ _ (initialize_sector_map_builds 100 busy_quadrant mix_rng) Hrun)
    as [Hb _].
  exact (building_consistent busy_quadrant _ Hb).
Qed.

Lemma busy_placed_consistent : sectors_consistent (snd busy_placed).
Proof.
  pose proof (ensures_run _ _ _ _ _ _
                (place_enterprise_on_map 100 7 4 busy_sectors busy_rng busy_sectors_map
                   ltac:(unfold in_sector; cbn; lia))
                busy_placed_run) as (Hp & Hcell & _ & m & Hq & _ & Hm & Hnew & Hrest).
  cbn [fst snd] in Hq. rewrite Hq.
  exact (sectors_consistent_place busy_sectors _ m busy_sectors_consistent Hp Hcell Hm Hnew Hrest).
Qed.

(** X15: [fire_phasers] on a quadrant whose sector map agrees with its
    records always ends.  A refusal changes nothing.  A volley that is
    fired takes exactly the energy asked for from the ship and reports one
    damage for every hostile ship, in order; the ships whose energy the
    damage reaches are taken out of the list and off the map, the others
    stay with their energy reduced by their damage; the hostile count of
    the quadrant goes down by the number reported destroyed; the map still
    agrees with the records and nothing else in the quadrant changes.  When
    an exception ends the volley (the overheat branch among others), the
    energy is spent and at most the energies of the hostile ships have
    changed. *)
Theorem fire_phasers_on_consistent_quadrant (E : Z) (e : Enterprise.t) (q : Quadrant.t)
    (rng : Rng) :
  sectors_consistent q ->
  fire_phasers E ((e, q), rng) <> OutOfFuel /\
  (forall res e' q' rng',
     fire_phasers E ((e, q), rng) = Ret res ((e', q'), rng') ->
     if combat_success res then
       let ships := Quadrant.klingon_ships q in
       let ds := snd <$> damage_dealt res in
       0 < E <= Enterprise.energy e /\
       e' = Enterprise.set_energy (Enterprise.energy e - E) e /\
       fst <$> damage_dealt res = ship_pos <$> ships /\
       Quadrant.klingon_ships q' = phaser_survivors ships ds /\
       klingons_destroyed res = Z.of_nat (length (phaser_kills ships ds)) /\
       Quadrant.klingons q' = Quadrant.klingons q - klingons_destroyed res /\
       sectors_consistent q' /\
       cleared_at (ship_pos <$> (phaser_kills ships ds).*1)
                  (Quadrant.sector_map q) (Quadrant.sector_map q') /\
       same_but_hostiles q q'
     else e' = e /\ q' = q /\ rng' = rng /\ klingons_destroyed res = 0) /\
  (forall x e' q' rng',
     fire_phasers E ((e, q), rng) = Raise x ((e', q'), rng') ->
     e' = Enterprise.set_energy (Enterprise.energy e - E) e /\
     hostiles_in_place q q' /\ sectors_consistent q').
Proof.
  intros Hcons.
  pose proof (fire_phasers_volley E e q rng Hcons) as Hfire.
  pose proof (fire_phasers_refusal E ((e, q), rng)) as Hrefused.
  pose proof (fire_phasers_finishes E ((e, q), rng)) as Hfin.
  unfold ensures in Hfire, Hrefused.
  destruct (fire_phasers E ((e, q), rng)) as [res0 s0 | x0 s0 |]; [| | contradiction].
  - split; [discriminate |]. split; [| discriminate].
    intros res e' q' rng' Heq. injection Heq as <- ->.
    destruct (combat_success res0) eqn:Hok.
    + destruct (Hfire eq_refl) as (HE & He' & Hpos & Hlen & Hcount & Hrem).
      cbn [fst snd] in He', Hrem.
      destruct Hrem as (Hcons' & Hn & Hships & Hclear & Hsame).
      cbn [Quadrant.klingon_ships Quadrant.set_klingon_ships Quadrant.klingons
           Quadrant.sector_map] in Hn, Hships, Hclear.
      rewrite length_fmap in Hlen. rewrite !length_fmap in Hn.
      cbn zeta.
      split; [exact HE |]. split; [exact He' |]. split; [exact Hpos |].
      split.
      { rewrite Hships. apply survivors_by_position; [| apply Hcons].
        rewrite length_fmap. exact Hlen. }
      split; [exact Hcount |]. split; [rewrite Hcount; exact Hn |].
      split; [exact Hcons' |]. split; [exact Hclear |].
      destruct Hsame as (? & ? & ? & ? & ? & ? & ?). unfold same_but_hostiles. auto 10.
    + destruct (Hrefused eq_refl) as [Hs Hz]. injection Hs as -> -> ->. auto.
  - split; [discriminate |]. split; [discriminate |].
    intros x e' q' rng' Heq. injection Heq as <- ->.
    destruct Hfire as (_ & He' & Hplace). cbn [fst snd] in He', Hplace.
    split; [exact He' |]. split; [exact Hplace |].
    apply (sectors_consistent_in_place q q' Hcons Hplace).
Qed.

Lemma busy_volley_run :
  fire_phasers 1000 ((busy_ship, snd busy_placed), busy_placed_rng) =
  Ret (fst busy_volley) (snd busy_volley).
Proof. vm_compute. reflexivity. Qed.

Lemma fire_phasers_on_consistent_quadrant_witness :
  damage_dealt (fst busy_volley) = [(7, 4, 188); (4, 3, 411)] /\
  klingons_destroyed (fst busy_volley) = 1 /\
  Quadrant.klingons (snd (fst (snd busy_volley))) = 1 /\
  sectors_consistent (snd (fst (snd busy_volley))).
Proof.
  split; [reflexivity |]. split; [reflexivity |].
  pose proof (proj1 (proj2 (fire_phasers_on_consistent_quadrant 1000 busy_ship (snd busy_placed)
                              busy_placed_rng busy_placed_consistent))
                (fst busy_volley) (fst (fst (snd busy_volley))) (snd (fst (snd busy_volley)))
                (snd (snd busy_volley)) busy_volley_run) as H.
  change (combat_success (fst busy_volley)) with true in H.
  destruct H as (_ & _ & _ & _ & _ & Hn & Hcons & _).
  split; [exact Hn | exact Hcons].
Defined.

(** * The PHA command and the hostile counters *)

Lemma ensures_conj {S A} (m : M S A) (s : S) (Q1 Q2 : A -> S -> Prop)
    (E1 E2 : PyExn -> S -> Prop) :
  ensures m s Q1 E1 -> ensures m s Q2 E2 ->
  ensures m s (fun a s' => Q1 a s' /\ Q2 a s') (fun e s' => E1 e s' /\ E2 e s').
Proof. unfold ensures. destruct (m s); auto. Qed.

Lemma stored_quadrant_ok (w : World) (q q' : Quadrant.t) (e' : Enterprise.t) (rng' : Rng) :
  quadrant_at (galaxy w) (Enterprise.quadrant_row (enterprise w))
              (Enterprise.quadrant_col (enterprise w)) = Some q ->
  Enterprise.quadrant_row e' = Enterprise.quadrant_row (enterprise w) ->
  Enterprise.quadrant_col e' = Enterprise.quadrant_col (enterprise w) ->
  sectors_consistent q' ->
  current_quadrant_ok
    (store_back (Enterprise.quadrant_row (enterprise w)) (Enterprise.quadrant_col (enterprise w))
                (MkWorld (galaxy w) e' rng', Some q')).
Proof.
  intros Hq Hr Hc Hcons q1. unfold store_back.
  cbn [fst snd update the_galaxy galaxy enterprise]. rewrite Hr, Hc.
  rewrite quadrant_at_store_eq by (rewrite Hq; eauto).
  intros [= <-] _. exact Hcons.
Qed.

(** The hostile counter of the galaxy counted down [n] times. *)
Lemma klingon_destroyed_run (n : nat) (w : World) :
  ensures (repeat_times n (zoom the_galaxy Galaxy.klingon_destroyed)) w
    (fun _ w' =>
       w' = MkWorld (Galaxy.set_total_klingons (Galaxy.total_klingons (galaxy w) - Z.of_nat n)
                       (galaxy w))
                    (enterprise w) (rng w))
    (fun _ _ => False).
Proof.
  revert w. induction n as [| n IH]; intros w; cbn [repeat_times].
  - apply ensures_ret. change (Z.of_nat 0) with 0. rewrite Z.sub_0_r.
    destruct w as [[] ? ?]. reflexivity.
  - apply ensures_bind, ensures_zoom. unfold Galaxy.klingon_destroyed. apply ensures_modify.
    eapply ensures_weaken; [apply IH | | auto]. cbn beta.
    intros _ w' ->.
    replace (Galaxy.total_klingons (galaxy w) - Z.of_nat (Datatypes.S n))
      with (Galaxy.total_klingons (galaxy w) - 1 - Z.of_nat n) by lia.
    destruct w as [[] ? ?]. reflexivity.
Qed.

Lemma klingons_counted_down (n : Z) (w : World) :
  let w' := MkWorld (Galaxy.set_total_klingons (Galaxy.total_klingons (galaxy w) - n) (galaxy w))
                    (enterprise w) (rng w) in
  klingon_balance w' = klingon_balance w - n /\ (current_quadrant_ok w -> current_quadrant_ok w').
Proof.
  intros w'. subst w'. split.
  - unfold klingon_balance, galaxy_sum.
    cbn [galaxy Galaxy.total_klingons Galaxy.quadrants Galaxy.set_total_klingons]. lia.
  - intros Hok q. exact (Hok q).
Qed.

Lemma execute_pha_effects (energy_in : option Z) (w : World) :
  current_quadrant_ok w ->
  ensures (execute_pha energy_in) w
    (fun _ w' => phasers_fired w 0 w') (fun _ w' => phasers_fired w 0 w').
Proof.
  intros Hok.
  assert (Hsame : phasers_fired w 0 w).
  { split; [lia |]. split; [exact Hok |]. exists (Enterprise.energy (enterprise w)).
    destruct (enterprise w); reflexivity. }
  unfold execute_pha. apply ensures_bind, ensures_gets.
  destruct (negb _); [apply ensures_ret; exact Hsame |].
  apply ensures_bind, ensures_get_current_quadrant.
  - intros; exact Hsame.
  - intros _. apply ensures_bind, ensures_with_quadrant_gets; [intros; exact Hsame |].
    intros r c q [=].
  - intros Hb. apply ensures_bind, ensures_with_quadrant_gets; [intros; exact Hsame |].
    intros r c q [= <- <-] Hq. cbn [snd].
    destruct (decide (Quadrant.klingon_ships q = [])) as [Hnil | Hne].
    { rewrite Hnil. apply ensures_ret. exact Hsame. }
    rewrite (not_nil_branch _ _ _ Hne).
    destruct energy_in as [energy |]; [| apply ensures_ret; exact Hsame].
    destruct (energy <=? 0); [apply ensures_ret; exact Hsame |].
    apply ensures_bind.
    apply (ensures_weaken _ _
             (fun res w1 => phasers_fired w (klingons_destroyed res) w1 /\
                            0 <= klingons_destroyed res)
             _ (fun _ w1 => phasers_fired w 0 w1)); [| | auto].
    + apply ensures_with_quadrant; [intros; exact Hsame |].
      intros r c q2 [= <- <-] Hq2. assert (q2 = q) by congruence. subst q2.
      apply ensures_zoom. cbn [view combat_state fst snd].
      eapply ensures_weaken;
        [apply (ensures_conj _ _ _ _ _ _
                  (fire_phasers_volley energy _ _ _ (Hok q Hq Hne))
                  (fire_phasers_refusal energy _)) | |]; cbn beta.
      * intros res [[e' q'] rng'] [Hv Hr]. cbn [update combat_state fst snd].
        destruct (combat_success res) eqn:Hs.
        -- destruct (Hv eq_refl) as (_ & He' & _ & _ & Hcount & Hcons' & Hn & _).
           cbn [fst snd Quadrant.klingons Quadrant.set_klingon_ships] in He', Hcons', Hn.
           rewrite !length_fmap in Hn.
           split; [| lia]. split; [| split].
           ++ rewrite (klingon_balance_store w _ _ q q' _ _ Hq). lia.
           ++ apply (stored_quadrant_ok w q q' e' rng' Hq); [| | exact Hcons'];
                rewrite He'; reflexivity.
           ++ cbn [store_back fst snd update the_galaxy enterprise]. eauto.
        -- destruct (Hr eq_refl) as [Heq Hz]. injection Heq as -> -> ->. rewrite Hz.
           replace (MkWorld (galaxy w) (enterprise w) (rng w)) with w by (destruct w; reflexivity).
           rewrite (store_back_same w _ _ q Hq). split; [exact Hsame | lia].
      * intros x [[e' q'] rng'] [(_ & He' & Hplace) _]. cbn [update combat_state fst snd] in *.
        destruct (sectors_consistent_in_place q q' (Hok q Hq Hne) Hplace) as (Hcons' & Hn & _).
        split; [| split].
        -- rewrite (klingon_balance_store w _ _ q q' _ _ Hq). lia.
        -- apply (stored_quadrant_ok w q q' e' rng' Hq); [| | exact Hcons'];
             rewrite He'; reflexivity.
        -- cbn [store_back fst snd update the_galaxy enterprise]. eauto.
    + cbn beta. intros res w1 [(Hbal & Hok1 & v & Hship) Hn]. apply ensures_bind.
      apply (ensures_weaken _ _ (fun _ w2 => phasers_fired w 0 w2) _ (fun _ _ => False));
        [| | intros ? ? []].
      * destruct (Z.ltb_spec 0 (klingons_destroyed res)) as [Hpos | Hzero].
        -- eapply ensures_weaken; [apply klingon_destroyed_run | | auto]. cbn beta.
           intros _ w2 ->.
           destruct (klingons_counted_down (Z.of_nat (Z.to_nat (klingons_destroyed res))) w1)
             as [Hb2 Hk2].
           split; [rewrite Hb2, Hbal; lia |]. split; [exact (Hk2 Hok1) |].
           exists v. exact Hship.
        -- apply ensures_ret. replace 0 with (klingons_destroyed res) by lia.
           split; [exact Hbal |]. split; [exact Hok1 |]. exists v. exact Hship.
      * cbn beta. intros _ w2 Hf2.
        apply ensures_bind, ensures_with_quadrant_gets; [intros; exact Hf2 |].
        intros. apply ensures_ret. exact Hf2.
Qed.

Lemma execute_pha_finishes (energy_in : option Z) : finishes (execute_pha energy_in).
Proof.
  unfold execute_pha, Galaxy.klingon_destroyed.
  repeat first
    [ apply get_current_quadrant_finishes
    | apply with_quadrant_finishes
    | apply fire_phasers_finishes
    | finishes_step ].
Qed.

(** X16: the PHA command always ends.  With the ship in a quadrant whose
    sector map agrees with its records, whatever the volley does (a
    refusal, hits, ships destroyed, an exception), the galaxy-wide hostile
    counter stays in step with the quadrants: [total_klingons] minus the
    sum of the hostile counts of the 64 quadrants is the same after as
    before.  The quadrant of the ship still agrees with its records, and of
    the ship nothing but its energy has changed. *)
Theorem execute_pha_keeps_hostile_counters_in_step (energy_in : option Z) (w : World) :
  current_quadrant_ok w ->
  execute_pha energy_in w <> OutOfFuel /\
  (forall res w',
     execute_pha energy_in w = Ret res w' ->
     klingon_balance w' = klingon_balance w /\ current_quadrant_ok w' /\
     exists v, enterprise w' = Enterprise.set_energy v (enterprise w)) /\
  (forall x w',
     execute_pha energy_in w = Raise x w' ->
     klingon_balance w' = klingon_balance w /\ current_quadrant_ok w' /\
     exists v, enterprise w' = Enterprise.set_energy v (enterprise w)).
Proof.
  intros Hok.
  pose proof (execute_pha_effects energy_in w Hok) as H.
  pose proof (execute_pha_finishes energy_in w) as Hfin.
  unfold ensures, phasers_fired in H. rewrite Z.add_0_r in H.
  destruct (execute_pha energy_in w) as [res0 w0 | x0 w0 |]; [| | contradiction].
  - split; [discriminate |]. split; [| discriminate].
    intros res w' [= <- <-]. exact H.
  - split; [discriminate |]. split; [discriminate |].
    intros x w' [= <- <-]. exact H.
Qed.

Lemma busy_world_ok : current_quadrant_ok busy_world.
Proof.
  intros q Hq _.
  assert (Hat : quadrant_at (galaxy busy_world) 2 5 = Some (snd busy_placed))
    by (vm_compute; reflexivity).
  change (quadrant_at (galaxy busy_world) 2 5 = Some q) in Hq.
  rewrite Hat in Hq. injection Hq as <-. exact busy_placed_consistent.
Qed.

Lemma busy_world_pha_run :
  execute_pha (Some 1000) busy_world = Ret (fst busy_world_after_pha) (snd busy_world_after_pha).
Proof. vm_compute. reflexivity. Qed.

Lemma execute_pha_keeps_hostile_counters_in_step_witness :
  Galaxy.total_klingons (galaxy (snd busy_world_after_pha)) =
    Galaxy.total_klingons (galaxy busy_world) - 1 /\
  klingon_balance (snd busy_world_after_pha) = klingon_balance busy_world.
Proof.
  split; [reflexivity |].
  exact (proj1 (proj1 (proj2 (execute_pha_keeps_hostile_counters_in_step (Some 1000) busy_world
                                busy_world_ok))
                  _ _ busy_world_pha_run)).
Defined.

(** * game/galaxy.py: the quadrants of a generated galaxy *)

Lemma each_quadrant_store (R R' : Z -> Z -> Quadrant.t -> Prop) (g g' : Galaxy.t)
    (r c : Z) (q : Quadrant.t) :
  0 <= r < 8 -> 0 <= c < 8 ->
  each_quadrant R g ->
  R' r c q ->
  (forall r' c' q1, 0 <= r' < 8 -> 0 <= c' < 8 -> (r', c') <> (r, c) ->
     R r' c' q1 -> R' r' c' q1) ->
  Galaxy.quadrants g' = Galaxy.quadrants (Galaxy.store_quadrant r c q g) ->
  each_quadrant R' g'.
Proof.
  intros Hr Hc Hall Hq Hrest Hquads r' c' Hr' Hc'.
  unfold quadrant_at. rewrite Hquads. fold (quadrant_at (Galaxy.store_quadrant r c q g) r' c').
  destruct (decide ((r', c') = (r, c))) as [[= -> ->] | Hne].
  - exists q. split; [| exact Hq].
    apply quadrant_at_store_eq. destruct (Hall r c Hr Hc) as (q0 & Hq0 & _). rewrite Hq0. eauto.
  - destruct (Hall r' c' Hr' Hc') as (q1 & Hq1 & HR). exists q1.
    split; [| apply Hrest; assumption].
    rewrite quadrant_at_store_ne; [exact Hq1 | lia | lia | lia | lia | congruence].
Qed.

Lemma each_quadrant_weaken (R R' : Z -> Z -> Quadrant.t -> Prop) (g g' : Galaxy.t) :
  each_quadrant R g ->
  (forall r c q, 0 <= r < 8 -> 0 <= c < 8 -> R r c q -> R' r c q) ->
  Galaxy.quadrants g' = Galaxy.quadrants g ->
  each_quadrant R' g'.
Proof.
  intros Hall Himp Hquads r c Hr Hc. unfold quadrant_at. rewrite Hquads.
  destruct (Hall r c Hr Hc) as (q & Hq & HR). exists q. split; [exact Hq | auto].
Qed.

Lemma drawn_counts_same (r c : Z) (q q' : Quadrant.t) :
  drawn_counts r c q -> same_but_counts q q' ->
  0 <= Quadrant.klingons q' <= 3 -> 0 <= Quadrant.starbases q' <= 1 ->
  0 <= Quadrant.stars q' <= 8 ->
  drawn_counts r c q'.
Proof.
  intros (Hr & Hc & _ & _ & _ & Hs & Hm & Hk & Hb & Hst) (Hr' & Hc' & Hs' & Hm' & Hk' & Hb' & Hst')
         Hkr Hbr Hsr.
  unfold drawn_counts, unvisited. repeat split; congruence || lia.
Qed.

(** The body of the generation loops draws the three counts of its
    quadrant and touches no other quadrant. *)
Lemma populate_quadrant_counts (g : Galaxy.t) (rng : Rng) (r c : Z) (q0 : Quadrant.t) :
  quadrant_at g r c = Some q0 ->
  returns (Galaxy.populate_quadrant r c) (g, rng) (fun _ s' =>
    exists q,
      same_but_counts q0 q /\
      0 <= Quadrant.klingons q <= 3 /\
      (Quadrant.starbases q = Quadrant.starbases q0 \/ Quadrant.starbases q = 1) /\
      1 <= Quadrant.stars q <= 8 /\
      Galaxy.quadrants (fst s') = Galaxy.quadrants (Galaxy.store_quadrant r c q g)).
Proof.
  intros Hq0. unfold Galaxy.populate_quadrant.
  assert (Hsome : is_Some (quadrant_at g r c)) by (rewrite Hq0; eauto).
  apply returns_bind, returns_zoom, returns_random_random. intros x.
  set (k := if (x <? 0.08)%float then 3 else if (x <? 0.20)%float then 2
            else if (x <? 0.50)%float then 1 else 0).
  assert (Hk : 0 <= k <= 3).
  { subst k. destruct (x <? 0.08)%float, (x <? 0.20)%float, (x <? 0.50)%float; lia. }
  apply returns_bind, returns_zoom.
  eapply returns_on_quadrant_modify; [exact Hq0 |].
  apply returns_bind, returns_zoom.
  eapply returns_on_quadrant_gets; [apply quadrant_at_store_eq; exact Hsome |].
  apply returns_bind, returns_zoom, returns_modify.
  apply returns_bind, returns_zoom, returns_random_random. intros y.
  cbn [view update Galaxy.self Galaxy.random fst_lens snd_lens fst snd].
  destruct (y <? 0.04)%float.
  - apply returns_bind. apply returns_bind, returns_zoom.
    eapply returns_on_quadrant_modify.
    { change (quadrant_at (Galaxy.set_total_klingons ?v ?x) r c) with (quadrant_at x r c).
      apply quadrant_at_store_eq; exact Hsome. }
    apply returns_zoom, returns_modify.
    apply returns_bind, returns_zoom, returns_random_randint. intros n Hn.
    apply returns_zoom.
    cbn [view update Galaxy.self Galaxy.random fst_lens snd_lens fst snd].
    eapply returns_on_quadrant_modify.
    { rewrite store_quadrant_set_total_klingons, store_quadrant_twice.
      change (quadrant_at (Galaxy.set_total_starbases ?v (Galaxy.set_total_klingons ?v' ?x)) r c)
        with (quadrant_at x r c).
      apply quadrant_at_store_eq; exact Hsome. }
    cbn [view update Galaxy.self Galaxy.random fst_lens snd_lens fst snd].
    exists (Quadrant.set_stars n (Quadrant.set_starbases 1 (Quadrant.set_klingons k q0))).
    split; [unfold same_but_counts; cbn; auto 10 |].
    split; [exact Hk |]. split; [right; reflexivity |]. split; [cbn; lia |].
    rewrite !store_quadrant_set_total_klingons, !store_quadrant_set_total_starbases,
      !store_quadrant_set_total_klingons, !store_quadrant_twice.
    reflexivity.
  - apply returns_bind, returns_ret.
    apply returns_bind, returns_zoom, returns_random_randint. intros n Hn.
    apply returns_zoom.
    cbn [view update Galaxy.self Galaxy.random fst_lens snd_lens fst snd].
    eapply returns_on_quadrant_modify.
    { change (quadrant_at (Galaxy.set_total_klingons ?v ?x) r c) with (quadrant_at x r c).
      apply quadrant_at_store_eq; exact Hsome. }
    cbn [view update Galaxy.self Galaxy.random fst_lens snd_lens fst snd].
    exists (Quadrant.set_stars n (Quadrant.set_klingons k q0)).
    split; [unfold same_but_counts; cbn; auto 10 |].
    split; [exact Hk |]. split; [left; reflexivity |]. split; [cbn; lia |].
    rewrite !store_quadrant_set_total_klingons, !store_quadrant_twice.
    reflexivity.
Qed.

(** One row of the generation loops. *)
Lemma populate_row_draws (D : Z -> Z -> Prop) (r : Z) (g : Galaxy.t) (rng : Rng) :
  0 <= r < 8 ->
  each_quadrant (drawn_on D) g ->
  returns (for_each (range 8) (fun c => Galaxy.populate_quadrant r c)) (g, rng) (fun _ s' =>
    each_quadrant (drawn_on (fun r' c' => D r' c' \/ r' = r)) (fst s')).
Proof.
  intros Hr Hall0.
  pose (P := fun (cols : list Z) (s : Galaxy.t * Rng) =>
    exists pre, range 8 = pre ++ cols /\
      each_quadrant (drawn_on (fun r' c' => D r' c' \/ (r' = r /\ c' ∈ pre))) (fst s)).
  eapply returns_weaken.
  - apply (returns_for_each P).
    + intros c cols [g1 rng1] (pre & Hpre & Hall). cbn [fst] in *.
      destruct (range_8_suffix _ _ _ Hpre) as (Hc & _ & _).
      destruct (Hall r c Hr Hc) as (q0 & Hq0 & Hd0 & _).
      eapply returns_weaken; [apply (populate_quadrant_counts g1 rng1 r c q0 Hq0) |].
      intros u [g2 rng2] (q & Hsame & Hk & Hb & Hs & Hquads). cbn [fst] in *.
      exists (pre ++ [c]). split; [rewrite <- app_assoc; exact Hpre |].
      eapply (each_quadrant_store _ _ g1 g2 r c q Hr Hc Hall); [| | exact Hquads].
      * split; [| intros _; lia]. apply (drawn_counts_same r c q0 q Hd0 Hsame); try lia.
        destruct Hd0 as (_ & _ & _ & ? & _). lia.
      * intros r' c' q1 Hr' Hc' Hne [Hd1 Hst1]. split; [exact Hd1 |].
        intros [HD | [-> Hin]]; [apply Hst1; left; exact HD |].
        apply elem_of_app in Hin. destruct Hin as [Hin | Hin].
        -- apply Hst1. right. auto.
        -- apply list_elem_of_singleton in Hin. subst c'. congruence.
    + exists []. split; [reflexivity |]. cbn [fst].
      eapply each_quadrant_weaken; [exact Hall0 | | reflexivity].
      intros r' c' q _ _ [Hd Hst]. split; [exact Hd |].
      intros [HD | [_ Hin]]; [auto | inversion Hin].
  - intros u s' (pre & Hpre & Hall). rewrite app_nil_r in Hpre. subst pre.
    eapply each_quadrant_weaken; [exact Hall | | reflexivity].
    intros r' c' q Hr' Hc' [Hd Hst]. split; [exact Hd |].
    intros [HD | ->]; apply Hst; [left; exact HD | right].
    split; [reflexivity | apply elem_of_range_8; lia].
Qed.

(** The generation loops as a whole. *)
Lemma populate_all_draws (g : Galaxy.t) (rng : Rng) :
  each_quadrant drawn_counts g ->
  returns (for_each (range 8)
             (fun r => for_each (range 8) (fun c => Galaxy.populate_quadrant r c)))
    (g, rng) (fun _ s' => each_quadrant generated_quadrant (fst s')).
Proof.
  intros Hall0.
  pose (P := fun (rows : list Z) (s : Galaxy.t * Rng) =>
    exists pre, range 8 = pre ++ rows /\
      each_quadrant (drawn_on (fun r' _ => r' ∈ pre)) (fst s)).
  eapply returns_weaken.
  - apply (returns_for_each P).
    + intros r rows [g1 rng1] (pre & Hpre & Hall). cbn [fst] in *.
      destruct (range_8_suffix _ _ _ Hpre) as (Hr & _ & _).
      eapply returns_weaken; [apply (populate_row_draws _ r g1 rng1 Hr Hall) |].
      intros u [g2 rng2] Hall2. cbn [fst] in *.
      exists (pre ++ [r]). split; [rewrite <- app_assoc; exact Hpre |].
      eapply each_quadrant_weaken; [exact Hall2 | | reflexivity].
      intros r' c' q _ _ [Hd Hst]. split; [exact Hd |].
      intros Hin. apply Hst. apply elem_of_app in Hin.
      destruct Hin as [Hin | Hin]; [left; exact Hin | right].
      apply list_elem_of_singleton in Hin. exact Hin.
    + exists []. split; [reflexivity |]. cbn [fst].
      eapply each_quadrant_weaken; [exact Hall0 | | reflexivity].
      intros r' c' q _ _ Hd. split; [exact Hd |]. intros Hin. inversion Hin.
  - intros u s' (pre & Hpre & Hall). rewrite app_nil_r in Hpre. subst pre.
    eapply each_quadrant_weaken; [exact Hall | | reflexivity].
    intros r' c' q Hr' Hc' [Hd Hst]. split; [exact Hd |].
    apply Hst. apply elem_of_range_8. lia.
Qed.

Lemma generation_start_drawn (g : Galaxy.t) : each_quadrant drawn_counts (generation_start g).
Proof.
  intros r c Hr Hc. exists (Quadrant.new r c).
  apply elem_of_range_8 in Hr, Hc. change (range 8) with [0; 1; 2; 3; 4; 5; 6; 7] in Hr, Hc.
  split.
  - repeat (apply elem_of_cons in Hr as [-> | Hr]); [.. | inversion Hr];
      (repeat (apply elem_of_cons in Hc as [-> | Hc]); [.. | inversion Hc]); reflexivity.
  - unfold drawn_counts, unvisited. cbn. repeat split; lia.
Qed.

(** A change of the counts of one quadrant that stays in the ranges. *)
Lemma generated_quadrant_store (g g' : Galaxy.t) (r c : Z) (q0 q : Quadrant.t) :
  0 <= r < 8 -> 0 <= c < 8 ->
  each_quadrant generated_quadrant g ->
  quadrant_at g r c = Some q0 ->
  same_but_counts q0 q ->
  0 <= Quadrant.klingons q <= 3 -> 0 <= Quadrant.starbases q <= 1 ->
  Quadrant.stars q = Quadrant.stars q0 ->
  Galaxy.quadrants g' = Galaxy.quadrants (Galaxy.store_quadrant r c q g) ->
  each_quadrant generated_quadrant g'.
Proof.
  intros Hr Hc Hall Hq0 Hsame Hk Hb Hs Hquads.
  destruct (Hall r c Hr Hc) as (q0' & Hq0' & Hd0 & Hst0).
  assert (q0' = q0) by congruence. subst q0'.
  eapply (each_quadrant_store _ _ g g' r c q Hr Hc Hall); [| auto | exact Hquads].
  split; [| lia].
  apply (drawn_counts_same r c q0 q Hd0 Hsame Hk Hb).
  destruct Hd0 as (_ & _ & _ & _ & ? & _). lia.
Qed.

Lemma initialize_quadrants (fuel : nat) (g0 : Galaxy.t) (rng : Rng) :
  ensures (Galaxy._initialize fuel) (g0, rng)
    (fun _ s' =>
       each_quadrant generated_quadrant (fst s') /\
       Galaxy.initial_klingons (fst s') = Galaxy.total_klingons (fst s') /\
       25 <= Galaxy.time_limit (fst s') <= 35 /\
       exists d, 20 <= d <= 40 /\ Galaxy.stardate (fst s') = (Z2F d * 100.0)%float)
    (fun _ _ => False).
Proof.
  unfold Galaxy._initialize.
  apply ensures_bind_returns, returns_zoom, returns_modify.
  apply ensures_bind_returns, returns_zoom, returns_modify.
  apply ensures_bind_returns, returns_zoom, returns_modify.
  cbn [view update Galaxy.self Galaxy.random fst_lens snd_lens fst snd].
  change (Galaxy.set_total_starbases 0 (Galaxy.set_total_klingons 0 (Galaxy.set_quadrants _ g0)))
    with (generation_start g0).
  apply ensures_bind_returns.
  eapply returns_weaken; [apply populate_all_draws, generation_start_drawn |].
  intros u [g1 rng1] Hall1. cbn [fst] in Hall1.
  apply ensures_bind_returns, returns_gets. cbn [fst].
  apply ensures_bind_returns.
  apply (returns_weaken _ _ (fun _ s' => each_quadrant generated_quadrant (fst s'))).
  { destruct (Galaxy.total_starbases g1 =? 0).
    - apply returns_bind, returns_zoom, returns_random_randint. intros r Hr.
      apply returns_bind, returns_zoom, returns_random_randint. intros c Hc.
      cbn [view update Galaxy.self Galaxy.random fst_lens snd_lens fst snd].
      destruct (Hall1 r c ltac:(lia) ltac:(lia)) as (q0 & Hq0 & _).
      apply returns_bind, returns_zoom.
      eapply returns_on_quadrant_modify; [exact Hq0 |].
      apply returns_zoom, returns_modify.
      cbn [view update Galaxy.self Galaxy.random fst_lens snd_lens fst snd].
      apply (generated_quadrant_store g1 _ r c q0 (Quadrant.set_starbases 1 q0));
        try lia; try assumption; try reflexivity.
      + unfold same_but_counts. cbn. auto 10.
      + destruct (Hall1 r c ltac:(lia) ltac:(lia)) as (q0' & Hq0' & (_ & _ & Hk & _) & _).
        assert (q0' = q0) by congruence. subst q0'. exact Hk.
      + cbn. lia.
    - apply returns_ret. exact Hall1. }
  intros v [g2 rng2] Hall2. cbn [fst] in *.
  apply ensures_bind.
  eapply ensures_weaken.
  - apply (ensures_while_loop (fun s => each_quadrant generated_quadrant (fst s))
             fuel _ _ (fun _ _ => False)).
    + intros [g rng'] Hall _. cbn [fst] in *.
      apply returns_ensures. unfold Galaxy.top_up_klingons.
      apply returns_bind, returns_zoom, returns_random_randint. intros r Hr.
      apply returns_bind, returns_zoom, returns_random_randint. intros c Hc.
      cbn [view update Galaxy.self Galaxy.random fst_lens snd_lens fst snd].
      destruct (Hall r c ltac:(lia) ltac:(lia)) as (q0 & Hq0 & (_ & _ & Hk & Hb & _) & _).
      apply returns_bind, returns_zoom.
      eapply returns_on_quadrant_gets; [exact Hq0 |].
      cbn [view update Galaxy.self Galaxy.random fst_lens snd_lens fst snd].
      destruct (Z.ltb_spec (Quadrant.klingons q0) 3).
      * apply returns_bind, returns_zoom.
        eapply returns_on_quadrant_modify; [exact Hq0 |].
        apply returns_zoom, returns_modify.
        cbn [view update Galaxy.self Galaxy.random fst_lens snd_lens fst snd].
        apply (generated_quadrant_store g _ r c q0
                 (Quadrant.set_klingons (Quadrant.klingons q0 + 1) q0));
          try lia; try assumption; try reflexivity.
        -- unfold same_but_counts. cbn. auto 10.
        -- cbn. lia.
      * apply returns_ret. exact Hall.
    + exact Hall2.
  - intros w [g3 rng3] (Hall3 & _). cbn [fst] in *.
    apply ensures_bind_returns, returns_zoom, returns_modify.
    apply ensures_bind_returns, returns_zoom, returns_random_randint. intros d Hd.
    apply ensures_bind_returns, returns_zoom, returns_modify.
    apply ensures_bind_returns, returns_zoom, returns_random_randint. intros l Hl.
    apply returns_ensures, returns_zoom, returns_modify.
    cbn [view update Galaxy.self Galaxy.random fst_lens snd_lens fst snd].
    split; [| split; [reflexivity | split; [cbn; lia | exists d; split; [lia | reflexivity]]]].
    eapply each_quadrant_weaken; [exact Hall3 | auto | reflexivity].
  - intros e s' [].
Qed.

(** The three digits of a long-range scan value give back the counts of
    a quadrant whose counts are in the ranges of the generation. *)
Lemma lrs_value_digits (r c : Z) (q : Quadrant.t) :
  generated_quadrant r c q ->
  Quadrant.get_lrs_value q / 100 = Quadrant.klingons q /\
  Quadrant.get_lrs_value q / 10 mod 10 = Quadrant.starbases q /\
  Quadrant.get_lrs_value q mod 10 = Quadrant.stars q.
Proof.
  intros ((_ & _ & Hk & Hb & Hs & _) & _). unfold Quadrant.get_lrs_value.
  set (k := Quadrant.klingons q) in *. set (b := Quadrant.starbases q) in *.
  set (s := Quadrant.stars q) in *.
  assert (Hb' : b = 0 \/ b = 1) by lia. assert (Hk' : k = 0 \/ k = 1 \/ k = 2 \/ k = 3) by lia.
  assert (Hs' : s = 0 \/ s = 1 \/ s = 2 \/ s = 3 \/ s = 4 \/ s = 5 \/ s = 6 \/ s = 7 \/ s = 8)
    by lia.
  clearbody k b s.
  destruct Hb' as [-> | ->], Hk' as [-> | [-> | [-> | ->]]];
    repeat (destruct Hs' as [-> | Hs']; [repeat split; reflexivity |]);
    subst s; repeat split; reflexivity.
Qed.

(** X17: whenever galaxy generation completes, whatever the random stream,
    each of the 64 coordinate pairs holds a quadrant that carries its own
    coordinates, 0 to 3 hostiles, 0 or 1 starbase and 1 to 8 stars, and
    that is not scanned, without a sector map and without recorded
    positions; so that the three digits of its long-range scan value are
    its three counts.  The initial hostile count is the hostile counter,
    the time limit is between 25 and 35 days and the stardate is 100 times
    an integer between 20 and 40. *)
Theorem galaxy_generation_quadrants (fuel : nat) (rng rng' : Rng) (g : Galaxy.t) :
  Galaxy.new fuel rng = Ret g rng' ->
  each_quadrant
    (fun r c q =>
       generated_quadrant r c q /\
       Quadrant.get_lrs_value q / 100 = Quadrant.klingons q /\
       Quadrant.get_lrs_value q / 10 mod 10 = Quadrant.starbases q /\
       Quadrant.get_lrs_value q mod 10 = Quadrant.stars q) g /\
  Galaxy.initial_klingons g = Galaxy.total_klingons g /\
  25 <= Galaxy.time_limit g <= 35 /\
  exists d, 20 <= d <= 40 /\ Galaxy.stardate g = (Z2F d * 100.0)%float.
Proof.
  unfold Galaxy.new. intros Hnew.
  pose proof (initialize_quadrants fuel blank_galaxy rng) as H.
  unfold ensures, blank_galaxy in H.
  destruct (Galaxy._initialize fuel (Galaxy.mk [] 0 0 0 0%float 0, rng)) as [u [g1 r1] | e [g1 r1] |];
    [| discriminate ..].
  injection Hnew as -> ->. cbn [fst] in *.
  destruct H as (Hall & Hrest). split; [| exact Hrest].
  eapply each_quadrant_weaken; [exact Hall | | reflexivity].
  intros r c q _ _ Hq. split; [exact Hq | exact (lrs_value_digits r c q Hq)].
Qed.

Lemma galaxy_generation_quadrants_witness :
  Galaxy.new 100 mix_rng = Ret mix_galaxy (MkRng mix_stream mix_galaxy_cursor) /\
  (exists q, quadrant_at mix_galaxy 1 6 = Some q /\ generated_quadrant 1 6 q) /\
  25 <= Galaxy.time_limit mix_galaxy <= 35.
Proof.
  assert (Hnew : Galaxy.new 100 mix_rng = Ret mix_galaxy (MkRng mix_stream mix_galaxy_cursor))
    by (vm_compute; reflexivity).
  split; [exact Hnew |].
  destruct (galaxy_generation_quadrants 100 mix_rng _ mix_galaxy Hnew) as (Hall & _ & Ht & _).
  split; [| exact Ht].
  destruct (Hall 1 6 ltac:(lia) ltac:(lia)) as (q & Hq & Hgen & _).
  exists q. split; [exact Hq | exact Hgen].
Defined.

(** * startrek.py: the start of a game *)

(** A method of the referenced quadrant that uses the random stream. *)
Lemma ensures_quadrant_random {A} (m : M (Quadrant.t * Rng) A) (g : Galaxy.t)
    (e : Enterprise.t) (rn : Rng) (r c : Z) (q : Quadrant.t)
    (Q : A -> World -> Prop) (E : PyExn -> World -> Prop) :
  quadrant_at g r c = Some q ->
  ensures m (q, rn)
    (fun a t => Q a (MkWorld (Galaxy.store_quadrant r c (fst t) g) e (snd t)))
    (fun x t => E x (MkWorld (Galaxy.store_quadrant r c (fst t) g) e (snd t))) ->
  ensures (with_quadrant (Some (r, c)) (zoom quadrant_random m)) (MkWorld g e rn) Q E.
Proof.
  intros Hq Hm. unfold ensures, with_quadrant, zoom in *. cbn [galaxy].
  unfold quadrant_at in Hq. rewrite Hq.
  cbn [view quadrant_random fst snd rng].
  destruct (m (q, rn)) as [a t | x t |]; exact Hm.
Qed.

(** A method of the referenced quadrant that uses nothing else. *)
Lemma ensures_quadrant_only {A} (m : M Quadrant.t A) (g : Galaxy.t)
    (e : Enterprise.t) (rn : Rng) (r c : Z) (q : Quadrant.t)
    (Q : A -> World -> Prop) (E : PyExn -> World -> Prop) :
  quadrant_at g r c = Some q ->
  ensures m q
    (fun a q' => Q a (MkWorld (Galaxy.store_quadrant r c q' g) e rn))
    (fun x q' => E x (MkWorld (Galaxy.store_quadrant r c q' g) e rn)) ->
  ensures (with_quadrant (Some (r, c)) (zoom quadrant_only m)) (MkWorld g e rn) Q E.
Proof.
  intros Hq Hm. unfold ensures, with_quadrant, zoom in *. cbn [galaxy].
  unfold quadrant_at in Hq. rewrite Hq.
  cbn [view quadrant_only snd_lens fst snd].
  destruct (m q) as [a t | x t |]; exact Hm.
Qed.

Lemma ensures_get_quadrant (r c : Z) (g : Galaxy.t) (Q : option (Z * Z) -> Galaxy.t -> Prop)
    (E : PyExn -> Galaxy.t -> Prop) :
  0 <= r < 8 -> 0 <= c < 8 -> is_Some (quadrant_at g r c) ->
  Q (Some (r, c)) g -> ensures (Galaxy.get_quadrant r c) g Q E.
Proof.
  intros Hr Hc [q Hq] HQ. unfold Galaxy.get_quadrant.
  rewrite (proj2 (in_bounds_range r c)) by lia.
  apply ensures_bind, ensures_get. unfold quadrant_at in Hq. rewrite Hq.
  apply ensures_bind, ensures_ret, ensures_ret. exact HQ.
Qed.

(** What [Galaxy()] builds. *)
Lemma galaxy_new_ensures (fuel : nat) (rn : Rng) :
  ensures (Galaxy.new fuel) rn
    (fun g _ =>
       counters_consistent g /\ 10 <= Galaxy.total_klingons g /\
       1 <= Galaxy.total_starbases g /\ each_quadrant generated_quadrant g)
    (fun _ _ => False).
Proof.
  pose proof (initialize_ensures fuel blank_galaxy rn) as Hcount.
  pose proof (initialize_quadrants fuel blank_galaxy rn) as Hquads.
  unfold ensures, Galaxy.new, blank_galaxy in *.
  destruct (Galaxy._initialize fuel (Galaxy.mk [] 0 0 0 0%float 0, rn)) as [u [g r] | x [g r] |];
    [| exact Hcount | exact I].
  cbn [fst] in *. destruct Hcount as (Hc & Hk & Hs). destruct Hquads as (Hq & _). auto.
Qed.

(** The ship put on an empty sector of a map without the ship. *)
Lemma ship_placed (q : Quadrant.t) (p : Z * Z) (m : list (list EntityType)) :
  sectors_consistent q ->
  records_match (Quadrant.sector_map q) ENTERPRISE [] ->
  in_sector p -> cell_of (Quadrant.sector_map q) p = Some EMPTY ->
  map_8x8 m -> cell_of m p = Some ENTERPRISE ->
  (forall p', in_sector p' -> p' <> p -> cell_of m p' = cell_of (Quadrant.sector_map q) p') ->
  sectors_consistent (Quadrant.set_sector_map m q) /\
  records_match m ENTERPRISE [p].
Proof.
  intros Hcons Hnone Hp Hcell Hm Hnew Hrest.
  split; [exact (sectors_consistent_place q p m Hcons Hp Hcell Hm Hnew Hrest) |].
  pose proof (records_after_place _ _ _ ENTERPRISE ENTERPRISE _ Hnone Hp Hcell Hnew Hrest
                ltac:(discriminate)) as H.
  destruct (decide (ENTERPRISE = ENTERPRISE)); [exact H | congruence].
Qed.

Lemma initialize_game_ensures (fuel : nat) (w : World) :
  ensures (initialize_game fuel) w (fun _ w' => game_started w') (fun _ _ => False).
Proof.
  unfold initialize_game.
  apply ensures_bind, ensures_zoom.
  eapply ensures_weaken; [apply galaxy_new_ensures | | auto]. cbn beta.
  intros g rn1 (Hcons & Hk & Hs & Hall).
  apply ensures_bind, ensures_zoom, ensures_put.
  apply ensures_bind, ensures_zoom, ensures_put.
  cbn [view update the_galaxy the_ship the_random galaxy enterprise rng].
  apply ensures_bind, ensures_zoom, returns_ensures, returns_random_randint. intros qr Hqr.
  cbn [view update the_galaxy the_ship the_random galaxy enterprise rng].
  apply ensures_bind, ensures_zoom, returns_ensures, returns_random_randint. intros qc Hqc.
  cbn [view update the_galaxy the_ship the_random galaxy enterprise rng].
  apply ensures_bind, ensures_zoom, returns_ensures, returns_random_randint. intros sr Hsr.
  cbn [view update the_galaxy the_ship the_random galaxy enterprise rng].
  apply ensures_bind, ensures_zoom, returns_ensures, returns_random_randint. intros sc Hsc.
  cbn [view update the_galaxy the_ship the_random galaxy enterprise rng].
  destruct (Hall qr qc ltac:(lia) ltac:(lia)) as (q0 & Hq0 & Hgen).
  apply ensures_bind, ensures_zoom.
  cbn [view update the_galaxy the_ship the_random galaxy enterprise rng].
  apply ensures_get_quadrant; [lia | lia | rewrite Hq0; eauto |].
  apply ensures_bind.
  apply (ensures_quadrant_random _ g _ _ qr qc q0 _ _ Hq0).
  eapply ensures_weaken; [apply initialize_sector_map_builds | | auto]. cbn beta.
  intros _ [q1 rn6] [Hb Hsome]. cbn [fst snd].
  pose proof (building_consistent q0 _ Hb) as Hcons1.
  destruct Hb as (Hmap1 & _ & _ & _ & Hnone1 & _ & _ & _ & Hsame1). cbn [fst] in *.
  assert (Hat : forall q, quadrant_at (Galaxy.store_quadrant qr qc q g) qr qc = Some q).
  { intros q. apply quadrant_at_store_eq. rewrite Hq0. eauto. }
  apply ensures_bind.
  apply (ensures_quadrant_random _ _ _ _ qr qc q1 _ _ (Hat q1)).
  eapply ensures_weaken;
    [apply place_enterprise_on_map; [exact Hmap1 | unfold in_sector; cbn; lia] | | auto].
  cbn beta.
  intros [pr pc] [q2 rn7] (Hp & Hcell & _ & m & Hq2 & _ & Hm & Hnew & Hrest).
  cbn [fst snd] in Hq2 |- *. subst q2. rewrite store_quadrant_twice.
  destruct (ship_placed q1 _ m Hcons1 Hnone1 Hp Hcell Hm Hnew Hrest) as [Hcons2 Hship].
  apply ensures_bind, ensures_zoom. unfold Enterprise.set_position. apply ensures_modify.
  cbn [view update the_galaxy the_ship the_random galaxy enterprise rng].
  apply (ensures_quadrant_only _ _ _ _ qr qc _ _ _ (Hat _)).
  apply ensures_modify. rewrite store_quadrant_twice.
  set (q3 := Quadrant.set_scanned true (Quadrant.set_sector_map m q1)).
  unfold game_started, ship_on_map.
  cbn [galaxy enterprise Enterprise.quadrant_row Enterprise.quadrant_col
       Enterprise.sector_row Enterprise.sector_col Enterprise.new].
  destruct Hgen as ((Hr0 & Hc0 & Hk0 & Hb0 & Hs0 & _) & Hst0).
  destruct Hsame1 as (_ & _ & Hk1 & Hb1 & Hs1 & _).
  split; [| split; [| split; [| split; [| split]]]].
  - split; [lia |]. split; [lia |]. exists q3. split; [apply Hat |].
    split; [exact Hcons2 | exact Hship].
  - apply (counters_consistent_store g _ qr qc q0 q3 ltac:(apply in_bounds_range; lia)
             Hcons Hq0).
    + cbn. lia.
    + reflexivity.
    + cbn. rewrite (proj1 (store_quadrant_totals _ _ _ _)). lia.
    + cbn. rewrite (proj2 (store_quadrant_totals _ _ _ _)). lia.
  - rewrite (proj1 (store_quadrant_totals _ _ _ _)). exact Hk.
  - rewrite (proj2 (store_quadrant_totals _ _ _ _)). exact Hs.
  - reflexivity.
  - eapply (each_quadrant_store _ _ g _ qr qc q3 ltac:(lia) ltac:(lia) Hall); [| | reflexivity].
    + destruct (decide ((qr, qc) = (qr, qc))); [| congruence]. cbn. repeat split; lia.
    + intros r' c' q' _ _ Hne ((_ & _ & Hk' & Hb' & Hs' & Hun) & Hst').
      destruct (decide ((r', c') = (qr, qc))); [contradiction |].
      repeat split; try lia; apply Hun.
Qed.

(** X18: setting up a game never raises.  When it completes, the galaxy is
    as generated (consistent counters, at least 10 hostiles and 1
    starbase), the ship is as [Enterprise()] makes it and stands in a
    quadrant inside the galaxy, on a sector of an 8x8 map that agrees with
    the records of that quadrant and shows the ship there and nowhere
    else; that quadrant is marked as scanned, and every other quadrant is
    still unvisited. *)
Theorem initialize_game_sets_up (fuel : nat) (w : World) :
  (forall x w', initialize_game fuel w <> Raise x w') /\
  (forall w', initialize_game fuel w = Ret tt w' -> game_started w').
Proof.
  pose proof (initialize_game_ensures fuel w) as H. unfold ensures in H.
  destruct (initialize_game fuel w) as [[] w1 | x w1 |].
  - split; [discriminate |]. intros w' [= <-]. exact H.
  - destruct H.
  - split; discriminate.
Qed.

Lemma initialize_game_sets_up_witness :
  initialize_game 100 blank_world = Ret tt new_game_world /\ game_started new_game_world.
Proof.
  split; [exact new_game_world_is_initialized |].
  exact (proj2 (initialize_game_sets_up 100 blank_world) new_game_world new_game_world_is_initialized).
Defined.

(** * game/commands.py: a completed navigation *)

(** The quadrant coordinates of the movement loop: as long as no boundary
    was crossed they are those of the start, and once one was crossed they
    are inside the galaxy. *)
Lemma nav_walk_quadrant (steps : nat) (dr dc : float) (p0 p : NavPos) :
  nav_walk steps dr dc p0 = Some p ->
  crossed_quadrant p0 = false ->
  if crossed_quadrant p
  then 0 <= new_quad_row p < 8 /\ 0 <= new_quad_col p < 8
  else new_quad_row p = new_quad_row p0 /\ new_quad_col p = new_quad_col p0.
Proof.
  intros Hwalk Hstart.
  enough (H : forall p1,
             (if crossed_quadrant p1
              then 0 <= new_quad_row p1 < 8 /\ 0 <= new_quad_col p1 < 8
              else new_quad_row p1 = new_quad_row p0 /\ new_quad_col p1 = new_quad_col p0) ->
             nav_walk steps dr dc p1 = Some p ->
             if crossed_quadrant p
             then 0 <= new_quad_row p < 8 /\ 0 <= new_quad_col p < 8
             else new_quad_row p = new_quad_row p0 /\ new_quad_col p = new_quad_col p0).
  { apply (H p0); [rewrite Hstart; auto | exact Hwalk]. }
  clear Hwalk. induction steps as [| steps IH]; intros p1 Hinv Hwalk; cbn [nav_walk] in Hwalk.
  - injection Hwalk as <-. exact Hinv.
  - destruct (outside_galaxy (nav_advance dr dc p1)) eqn:Hout; [discriminate |].
    apply (IH (nav_advance dr dc p1)); [| exact Hwalk].
    unfold outside_galaxy in Hout. apply orb_false_elim in Hout as [Hout Hc2].
    apply orb_false_elim in Hout as [Hout Hc1]. apply orb_false_elim in Hout as [Hr1 Hr2].
    destruct (crossed_quadrant (nav_advance dr dc p1)) eqn:Hcr.
    + apply Z.ltb_ge in Hr1, Hc1. apply Z.leb_gt in Hr2, Hc2. lia.
    + clear Hr1 Hr2 Hc1 Hc2. unfold nav_advance in *.
      destruct (_ <? 0)%float; cbn [new_sect_col new_sect_row new_quad_row new_quad_col
                                    crossed_quadrant] in *.
      * destruct (_ <? 0)%float; [discriminate |]. destruct (8 <=? _)%float; discriminate.
      * destruct (8 <=? _)%float; cbn [new_sect_col new_sect_row new_quad_row new_quad_col
                                       crossed_quadrant] in *.
        -- destruct (_ <? 0)%float; [discriminate |]. destruct (8 <=? _)%float; discriminate.
        -- destruct (_ <? 0)%float; [discriminate |].
           destruct (8 <=? _)%float; [discriminate |].
           cbn [new_quad_row new_quad_col crossed_quadrant] in *.
           rewrite Hcr in Hinv. exact Hinv.
Qed.

Lemma in_sector_bounds_iff (r c : Z) : Quadrant.in_sector_bounds r c = true <-> in_sector (r, c).
Proof. unfold Quadrant.in_sector_bounds, in_sector. cbn. rewrite !andb_true_iff. lia. Qed.

(** Taking the ship off the map. *)
Lemma ship_taken_off (q : Quadrant.t) (r c : Z) :
  sectors_consistent q ->
  records_match (Quadrant.sector_map q) ENTERPRISE [(r, c)] ->
  exists m,
    Quadrant.remove_enterprise r c q = Ret tt (Quadrant.set_sector_map m q) /\
    Quadrant.set_cell r c ENTERPRISE (Quadrant.set_sector_map m q) = Ret tt q /\
    sectors_consistent (Quadrant.set_sector_map m q) /\
    records_match m ENTERPRISE [].
Proof.
  intros Hcons Hship.
  destruct (proj1 (proj2 Hship) (r, c) ltac:(left)) as [Hp Hcell].
  destruct (remove_enterprise_run q r c (proj2 (in_sector_bounds_iff r c) Hp) Hcell)
    as (m & Hset & Hrun).
  destruct (set_cell_run q (r, c) EMPTY (proj1 Hcons) Hp) as (m' & _ & Hset' & Hm & Hnew & Hrest).
  cbn [fst snd] in Hset'. assert (m' = m) by congruence. subst m'.
  exists m. split; [exact Hrun |]. split; [exact (set_cell_restores q r c m ENTERPRISE Hcell Hset) |].
  destruct Hcons as (Hmap & Hk & Hb & Hs & Hn).
  split.
  - unfold sectors_consistent.
    cbn [Quadrant.sector_map Quadrant.klingon_ships Quadrant.set_sector_map
         Quadrant.star_positions Quadrant.klingons].
    split; [exact Hm |].
    split; [| split; [| split; [| exact Hn]]].
    + pose proof (records_after_clear _ m _ ENTERPRISE KLINGON _ Hk Hp Hcell Hnew Hrest
                    ltac:(discriminate)) as H.
      destruct (decide (KLINGON = ENTERPRISE)); [discriminate | exact H].
    + change (starbase_list _) with (starbase_list q).
      pose proof (records_after_clear _ m _ ENTERPRISE STARBASE _ Hb Hp Hcell Hnew Hrest
                    ltac:(discriminate)) as H.
      destruct (decide (STARBASE = ENTERPRISE)); [discriminate | exact H].
    + pose proof (records_after_clear _ m _ ENTERPRISE STAR _ Hs Hp Hcell Hnew Hrest
                    ltac:(discriminate)) as H.
      destruct (decide (STAR = ENTERPRISE)); [discriminate | exact H].
  - pose proof (records_after_clear _ m _ ENTERPRISE ENTERPRISE _ Hship Hp Hcell Hnew Hrest
                  ltac:(discriminate)) as H.
    destruct (decide (ENTERPRISE = ENTERPRISE)); [| congruence].
    rewrite filter_cons_False in H by (intros Hne; apply Hne; reflexivity).
    exact H.
Qed.

Lemma galaxy_totals_store (g : Galaxy.t) (r c : Z) (q0 q : Quadrant.t) :
  quadrant_at g r c = Some q0 -> same_counts q0 q ->
  galaxy_totals (Galaxy.store_quadrant r c q g) = galaxy_totals g.
Proof.
  intros Hq0 (_ & _ & Hk & Hb & Hs & _). unfold galaxy_totals.
  rewrite !(store_quadrant_sum _ _ _ _ _ _ Hq0).
  rewrite (proj1 (store_quadrant_totals _ _ _ _)), (proj2 (store_quadrant_totals _ _ _ _)).
  repeat f_equal; lia.
Qed.

Lemma same_counts_refl (q : Quadrant.t) : same_counts q q.
Proof. unfold same_counts. auto 10. Qed.

Lemma same_counts_trans (q1 q2 q3 : Quadrant.t) :
  same_counts q1 q2 -> same_counts q2 q3 -> same_counts q1 q3.
Proof.
  unfold same_counts. intros (? & ? & ? & ? & ? & ?) (? & ? & ? & ? & ? & ?).
  repeat split; congruence.
Qed.

(** The lookup of a quadrant leaves the galaxy as it is; inside the galaxy
    it gives the reference, or raises when the galaxy has no such
    quadrant. *)
Lemma ensures_get_quadrant_in (r c : Z) (g : Galaxy.t) (Q : option (Z * Z) -> Galaxy.t -> Prop) :
  0 <= r < 8 -> 0 <= c < 8 ->
  (forall q, quadrant_at g r c = Some q -> Q (Some (r, c)) g) ->
  ensures (Galaxy.get_quadrant r c) g Q (fun _ _ => True).
Proof.
  intros Hr Hc HQ. unfold Galaxy.get_quadrant.
  rewrite (proj2 (in_bounds_range r c)) by lia.
  apply ensures_bind, ensures_get.
  apply ensures_bind, ensures_expect; [| intros; exact I].
  intros q Hq. apply ensures_ret. exact (HQ q Hq).
Qed.

(** The arrival in another quadrant: its sector map is built and the ship
    is placed. *)
Lemma arrive_in_new_quadrant (fuel : nat) (nr nc fr fc : Z) (g : Galaxy.t)
    (e : Enterprise.t) (rn : Rng) :
  0 <= nr < 8 -> 0 <= nc < 8 -> in_sector (fr, fc) ->
  ensures
    (new_quadrant <- zoom the_galaxy (Galaxy.get_quadrant nr nc) ;;
     with_quadrant new_quadrant (zoom quadrant_random (Quadrant.initialize_sector_map fuel)) ;;;
     actual <- with_quadrant new_quadrant
                 (zoom quadrant_random (Quadrant.place_enterprise fuel fr fc)) ;;
     ret (new_quadrant, actual))
    (MkWorld g e rn)
    (fun placed w' => fst placed = Some (nr, nc) /\ placed_at g e nr nc (snd placed) w')
    (fun _ _ => True).
Proof.
  intros Hr Hc Hf.
  apply ensures_bind, ensures_zoom.
  cbn [view update the_galaxy galaxy enterprise rng].
  apply ensures_get_quadrant_in; [exact Hr | exact Hc |]. intros q0 Hq0.
  replace (MkWorld g (enterprise (MkWorld g e rn)) (rng (MkWorld g e rn)))
    with (MkWorld g e rn) by reflexivity.
  apply ensures_bind.
  apply (ensures_quadrant_random _ g _ _ nr nc q0 _ _ Hq0).
  eapply ensures_weaken; [apply initialize_sector_map_builds | | intros; exact I]. cbn beta.
  intros _ [q1 rn1] [Hb Hsome]. cbn [fst snd].
  pose proof (building_consistent q0 _ Hb) as Hcons1.
  destruct Hb as (Hmap1 & _ & _ & _ & Hnone1 & _ & _ & _ & Hsame1). cbn [fst] in *.
  apply ensures_bind.
  apply (ensures_quadrant_random _ _ _ _ nr nc q1);
    [apply quadrant_at_store_eq; rewrite Hq0; eauto |].
  eapply ensures_weaken;
    [apply place_enterprise_on_map; [exact Hmap1 | exact Hf] | | intros; exact I].
  cbn beta.
  intros p [q2 rn2] (Hp & Hcell & _ & m & Hq2 & _ & Hm & Hnew & Hrest).
  cbn [fst snd] in Hq2 |- *. subst q2. rewrite store_quadrant_twice.
  destruct (ship_placed q1 p m Hcons1 Hnone1 Hp Hcell Hm Hnew Hrest) as [Hcons2 Hship].
  apply ensures_ret. cbn [fst snd]. split; [reflexivity |].
  exists q0, (Quadrant.set_sector_map m q1), rn2.
  split; [exact Hq0 |]. split; [reflexivity |].
  split; [| split; [exact Hcons2 | exact Hship]].
  destruct Hsame1 as (? & ? & ? & ? & ? & ?). unfold same_counts. cbn. auto 10.
Qed.

(** The arrival in the quadrant the ship was in, with the ship off the
    map: the ship takes the sector it has reached when that is empty, and
    an empty sector found at random otherwise. *)
Lemma arrive_in_same_quadrant (fuel : nat) (qr qc fr fc : Z) (g : Galaxy.t)
    (e : Enterprise.t) (rn : Rng) (q : Quadrant.t) :
  quadrant_at g qr qc = Some q ->
  sectors_consistent q -> records_match (Quadrant.sector_map q) ENTERPRISE [] ->
  in_sector (fr, fc) ->
  ensures
    (entity <- with_quadrant (Some (qr, qc))
                 (zoom quadrant_only (Quadrant.get_entity_at fr fc)) ;;
     actual <- (if decide (entity = EMPTY) then ret (fr, fc)
                else with_quadrant (Some (qr, qc))
                       (zoom quadrant_random (Quadrant._find_empty_sector fuel))) ;;
     with_quadrant (Some (qr, qc))
       (zoom quadrant_only (Quadrant.set_cell (fst actual) (snd actual) ENTERPRISE)) ;;;
     ret (Some (qr, qc), actual))
    (MkWorld g e rn)
    (fun placed w' => fst placed = Some (qr, qc) /\ placed_at g e qr qc (snd placed) w')
    (fun _ _ => True).
Proof.
  intros Hq Hcons Hnone Hf.
  pose proof (proj1 Hcons) as Hmap.
  destruct (cell_of_in_range _ (fr, fc) Hmap Hf) as [ent Hent].
  apply ensures_bind.
  apply (ensures_quadrant_only _ g _ _ qr qc q _ _ Hq).
  unfold Quadrant.get_entity_at. apply ensures_bind, ensures_get.
  rewrite (not_nil_branch _ _ _ (map_8x8_not_nil _ Hmap)).
  rewrite (proj2 (in_sector_bounds_iff fr fc) Hf).
  unfold Quadrant.cell. unfold cell_of in Hent. cbn [fst snd] in Hent. rewrite Hent.
  apply ensures_ret. rewrite (store_quadrant_same _ _ _ _ Hq).
  apply ensures_bind.
  apply (ensures_weaken _ _
           (fun p w1 => w1 = MkWorld g e (rng w1) /\ in_sector p /\
                        cell_of (Quadrant.sector_map q) p = Some EMPTY)
           _ (fun _ _ => True)); [| | auto].
  - destruct (decide (ent = EMPTY)) as [-> | Hne].
    + apply ensures_ret. cbn [rng]. auto.
    + apply (ensures_quadrant_random _ g _ _ qr qc q _ _ Hq).
      eapply ensures_weaken;
        [apply (find_empty_sector_ensures fuel q rn
                  (fun p s => fst s = q /\ in_sector p /\
                              cell_of (Quadrant.sector_map q) p = Some EMPTY));
           [exact Hmap | intros; cbn [fst]; auto]
        | | intros ? ? []].
      cbn beta. intros p [q' rn'] (Hq' & Hp & Hcell). cbn [fst snd rng] in *. subst q'.
      rewrite (store_quadrant_same _ _ _ _ Hq). auto.
  - cbn beta. intros p w1 (Hw1 & Hp & Hcell). rewrite Hw1.
    destruct (set_cell_run q p ENTERPRISE Hmap Hp) as (m & Hrun & _ & Hm & Hnew & Hrest).
    destruct (ship_placed q p m Hcons Hnone Hp Hcell Hm Hnew Hrest) as [Hcons2 Hship].
    apply ensures_bind.
    apply (ensures_quadrant_only _ g _ _ qr qc q _ _ Hq).
    unfold ensures at 1. rewrite Hrun.
    apply ensures_ret. cbn [fst snd]. split; [reflexivity |].
    exists q, (Quadrant.set_sector_map m q), (rng w1).
    split; [exact Hq |]. split; [reflexivity |].
    split; [unfold same_counts; cbn; auto 10 |]. split; [exact Hcons2 | exact Hship].
Qed.

(** The part of the command after the movement loop. *)
Lemma nav_arrive_ensures (fuel : nat) (warp : float) (n qr qc : Z) (p : NavPos)
    (g : Galaxy.t) (e : Enterprise.t) (rn : Rng) (q : Quadrant.t) :
  quadrant_at g qr qc = Some q ->
  sectors_consistent q -> records_match (Quadrant.sector_map q) ENTERPRISE [] ->
  0 <= qr < 8 -> 0 <= qc < 8 ->
  n + 10 <= Enterprise.energy e ->
  Enterprise.docked e = false ->
  (if crossed_quadrant p
   then 0 <= new_quad_row p < 8 /\ 0 <= new_quad_col p < 8
   else new_quad_row p = qr /\ new_quad_col p = qc) ->
  ensures (nav_arrive fuel warp (n + 10) (Some (qr, qc)) p) (MkWorld g e rn)
    (fun res w' =>
       ship_on_map w' /\
       galaxy_totals (galaxy w') = galaxy_totals g /\
       message res = MsgWarpEngaged /\ success res = true /\
       exists q',
         quadrant_at (galaxy w') (Enterprise.quadrant_row (enterprise w'))
                     (Enterprise.quadrant_col (enterprise w')) = Some q' /\
         ship_moved n e (enterprise w') q' /\
         trigger_klingon_attack res =
           (0 <? Quadrant.klingons q') && negb (Enterprise.docked (enterprise w')))
    (fun _ _ => True).
Proof.
  intros Hq Hcons Hnone Hqr Hqc Hen Hundocked Hquad. unfold nav_arrive.
  apply ensures_bind, ensures_zoom. unfold Enterprise.use_energy.
  apply ensures_bind, ensures_get. cbn [view the_ship enterprise].
  destruct (Z.leb_spec (n + 10) (Enterprise.energy e)); [| lia].
  apply ensures_bind, ensures_modify, ensures_ret.
  cbn [update the_ship galaxy enterprise rng].
  set (e1 := Enterprise.set_energy (Enterprise.energy e - (n + 10)) e).
  apply ensures_bind, ensures_lift_exn; [intros rr _ | intros; exact I].
  apply ensures_bind, ensures_lift_exn; [intros rc _ | intros; exact I].
  assert (Hf : in_sector (rr mod 8, rc mod 8)).
  { split; cbn [fst snd]; apply Z.mod_pos_bound; lia. }
  apply ensures_bind.
  apply (ensures_weaken _ _
           (fun placed w1 =>
              fst placed = Some (new_quad_row p, new_quad_col p) /\
              0 <= new_quad_row p < 8 /\ 0 <= new_quad_col p < 8 /\
              placed_at g e1 (new_quad_row p) (new_quad_col p) (snd placed) w1)
           _ (fun _ _ => True)); [| | auto].
  { destruct (crossed_quadrant p).
    - eapply ensures_weaken;
        [apply (arrive_in_new_quadrant fuel (new_quad_row p) (new_quad_col p) _ _ g e1 rn);
           [apply Hquad | apply Hquad | exact Hf]
        | | auto].
      cbn beta. intros placed w1 [Href Hplaced]. repeat split; try assumption; apply Hquad.
    - destruct Hquad as [-> ->].
      eapply ensures_weaken;
        [apply (arrive_in_same_quadrant fuel qr qc _ _ g e1 rn q Hq Hcons Hnone Hf) | | auto].
      cbn beta. intros placed w1 [Href Hplaced]. repeat split; try assumption; lia. }
  cbn beta. intros [ref [ar ac]] w1 (Href & Hnr & Hnc & q0 & q' & rn' & Hq0 & -> & Hsame & Hcons' & Hship).
  cbn [fst snd] in Href |- *. subst ref.
  set (nr := new_quad_row p) in *. set (nc := new_quad_col p) in *.
  assert (Hat : quadrant_at (Galaxy.store_quadrant nr nc q' g) nr nc = Some q')
    by (apply quadrant_at_store_eq; rewrite Hq0; eauto).
  apply ensures_bind, ensures_zoom. unfold Enterprise.set_position. apply ensures_modify.
  cbn [view update the_ship galaxy enterprise rng].
  apply ensures_bind, ensures_with_quadrant_gets; [intros; exact I |].
  intros r c q2 [= <- <-] Hq2. cbn [galaxy] in Hq2.
  assert (q2 = q') by congruence. subst q2. cbn [snd].
  set (e2 := Enterprise.mk nr nc ar ac _ _ _ _ _ _ _ _).
  apply ensures_bind.
  apply (ensures_weaken _ _
           (fun _ w2 => exists e3,
              w2 = MkWorld (Galaxy.store_quadrant nr nc q' g) e3 rn' /\
              Enterprise.quadrant_row e3 = nr /\ Enterprise.quadrant_col e3 = nc /\
              ship_sector e3 = (ar, ac) /\ ship_moved n e e3 q')
           _ (fun _ _ => True)); [| | auto].
  { destruct (Quadrant.is_adjacent_to_starbase q' ar ac) eqn:Hadj.
    - apply ensures_zoom. unfold Enterprise.dock.
      apply ensures_bind, ensures_modify.
      apply ensures_bind, ensures_modify.
      apply ensures_bind, ensures_modify, ensures_modify.
      cbn [view update the_ship galaxy enterprise rng].
      eexists. split; [reflexivity |].
      unfold ship_moved, ship_sector. cbn. rewrite Hadj. repeat split; reflexivity.
    - apply ensures_ret. exists e2. split; [reflexivity |].
      unfold ship_moved, ship_sector. subst e2 e1. cbn. rewrite Hadj, Hundocked.
      repeat split; reflexivity. }
  cbn beta. intros _ w2 (e3 & -> & Hr3 & Hc3 & Hs3 & Hmoved).
  apply ensures_bind, ensures_with_quadrant_gets; [intros; exact I |].
  intros r c q3 [= <- <-] Hq3. cbn [galaxy] in Hq3.
  assert (q3 = q') by congruence. subst q3. cbn [snd].
  apply ensures_bind, ensures_gets, ensures_ret.
  cbn [galaxy enterprise message success trigger_klingon_attack].
  split; [| split; [| split; [reflexivity | split; [reflexivity |]]]].
  - unfold ship_on_map. cbn [galaxy enterprise]. rewrite Hr3, Hc3, Hs3.
    split; [exact Hnr |]. split; [exact Hnc |]. exists q'. auto.
  - exact (galaxy_totals_store g nr nc q0 q' Hq0 Hsame).
  - rewrite Hr3, Hc3. exists q'. auto.
Qed.

(** The NAV command from a ship that is on the map of its quadrant. *)
Lemma execute_nav_ensures (fuel : nat) (course_in warp_in : option float)
    (g : Galaxy.t) (e : Enterprise.t) (rn : Rng) :
  ship_on_map (MkWorld g e rn) ->
  ensures (execute_nav fuel course_in warp_in) (MkWorld g e rn)
    (fun res w' => nav_outcome (MkWorld g e rn) warp_in res w')
    (fun _ _ => True).
Proof.
  intros Hship.
  assert (Hsame : forall res e', message res <> MsgWarpEngaged ->
            e' = e \/ e' = Enterprise.set_docked false e ->
            nav_outcome (MkWorld g e rn) warp_in res (MkWorld g e' rn)).
  { intros res e' Hmsg He'. split; [| split; [reflexivity | split; [contradiction |]]].
    - destruct Hship as (Hr & Hc & q & Hq & Hcons & Hrec).
      unfold ship_on_map. cbn [galaxy enterprise] in *.
      destruct He' as [-> | ->]; cbn; eauto 10.
    - intros _. cbn [galaxy enterprise rng]. auto. }
  destruct Hship as (Hqr & Hqc & q & Hq & Hcons & Hrec). cbn [galaxy enterprise] in *.
  unfold execute_nav. apply ensures_bind, ensures_gets. cbn [enterprise].
  destruct (negb _); [apply ensures_ret, Hsame; [discriminate | auto] |].
  destruct course_in as [course |]; [| apply ensures_ret, Hsame; [discriminate | auto]].
  destruct (_ || _); [apply ensures_ret, Hsame; [discriminate | auto] |].
  destruct warp_in as [warp |]; [| apply ensures_ret, Hsame; [discriminate | auto]].
  destruct (_ || _); [apply ensures_ret, Hsame; [discriminate | auto] |].
  destruct (warp =? 0)%float; [apply ensures_ret, Hsame; [discriminate | auto] |].
  apply ensures_bind, ensures_lift_exn; [intros n Hn | intros; exact I].
  destruct (Z.ltb_spec (Enterprise.energy e) (n + 10));
    [apply ensures_ret, Hsame; [discriminate | auto] |].
  set (e0 := Enterprise.set_docked false e).
  apply ensures_bind.
  apply (ensures_weaken _ _ (fun _ w1 => w1 = MkWorld g e0 rn) _ (fun _ _ => True)); [| | auto].
  { destruct (Enterprise.docked e) eqn:Hd.
    - apply ensures_zoom. unfold Enterprise.undock. apply ensures_modify. reflexivity.
    - apply ensures_ret. subst e0. rewrite set_docked_false_same by exact Hd. reflexivity. }
  cbn beta. intros _ w1 ->.
  apply ensures_bind, ensures_lift_exn; [intros v _ | intros; exact I].
  apply ensures_bind, ensures_get_current_quadrant; [intros; exact I | |];
    cbn [enterprise galaxy Enterprise.quadrant_row Enterprise.quadrant_col Enterprise.set_docked
         e0].
  { intros Hout. rewrite (proj2 (in_bounds_range _ _)) in Hout by lia. discriminate. }
  intros _. apply ensures_bind, ensures_gets. cbn [enterprise].
  change (Enterprise.sector_row e0) with (Enterprise.sector_row e).
  change (Enterprise.sector_col e0) with (Enterprise.sector_col e).
  change (Enterprise.quadrant_row e0) with (Enterprise.quadrant_row e).
  change (Enterprise.quadrant_col e0) with (Enterprise.quadrant_col e).
  destruct (ship_taken_off q _ _ Hcons Hrec) as (m & Hoff & Hback & Hcons1 & Hnone1).
  set (qr := Enterprise.quadrant_row e) in *. set (qc := Enterprise.quadrant_col e) in *.
  apply ensures_bind.
  apply (ensures_quadrant_only _ g _ _ qr qc q _ _ Hq).
  unfold ensures at 1. rewrite Hoff.
  set (g1 := Galaxy.store_quadrant qr qc (Quadrant.set_sector_map m q) g).
  assert (Hq1 : quadrant_at g1 qr qc = Some (Quadrant.set_sector_map m q)).
  { apply quadrant_at_store_eq. rewrite Hq. eauto. }
  assert (Htot : galaxy_totals g1 = galaxy_totals g).
  { apply (galaxy_totals_store g qr qc q); [exact Hq |]. unfold same_counts. cbn. auto 10. }
  destruct (nav_walk _ _ _ _) as [p |] eqn:Hwalk.
  - pose proof (nav_walk_quadrant _ _ _ _ _ Hwalk eq_refl) as Hquad.
    cbn [new_quad_row new_quad_col] in Hquad.
    eapply ensures_weaken;
      [apply (nav_arrive_ensures fuel warp n qr qc p g1 e0 rn _ Hq1 Hcons1 Hnone1 Hqr Hqc);
         [exact H | reflexivity | exact Hquad]
      | | auto].
    cbn beta. intros res w' (Hon & Htot' & Hmsg & Hok & q' & Hq' & Hmoved & Htrig).
    split; [exact Hon |]. split; [cbn [galaxy]; congruence |].
    split; [| intros Hne; contradiction].
    intros _. exists warp, n, q'. cbn [enterprise]. auto 10.
  - apply ensures_bind, ensures_gets. cbn [enterprise].
    change (Enterprise.sector_row e0) with (Enterprise.sector_row e).
    change (Enterprise.sector_col e0) with (Enterprise.sector_col e).
    apply ensures_bind.
    apply (ensures_quadrant_only _ g1 _ _ qr qc _ _ _ Hq1).
    unfold ensures at 1. rewrite Hback.
    apply ensures_ret. subst g1.
    rewrite store_quadrant_twice, (store_quadrant_same _ _ _ _ Hq).
    apply Hsame; [discriminate | auto].
Qed.

Lemma new_game_world_started : game_started new_game_world.
Proof.
  exact (ensures_run _ _ _ _ _ _ (initialize_game_ensures 100 blank_world)
           new_game_world_is_initialized).
Qed.

Lemma execute_nav_outcome (fuel : nat) (course_in warp_in : option float)
    (w : World) (res : CommandResult) (w' : World) :
  ship_on_map w ->
  execute_nav fuel course_in warp_in w = Ret res w' ->
  nav_outcome w warp_in res w'.
Proof.
  intros Hship Hrun. destruct w as [g e rn].
  exact (ensures_run _ _ _ _ _ _ (execute_nav_ensures fuel course_in warp_in g e rn Hship) Hrun).
Qed.

(** X19: the NAV command from a ship that stands on the map of its
    quadrant (the map agrees with the records of the quadrant and shows the
    ship on its sector).  Whenever the command returns a result, the ship
    again stands on the map of its quadrant, inside the galaxy, and neither
    the two counters of the galaxy nor the sums of the hostile, starbase
    and star counts of the quadrants have changed.  A completed navigation
    of [n = int(warp * 8)] sectors docks the ship exactly when it arrives
    next to the starbase of the quadrant, with energy and torpedoes at their
    maximum and the shields at 0 then, and with [n + 10] units of energy
    spent otherwise; the hostiles fire back exactly when the quadrant holds
    some and the ship is not docked.  Any other result (a refusal, a
    cancelled command, the galactic barrier) leaves the galaxy, the random
    stream and the ship as they were, except that the ship may have been
    undocked. *)
Theorem execute_nav_keeps_ship_on_map (fuel : nat) (course_in warp_in : option float)
    (w : World) (res : CommandResult) (w' : World) :
  ship_on_map w ->
  execute_nav fuel course_in warp_in w = Ret res w' ->
  nav_outcome w warp_in res w'.
Proof.
  exact (execute_nav_outcome fuel course_in warp_in w res w').
Qed.

Lemma new_game_after_nav_run :
  execute_nav 100 (Some 5%float) (Some 0.25%float) new_game_world =
  Ret (fst new_game_after_nav) (snd new_game_after_nav).
Proof. vm_compute. reflexivity. Qed.

Lemma execute_nav_keeps_ship_on_map_witness :
  ship_sector (enterprise new_game_world) = (0, 0) /\
  Enterprise.quadrant_col (enterprise new_game_world) = 6 /\
  Enterprise.quadrant_col (enterprise (snd new_game_after_nav)) = 5 /\
  Enterprise.energy (enterprise (snd new_game_after_nav)) = 2988 /\
  ship_on_map (snd new_game_after_nav) /\
  galaxy_totals (galaxy (snd new_game_after_nav)) = galaxy_totals (galaxy new_game_world).
Proof.
  split; [reflexivity |]. split; [reflexivity |]. split; [reflexivity |]. split; [reflexivity |].
  destruct (execute_nav_keeps_ship_on_map 100 _ _ new_game_world _ _
              (proj1 new_game_world_started) new_game_after_nav_run) as (Hon & Htot & _).
  split; [exact Hon | exact Htot].
Defined.

(** * game/combat.py: a torpedo and the sector map *)

(** Records of cells that are not among the emptied ones. *)
Lemma records_kept_cleared (m m' : list (list EntityType)) (kind : EntityType)
    (ps cleared : list (Z * Z)) :
  records_match m kind ps -> cleared_at cleared m m' ->
  (forall p, p ∈ cleared -> p ∉ ps) -> kind <> EMPTY ->
  records_match m' kind ps.
Proof.
  intros (Hnd & Hin & Hall) (_ & Hempty & Hrest) Hfresh Hkind.
  split; [exact Hnd | split].
  - intros p Hp. destruct (Hin p Hp) as [Hs Hc]. split; [exact Hs |].
    rewrite Hrest; [exact Hc | exact Hs |]. intros Hcl. exact (Hfresh p Hcl Hp).
  - intros p Hs Hc. destruct (decide (p ∈ cleared)) as [Hcl | Hncl].
    + rewrite (Hempty p Hcl) in Hc. congruence.
    + apply Hall; [exact Hs |]. rewrite <- Hrest; assumption.
Qed.

(** A ship that stands where the map shows a hostile. *)
Lemma ship_on_klingon_cell (q : Quadrant.t) (r c : Z) :
  sectors_consistent q -> in_sector (r, c) ->
  cell_of (Quadrant.sector_map q) (r, c) = Some KLINGON ->
  exists k, Klingon.sector_row k = r /\ Klingon.sector_col k = c /\
            ship_pos k ∈ ship_pos <$> Quadrant.klingon_ships q.
Proof.
  intros (_ & Hk & _) Hp Hcell.
  pose proof (proj2 (proj2 Hk) _ Hp Hcell) as Hin.
  apply list_elem_of_fmap in Hin. destruct Hin as (k & Hpos & Hk').
  exists k. injection Hpos as Hr Hc.
  split; [congruence |]. split; [congruence |].
  apply list_elem_of_fmap. eauto.
Qed.

(** The starbase hit by a torpedo. *)
Lemma starbase_cleared (q : Quadrant.t) (p : Z * Z) (m : list (list EntityType))
    (ps : list (Z * Z)) :
  sectors_consistent q -> records_match (Quadrant.sector_map q) ENTERPRISE ps ->
  in_sector p -> cell_of (Quadrant.sector_map q) p = Some STARBASE ->
  map_8x8 m -> cell_of m p = Some EMPTY ->
  (forall p', in_sector p' -> p' <> p -> cell_of m p' = cell_of (Quadrant.sector_map q) p') ->
  Quadrant.starbase_pos q = Some p /\
  sectors_consistent
    (Quadrant.set_sector_map m (Quadrant.set_starbase_pos None (Quadrant.set_starbases 0 q))) /\
  records_match m ENTERPRISE ps /\
  cleared_at [p] (Quadrant.sector_map q) m.
Proof.
  intros (Hmap & Hk & Hb & Hs & Hn) He Hp Hcell Hm Hnew Hrest.
  assert (Hpos : Quadrant.starbase_pos q = Some p).
  { pose proof (proj2 (proj2 Hb) _ Hp Hcell) as Hin. unfold starbase_list in Hin.
    destruct (Quadrant.starbase_pos q) as [p0 |]; [| inversion Hin].
    apply list_elem_of_singleton in Hin. congruence. }
  split; [exact Hpos |].
  split; [| split].
  - unfold sectors_consistent, starbase_list.
    cbn [Quadrant.sector_map Quadrant.klingon_ships Quadrant.set_sector_map
         Quadrant.set_starbase_pos Quadrant.set_starbases Quadrant.starbase_pos
         Quadrant.star_positions Quadrant.klingons].
    split; [exact Hm |]. split; [| split; [| split; [| exact Hn]]].
    + pose proof (records_after_clear _ m _ STARBASE KLINGON _ Hk Hp Hcell Hnew Hrest
                    ltac:(discriminate)) as H.
      destruct (decide (KLINGON = STARBASE)); [discriminate | exact H].
    + pose proof (records_after_clear _ m _ STARBASE STARBASE _ Hb Hp Hcell Hnew Hrest
                    ltac:(discriminate)) as H.
      destruct (decide (STARBASE = STARBASE)); [| congruence].
      unfold starbase_list in H. rewrite Hpos in H.
      rewrite filter_cons_False in H by (intros Hne; apply Hne; reflexivity).
      exact H.
    + pose proof (records_after_clear _ m _ STARBASE STAR _ Hs Hp Hcell Hnew Hrest
                    ltac:(discriminate)) as H.
      destruct (decide (STAR = STARBASE)); [discriminate | exact H].
  - pose proof (records_after_clear _ m _ STARBASE ENTERPRISE _ He Hp Hcell Hnew Hrest
                  ltac:(discriminate)) as H.
    destruct (decide (ENTERPRISE = STARBASE)); [discriminate | exact H].
  - split; [exact Hm | split].
    + intros x Hx. apply list_elem_of_singleton in Hx. subst x. exact Hnew.
    + intros x Hx Hout. apply Hrest; [exact Hx |]. intros ->. apply Hout. left.
Qed.

(** The flight of a torpedo through a quadrant whose map agrees with its
    records. *)
Lemma torpedo_travel_consistent (steps : nat) (dr dc row col : float)
    (e : Enterprise.t) (q : Quadrant.t) (ps : list (Z * Z)) :
  sectors_consistent q -> records_match (Quadrant.sector_map q) ENTERPRISE ps ->
  ensures (torpedo_travel steps dr dc row col) (e, Some q)
    (fun res s' =>
       exists q', snd s' = Some q' /\ sectors_consistent q' /\
                  records_match (Quadrant.sector_map q') ENTERPRISE ps /\
                  torpedo_hit (combat_message res) (klingons_destroyed res) q q')
    (fun _ _ => True).
Proof.
  intros Hcons He.
  revert row col. induction steps as [| steps IH]; intros row col; cbn [torpedo_travel].
  - apply ensures_ret. exists q. unfold torpedo_hit. cbn. auto.
  - apply ensures_bind, ensures_lift_exn; [intros r _ | intros; exact I].
    apply ensures_bind, ensures_lift_exn; [intros c _ | intros; exact I].
    destruct (_ || _) eqn:Hout;
      [apply ensures_ret; exists q; unfold torpedo_hit; cbn; auto |].
    assert (Hp : in_sector (r, c)).
    { apply orb_false_elim in Hout as [Hout Hc2]. apply orb_false_elim in Hout as [Hout Hc1].
      apply orb_false_elim in Hout as [Hr1 Hr2].
      apply Z.ltb_ge in Hr1, Hc1. apply Z.leb_gt in Hr2, Hc2. split; cbn; lia. }
    apply ensures_bind, ensures_on_object.
    eapply ensures_weaken; [apply get_entity_at_outcome | |]; cbn beta;
      [| intros; exact I].
    intros entity q' [-> Hcell].
    destruct entity; try apply IH.
    + pose proof (Hcell ltac:(discriminate)) as Hk.
      destruct (ship_on_klingon_cell q r c Hcons Hp Hk) as (k & <- & <- & Hin).
      destruct (remove_klingon_consistent q k Hcons Hin) as (q1 & Hrun & Hrem).
      apply ensures_bind, ensures_on_object. unfold ensures at 1. rewrite Hrun.
      apply ensures_ret. exists q1. cbn [snd]. split; [reflexivity |].
      split; [apply Hrem |]. split.
      * destruct Hrem as (_ & _ & _ & Hclear & _).
        apply (records_kept_cleared _ _ _ _ _ He Hclear); [| discriminate].
        intros p Hpk Hpe. apply list_elem_of_singleton in Hpk. subst p.
        destruct (proj1 (proj2 He) _ Hpe) as [_ Hc]. unfold cell_of, ship_pos in Hc.
        cbn [fst snd] in Hc. congruence.
      * unfold torpedo_hit. cbn. exists (ship_pos k). auto.
    + pose proof (Hcell ltac:(discriminate)) as Hb.
      destruct (set_cell_run q (r, c) EMPTY (proj1 Hcons) Hp)
        as (m & _ & Hset & Hm & Hnew & Hrest).
      destruct (starbase_cleared q (r, c) m ps Hcons He Hp Hb Hm Hnew Hrest)
        as (Hpos & Hcons' & He' & Hclear).
      apply ensures_bind, ensures_on_object, ensures_modify.
      apply ensures_bind, ensures_on_object, ensures_modify.
      apply ensures_bind, ensures_on_object.
      unfold Quadrant.set_cell. apply ensures_bind, ensures_get.
      cbn [Quadrant.sector_map Quadrant.set_starbase_pos Quadrant.set_starbases].
      cbn [fst snd] in Hset. rewrite Hset.
      apply ensures_bind, ensures_ret, ensures_modify.
      apply ensures_ret. eexists. cbn [snd]. split; [reflexivity |].
      split; [exact Hcons' |]. split; [exact He' |].
      unfold torpedo_hit. cbn. exists (r, c). auto 12.
    + apply ensures_ret. exists q. unfold torpedo_hit. cbn. auto.
Qed.

(** A torpedo that passes the checks of the command is fired. *)
Lemma fire_torpedo_fired (direction : float) (e : Enterprise.t) (q : Quadrant.t)
    (ps : list (Z * Z)) :
  Enterprise.can_fire_torpedoes e = true -> 0 < Enterprise.torpedoes e ->
  ((direction <? 1)%float || (9 <? direction)%float) = false ->
  sectors_consistent q -> records_match (Quadrant.sector_map q) ENTERPRISE ps ->
  ensures (fire_torpedo direction) (e, Some q)
    (fun res s' =>
       combat_success res = true /\
       fst s' = Enterprise.set_torpedoes (Enterprise.torpedoes e - 1) e /\
       exists q', snd s' = Some q' /\ sectors_consistent q' /\
                  records_match (Quadrant.sector_map q') ENTERPRISE ps /\
                  torpedo_hit (combat_message res) (klingons_destroyed res) q q')
    (fun _ _ => True).
Proof.
  intros Hcan Htorp Hdir Hcons He.
  unfold fire_torpedo. apply ensures_bind, ensures_gets. cbn [fst].
  rewrite Hcan. cbn [negb].
  destruct (Z.leb_spec (Enterprise.torpedoes e) 0); [lia |].
  rewrite Hdir.
  apply ensures_bind, ensures_zoom.
  unfold Enterprise.fire_torpedo. apply ensures_bind, ensures_get. cbn [view fst_lens fst].
  destruct (Z.ltb_spec 0 (Enterprise.torpedoes e)); [| lia].
  apply ensures_bind, ensures_modify, ensures_ret. cbn [negb update fst_lens fst snd].
  apply ensures_bind, ensures_lift_exn; [intros v _ | intros; exact I].
  apply ensures_bind, ensures_gets. cbn [fst].
  eapply ensures_weaken;
    [apply (ensures_conj _ _ _ _ _ _
              (torpedo_travel_outcome 15 _ _ _ _ _ q)
              (torpedo_travel_consistent 15 _ _ _ _ _ q ps Hcons He)) | |];
    cbn beta; [| intros; exact I].
  intros res s' [(Hship & _ & _ & _ & _ & Hok & _) Hq']. auto.
Qed.

(** The TOR command from a ship that is on the map of its quadrant. *)
Lemma execute_tor_ensures (direction_in : option float) (g : Galaxy.t) (e : Enterprise.t)
    (rn : Rng) :
  ship_on_map (MkWorld g e rn) ->
  ensures (execute_tor direction_in) (MkWorld g e rn)
    (fun res w' => tor_outcome (MkWorld g e rn) res w')
    (fun _ _ => True).
Proof.
  intros Hship.
  assert (Hsame : forall msg, tor_outcome (MkWorld g e rn) (command_result false msg)
                                (MkWorld g e rn)).
  { intros msg. split; [exact Hship |]. cbn. auto. }
  destruct Hship as (Hqr & Hqc & q & Hq & Hcons & Hrec). cbn [galaxy enterprise] in *.
  unfold execute_tor. apply ensures_bind, ensures_gets. cbn [enterprise].
  destruct (Enterprise.can_fire_torpedoes e) eqn:Hcan; cbn [negb];
    [| apply ensures_ret, Hsame].
  destruct (Z.leb_spec (Enterprise.torpedoes e) 0) as [| Htorp]; [apply ensures_ret, Hsame |].
  destruct direction_in as [direction |]; [| apply ensures_ret, Hsame].
  destruct (_ || _) eqn:Hdir; [apply ensures_ret, Hsame |].
  apply ensures_bind, ensures_get_current_quadrant; [intros; exact I | |];
    cbn [enterprise galaxy].
  { intros Hout. rewrite (proj2 (in_bounds_range _ _)) in Hout by lia. discriminate. }
  intros _.
  set (qr := Enterprise.quadrant_row e) in *. set (qc := Enterprise.quadrant_col e) in *.
  set (e1 := Enterprise.set_torpedoes (Enterprise.torpedoes e - 1) e).
  apply ensures_bind.
  apply (ensures_weaken _ _
           (fun res w1 =>
              combat_success res = true /\
              exists q', w1 = MkWorld (Galaxy.store_quadrant qr qc q' g) e1 rn /\
                         sectors_consistent q' /\
                         records_match (Quadrant.sector_map q') ENTERPRISE [ship_sector e] /\
                         torpedo_hit (combat_message res) (klingons_destroyed res) q q' /\
                         0 <= klingons_destroyed res)
           _ (fun _ _ => True)); [| | auto].
  - apply ensures_with_quadrant_object; [intros; exact I | intros [=] |].
    intros r c q2 [= <- <-] Hq2. cbn [galaxy] in Hq2.
    assert (q2 = q) by congruence. subst q2.
    apply ensures_zoom. cbn [view ship_quadrant fst snd enterprise].
    eapply ensures_weaken;
      [apply (ensures_conj _ _ _ _ _ _
                (fire_torpedo_outcome direction e q)
                (fire_torpedo_fired direction e q _ Hcan Htorp Hdir Hcons Hrec)) | |];
      cbn beta; [| intros; exact I].
    intros res [e' oq] [(_ & q0 & _ & _ & Hn & _) (Hok & He' & q' & Hoq & Hc' & Hr' & Hhit)].
    cbn [fst snd] in *. subst e' oq. split; [exact Hok |].
    exists q'. cbn [update ship_quadrant store_back the_ship the_galaxy fst snd
                    galaxy enterprise rng].
    split; [reflexivity |].
    split; [exact Hc' | split; [exact Hr' | split; [exact Hhit | lia]]].
  - cbn beta. intros res w1 (Hok & q' & -> & Hcons' & Hrec' & Hhit & Hn).
    assert (Hat : quadrant_at (Galaxy.store_quadrant qr qc q' g) qr qc = Some q')
      by (apply quadrant_at_store_eq; rewrite Hq; eauto).
    apply ensures_bind.
    apply (ensures_weaken _ _
             (fun _ w2 =>
                w2 = MkWorld (Galaxy.set_total_klingons
                                (Galaxy.total_klingons g - klingons_destroyed res)
                                (Galaxy.store_quadrant qr qc q' g)) e1 rn)
             _ (fun _ _ => True)); [| | auto].
    + destruct (Z.ltb_spec 0 (klingons_destroyed res)) as [Hpos | Hzero].
      * eapply ensures_weaken; [apply klingon_destroyed_run | | intros ? ? []]. cbn beta.
        intros _ w2 ->. cbn [galaxy enterprise rng].
        rewrite (proj1 (store_quadrant_totals _ _ _ _)), Z2Nat.id by lia. reflexivity.
      * apply ensures_ret. replace (klingons_destroyed res) with 0 by lia.
        rewrite Z.sub_0_r, <- (proj1 (store_quadrant_totals qr qc q' g)).
        destruct (Galaxy.store_quadrant qr qc q' g); reflexivity.
    + cbn beta. intros _ w2 ->.
      apply ensures_bind, ensures_with_quadrant_gets; [intros; exact I |].
      intros r c q2 [= <- <-] Hq2. cbn [galaxy] in Hq2.
      change (quadrant_at (Galaxy.set_total_klingons ?v ?x) qr qc)
        with (quadrant_at x qr qc) in Hq2.
      assert (q2 = q') by congruence. subst q2. cbn [snd].
      apply ensures_ret. split.
      * unfold ship_on_map. cbn [galaxy enterprise].
        split; [exact Hqr |]. split; [exact Hqc |]. exists q'.
        split; [exact Hat |]. split; [exact Hcons' | exact Hrec'].
      * cbn [success]. rewrite Hok. exists q, q', (klingons_destroyed res).
        cbn [galaxy enterprise rng message trigger_klingon_attack]. auto.
Qed.

Lemma execute_tor_outcome (direction_in : option float) (w : World)
    (res : CommandResult) (w' : World) :
  ship_on_map w -> execute_tor direction_in w = Ret res w' -> tor_outcome w res w'.
Proof.
  intros Hship Hrun. destruct w as [g e rn].
  exact (ensures_run _ _ _ _ _ _ (execute_tor_ensures direction_in g e rn Hship) Hrun).
Qed.

(** X20: the TOR command from a ship that stands on the map of its
    quadrant.  Whenever the command returns a result, the ship still stands
    on the map of its quadrant and the map still agrees with the records.
    A refusal changes nothing and triggers no attack.  Otherwise one
    torpedo is used and the random stream is untouched; a torpedo that hits
    a hostile removes exactly that ship from the list, from the map and
    from the two hostile counts; one that hits the starbase empties its
    cell, clears its position and sets the starbase count of the quadrant
    to 0, and leaves the starbase counter of the galaxy as it is; any other
    torpedo changes nothing in the galaxy.  The hostiles fire back exactly
    when the quadrant still holds some. *)
Theorem execute_tor_keeps_ship_on_map (direction_in : option float) (w : World)
    (res : CommandResult) (w' : World) :
  ship_on_map w -> execute_tor direction_in w = Ret res w' -> tor_outcome w res w'.
Proof. exact (execute_tor_outcome direction_in w res w'). Qed.

Lemma new_game_after_nav_on_map : ship_on_map (snd new_game_after_nav).
Proof.
  exact (proj1 (execute_nav_outcome 100 _ _ new_game_world _ _
                  (proj1 new_game_world_started) new_game_after_nav_run)).
Qed.

Lemma new_game_after_tor_run :
  execute_tor (Some 6.6875%float) (snd new_game_after_nav) =
  Ret (fst new_game_after_tor) (snd new_game_after_tor).
Proof. vm_compute. reflexivity. Qed.

Lemma execute_tor_keeps_ship_on_map_witness :
  message (fst new_game_after_tor) = MsgTorpedoHitKlingon /\
  Galaxy.total_klingons (galaxy (snd new_game_after_tor)) =
    Galaxy.total_klingons (galaxy (snd new_game_after_nav)) - 1 /\
  ship_on_map (snd new_game_after_tor).
Proof.
  split; [reflexivity |]. split; [reflexivity |].
  exact (proj1 (execute_tor_keeps_ship_on_map _ _ _ _
                  new_game_after_nav_on_map new_game_after_tor_run)).
Defined.

(** * The commands and the place of the ship *)

(** A volley leaves the ship where the map shows it. *)
Lemma fire_phasers_keeps_ship (E : Z) (e : Enterprise.t) (q : Quadrant.t) (rn : Rng)
    (ps : list (Z * Z)) :
  sectors_consistent q -> records_match (Quadrant.sector_map q) ENTERPRISE ps ->
  ensures (fire_phasers E) ((e, q), rn)
    (fun res s' =>
       sectors_consistent (snd (fst s')) /\
       records_match (Quadrant.sector_map (snd (fst s'))) ENTERPRISE ps /\
       exists v, fst (fst s') = Enterprise.set_energy v e)
    (fun _ _ => True).
Proof.
  intros Hcons He.
  eapply ensures_weaken;
    [apply (ensures_conj _ _ _ _ _ _
              (fire_phasers_volley E e q rn Hcons) (fire_phasers_refusal E ((e, q), rn))) | |];
    cbn beta; [| intros; exact I].
  intros res [[e' q'] rn'] [Hv Hr]. cbn [fst snd] in *.
  destruct (combat_success res).
  - destruct (Hv eq_refl) as (_ & He' & _ & Hlen & _ & Hcons' & _ & _ & Hclear & _).
    cbn [Quadrant.sector_map Quadrant.set_klingon_ships] in Hclear.
    split; [exact Hcons' |]. split; [| eauto].
    apply (records_kept_cleared _ _ _ _ _ He Hclear); [| discriminate].
    intros p Hp Hpe.
    assert (Hin : p ∈ ship_pos <$> Quadrant.klingon_ships q).
    { eapply elem_of_sublist; [exact Hp |]. apply fmap_sublist, phaser_kills_sublist.
      exact Hlen. }
    destruct (proj1 (proj2 (proj1 (proj2 Hcons))) p Hin) as [_ Hk].
    destruct (proj1 (proj2 He) p Hpe) as [_ Hc]. congruence.
  - destruct (Hr eq_refl) as [Heq _]. injection Heq as -> -> ->.
    split; [exact Hcons |]. split; [exact He |].
    exists (Enterprise.energy e). destruct e; reflexivity.
Qed.

Lemma ship_on_map_stored (g : Galaxy.t) (e e' : Enterprise.t) (rn' : Rng) (q q' : Quadrant.t) :
  0 <= Enterprise.quadrant_row e < 8 -> 0 <= Enterprise.quadrant_col e < 8 ->
  quadrant_at g (Enterprise.quadrant_row e) (Enterprise.quadrant_col e) = Some q ->
  Enterprise.quadrant_row e' = Enterprise.quadrant_row e ->
  Enterprise.quadrant_col e' = Enterprise.quadrant_col e ->
  ship_sector e' = ship_sector e ->
  sectors_consistent q' ->
  records_match (Quadrant.sector_map q') ENTERPRISE [ship_sector e] ->
  ship_on_map
    (MkWorld (Galaxy.store_quadrant (Enterprise.quadrant_row e) (Enterprise.quadrant_col e) q' g)
             e' rn').
Proof.
  intros Hr Hc Hq Hr' Hc' Hs' Hcons He. unfold ship_on_map. cbn [galaxy enterprise].
  rewrite Hr', Hc', Hs'. split; [exact Hr |]. split; [exact Hc |]. exists q'.
  split; [apply quadrant_at_store_eq; rewrite Hq; eauto |]. auto.
Qed.

(** The hostile counter does not matter to the place of the ship. *)
Lemma ship_on_map_counter (g : Galaxy.t) (e : Enterprise.t) (rn : Rng) (v : Z) :
  ship_on_map (MkWorld g e rn) -> ship_on_map (MkWorld (Galaxy.set_total_klingons v g) e rn).
Proof. intros H. exact H. Qed.

Lemma execute_pha_on_map (energy_in : option Z) (g : Galaxy.t) (e : Enterprise.t) (rn : Rng) :
  ship_on_map (MkWorld g e rn) ->
  ensures (execute_pha energy_in) (MkWorld g e rn)
    (fun _ w' => ship_on_map w') (fun _ _ => True).
Proof.
  intros Hship.
  pose proof Hship as (Hqr & Hqc & q & Hq & Hcons & Hrec). cbn [galaxy enterprise] in *.
  unfold execute_pha. apply ensures_bind, ensures_gets.
  destruct (negb _); [apply ensures_ret; exact Hship |].
  apply ensures_bind, ensures_get_current_quadrant; [intros; exact I | |];
    cbn [enterprise galaxy].
  { intros Hout. rewrite (proj2 (in_bounds_range _ _)) in Hout by lia. discriminate. }
  intros _. apply ensures_bind, ensures_with_quadrant_gets; [intros; exact I |].
  intros r c q2 [= <- <-] Hq2. cbn [galaxy] in Hq2. assert (q2 = q) by congruence. subst q2.
  cbn [snd].
  destruct (Quadrant.klingon_ships q) as [| k ks]; [apply ensures_ret; exact Hship |].
  destruct energy_in as [energy |]; [| apply ensures_ret; exact Hship].
  destruct (energy <=? 0); [apply ensures_ret; exact Hship |].
  apply ensures_bind.
  apply (ensures_weaken _ _ (fun _ w1 => ship_on_map w1) _ (fun _ _ => True)); [| | auto].
  - apply ensures_with_quadrant; [intros; exact I |].
    intros r c q3 [= <- <-] Hq3. cbn [galaxy] in Hq3. assert (q3 = q) by congruence. subst q3.
    apply ensures_zoom. cbn [view combat_state fst snd enterprise rng].
    eapply ensures_weaken; [apply (fire_phasers_keeps_ship energy e q rn _ Hcons Hrec) | |];
      cbn beta; [| intros; exact I].
    intros res [[e' q'] rn'] (Hcons' & Hrec' & v & He'). cbn [fst snd] in *. subst e'.
    cbn [update combat_state store_back the_galaxy fst snd galaxy enterprise rng].
    apply (ship_on_map_stored g e _ rn' q q'); try assumption; reflexivity.
  - cbn beta. intros res w1 Hship1. apply ensures_bind.
    apply (ensures_weaken _ _ (fun _ w2 => ship_on_map w2) _ (fun _ _ => True)); [| | auto].
    + destruct (0 <? klingons_destroyed res).
      * eapply ensures_weaken; [apply klingon_destroyed_run | | intros ? ? []]. cbn beta.
        intros _ w2 ->. destruct w1 as [g1 e1 rn1]. apply ship_on_map_counter. exact Hship1.
      * apply ensures_ret. exact Hship1.
    + cbn beta. intros _ w2 Hship2.
      apply ensures_bind, ensures_with_quadrant_gets; [intros; exact I |].
      intros. apply ensures_ret. exact Hship2.
Qed.

(** * startrek.py: a turn of the game and the place of the ship *)

Lemma unscanned_view_store (g g' : Galaxy.t) (r c : Z) (q0 q' : Quadrant.t) :
  py_index2 (Galaxy.quadrants g) r c = Some q0 ->
  unscanned_view g' = unscanned_view g ->
  Quadrant.set_scanned false q' = Quadrant.set_scanned false q0 ->
  unscanned_view (Galaxy.store_quadrant r c q' g') = unscanned_view g.
Proof.
  intros Hq0 Hview Hflag. unfold Galaxy.store_quadrant.
  destruct (py_setitem2 (Galaxy.quadrants g') r c q') as [qs |] eqn:Hset; [| exact Hview].
  unfold unscanned_view in *. cbn [Galaxy.quadrants Galaxy.set_quadrants].
  pose proof (py_setitem2_fmap (Quadrant.set_scanned false) (Galaxy.quadrants g') r c q') as Hmap.
  rewrite Hset, Hview, Hflag in Hmap. cbn in Hmap.
  rewrite py_setitem2_same in Hmap; [congruence |].
  rewrite py_index2_fmap, Hq0. reflexivity.
Qed.

(** The place of the ship on the map is a matter of [place_view]. *)
Lemma ship_on_map_view (w w' : World) :
  place_view w' = place_view w -> ship_on_map w -> ship_on_map w'.
Proof.
  unfold place_view, galaxy_view, ship_place.
  intros [= Hview _ _ Hr Hc Hsr Hsc] (Hqr & Hqc & q & Hq & Hcons & Hrec).
  unfold ship_on_map, ship_sector in *. rewrite Hr, Hc, Hsr, Hsc.
  split; [exact Hqr |]. split; [exact Hqc |].
  assert (Hlook : Quadrant.set_scanned false <$>
                    quadrant_at (galaxy w') (Enterprise.quadrant_row (enterprise w))
                                (Enterprise.quadrant_col (enterprise w)) =
                  Some (Quadrant.set_scanned false q)).
  { unfold quadrant_at. rewrite <- py_index2_fmap.
    change (fmap (M := list) (Quadrant.set_scanned false) <$> Galaxy.quadrants (galaxy w'))
      with (unscanned_view (galaxy w')).
    rewrite Hview. unfold unscanned_view. rewrite py_index2_fmap.
    unfold quadrant_at in Hq. rewrite Hq. reflexivity. }
  destruct (quadrant_at (galaxy w') _ _) as [q' |]; [| discriminate].
  assert (Hq' : Quadrant.set_scanned false q' = Quadrant.set_scanned false q)
    by (cbn [fmap option_fmap option_map] in Hlook; congruence).
  exists q'. split; [reflexivity |].
  assert (Hboth : sectors_consistent (Quadrant.set_scanned false q') /\
                  records_match (Quadrant.sector_map (Quadrant.set_scanned false q')) ENTERPRISE
                    [(Enterprise.sector_row (enterprise w), Enterprise.sector_col (enterprise w))])
    by (rewrite Hq'; split; [exact Hcons | exact Hrec]).
  exact Hboth.
Qed.

Lemma sum_with_fmap {A B} (f : B -> Z) (h : A -> B) (l : list A) :
  sum_with f (h <$> l) = sum_with (fun a => f (h a)) l.
Proof.
  unfold sum_with. induction l as [| a l IH]; cbn; [reflexivity | rewrite IH; reflexivity].
Qed.

Lemma sum_with_ext {A} (f f' : A -> Z) (l : list A) :
  (forall a, f a = f' a) -> sum_with f l = sum_with f' l.
Proof.
  intros Hf. unfold sum_with.
  induction l as [| a l IH]; cbn; [reflexivity | rewrite Hf, IH; reflexivity].
Qed.

(** The counts of the quadrants do not depend on their scanned flags. *)
Lemma galaxy_sum_unscanned (g : Galaxy.t) :
  galaxy_sum Quadrant.klingons g = sum_with (sum_with Quadrant.klingons) (unscanned_view g).
Proof.
  unfold galaxy_sum, unscanned_view. rewrite sum_with_fmap.
  apply sum_with_ext. intros row. rewrite sum_with_fmap. reflexivity.
Qed.

Lemma klingon_balance_view (w w' : World) :
  place_view w' = place_view w -> klingon_balance w' = klingon_balance w.
Proof.
  unfold place_view, galaxy_view. intros [= Hview Hk _ _]. unfold klingon_balance.
  rewrite !galaxy_sum_unscanned, Hview, Hk. reflexivity.
Qed.

Section PlaceFrames.

(** What leaves the world as it is leaves every view of it. *)
Lemma preserves_unchanged {S A X} (obs : S -> X) (m : M S A) :
  preserves (fun s : S => s) m -> preserves obs m.
Proof.
  intros Hm s. specialize (Hm s). unfold ensures in *.
  destruct (m s); [congruence | congruence | exact I].
Qed.

Lemma galaxy_view_store (g : Galaxy.t) (r c : Z) (q0 q' : Quadrant.t) :
  py_index2 (Galaxy.quadrants g) r c = Some q0 ->
  Quadrant.set_scanned false q' = Quadrant.set_scanned false q0 ->
  galaxy_view (Galaxy.store_quadrant r c q' g) = galaxy_view g.
Proof.
  intros Hq0 Hq'. unfold galaxy_view.
  rewrite (unscanned_view_store g g r c q0 q' Hq0 eq_refl Hq').
  rewrite (proj1 (store_quadrant_totals _ _ _ _)), (proj2 (store_quadrant_totals _ _ _ _)).
  reflexivity.
Qed.

Lemma on_quadrant_unscanned {A} (r c : Z) (m : M Quadrant.t A) :
  preserves (Quadrant.set_scanned false) m ->
  preserves galaxy_view (Galaxy.on_quadrant r c m).
Proof.
  intros Hm g. unfold ensures, Galaxy.on_quadrant.
  destruct (py_index2 (Galaxy.quadrants g) r c) as [q0 |] eqn:Hq0; [| reflexivity].
  specialize (Hm q0). unfold ensures in Hm.
  destruct (m q0) as [a q' | x q' |]; [| | exact I];
    apply (galaxy_view_store g r c q0 q' Hq0 Hm).
Qed.

Lemma get_lrs_data_unscanned (center_row center_col : Z) :
  preserves galaxy_view (Galaxy.get_lrs_data center_row center_col).
Proof.
  unfold Galaxy.get_lrs_data.
  repeat first
    [ apply on_quadrant_unscanned
    | apply preserves_modify; intros; reflexivity
    | progress cbv zeta
    | frame_step ].
Qed.

Lemma zoom_galaxy_place {A} (m : M Galaxy.t A) :
  preserves galaxy_view m -> preserves place_view (zoom the_galaxy m).
Proof.
  apply (preserves_zoom place_view galaxy_view).
  intros [g e rn] t Ht. unfold place_view. cbn [view update the_galaxy galaxy enterprise] in *.
  rewrite Ht. reflexivity.
Qed.

Lemma zoom_ship_place {A} (m : M Enterprise.t A) :
  preserves ship_place m -> preserves place_view (zoom the_ship m).
Proof.
  apply (preserves_zoom place_view ship_place).
  intros [g e rn] t Ht. unfold place_view. cbn [view update the_ship galaxy enterprise] in *.
  rewrite Ht. reflexivity.
Qed.

Lemma zoom_ship_random_place {A} (m : M (Enterprise.t * Rng) A) :
  preserves (fun s => ship_place (fst s)) m -> preserves place_view (zoom ship_and_random m).
Proof.
  apply (preserves_zoom place_view (fun s : Enterprise.t * Rng => ship_place (fst s))).
  intros [g e rn] t Ht. unfold place_view.
  cbn [view update ship_and_random galaxy enterprise fst] in *.
  rewrite Ht. reflexivity.
Qed.

End PlaceFrames.

(** A step of a proof that a method of the ship keeps its place. *)
Ltac ship_place_step :=
  first
    [ frame_step
    | progress cbv zeta
    | apply preserves_modify; intros; reflexivity
    | apply preserves_zoom_frame; intros [? ?] ?; reflexivity
    | apply (preserves_zoom _ ship_place);
        [intros [? ?] ? Ht; cbn [view update Enterprise.self fst_lens fst] in *; exact Ht |] ].

Lemma repair_systems_place (time_elapsed : float) :
  preserves ship_place (Enterprise.repair_systems time_elapsed).
Proof. unfold Enterprise.repair_systems. repeat ship_place_step. Qed.

Lemma repair_all_place : preserves ship_place Enterprise.repair_all.
Proof. unfold Enterprise.repair_all. repeat ship_place_step. Qed.

Lemma transfer_to_shields_place (amount : Z) :
  preserves ship_place (Enterprise.transfer_to_shields amount).
Proof. unfold Enterprise.transfer_to_shields. repeat ship_place_step. Qed.

Lemma apply_damage_place (amount : Z) :
  preserves (fun s : Enterprise.t * Rng => ship_place (fst s)) (Enterprise.apply_damage amount).
Proof.
  unfold Enterprise.apply_damage, random_random, random_choice, random_uniform.
  repeat ship_place_step.
Qed.

(** * The commands that neither move nor fire *)

Lemma execute_srs_place : preserves place_view execute_srs.
Proof. unfold execute_srs. repeat frame_step. Qed.

Lemma execute_lrs_place : preserves place_view execute_lrs.
Proof.
  unfold execute_lrs.
  repeat first [apply zoom_galaxy_place, get_lrs_data_unscanned | frame_step].
Qed.

Lemma execute_she_place (energy_in : option Z) : preserves place_view (execute_she energy_in).
Proof.
  unfold execute_she.
  repeat first [apply zoom_ship_place, transfer_to_shields_place | frame_step].
Qed.

Lemma execute_dam_place (answer_yes : bool) : preserves place_view (execute_dam answer_yes).
Proof.
  unfold execute_dam.
  repeat first [apply zoom_ship_place, repair_all_place | progress cbv zeta | frame_step].
Qed.

Lemma execute_xxx_place (answer_yes : bool) : preserves place_view (execute_xxx answer_yes).
Proof. unfold execute_xxx. repeat frame_step. Qed.

(** * What the loop does after a command *)

Lemma klingon_volley_place (klingons : list Klingon.t) :
  preserves (fun s : Enterprise.t * Rng => ship_place (fst s)) (klingon_volley klingons).
Proof.
  induction klingons as [| klingon rest IH]; cbn [klingon_volley].
  - frame_step.
  - repeat first
      [ exact IH
      | apply apply_damage_place
      | apply preserves_zoom_frame; intros [? ?] ?; reflexivity
      | progress cbv zeta
      | frame_step ].
Qed.

Lemma klingon_attack_place (quadrant : Quadrant.t) :
  preserves (fun s : Enterprise.t * Rng => ship_place (fst s)) (klingon_attack quadrant).
Proof.
  unfold klingon_attack.
  repeat first [apply klingon_volley_place | frame_step].
Qed.

Lemma process_klingon_attack_place : preserves place_view process_klingon_attack.
Proof.
  unfold process_klingon_attack.
  repeat first
    [ apply (preserves_unchanged place_view), get_current_quadrant_unchanged
    | apply (preserves_unchanged place_view), with_quadrant_gets_unchanged
    | apply zoom_ship_random_place, klingon_attack_place
    | frame_step ].
Qed.

Lemma after_command_place (result : CommandResult) : preserves place_view (after_command result).
Proof.
  unfold after_command, Galaxy.advance_time.
  repeat first
    [ apply process_klingon_attack_place
    | apply zoom_ship_place, repair_systems_place
    | apply zoom_galaxy_place, preserves_modify; intros; reflexivity
    | frame_step ].
Qed.

(** * The display *)

Lemma print_status_bar_place : preserves place_view print_status_bar.
Proof.
  unfold print_status_bar.
  repeat first
    [ apply (preserves_unchanged place_view), get_current_quadrant_unchanged
    | apply (preserves_unchanged place_view), with_quadrant_gets_unchanged
    | frame_step ].
Qed.

(** Where the ship is on the map, the sector map is there and the display
    builds nothing. *)
Lemma print_short_range_scan_on_map (fuel : nat) (w : World) :
  ship_on_map w ->
  ensures (print_short_range_scan fuel) w (fun _ w' => w' = w) (fun _ _ => True).
Proof.
  intros (Hqr & Hqc & q & Hq & Hcons & _).
  unfold print_short_range_scan.
  apply ensures_bind, ensures_get_current_quadrant; [intros; exact I | |].
  - intros Hout. rewrite (proj2 (in_bounds_range _ _)) in Hout by lia. discriminate Hout.
  - intros _. apply ensures_bind, ensures_with_quadrant_gets; [intros; exact I |].
    intros r c q1 [= <- <-] Hq1. cbn [snd].
    assert (q1 = q) as -> by congruence.
    destruct (Quadrant.sector_map q) as [| row rows] eqn:Hm.
    + destruct Hcons as (Hmap & _). rewrite Hm in Hmap. discriminate Hmap.
    + apply ensures_ret. reflexivity.
Qed.

Lemma print_combined_display_place (fuel : nat) (w : World) :
  ship_on_map w ->
  ensures (print_combined_display fuel) w
    (fun _ w' => place_view w' = place_view w) (fun _ _ => True).
Proof.
  intros Hship. unfold print_combined_display.
  apply ensures_bind.
  eapply ensures_weaken; [apply (print_short_range_scan_on_map fuel w Hship) | | auto].
  cbn beta. intros _ w1 ->.
  apply ensures_bind, ensures_gets.
  apply ensures_bind.
  eapply ensures_weaken;
    [apply (zoom_galaxy_place _ (get_lrs_data_unscanned _ _)) | | intros; exact I].
  cbn beta. intros _ w2 Hview. apply ensures_ret. exact Hview.
Qed.

(** * A turn *)

Lemma ship_on_map_quadrant_ok (w : World) : ship_on_map w -> current_quadrant_ok w.
Proof.
  intros (_ & _ & q & Hq & Hcons & _) q' Hq' _.
  assert (q' = q) as -> by congruence. exact Hcons.
Qed.

Lemma execute_command_on_map (fuel : nat) (c : Command) (w : World) :
  ship_on_map w ->
  ensures (execute_command fuel c) w
    (fun _ w' => turn_outcome c w w' /\ klingon_balance w' = klingon_balance w)
    (fun _ _ => True).
Proof.
  intros Hship. unfold turn_outcome.
  assert (Hkept : forall m : M World CommandResult,
             preserves place_view m ->
             ensures m w
               (fun _ w' => (ship_on_map w' /\ place_view w' = place_view w) /\
                            klingon_balance w' = klingon_balance w)
               (fun _ _ => True)).
  { intros m Hm. eapply ensures_weaken; [apply Hm | | intros; exact I].
    cbn beta. intros _ w' Hview.
    split; [split; [exact (ship_on_map_view w w' Hview Hship) | exact Hview] |].
    exact (klingon_balance_view w w' Hview). }
  destruct c as [course warp | | | energy | direction | energy | answer | func coords | answer];
    cbn [execute_command].
  - unfold ensures.
    destruct (execute_nav fuel course warp w) as [res w' | |] eqn:Hrun; [| exact I | exact I].
    destruct (execute_nav_outcome _ _ _ _ _ _ Hship Hrun) as (Hship' & Htotals & _).
    split; [split; [exact Hship' | exact I] |].
    unfold galaxy_totals in Htotals. injection Htotals as Hk _ Hsum _ _.
    unfold klingon_balance. rewrite Hk, Hsum. reflexivity.
  - apply Hkept, execute_srs_place.
  - apply Hkept, execute_lrs_place.
  - pose proof (execute_pha_effects energy w (ship_on_map_quadrant_ok w Hship)) as Hfired.
    destruct w as [g e rn].
    pose proof (execute_pha_on_map energy g e rn Hship) as Hmap.
    unfold ensures in *.
    destruct (execute_pha energy (MkWorld g e rn)) as [res w' | |]; [| exact I | exact I].
    destruct Hfired as (Hbal & _).
    split; [split; [exact Hmap | exact I] |]. rewrite Hbal. lia.
  - unfold ensures.
    destruct (execute_tor direction w) as [res w' | |] eqn:Hrun; [| exact I | exact I].
    split; [split; [exact (proj1 (execute_tor_outcome _ _ _ _ Hship Hrun)) | exact I] |].
    exact (ensures_run _ _ _ _ _ _ (execute_tor_balance direction w) Hrun).
  - apply Hkept, execute_she_place.
  - apply Hkept, execute_dam_place.
  - apply Hkept, (preserves_unchanged place_view), execute_com_unchanged.
  - apply Hkept, execute_xxx_place.
Qed.

Lemma turn_outcome_view (c : Command) (w w1 w2 : World) :
  turn_outcome c w w1 /\ klingon_balance w1 = klingon_balance w ->
  place_view w2 = place_view w1 ->
  turn_outcome c w w2 /\ klingon_balance w2 = klingon_balance w.
Proof.
  intros [[Hship Hview] Hbal] Heq.
  split; [split; [exact (ship_on_map_view w1 w2 Heq Hship) |] |].
  - destruct c; try exact I; congruence.
  - rewrite (klingon_balance_view w1 w2 Heq). exact Hbal.
Qed.

Lemma game_turn_ensures (fuel : nat) (c : Command) (w : World) :
  ship_on_map w ->
  ensures (game_turn fuel c) w
    (fun _ w' => turn_outcome c w w' /\ klingon_balance w' = klingon_balance w)
    (fun _ _ => True).
Proof.
  intros Hship. unfold game_turn.
  apply ensures_bind.
  eapply ensures_weaken; [apply (execute_command_on_map fuel c w Hship) | | auto].
  cbn beta. intros result w1 Hw1.
  apply ensures_bind.
  eapply ensures_weaken; [apply (after_command_place result w1) | | intros; exact I].
  cbn beta. intros _ w2 Hview2.
  pose proof (turn_outcome_view c w w1 w2 Hw1 Hview2) as Hw2.
  apply ensures_bind.
  apply (ensures_weaken _ _
           (fun _ w3 => turn_outcome c w w3 /\ klingon_balance w3 = klingon_balance w)
           _ (fun _ _ => True));
    [| intros _ w3 Hw3; apply ensures_ret; exact Hw3 | auto].
  destruct (quit_game result); [apply ensures_ret; exact Hw2 |].
  apply ensures_bind.
  eapply ensures_weaken; [apply (print_status_bar_place w2) | | intros; exact I].
  cbn beta. intros _ w3 Hview3.
  pose proof (turn_outcome_view c w w2 w3 Hw2 Hview3) as Hw3.
  eapply ensures_weaken;
    [apply (print_combined_display_place fuel w3 (proj1 (proj1 Hw3))) | | auto].
  cbn beta. intros _ w4 Hview4. exact (turn_outcome_view c w w3 w4 Hw3 Hview4).
Qed.

(** X21: a turn of the game loop (a command, the time, repairs and
    counter-attack that follow it, and the refreshed display) that starts
    with the ship on the map of its quadrant and returns, ends with the
    ship on the map of its quadrant: the quadrant is one of the 64, its
    sector map agrees with its records, and it shows the Enterprise on the
    sector of the ship and nowhere else.  After a command other than NAV,
    PHA and TOR, every quadrant is as it was, its scanned flag apart, the
    two counters of the galaxy are as they were, and the ship is in the
    quadrant and sector where it was. *)
Theorem game_turn_keeps_ship_on_map (fuel : nat) (c : Command) (w : World)
    (res : CommandResult) (w' : World) :
  ship_on_map w -> game_turn fuel c w = Ret res w' -> turn_outcome c w w'.
Proof.
  intros Hship Hrun.
  exact (proj1 (ensures_run _ _ _ _ _ _ (game_turn_ensures fuel c w Hship) Hrun)).
Qed.

(** X22: over a turn of the game loop that starts with the ship on the map
    of its quadrant and returns, whatever the command (a move, a volley, a
    torpedo, a scan, ...) and whatever the counter-attack, the galaxy-wide
    hostile counter stays in step with the quadrants: [total_klingons]
    minus the sum of the hostile counts of the 64 quadrants is the same
    after the turn as before.  In a game whose counter starts equal to that
    sum, it is equal to it after every such turn, so that [is_game_won]
    holds exactly when the hostile counts of the quadrants add up to 0 or
    less. *)
Theorem game_turn_keeps_hostile_counters_in_step (fuel : nat) (c : Command) (w : World)
    (res : CommandResult) (w' : World) :
  ship_on_map w -> game_turn fuel c w = Ret res w' ->
  klingon_balance w' = klingon_balance w /\
  (klingon_balance w = 0 ->
   Galaxy.is_game_won (galaxy w') = (galaxy_sum Quadrant.klingons (galaxy w') <=? 0)).
Proof.
  intros Hship Hrun.
  pose proof (proj2 (ensures_run _ _ _ _ _ _ (game_turn_ensures fuel c w Hship) Hrun)) as Hbal.
  split; [exact Hbal |].
  intros Hzero. rewrite Hzero in Hbal. unfold klingon_balance in Hbal.
  unfold Galaxy.is_game_won.
  replace (Galaxy.total_klingons (galaxy w')) with (galaxy_sum Quadrant.klingons (galaxy w'))
    by lia.
  reflexivity.
Qed.

Lemma new_game_after_scan_run :
  game_turn 100 LRS (snd new_game_after_nav) =
    Ret (fst new_game_after_scan) (snd new_game_after_scan).
Proof. vm_compute. reflexivity. Qed.

Lemma game_turn_keeps_ship_on_map_witness :
  ship_on_map (snd new_game_after_nav) /\
  game_turn 100 LRS (snd new_game_after_nav) =
    Ret (fst new_game_after_scan) (snd new_game_after_scan) /\
  turn_outcome LRS (snd new_game_after_nav) (snd new_game_after_scan).
Proof.
  split; [exact new_game_after_nav_on_map |].
  split; [exact new_game_after_scan_run |].
  exact (game_turn_keeps_ship_on_map 100 LRS _ _ _
           new_game_after_nav_on_map new_game_after_scan_run).
Defined.

Lemma new_game_after_volley_run :
  game_turn 100 (PHA (Some 500)) (snd new_game_after_nav) =
    Ret (fst new_game_after_volley) (snd new_game_after_volley).
Proof. vm_compute. reflexivity. Qed.

Lemma game_turn_keeps_hostile_counters_in_step_witness :
  ship_on_map (snd new_game_after_nav) /\
  game_turn 100 (PHA (Some 500)) (snd new_game_after_nav) =
    Ret (fst new_game_after_volley) (snd new_game_after_volley) /\
  klingon_balance (snd new_game_after_volley) = klingon_balance (snd new_game_after_nav) /\
  Galaxy.is_game_won (galaxy (snd new_game_after_volley)) =
    (galaxy_sum Quadrant.klingons (galaxy (snd new_game_after_volley)) <=? 0).
Proof.
  split; [exact new_game_after_nav_on_map |].
  split; [exact new_game_after_volley_run |].
  destruct (game_turn_keeps_hostile_counters_in_step 100 (PHA (Some 500)) _ _ _
              new_game_after_nav_on_map new_game_after_volley_run) as [Hbal Hwon].
  split; [exact Hbal |].
  apply Hwon. vm_compute. reflexivity.
Defined.

(** * game/galaxy.py: the hostile top-up of the generation *)

(** [_initialize] is its draws, the top-up loop and the rest. *)
Lemma initialize_phases (fuel : nat) (s : Galaxy.t * Rng) :
  Galaxy._initialize fuel s =
  (generation_draws ;;;
   while_loop fuel (fun s => Galaxy.total_klingons (fst s) <? 10) Galaxy.top_up_klingons ;;;
   generation_finish) s.
Proof.
  unfold Galaxy._initialize, generation_draws, generation_finish, bind.
  repeat match goal with
         | |- context [match ?m ?x with Ret _ _ => _ | Raise _ _ => _ | OutOfFuel => _ end] =>
             destruct (m x) as [? ? | ? ? |]
         end; reflexivity.
Qed.

Lemma elem_of_galaxy_cells (p : Z * Z) :
  p ∈ galaxy_cells <-> 0 <= fst p < 8 /\ 0 <= snd p < 8.
Proof.
  unfold galaxy_cells. rewrite list_elem_of_In, in_flat_map. split.
  - intros (r & Hr & Hp). apply in_map_iff in Hp as (c & <- & Hc).
    apply list_elem_of_In, elem_of_range_8 in Hr. apply list_elem_of_In, elem_of_range_8 in Hc.
    cbn. lia.
  - intros [Hr Hc]. exists (fst p). split.
    + apply list_elem_of_In, elem_of_range_8. exact Hr.
    + apply in_map_iff. exists (snd p). split; [destruct p; reflexivity |].
      apply list_elem_of_In, elem_of_range_8. exact Hc.
Qed.

Lemma galaxy_cells_NoDup : NoDup galaxy_cells.
Proof. apply (bool_decide_unpack _). vm_compute. reflexivity. Qed.

Lemma probe_in_cells (rng : Rng) (k : nat) : probe rng k ∈ galaxy_cells.
Proof.
  apply elem_of_galaxy_cells. unfold probe. cbn [fst snd].
  split; apply Z.mod_pos_bound; lia.
Qed.

(** A sum over distinct positions, when the summand changes at one of them. *)
Lemma sum_with_change {A} (f f' : A -> Z) (l : list A) (p : A) :
  NoDup l -> p ∈ l -> (forall c, c ∈ l -> c <> p -> f' c = f c) ->
  sum_with f' l = sum_with f l + (f' p - f p).
Proof.
  intros Hnd. induction Hnd as [| a l Ha Hnd IH]; intros Hp Hsame.
  - inversion Hp.
  - change (sum_with f' (a :: l)) with (f' a + sum_with f' l).
    change (sum_with f (a :: l)) with (f a + sum_with f l).
    apply elem_of_cons in Hp as [-> | Hp].
    + assert (Hl : sum_with f' l = sum_with f l).
      { clear IH. induction l as [| b l IHl]; [reflexivity |].
        change (sum_with f' (b :: l)) with (f' b + sum_with f' l).
        change (sum_with f (b :: l)) with (f b + sum_with f l).
        rewrite Hsame; [| right; left | intros ->; apply Ha; left].
        rewrite IHl; [reflexivity | | |].
        - intros Hin. apply Ha. right. exact Hin.
        - apply NoDup_cons in Hnd as [_ Hnd]. exact Hnd.
        - intros c Hc Hne. apply Hsame; [| exact Hne].
          apply elem_of_cons in Hc as [-> | Hc]; [left | right; right; exact Hc]. }
      lia.
    + rewrite (Hsame a); [| left | intros ->; contradiction].
      rewrite IH; [lia | exact Hp |].
      intros c Hc Hne. apply Hsame; [right; exact Hc | exact Hne].
Qed.

Lemma sum_with_same {A} (f f' : A -> Z) (l : list A) :
  (forall c, c ∈ l -> f' c = f c) -> sum_with f' l = sum_with f l.
Proof.
  induction l as [| a l IH]; intros Hsame; [reflexivity |].
  change (sum_with f' (a :: l)) with (f' a + sum_with f' l).
  change (sum_with f (a :: l)) with (f a + sum_with f l).
  rewrite Hsame by left. rewrite IH; [reflexivity |].
  intros c Hc. apply Hsame. right. exact Hc.
Qed.

Lemma times_picked_cons (c p : Z * Z) (ps : list (Z * Z)) :
  times_picked c (p :: ps) = times_picked c ps + (if decide (p = c) then 1 else 0).
Proof.
  unfold times_picked. rewrite filter_cons.
  destruct (decide (p = c)); cbn [length]; lia.
Qed.

Lemma times_picked_nonneg (c : Z * Z) (ps : list (Z * Z)) : 0 <= times_picked c ps.
Proof. unfold times_picked. lia. Qed.

Lemma picks_succ (n : nat) (rng : Rng) :
  picks (S n) rng = probe rng 0 :: picks n (skip 2 rng).
Proof.
  unfold picks. cbn [seq map]. f_equal.
  rewrite <- seq_shift, map_map. apply map_ext. intros j. symmetry. apply probe_skip.
Qed.

(** Progress of the top-up: one pass of the loop body takes two draws;
    when the quadrant it picks has room, that quadrant and the galaxy-wide
    counter gain one hostile, and otherwise nothing changes. *)
Lemma top_up_klingons_progress (g : Galaxy.t) (rng : Rng) :
  counters_consistent g ->
  returns Galaxy.top_up_klingons (g, rng) (fun _ s' =>
    snd s' = skip 2 rng /\
    counters_consistent (fst s') /\
    Galaxy.total_starbases (fst s') = Galaxy.total_starbases g /\
    if 0 <? room g (probe rng 0)
    then Galaxy.total_klingons (fst s') = Galaxy.total_klingons g + 1 /\
         forall c, c ∈ galaxy_cells ->
           room (fst s') c = room g c - (if decide (probe rng 0 = c) then 1 else 0)
    else fst s' = g).
Proof.
  intros Hcons. unfold Galaxy.top_up_klingons.
  pose proof (probe_in_cells rng 0) as Hp. apply elem_of_galaxy_cells in Hp.
  remember (probe rng 0) as p eqn:Hpdef. destruct p as [r c]. cbn [fst snd] in Hp.
  assert (Hr : draws rng (cursor rng) mod 8 = r) by (unfold probe in Hpdef; cbn in Hpdef; congruence).
  assert (Hc : draws rng (S (cursor rng)) mod 8 = c) by (unfold probe in Hpdef; cbn in Hpdef; congruence).
  apply returns_bind, returns_zoom.
  cbn [view update Galaxy.self Galaxy.random fst_lens snd_lens fst snd].
  eapply returns_intro; [apply randint_0_7_run |]. rewrite Hr.
  apply returns_bind, returns_zoom.
  cbn [view update Galaxy.self Galaxy.random fst_lens snd_lens fst snd].
  eapply returns_intro; [apply randint_0_7_run |].
  cbn [skip cursor draws Nat.add]. rewrite Hc.
  cbn [view update Galaxy.self Galaxy.random fst_lens snd_lens fst snd].
  assert (Hb : Galaxy.in_bounds r c = true) by (apply in_bounds_range; lia).
  destruct (proj1 Hcons r c Hb) as [q0 Hq0].
  assert (Hroom : room g (r, c) = 3 - Quadrant.klingons q0)
    by (unfold room; cbn [fst snd]; rewrite Hq0; reflexivity).
  apply returns_bind, returns_zoom.
  eapply returns_on_quadrant_gets; [exact Hq0 |].
  cbn [view update Galaxy.self Galaxy.random fst_lens snd_lens fst snd].
  rewrite Hroom.
  assert (Hskip : MkRng (draws rng) (S (S (cursor rng))) = skip 2 rng) by reflexivity.
  destruct (Z.ltb_spec (Quadrant.klingons q0) 3) as [Hlt | Hge].
  - replace (0 <? 3 - Quadrant.klingons q0) with true by (symmetry; apply Z.ltb_lt; lia).
    apply returns_bind, returns_zoom.
    eapply returns_on_quadrant_modify; [exact Hq0 |].
    apply returns_zoom, returns_modify.
    cbn [view update Galaxy.self Galaxy.random fst_lens snd_lens fst snd].
    split; [exact Hskip |]. split; [| split; [| split]].
    + apply (counters_consistent_store g _ r c q0
               (Quadrant.set_klingons (Quadrant.klingons q0 + 1) q0) Hb Hcons Hq0).
      * exact (starbases_nonneg g r c q0 Hcons Hq0).
      * reflexivity.
      * cbn. rewrite (proj1 (store_quadrant_totals _ _ _ _)). lia.
      * cbn. rewrite (proj2 (store_quadrant_totals _ _ _ _)). lia.
    + cbn. apply (proj2 (store_quadrant_totals _ _ _ _)).
    + cbn. rewrite (proj1 (store_quadrant_totals _ _ _ _)). reflexivity.
    + intros [r' c'] Hin. apply elem_of_galaxy_cells in Hin. cbn [fst snd] in Hin.
      unfold room. cbn [fst snd].
      change (quadrant_at (Galaxy.set_total_klingons ?v ?x) r' c') with (quadrant_at x r' c').
      destruct (decide ((r, c) = (r', c'))) as [[= <- <-] | Hne].
      * rewrite quadrant_at_store_eq by (rewrite Hq0; eauto). rewrite Hq0. cbn. lia.
      * rewrite quadrant_at_store_ne by (first [lia | exact Hne]).
        destruct (quadrant_at g r' c'); lia.
  - replace (0 <? 3 - Quadrant.klingons q0) with false by (symmetry; apply Z.ltb_ge; lia).
    apply returns_ret. cbn [fst snd].
    split; [exact Hskip |]. split; [exact Hcons |]. split; reflexivity.
Qed.

(** What a pick that finds room does to the gain of the picks to come. *)
Lemma picks_gain_step (g g' : Galaxy.t) (p : Z * Z) (ps : list (Z * Z)) :
  p ∈ galaxy_cells ->
  (if 0 <? room g p
   then forall c, c ∈ galaxy_cells -> room g' c = room g c - (if decide (p = c) then 1 else 0)
   else g' = g) ->
  picks_gain g' ps = picks_gain g (p :: ps) - (if 0 <? room g p then 1 else 0).
Proof.
  intros Hp Hstep. unfold picks_gain.
  pose proof (times_picked_nonneg p ps) as Hnn.
  destruct (Z.ltb_spec 0 (room g p)) as [Hroom | Hfull].
  - rewrite (sum_with_change
               (fun c => Z.max 0 (Z.min (times_picked c (p :: ps)) (room g c)))
               (fun c => Z.max 0 (Z.min (times_picked c ps) (room g' c)))
               galaxy_cells p galaxy_cells_NoDup Hp).
    + rewrite (Hstep p Hp), times_picked_cons.
      destruct (decide (p = p)); [lia | contradiction].
    + intros c Hc Hne. rewrite (Hstep c Hc), times_picked_cons.
      destruct (decide (p = c)); [congruence | f_equal; f_equal; lia].
  - subst g'. rewrite Z.sub_0_r. apply sum_with_same.
    intros c Hc. rewrite times_picked_cons.
    destruct (decide (p = c)) as [<- | Hne]; [lia | f_equal; f_equal; lia].
Qed.

(** Completion of the top-up: if the first [n] picks of the stream can
    add the hostiles that are missing, the loop ends within [n] passes,
    with exactly 10 hostiles when it had to run at all. *)
Lemma top_up_completes (n : nat) :
  forall (fuel : nat) (g : Galaxy.t) (rng : Rng),
    counters_consistent g ->
    (n < fuel)%nat ->
    10 - Galaxy.total_klingons g <= picks_gain g (picks n rng) ->
    returns (while_loop fuel (fun s => Galaxy.total_klingons (fst s) <? 10)
               Galaxy.top_up_klingons) (g, rng)
      (fun _ s' =>
         counters_consistent (fst s') /\
         Galaxy.total_klingons (fst s') = Z.max 10 (Galaxy.total_klingons g) /\
         Galaxy.total_starbases (fst s') = Galaxy.total_starbases g /\
         exists k, (k <= n)%nat /\ snd s' = skip (2 * k) rng).
Proof.
  induction n as [| n IH]; intros fuel g rng Hcons Hfuel Hgain;
    (destruct fuel as [| fuel]; [lia |]); cbn [while_loop];
    apply returns_bind, returns_get; cbn [fst];
    destruct (Z.ltb_spec (Galaxy.total_klingons g) 10) as [Hlow | Hdone].
  - exfalso. unfold picks, picks_gain in Hgain. cbn [seq map] in Hgain.
    assert (Hzero : sum_with (fun c => Z.max 0 (Z.min (times_picked c []) (room g c)))
                      galaxy_cells = sum_with (fun _ => 0) galaxy_cells).
    { apply sum_with_same. intros c _. unfold times_picked. cbn. lia. }
    assert (Hnone : sum_with (fun _ : Z * Z => 0) galaxy_cells = 0) by (vm_compute; reflexivity).
    rewrite Hzero, Hnone in Hgain. lia.
  - apply returns_ret. cbn [fst snd].
    split; [exact Hcons |]. split; [lia |]. split; [reflexivity |].
    exists 0%nat. split; [lia | destruct rng; reflexivity].
  - apply returns_bind.
    eapply returns_weaken; [apply (top_up_klingons_progress g rng Hcons) |].
    intros _ [g1 rng1] (Hrng & Hcons1 & Hsb & Hstep). cbn [fst snd] in *. subst rng1.
    rewrite picks_succ in Hgain.
    assert (Hgain1 : picks_gain g1 (picks n (skip 2 rng)) =
                     picks_gain g (probe rng 0 :: picks n (skip 2 rng)) -
                     (if 0 <? room g (probe rng 0) then 1 else 0)).
    { apply picks_gain_step; [apply probe_in_cells |].
      destruct (0 <? room g (probe rng 0)); [exact (proj2 Hstep) | exact Hstep]. }
    assert (Htotal1 : Galaxy.total_klingons g1 =
                      Galaxy.total_klingons g + (if 0 <? room g (probe rng 0) then 1 else 0)).
    { destruct (0 <? room g (probe rng 0)); [exact (proj1 Hstep) | subst g1; lia]. }
    eapply returns_weaken; [apply (IH fuel g1 (skip 2 rng) Hcons1); lia |].
    intros _ [g2 rng2] (Hcons2 & Htotal2 & Hsb2 & k & Hk & Hrng2). cbn [fst snd] in *.
    split; [exact Hcons2 |].
    split; [destruct (0 <? room g (probe rng 0)); lia |].
    split; [congruence |].
    exists (S k). split; [lia |]. rewrite Hrng2, skip_skip. f_equal. lia.
  - apply returns_ret. cbn [fst snd].
    split; [exact Hcons |]. split; [lia |]. split; [reflexivity |].
    exists 0%nat. split; [lia | destruct rng; reflexivity].
Qed.

(** The draws of the generation always return, with counters that agree
    with the quadrants and at least one starbase. *)
Lemma generation_draws_returns (g0 : Galaxy.t) (rng : Rng) :
  returns generation_draws (g0, rng) (fun _ s' =>
    counters_consistent (fst s') /\ 1 <= Galaxy.total_starbases (fst s')).
Proof.
  unfold generation_draws.
  apply returns_bind, returns_zoom, returns_modify.
  apply returns_bind, returns_zoom, returns_modify.
  apply returns_bind, returns_zoom, returns_modify.
  cbn [view update Galaxy.self Galaxy.random fst_lens snd_lens fst snd].
  change (Galaxy.set_total_starbases 0 (Galaxy.set_total_klingons 0 (Galaxy.set_quadrants _ g0)))
    with (generation_start g0).
  apply returns_bind.
  eapply returns_weaken;
    [apply populate_all; [apply generation_start_consistent | apply generation_start_fresh] |].
  intros u [g1 rng1] Hc1. cbn [fst] in Hc1.
  apply returns_bind, returns_gets. cbn [fst].
  destruct (Z.eqb_spec (Galaxy.total_starbases g1) 0) as [Hz | Hnz].
  - eapply returns_weaken; [apply force_starbase_spec; assumption |].
    intros v s' (Hc & Hs). split; [exact Hc | lia].
  - apply returns_ret. cbn [fst]. split; [exact Hc1 |].
    destruct Hc1 as (_ & Hnn & _ & Hs).
    assert (0 <= galaxy_sum Quadrant.starbases g1).
    { unfold galaxy_sum. apply sum_with_nonneg.
      eapply Forall_impl; [exact Hnn |]. intros row Hrow. apply sum_with_nonneg. exact Hrow. }
    lia.
Qed.

Lemma generation_finish_returns (g : Galaxy.t) (rng : Rng) :
  returns generation_finish (g, rng) (fun _ s' =>
    Galaxy.quadrants (fst s') = Galaxy.quadrants g /\
    Galaxy.total_klingons (fst s') = Galaxy.total_klingons g /\
    Galaxy.total_starbases (fst s') = Galaxy.total_starbases g).
Proof.
  unfold generation_finish.
  apply returns_bind, returns_zoom, returns_modify.
  apply returns_bind, returns_zoom, returns_random_randint. intros d _.
  apply returns_bind, returns_zoom, returns_modify.
  apply returns_bind, returns_zoom, returns_random_randint. intros l _.
  apply returns_zoom, returns_modify.
  cbn [view update Galaxy.self Galaxy.random fst_lens snd_lens fst snd].
  repeat split; reflexivity.
Qed.

(** C4: for every random stream, the draws of the generation return a
    galaxy whose counters agree with its quadrants, with at least one
    starbase.  Whenever the generation completes, the galaxy holds 8 rows
    of 8 quadrants, at least 10 hostiles and at least 1 starbase are
    counted, and each of the two galaxy-wide counters equals the sum of the
    per-quadrant counts over the 64 quadrants.  It completes whenever the
    first [n] picks of the top-up (with [n] below the bound on its passes)
    can add the hostiles that are missing, a quadrant taking no more than
    its room up to 3: then the hostile counter ends at 10 if fewer were
    drawn and where it was otherwise, and the starbase counter where the
    draws left it. *)
Theorem galaxy_generation_counters (fuel : nat) (rng : Rng) :
  (forall g rng',
     Galaxy.new fuel rng = Ret g rng' ->
     grid_shape g = replicate 8 8%nat /\
     10 <= Galaxy.total_klingons g /\
     1 <= Galaxy.total_starbases g /\
     Galaxy.total_klingons g = galaxy_sum Quadrant.klingons g /\
     Galaxy.total_starbases g = galaxy_sum Quadrant.starbases g) /\
  exists g1 rng1,
    generation_draws (blank_galaxy, rng) = Ret tt (g1, rng1) /\
    counters_consistent g1 /\
    1 <= Galaxy.total_starbases g1 /\
    forall n,
      (n < fuel)%nat ->
      10 - Galaxy.total_klingons g1 <= picks_gain g1 (picks n rng1) ->
      exists g rng',
        Galaxy.new fuel rng = Ret g rng' /\
        Galaxy.total_klingons g = Z.max 10 (Galaxy.total_klingons g1) /\
        Galaxy.total_starbases g = Galaxy.total_starbases g1.
Proof.
  split.
  - intros g rng'. unfold Galaxy.new. intros Hnew.
    pose proof (initialize_ensures fuel blank_galaxy rng) as Hcount.
    pose proof (initialize_shape fuel blank_galaxy rng) as Hshape.
    unfold ensures, blank_galaxy in Hcount, Hshape.
    destruct (Galaxy._initialize fuel (Galaxy.mk [] 0 0 0 0%float 0, rng))
      as [u [g1 r1] | e [g1 r1] |]; [| discriminate ..].
    injection Hnew as -> ->. cbn [fst] in *.
    destruct Hcount as ((_ & _ & Hk & Hs) & Hten & Hone).
    auto.
  - destruct (generation_draws_returns blank_galaxy rng) as ([] & [g1 rng1] & Hdraws & Hc1 & Hs1).
    cbn [fst] in *.
    exists g1, rng1. split; [exact Hdraws |]. split; [exact Hc1 |]. split; [exact Hs1 |].
    intros n Hn Hgain.
    destruct (top_up_completes n fuel g1 rng1 Hc1 Hn Hgain)
      as ([] & [g2 rng2] & Hloop & _ & Hk2 & Hs2 & _).
    cbn [fst] in *.
    destruct (generation_finish_returns g2 rng2) as ([] & [g3 rng3] & Hfin & _ & Hk3 & Hs3).
    cbn [fst] in *.
    exists g3, rng3. split; [| split; congruence].
    unfold Galaxy.new. change (Galaxy.mk [] 0 0 0 0%float 0) with blank_galaxy.
    rewrite initialize_phases. unfold bind at 1. rewrite Hdraws.
    unfold bind at 1. rewrite Hloop. rewrite Hfin. reflexivity.
Qed.

Lemma sparse_drawn_run :
  generation_draws (blank_galaxy, sparse_rng) = Ret tt (sparse_drawn, MkRng sparse_stream 194).
Proof. vm_compute. reflexivity. Qed.

Lemma sparse_galaxy_run :
  Galaxy.new 100 sparse_rng = Ret sparse_galaxy (MkRng sparse_stream 216).
Proof. vm_compute. reflexivity. Qed.

Lemma galaxy_generation_counters_witness :
  Galaxy.total_klingons sparse_drawn = 0 /\
  generation_draws (blank_galaxy, sparse_rng) = Ret tt (sparse_drawn, MkRng sparse_stream 194) /\
  10 - Galaxy.total_klingons sparse_drawn <=
    picks_gain sparse_drawn (picks 10 (MkRng sparse_stream 194)) /\
  Galaxy.new 100 sparse_rng = Ret sparse_galaxy (MkRng sparse_stream 216) /\
  Galaxy.total_klingons sparse_galaxy = 10 /\
  Galaxy.total_starbases sparse_galaxy = 1 /\
  Galaxy.total_klingons sparse_galaxy = galaxy_sum Quadrant.klingons sparse_galaxy /\
  Galaxy.total_starbases sparse_galaxy = galaxy_sum Quadrant.starbases sparse_galaxy.
Proof.
  assert (Hgain : 10 - Galaxy.total_klingons sparse_drawn <=
                  picks_gain sparse_drawn (picks 10 (MkRng sparse_stream 194)))
    by (vm_compute; discriminate).
  destruct (galaxy_generation_counters 100 sparse_rng)
    as (Hdone & g1 & rng1 & Hdraws & _ & _ & Hcompletes).
  rewrite sparse_drawn_run in Hdraws. injection Hdraws as <- <-.
  destruct (Hcompletes 10%nat ltac:(lia) Hgain) as (g & rng' & Hnew & Hk & Hs).
  rewrite sparse_galaxy_run in Hnew. injection Hnew as <- <-.
  destruct (Hdone _ _ sparse_galaxy_run) as (_ & _ & _ & Hksum & Hssum).
  split; [reflexivity |]. split; [exact sparse_drawn_run |]. split; [exact Hgain |].
  split; [exact sparse_galaxy_run |]. split; [exact Hk |]. split; [exact Hs |].
  split; [exact Hksum | exact Hssum].
Defined.
